(** * The mapping engine of [passes/memory/memory_libmap.cc]

    A shallow embedding of the option-propagation primitives and of the
    candidate search of [MemMapping], followed by the properties of the
    specification that concern them.

    Conventions of the embedding.
    - A C++ [enum class] is an inductive type [t] inside a module of the
      enum's name, so that [RdEnKind::None] reads [RdEnKind.None].
    - Struct fields keep their names behind a prefix naming the struct
      ([cap_] Capability, [pg_] PortGroupDef, [ram_] RamDef, [wp_]
      WrPortConfig, [rp_] RdPortConfig, [cfg_] MemConfig, [wr_] a write
      port of the memory, [rd_] a read port of the memory, [mem_] Mem).
    - [std::vector] is [list]; [v[i]] is [vec_at v i], which is an error
      when [i] is out of range (undefined behaviour in the source).
    - A [dict] that the engine writes to ([opts], [portopts], [resetvals],
      the clock tables) is a [gmap]; a [dict] that the engine only iterates
      (the [opts] and [portopts] captured by a capability) is the list of
      its entries in iteration order.
    - [log_error] aborts the pass: it is the error [Fatal ...].
    - The types of [kernel/rtlil.h] and [kernel/mem.h] and the queries that
      need the netlist or the SAT solver are parameters (class [Kernel] and
      the section variables of [Engine]). *)

From stdpp Require Import gmap strings list fin_maps.

(** ** Enumerations *)

Module RamKind.
Inductive t := Auto | Logic | NotLogic | Distributed | Block | Huge.
#[global] Instance eq_dec : EqDecision t.
Proof. solve_decision. Defined.
End RamKind.

Module MemoryInitKind.
Inductive t := None | Zero | Any.
#[global] Instance eq_dec : EqDecision t.
Proof. solve_decision. Defined.
End MemoryInitKind.

Module PortKind.
Inductive t := Sr | Ar | Sw | Srsw | Arsw.
#[global] Instance eq_dec : EqDecision t.
Proof. solve_decision. Defined.
End PortKind.

Module ClkPolKind.
Inductive t := Anyedge | Posedge | Negedge.
#[global] Instance eq_dec : EqDecision t.
Proof. solve_decision. Defined.
End ClkPolKind.

Module RdEnKind.
Inductive t := None | Any | WriteImplies | WriteExcludes.
#[global] Instance eq_dec : EqDecision t.
Proof. solve_decision. Defined.
End RdEnKind.

Module ResetKind.
Inductive t := Init | Async | Sync.
#[global] Instance eq_dec : EqDecision t.
Proof. solve_decision. Defined.
End ResetKind.

Module ResetValKind.
Inductive t := None | Zero | Named.
#[global] Instance eq_dec : EqDecision t.
Proof. solve_decision. Defined.
End ResetValKind.

Module SrstKind.
Inductive t := SrstOverEn | EnOverSrst | Any.
#[global] Instance eq_dec : EqDecision t.
Proof. solve_decision. Defined.
End SrstKind.

Module TransTargetKind.
Inductive t := Self | Other | Named.
#[global] Instance eq_dec : EqDecision t.
Proof. solve_decision. Defined.
End TransTargetKind.

Module TransKind.
Inductive t := New | Old.
#[global] Instance eq_dec : EqDecision t.
Proof. solve_decision. Defined.
End TransKind.

(** ** The netlist kernel

    [RTLIL::State], [RTLIL::Const] and [RTLIL::SigSpec] are declared in
    [kernel/rtlil.h].  The engine uses them through equality tests and the
    few operations listed here. *)

Class Kernel := {
  State : Type;
  State_eq_dec :: EqDecision State;
  S0 : State;
  S1 : State;
  Const : Type;
  Const_eq_dec :: EqDecision Const;
  (* [val.bits], also the iteration [for (auto bit: init.data)] *)
  const_bits : Const -> list State;
  (* the conversion [Const(int)] behind [val == 1] *)
  const_of_int : Z -> Const;
  (* [Const::decode_string] *)
  decode_string : Const -> string;
  (* [Const::as_bool], behind [get_bool_attribute] *)
  as_bool : Const -> bool;
  (* [Const::is_fully_undef] *)
  is_fully_undef : Const -> bool;
  SigSpec : Type;
  SigSpec_eq_dec :: EqDecision SigSpec;
  (* the conversion of a [State] to a one-bit signal, behind
     [port.en != State::S1] and [port.arst == State::S0] *)
  sig_of_state : State -> SigSpec;
  SigBit : Type;
  SigBit_eq_dec :: EqDecision SigBit;
  (* the conversion of a one-bit [SigSpec] to [SigBit], behind the call
     [apply_clock(cfg, def, port.clk, port.clk_polarity)] *)
  sig_as_bit : SigSpec -> SigBit;
}.

(** ** Failure *)

Inductive error :=
  | OutOfRange                          (* [v[i]] with [i] outside [v] *)
  | FatalNoRamOfKind (k : RamKind.t)    (* "no available %s RAMs" *)
  | FatalNoRamWithStyle (s : string).   (* "no available RAMs with style" *)

Inductive outcome (A : Type) :=
  | Ok (a : A)
  | Err (e : error).
Arguments Ok {A} a.
Arguments Err {A} e.

#[global] Instance outcome_ret : MRet outcome := fun A a => Ok a.
#[global] Instance outcome_bind : MBind outcome := fun A B f m =>
  match m with
  | Ok a => f a
  | Err e => Err e
  end.

Definition vec_at {A} (v : list A) (i : nat) : outcome A :=
  match v !! i with
  | Some x => Ok x
  | None => Err OutOfRange
  end.

(** The loop [for (auto &x: xs) { ...; new_cfgs.push_back(...); }]: the
    bodies' outputs in order, or the first error. *)
Fixpoint for_each {A B} (f : A -> outcome (list B)) (xs : list A)
  : outcome (list B) :=
  match xs with
  | [] => Ok []
  | x :: rest =>
      ys ← f x;
      zs ← for_each f rest;
      Ok (ys ++ zs)
  end.

(** A vector with its indices: [for (int i = 0; i < GetSize(v); i++)]. *)
Definition enumerate {A} (v : list A) : list (nat * A) :=
  imap (fun i x => (i, x)) v.

Section Engine.
Context `{Kernel}.

(** ** Options *)

(** [typedef dict<std::string, Const> Options], as a destination. *)
Local Abbreviation Options := (gmap string Const).
(** [Options] as a source: the entries in iteration order. *)
Definition OptionEntries := list (string * Const).

Fixpoint opts_applied (dst : Options) (src : OptionEntries) : bool :=
  match src with
  | [] => true
  | (k, v) :: rest =>
      match dst !! k with
      | None => false
      | Some v2 =>
          if decide (v2 ≠ v) then false else opts_applied dst rest
      end
  end.

(** [apply_opts] returns the flag and the destination as the call leaves
    it, also when the flag is false. *)
Fixpoint apply_opts (dst : Options) (src : OptionEntries) : bool * Options :=
  match src with
  | [] => (true, dst)
  | (k, v) :: rest =>
      match dst !! k with
      | None => apply_opts (<[k := v]> dst) rest
      | Some v2 =>
          if decide (v2 ≠ v) then (false, dst) else apply_opts dst rest
      end
  end.

(** ** The library model *)

Inductive Empty := mkEmpty.

Record ClockDef := {
  clk_kind : ClkPolKind.t;
  clk_name : string;
}.

Record ResetValDef := {
  rst_kind : ResetKind.t;
  rst_val_kind : ResetValKind.t;
  rst_name : string;
}.

Record WrTransDef := {
  wt_target_kind : TransTargetKind.t;
  wt_target_name : string;
  wt_kind : TransKind.t;
}.

Record Capability (T : Type) := {
  cap_val : T;
  cap_opts : OptionEntries;
  cap_portopts : OptionEntries;
}.
Arguments cap_val {T} _.
Arguments cap_opts {T} _.
Arguments cap_portopts {T} _.

Definition Caps (T : Type) := list (Capability T).

Record PortGroupDef := {
  pg_kind : PortKind.t;
  pg_names : list string;
  pg_clock : Caps ClockDef;
  pg_width : Caps Z;
  pg_mixwidth : Caps Empty;
  pg_addrce : Caps Empty;
  pg_rden : Caps RdEnKind.t;
  pg_rdrstval : Caps ResetValDef;
  pg_rdsrstmode : Caps SrstKind.t;
  pg_wrbe : Caps Z;
  pg_wrprio : Caps string;
  pg_wrtrans : Caps WrTransDef;
  pg_wrcs : Caps Z;
}.

Record MemoryDimsDef := {
  abits : Z;
  dbits : Z;
}.

Record RamDef := {
  ram_id : string;
  ram_kind : RamKind.t;
  ram_ports : Caps PortGroupDef;
  ram_dims : Caps MemoryDimsDef;
  ram_init : Caps MemoryInitKind.t;
  ram_style : Caps string;
}.

(** The [defines] of [Library] are read by the parser only. *)
Record Library := {
  ram_defs : list RamDef;
}.

(** ** The abstract memory ([kernel/mem.h]): the fields the engine reads.
    The address and data signals are read by [addr_compatible] and by the
    SAT queries only, which are parameters below. *)

Record MemWr := {
  wr_clk_enable : bool;
  wr_clk_polarity : bool;
  wr_clk : SigSpec;
  wr_en : SigSpec;
  wr_priority_mask : list bool;
}.

Record MemRd := {
  rd_clk_enable : bool;
  rd_clk_polarity : bool;
  rd_ce_over_srst : bool;
  rd_clk : SigSpec;
  rd_en : SigSpec;
  rd_arst : SigSpec;
  rd_srst : SigSpec;
  rd_init_value : Const;
  rd_arst_value : Const;
  rd_srst_value : Const;
  rd_transparency_mask : list bool;
  rd_collision_x_mask : list bool;
}.

Record MemInit := {
  init_data : Const;
}.

Record Mem := {
  mem_attributes : gmap string Const;
  mem_inits : list MemInit;
  mem_rd_ports : list MemRd;
  mem_wr_ports : list MemWr;
}.

(** ** The candidate record

    [WrPortConfig::width], [WrPortConfig::wrbe], [RdPortConfig::width] and
    the geometry fields of [MemConfig] ([unit_abits] ... [swizzle]) are
    neither written nor read by the engine and are left out. *)

Record WrPortConfig := {
  wp_rd_port : Z;           (* -1 if none *)
  wp_port_def : nat;
  wp_portopts : Options;
  wp_emu_prio : list nat;
}.

Record RdPortConfig := {
  rp_wr_port : Z;           (* -1 if none *)
  rp_port_def : nat;
  rp_portopts : Options;
  rp_resetvals : gmap string Const;
  rp_emu_sync : bool;
  rp_emu_en : bool;
  rp_emu_arst : bool;
  rp_emu_srst : bool;
  rp_emu_init : bool;
  rp_emu_srst_en_prio : bool;
  rp_emu_trans : list nat;
}.

Record MemConfig := {
  cfg_ram_def : nat;
  cfg_opts : Options;
  cfg_wr_ports : list WrPortConfig;
  cfg_rd_ports : list RdPortConfig;
  cfg_clocks_anyedge : gmap string (SigBit * bool);
  cfg_clocks_pnedge : gmap string (SigBit * bool);
}.

Definition MemConfigs := list MemConfig.

(** Field assignments. *)

Definition wp_set_rd_port (p : WrPortConfig) (x : Z) : WrPortConfig :=
  {| wp_rd_port := x; wp_port_def := wp_port_def p;
     wp_portopts := wp_portopts p; wp_emu_prio := wp_emu_prio p |}.

Definition wp_set_portopts (p : WrPortConfig) (x : Options) : WrPortConfig :=
  {| wp_rd_port := wp_rd_port p; wp_port_def := wp_port_def p;
     wp_portopts := x; wp_emu_prio := wp_emu_prio p |}.

Definition wp_set_emu_prio (p : WrPortConfig) (x : list nat) : WrPortConfig :=
  {| wp_rd_port := wp_rd_port p; wp_port_def := wp_port_def p;
     wp_portopts := wp_portopts p; wp_emu_prio := x |}.

Definition rp_set_portopts (p : RdPortConfig) (x : Options) : RdPortConfig :=
  {| rp_wr_port := rp_wr_port p; rp_port_def := rp_port_def p;
     rp_portopts := x; rp_resetvals := rp_resetvals p;
     rp_emu_sync := rp_emu_sync p; rp_emu_en := rp_emu_en p;
     rp_emu_arst := rp_emu_arst p; rp_emu_srst := rp_emu_srst p;
     rp_emu_init := rp_emu_init p;
     rp_emu_srst_en_prio := rp_emu_srst_en_prio p;
     rp_emu_trans := rp_emu_trans p |}.

Definition rp_set_resetvals (p : RdPortConfig) (x : gmap string Const)
  : RdPortConfig :=
  {| rp_wr_port := rp_wr_port p; rp_port_def := rp_port_def p;
     rp_portopts := rp_portopts p; rp_resetvals := x;
     rp_emu_sync := rp_emu_sync p; rp_emu_en := rp_emu_en p;
     rp_emu_arst := rp_emu_arst p; rp_emu_srst := rp_emu_srst p;
     rp_emu_init := rp_emu_init p;
     rp_emu_srst_en_prio := rp_emu_srst_en_prio p;
     rp_emu_trans := rp_emu_trans p |}.

Definition rp_set_emu_sync (p : RdPortConfig) (x : bool) : RdPortConfig :=
  {| rp_wr_port := rp_wr_port p; rp_port_def := rp_port_def p;
     rp_portopts := rp_portopts p; rp_resetvals := rp_resetvals p;
     rp_emu_sync := x; rp_emu_en := rp_emu_en p;
     rp_emu_arst := rp_emu_arst p; rp_emu_srst := rp_emu_srst p;
     rp_emu_init := rp_emu_init p;
     rp_emu_srst_en_prio := rp_emu_srst_en_prio p;
     rp_emu_trans := rp_emu_trans p |}.

Definition rp_set_emu_en (p : RdPortConfig) (x : bool) : RdPortConfig :=
  {| rp_wr_port := rp_wr_port p; rp_port_def := rp_port_def p;
     rp_portopts := rp_portopts p; rp_resetvals := rp_resetvals p;
     rp_emu_sync := rp_emu_sync p; rp_emu_en := x;
     rp_emu_arst := rp_emu_arst p; rp_emu_srst := rp_emu_srst p;
     rp_emu_init := rp_emu_init p;
     rp_emu_srst_en_prio := rp_emu_srst_en_prio p;
     rp_emu_trans := rp_emu_trans p |}.

Definition rp_set_emu_arst (p : RdPortConfig) (x : bool) : RdPortConfig :=
  {| rp_wr_port := rp_wr_port p; rp_port_def := rp_port_def p;
     rp_portopts := rp_portopts p; rp_resetvals := rp_resetvals p;
     rp_emu_sync := rp_emu_sync p; rp_emu_en := rp_emu_en p;
     rp_emu_arst := x; rp_emu_srst := rp_emu_srst p;
     rp_emu_init := rp_emu_init p;
     rp_emu_srst_en_prio := rp_emu_srst_en_prio p;
     rp_emu_trans := rp_emu_trans p |}.

Definition rp_set_emu_srst (p : RdPortConfig) (x : bool) : RdPortConfig :=
  {| rp_wr_port := rp_wr_port p; rp_port_def := rp_port_def p;
     rp_portopts := rp_portopts p; rp_resetvals := rp_resetvals p;
     rp_emu_sync := rp_emu_sync p; rp_emu_en := rp_emu_en p;
     rp_emu_arst := rp_emu_arst p; rp_emu_srst := x;
     rp_emu_init := rp_emu_init p;
     rp_emu_srst_en_prio := rp_emu_srst_en_prio p;
     rp_emu_trans := rp_emu_trans p |}.

Definition rp_set_emu_init (p : RdPortConfig) (x : bool) : RdPortConfig :=
  {| rp_wr_port := rp_wr_port p; rp_port_def := rp_port_def p;
     rp_portopts := rp_portopts p; rp_resetvals := rp_resetvals p;
     rp_emu_sync := rp_emu_sync p; rp_emu_en := rp_emu_en p;
     rp_emu_arst := rp_emu_arst p; rp_emu_srst := rp_emu_srst p;
     rp_emu_init := x;
     rp_emu_srst_en_prio := rp_emu_srst_en_prio p;
     rp_emu_trans := rp_emu_trans p |}.

Definition rp_set_emu_srst_en_prio (p : RdPortConfig) (x : bool)
  : RdPortConfig :=
  {| rp_wr_port := rp_wr_port p; rp_port_def := rp_port_def p;
     rp_portopts := rp_portopts p; rp_resetvals := rp_resetvals p;
     rp_emu_sync := rp_emu_sync p; rp_emu_en := rp_emu_en p;
     rp_emu_arst := rp_emu_arst p; rp_emu_srst := rp_emu_srst p;
     rp_emu_init := rp_emu_init p;
     rp_emu_srst_en_prio := x;
     rp_emu_trans := rp_emu_trans p |}.

Definition rp_set_emu_trans (p : RdPortConfig) (x : list nat) : RdPortConfig :=
  {| rp_wr_port := rp_wr_port p; rp_port_def := rp_port_def p;
     rp_portopts := rp_portopts p; rp_resetvals := rp_resetvals p;
     rp_emu_sync := rp_emu_sync p; rp_emu_en := rp_emu_en p;
     rp_emu_arst := rp_emu_arst p; rp_emu_srst := rp_emu_srst p;
     rp_emu_init := rp_emu_init p;
     rp_emu_srst_en_prio := rp_emu_srst_en_prio p;
     rp_emu_trans := x |}.

Definition cfg_set_opts (c : MemConfig) (x : Options) : MemConfig :=
  {| cfg_ram_def := cfg_ram_def c; cfg_opts := x;
     cfg_wr_ports := cfg_wr_ports c; cfg_rd_ports := cfg_rd_ports c;
     cfg_clocks_anyedge := cfg_clocks_anyedge c;
     cfg_clocks_pnedge := cfg_clocks_pnedge c |}.

Definition cfg_set_wr_ports (c : MemConfig) (x : list WrPortConfig) : MemConfig :=
  {| cfg_ram_def := cfg_ram_def c; cfg_opts := cfg_opts c;
     cfg_wr_ports := x; cfg_rd_ports := cfg_rd_ports c;
     cfg_clocks_anyedge := cfg_clocks_anyedge c;
     cfg_clocks_pnedge := cfg_clocks_pnedge c |}.

Definition cfg_set_rd_ports (c : MemConfig) (x : list RdPortConfig) : MemConfig :=
  {| cfg_ram_def := cfg_ram_def c; cfg_opts := cfg_opts c;
     cfg_wr_ports := cfg_wr_ports c; cfg_rd_ports := x;
     cfg_clocks_anyedge := cfg_clocks_anyedge c;
     cfg_clocks_pnedge := cfg_clocks_pnedge c |}.

Definition cfg_set_clocks_anyedge (c : MemConfig)
    (x : gmap string (SigBit * bool)) : MemConfig :=
  {| cfg_ram_def := cfg_ram_def c; cfg_opts := cfg_opts c;
     cfg_wr_ports := cfg_wr_ports c; cfg_rd_ports := cfg_rd_ports c;
     cfg_clocks_anyedge := x;
     cfg_clocks_pnedge := cfg_clocks_pnedge c |}.

Definition cfg_set_clocks_pnedge (c : MemConfig)
    (x : gmap string (SigBit * bool)) : MemConfig :=
  {| cfg_ram_def := cfg_ram_def c; cfg_opts := cfg_opts c;
     cfg_wr_ports := cfg_wr_ports c; cfg_rd_ports := cfg_rd_ports c;
     cfg_clocks_anyedge := cfg_clocks_anyedge c;
     cfg_clocks_pnedge := x |}.

(** [WrPortConfig()] and [RdPortConfig()] with [port_def] filled in, and
    [MemConfig cfg; cfg.ram_def = i]. *)

Definition new_WrPortConfig (port_def : nat) : WrPortConfig :=
  {| wp_rd_port := -1; wp_port_def := port_def;
     wp_portopts := ∅; wp_emu_prio := [] |}.

Definition new_RdPortConfig (wr_port : Z) (port_def : nat) : RdPortConfig :=
  {| rp_wr_port := wr_port; rp_port_def := port_def;
     rp_portopts := ∅; rp_resetvals := ∅;
     rp_emu_sync := false; rp_emu_en := false; rp_emu_arst := false;
     rp_emu_srst := false; rp_emu_init := false;
     rp_emu_srst_en_prio := false; rp_emu_trans := [] |}.

Definition new_MemConfig (ram_def : nat) : MemConfig :=
  {| cfg_ram_def := ram_def; cfg_opts := ∅;
     cfg_wr_ports := []; cfg_rd_ports := [];
     cfg_clocks_anyedge := ∅; cfg_clocks_pnedge := ∅ |}.

(** ** Option propagation on a candidate *)

Definition apply_wrport_opts {T} (cfg : MemConfig) (pidx : nat)
    (cap : Capability T) : outcome (bool * MemConfig) :=
  pcfg ← vec_at (cfg_wr_ports cfg) pidx;
  let '(ok1, o) := apply_opts (cfg_opts cfg) (cap_opts cap) in
  let cfg1 := cfg_set_opts cfg o in
  if ok1 then
    let '(ok2, po) := apply_opts (wp_portopts pcfg) (cap_portopts cap) in
    Ok (ok2, cfg_set_wr_ports cfg1
               (<[pidx := wp_set_portopts pcfg po]> (cfg_wr_ports cfg1)))
  else Ok (false, cfg1).

Definition apply_rdport_opts {T} (cfg : MemConfig) (pidx : nat)
    (cap : Capability T) : outcome (bool * MemConfig) :=
  pcfg ← vec_at (cfg_rd_ports cfg) pidx;
  if decide (rp_wr_port pcfg ≠ (-1)%Z) then
    if decide (rp_wr_port pcfg < 0)%Z then Err OutOfRange
    else apply_wrport_opts cfg (Z.to_nat (rp_wr_port pcfg)) cap
  else
    let '(ok1, o) := apply_opts (cfg_opts cfg) (cap_opts cap) in
    let cfg1 := cfg_set_opts cfg o in
    if ok1 then
      let '(ok2, po) := apply_opts (rp_portopts pcfg) (cap_portopts cap) in
      Ok (ok2, cfg_set_rd_ports cfg1
                 (<[pidx := rp_set_portopts pcfg po]> (cfg_rd_ports cfg1)))
    else Ok (false, cfg1).

Definition wrport_opts_applied {T} (cfg : MemConfig) (pidx : nat)
    (cap : Capability T) : outcome bool :=
  pcfg ← vec_at (cfg_wr_ports cfg) pidx;
  Ok (opts_applied (cfg_opts cfg) (cap_opts cap)
      && opts_applied (wp_portopts pcfg) (cap_portopts cap)).

Definition rdport_opts_applied {T} (cfg : MemConfig) (pidx : nat)
    (cap : Capability T) : outcome bool :=
  pcfg ← vec_at (cfg_rd_ports cfg) pidx;
  if decide (rp_wr_port pcfg ≠ (-1)%Z) then
    if decide (rp_wr_port pcfg < 0)%Z then Err OutOfRange
    else wrport_opts_applied cfg (Z.to_nat (rp_wr_port pcfg)) cap
  else
    Ok (opts_applied (cfg_opts cfg) (cap_opts cap)
        && opts_applied (rp_portopts pcfg) (cap_portopts cap)).

Definition apply_clock (cfg : MemConfig) (def : ClockDef) (clk : SigBit)
    (clk_polarity : bool) : bool * MemConfig :=
  if decide (clk_name def = "") then (true, cfg)
  else if decide (clk_kind def = ClkPolKind.Anyedge) then
    match cfg_clocks_anyedge cfg !! clk_name def with
    | None =>
        (true, cfg_set_clocks_anyedge cfg
                 (<[clk_name def := (clk, clk_polarity)]>
                    (cfg_clocks_anyedge cfg)))
    | Some p => (bool_decide (p = (clk, clk_polarity)), cfg)
    end
  else
    let flip :=
      xorb clk_polarity (bool_decide (clk_kind def = ClkPolKind.Posedge)) in
    match cfg_clocks_pnedge cfg !! clk_name def with
    | None =>
        (true, cfg_set_clocks_pnedge cfg
                 (<[clk_name def := (clk, flip)]> (cfg_clocks_pnedge cfg)))
    | Some p => (bool_decide (p = (clk, flip)), cfg)
    end.

Definition apply_rstval (pcfg : RdPortConfig) (def : ResetValDef)
    (val : Const) : bool * RdPortConfig :=
  match rst_val_kind def with
  | ResetValKind.None => (false, pcfg)
  | ResetValKind.Zero =>
      (negb (existsb (fun bit => bool_decide (bit = S1)) (const_bits val)),
       pcfg)
  | ResetValKind.Named =>
      match rp_resetvals pcfg !! rst_name def with
      | None =>
          (true, rp_set_resetvals pcfg
                   (<[rst_name def := val]> (rp_resetvals pcfg)))
      | Some v => (bool_decide (v = val), pcfg)
      end
  end.

(** ** The mapping engine: [struct MemMapping] *)

Variable mem : Mem.
Variable lib : Library.

(** [addr_compatible] compares address signals through the x-mux signal
    map of the module; [get_wr_implies_rd] and [get_wr_excludes_rd] are the
    memoized SAT queries.  Each is a function of the two port indices
    (write port first). *)
Variable addr_compatible : nat -> nat -> bool.
Variable get_wr_implies_rd : nat -> nat -> bool.
Variable get_wr_excludes_rd : nat -> nat -> bool.

(** The attribute names [ID::...]. *)
Definition style_attrs : list string :=
  ["\ram_block"; "\rom_block"; "\ram_style"; "\rom_style";
   "\ramstyle"; "\romstyle"; "\syn_ramstyle"; "\syn_romstyle"].
Definition ID_logic_block : string := "\logic_block".

(** [Mem::get_bool_attribute]. *)
Definition get_bool_attribute (id : string) : bool :=
  match mem_attributes mem !! id with
  | None => false
  | Some v => as_bool v
  end.

(** The body of the loop of [determine_style] for a present attribute:
    the [kind] and [style] it leaves when it returns. *)
Definition style_of_value (val : Const) : RamKind.t * string :=
  if decide (val = const_of_int 1) then (RamKind.NotLogic, "")
  else
    let val_s := decode_string val in
    if decide (val_s = "auto") then (RamKind.Auto, "")
    else if decide (val_s = "logic" ∨ val_s = "registers")
      then (RamKind.Logic, "")
    else if decide (val_s = "distributed") then (RamKind.Distributed, "")
    else if decide (val_s = "block" ∨ val_s = "block_ram" ∨ val_s = "ebr")
      then (RamKind.Block, "")
    else if decide (val_s = "huge" ∨ val_s = "ultra") then (RamKind.Huge, "")
    else (RamKind.NotLogic, val_s).

(** The loop over the attribute names; [None] when it runs to its end. *)
Fixpoint determine_style_loop (attrs : list string)
  : option (RamKind.t * string) :=
  match attrs with
  | [] => None
  | attr :: rest =>
      match mem_attributes mem !! attr with
      | Some val => Some (style_of_value val)
      | None => determine_style_loop rest
      end
  end.

(** [determine_style]: the members [kind] and [style] it assigns. *)
Definition determine_style : RamKind.t * string :=
  match determine_style_loop style_attrs with
  | Some r => r
  | None =>
      if get_bool_attribute ID_logic_block then (RamKind.Logic, "")
      else (RamKind.Auto, "")
  end.

Fixpoint determine_logic_ok_loop (port0 : MemWr) (ports : list MemWr) : bool :=
  match ports with
  | [] => true
  | port :: rest =>
      if negb (wr_clk_enable port) then false
      else if decide (wr_clk port ≠ wr_clk port0) then false
      else if decide (wr_clk_polarity port ≠ wr_clk_polarity port0) then false
      else determine_logic_ok_loop port0 rest
  end.

Definition determine_logic_ok (kind : RamKind.t) : bool :=
  if decide (kind ≠ RamKind.Auto ∧ kind ≠ RamKind.Logic) then false
  else
    match mem_wr_ports mem with
    | [] => true
    | port0 :: _ => determine_logic_ok_loop port0 (mem_wr_ports mem)
    end.

Definition handle_ram_kind (kind : RamKind.t) (cfgs : MemConfigs)
  : outcome MemConfigs :=
  if decide (kind = RamKind.Auto ∨ kind = RamKind.NotLogic) then Ok cfgs
  else
    new_cfgs ← for_each (fun cfg =>
        rdef ← vec_at (ram_defs lib) (cfg_ram_def cfg);
        if decide (ram_kind rdef = kind) then Ok [cfg] else Ok []) cfgs;
    match new_cfgs with
    | [] => Err (FatalNoRamOfKind kind)
    | _ => Ok new_cfgs
    end.

(** [MemConfig new_cfg = cfg; if (!apply_opts(new_cfg.opts, def.opts))
    continue; new_cfgs.push_back(new_cfg);] *)
Definition clone_with_opts (cfg : MemConfig) (src : OptionEntries)
  : list MemConfig :=
  let '(ok, o) := apply_opts (cfg_opts cfg) src in
  if ok then [cfg_set_opts cfg o] else [].

Definition handle_ram_style (style : string) (cfgs : MemConfigs)
  : outcome MemConfigs :=
  if decide (style = "") then Ok cfgs
  else
    new_cfgs ← for_each (fun cfg =>
        rdef ← vec_at (ram_defs lib) (cfg_ram_def cfg);
        Ok (flat_map (fun def =>
              if decide (cap_val def ≠ style) then []
              else clone_with_opts cfg (cap_opts def))
            (ram_style rdef))) cfgs;
    match new_cfgs with
    | [] => Err (FatalNoRamWithStyle style)
    | _ => Ok new_cfgs
    end.

(** The flags [(has_nonx, has_one)] of [handle_init]. *)
Fixpoint init_flags (inits : list MemInit) (has_nonx has_one : bool)
  : bool * bool :=
  match inits with
  | [] => (has_nonx, has_one)
  | init :: rest =>
      if is_fully_undef (init_data init) then
        init_flags rest has_nonx has_one
      else
        init_flags rest true
          (has_one
           || existsb (fun bit => bool_decide (bit = S1))
                (const_bits (init_data init)))
  end.

Definition handle_init (cfgs : MemConfigs) : outcome MemConfigs :=
  let '(has_nonx, has_one) := init_flags (mem_inits mem) false false in
  if negb has_nonx then Ok cfgs
  else
    for_each (fun cfg =>
        rdef ← vec_at (ram_defs lib) (cfg_ram_def cfg);
        Ok (flat_map (fun def =>
              if has_one then
                if decide (cap_val def ≠ MemoryInitKind.Any) then []
                else clone_with_opts cfg (cap_opts def)
              else
                if decide (cap_val def ≠ MemoryInitKind.Any
                           ∧ cap_val def ≠ MemoryInitKind.Zero) then []
                else clone_with_opts cfg (cap_opts def))
            (ram_init rdef))) cfgs.

(** [int used = 0; for (auto &oport: cfg.wr_ports) if (oport.port_def == i)
    used++;] *)
Definition used_by_wr_ports (cfg : MemConfig) (i : nat) : nat :=
  length (filter (fun oport => wp_port_def oport = i) (cfg_wr_ports cfg)).

(** The body of the loop over the port groups in [handle_wr_ports], for the
    memory write port [port], the candidate [cfg] and the group [i]. *)
Definition wr_port_group (port : MemWr) (cfg : MemConfig) (i : nat)
    (def : Capability PortGroupDef) : list MemConfig :=
  if decide (pg_kind (cap_val def) = PortKind.Ar
             ∨ pg_kind (cap_val def) = PortKind.Sr) then []
  else if decide (length (pg_names (cap_val def)) ≤ used_by_wr_ports cfg i)
    then []
  else
    let '(ok, o) := apply_opts (cfg_opts cfg) (cap_opts def) in
    if negb ok then []
    else
      let cfg2 := cfg_set_opts cfg o in
      let pcfg2 := new_WrPortConfig i in
      flat_map (fun cdef =>
          let '(ok, o3) := apply_opts (cfg_opts cfg2) (cap_opts cdef) in
          if negb ok then []
          else
            let cfg3 := cfg_set_opts cfg2 o3 in
            let '(ok, po3) :=
              apply_opts (wp_portopts pcfg2) (cap_portopts cdef) in
            if negb ok then []
            else
              let pcfg3 := wp_set_portopts pcfg2 po3 in
              let '(ok, cfg3) :=
                apply_clock cfg3 (cap_val cdef) (sig_as_bit (wr_clk port))
                  (wr_clk_polarity port) in
              if negb ok then []
              else [cfg_set_wr_ports cfg3 (cfg_wr_ports cfg3 ++ [pcfg3])])
        (pg_clock (cap_val def)).

Definition wr_port_cfg (port : MemWr) (cfg : MemConfig) : outcome MemConfigs :=
  ram_def ← vec_at (ram_defs lib) (cfg_ram_def cfg);
  Ok (flat_map (fun '(i, def) => wr_port_group port cfg i def)
        (enumerate (ram_ports ram_def))).

Fixpoint handle_wr_ports_loop (ports : list MemWr) (cfgs : MemConfigs)
  : outcome MemConfigs :=
  match ports with
  | [] => Ok cfgs
  | port :: rest =>
      if negb (wr_clk_enable port) then
        (* Async write ports not supported. *)
        Ok []
      else
        new_cfgs ← for_each (wr_port_cfg port) cfgs;
        handle_wr_ports_loop rest new_cfgs
  end.

Definition handle_wr_ports (cfgs : MemConfigs) : outcome MemConfigs :=
  handle_wr_ports_loop (mem_wr_ports mem) cfgs.

(** [cfg.rd_ports.push_back(pcfg)]. *)
Definition push_rd_port (cfg : MemConfig) (pcfg : RdPortConfig) : MemConfig :=
  cfg_set_rd_ports cfg (cfg_rd_ports cfg ++ [pcfg]).

(** First pass of [handle_rd_ports]: the read port is not shared.  The
    body of the loop over the port groups. *)
Definition rd_port_unshared (port : MemRd) (cfg : MemConfig) (i : nat)
    (def : Capability PortGroupDef) : list MemConfig :=
  if decide (pg_kind (cap_val def) = PortKind.Sw) then []
  else if negb (rd_clk_enable port)
          && bool_decide (pg_kind (cap_val def) = PortKind.Sr
                          ∨ pg_kind (cap_val def) = PortKind.Srsw) then []
  else if decide (length (pg_names (cap_val def)) ≤ used_by_wr_ports cfg i)
    then []
  else
    let '(ok, o) := apply_opts (cfg_opts cfg) (cap_opts def) in
    if negb ok then []
    else
      let cfg2 := cfg_set_opts cfg o in
      let pcfg2 := new_RdPortConfig (-1) i in
      if decide (pg_kind (cap_val def) = PortKind.Sr
                 ∨ pg_kind (cap_val def) = PortKind.Srsw) then
        let pcfg2 := rp_set_emu_sync pcfg2 false in
        flat_map (fun cdef =>
            let '(ok, o3) := apply_opts (cfg_opts cfg2) (cap_opts cdef) in
            if negb ok then []
            else
              let cfg3 := cfg_set_opts cfg2 o3 in
              let '(ok, po3) :=
                apply_opts (rp_portopts pcfg2) (cap_portopts cdef) in
              if negb ok then []
              else
                let pcfg3 := rp_set_portopts pcfg2 po3 in
                let '(ok, cfg3) :=
                  apply_clock cfg3 (cap_val cdef) (sig_as_bit (rd_clk port))
                    (rd_clk_polarity port) in
                if negb ok then []
                else
                  flat_map (fun endef =>
                      let '(ok, o4) :=
                        apply_opts (cfg_opts cfg3) (cap_opts endef) in
                      if negb ok then []
                      else
                        let cfg4 := cfg_set_opts cfg3 o4 in
                        let '(ok, po4) :=
                          apply_opts (rp_portopts pcfg3)
                            (cap_portopts endef) in
                        if negb ok then []
                        else
                          let pcfg4 := rp_set_portopts pcfg3 po4 in
                          let pcfg4 :=
                            if bool_decide (cap_val endef = RdEnKind.None)
                               && bool_decide
                                    (rd_en port ≠ sig_of_state S1)
                            then rp_set_emu_en pcfg4 true
                            else pcfg4 in
                          [push_rd_port cfg4 pcfg4])
                    (pg_rden (cap_val def)))
          (pg_clock (cap_val def))
      else
        let pcfg2 := rp_set_emu_sync pcfg2 (rd_clk_enable port) in
        [push_rd_port cfg2 pcfg2].

(** Second pass: the body of the loop over the [rden] capabilities of an
    [srsw] group, for the read port [pidx] shared with the write port
    [wpidx]. *)
Definition rd_port_shared_rden (port : MemRd) (pidx wpidx : nat)
    (cfg2 : MemConfig) (pcfg2 : RdPortConfig) (endef : Capability RdEnKind.t)
  : outcome (list MemConfig) :=
  '(ok, cfg3) ← apply_wrport_opts cfg2 wpidx endef;
  if negb ok then Ok []
  else
    match cap_val endef with
    | RdEnKind.None =>
        Ok [push_rd_port cfg3
              (rp_set_emu_en pcfg2
                 (bool_decide (rd_en port ≠ sig_of_state S1)))]
    | RdEnKind.Any =>
        Ok [push_rd_port cfg3 pcfg2]
    | RdEnKind.WriteImplies =>
        Ok [push_rd_port cfg3
              (rp_set_emu_en pcfg2 (negb (get_wr_implies_rd wpidx pidx)))]
    | RdEnKind.WriteExcludes =>
        if negb (get_wr_excludes_rd wpidx pidx) then Ok []
        else Ok [push_rd_port cfg3 pcfg2]
    end.

(** Second pass: the body of the loop over the memory's write ports. *)
Definition rd_port_shared (port : MemRd) (pidx : nat) (cfg : MemConfig)
    (ram_def : RamDef) (wpidx : nat) (wport : MemWr)
  : outcome (list MemConfig) :=
  wpcfg ← vec_at (cfg_wr_ports cfg) wpidx;
  let didx := wp_port_def wpcfg in
  def ← vec_at (ram_ports ram_def) didx;
  if decide (wp_rd_port wpcfg ≠ (-1)%Z) then Ok []
  else if decide (pg_kind (cap_val def) = PortKind.Sw) then Ok []
  else if negb (addr_compatible wpidx pidx) then Ok []
  else if bool_decide (pg_kind (cap_val def) = PortKind.Srsw)
          && (negb (rd_clk_enable port)
              || bool_decide (rd_clk port ≠ wr_clk wport)
              || bool_decide (rd_clk_polarity port ≠ wr_clk_polarity wport))
    then Ok []
  else
    let cfg2 :=
      cfg_set_wr_ports cfg
        (<[wpidx := wp_set_rd_port wpcfg (Z.of_nat pidx)]>
           (cfg_wr_ports cfg)) in
    let pcfg2 := new_RdPortConfig (Z.of_nat wpidx) didx in
    let pcfg2 :=
      rp_set_emu_sync pcfg2
        (rd_clk_enable port
         && bool_decide (pg_kind (cap_val def) = PortKind.Arsw)) in
    if decide (pg_kind (cap_val def) = PortKind.Srsw) then
      for_each (rd_port_shared_rden port pidx wpidx cfg2 pcfg2)
        (pg_rden (cap_val def))
    else Ok [push_rd_port cfg2 pcfg2].

Definition rd_port_cfg (pidx : nat) (port : MemRd) (cfg : MemConfig)
  : outcome MemConfigs :=
  ram_def ← vec_at (ram_defs lib) (cfg_ram_def cfg);
  let unshared :=
    flat_map (fun '(i, def) => rd_port_unshared port cfg i def)
      (enumerate (ram_ports ram_def)) in
  shared ← for_each (fun '(wpidx, wport) =>
                       rd_port_shared port pidx cfg ram_def wpidx wport)
             (enumerate (mem_wr_ports mem));
  Ok (unshared ++ shared).

(** A phase made of one generation per element of [xs]:
    [for (x : xs) { MemConfigs new_cfgs; ...; cfgs = new_cfgs; }]. *)
Fixpoint generations {A} (step : A -> MemConfigs -> outcome MemConfigs)
    (xs : list A) (cfgs : MemConfigs) : outcome MemConfigs :=
  match xs with
  | [] => Ok cfgs
  | x :: rest =>
      new_cfgs ← step x cfgs;
      generations step rest new_cfgs
  end.

Definition handle_rd_ports (cfgs : MemConfigs) : outcome MemConfigs :=
  generations (fun '(pidx, port) cfgs => for_each (rd_port_cfg pidx port) cfgs)
    (enumerate (mem_rd_ports mem)) cfgs.

(** The loops over capabilities that keep a [found_free] flag: each body
    gives the candidates it pushes and whether it sets the flag; the flag
    is never read inside the loop. *)
Fixpoint caps_loop {A} (body : A -> outcome (list MemConfig * bool))
    (caps : list A) : outcome (list MemConfig * bool) :=
  match caps with
  | [] => Ok ([], false)
  | cap :: rest =>
      '(ys, f1) ← body cap;
      '(zs, f2) ← caps_loop body rest;
      Ok (ys ++ zs, f1 || f2)
  end.

(** [MemConfig cfg2 = cfg; if (wrport_opts_applied(cfg2, pidx, cap))
    found_free = true; else if (!apply_wrport_opts(cfg2, pidx, cap))
    continue; new_cfgs.push_back(cfg2);] *)
Definition use_wrport_cap {T} (cfg : MemConfig) (pidx : nat)
    (cap : Capability T) : outcome (list MemConfig * bool) :=
  applied ← wrport_opts_applied cfg pidx cap;
  if (applied : bool) then Ok ([cfg], true)
  else
    '(ok, cfg2) ← apply_wrport_opts cfg pidx cap;
    if negb ok then Ok ([], false) else Ok ([cfg2], false).

(** [rpcfg.emu_trans.push_back(wpidx)] on [cfg.rd_ports[rpidx]]. *)
Definition push_emu_trans (cfg : MemConfig) (rpidx : nat)
    (rpcfg : RdPortConfig) (wpidx : nat) : MemConfig :=
  cfg_set_rd_ports cfg
    (<[rpidx := rp_set_emu_trans rpcfg (rp_emu_trans rpcfg ++ [wpidx])]>
       (cfg_rd_ports cfg)).

(** The body of the loop over the [wrtrans] capabilities in
    [handle_trans]. *)
Definition trans_cap (rpidx wpidx : nat) (transparent : bool)
    (cfg : MemConfig) (wpcfg : WrPortConfig)
    (rpdef : Capability PortGroupDef) (tdef : Capability WrTransDef)
  : outcome (list MemConfig * bool) :=
  target_ok ←
    match wt_target_kind (cap_val tdef) with
    | TransTargetKind.Self =>
        Ok (bool_decide (wp_rd_port wpcfg = Z.of_nat rpidx))
    | TransTargetKind.Other =>
        Ok (bool_decide (wp_rd_port wpcfg ≠ Z.of_nat rpidx))
    | TransTargetKind.Named =>
        name0 ← vec_at (pg_names (cap_val rpdef)) 0;
        Ok (bool_decide (name0 = wt_target_name (cap_val tdef)))
    end;
  if negb target_ok then Ok ([], false)
  else if (if transparent
           then bool_decide (wt_kind (cap_val tdef) = TransKind.Old)
           else bool_decide (wt_kind (cap_val tdef) ≠ TransKind.Old))
    then Ok ([], false)
  else use_wrport_cap cfg wpidx tdef.

(** The body of the loop over the candidates in [handle_trans]. *)
Definition trans_cfg (rpidx wpidx : nat) (transparent : bool)
    (cfg : MemConfig) : outcome MemConfigs :=
  rpcfg ← vec_at (cfg_rd_ports cfg) rpidx;
  wpcfg ← vec_at (cfg_wr_ports cfg) wpidx;
  rdef ← vec_at (ram_defs lib) (cfg_ram_def cfg);
  wpdef ← vec_at (ram_ports rdef) (wp_port_def wpcfg);
  rpdef ← vec_at (ram_ports rdef) (rp_port_def rpcfg);
  if rp_emu_sync rpcfg then
    if transparent then Ok [push_emu_trans cfg rpidx rpcfg wpidx]
    else Ok [cfg]
  else
    '(new_cfgs, found_free) ←
      caps_loop (trans_cap rpidx wpidx transparent cfg wpcfg rpdef)
        (pg_wrtrans (cap_val wpdef));
    if negb found_free && transparent then
      Ok (new_cfgs ++ [push_emu_trans cfg rpidx rpcfg wpidx])
    else Ok new_cfgs.

(** One read/write pair of [handle_trans]: the body of the inner loop. *)
Definition trans_pair (rpidx : nat) (rport : MemRd) (wpidx : nat)
    (wport : MemWr) (cfgs : MemConfigs) : outcome MemConfigs :=
  if negb (wr_clk_enable wport) then Ok cfgs
  else if decide (rd_clk rport ≠ wr_clk wport) then Ok cfgs
  else if decide (rd_clk_polarity rport ≠ wr_clk_polarity wport) then Ok cfgs
  else
    collision_x ← vec_at (rd_collision_x_mask rport) wpidx;
    if (collision_x : bool) then Ok cfgs
    else
      transparent ← vec_at (rd_transparency_mask rport) wpidx;
      for_each (trans_cfg rpidx wpidx transparent) cfgs.

(** One read port of [handle_trans]: the body of the outer loop. *)
Definition trans_rd_port (rpidx : nat) (rport : MemRd) (cfgs : MemConfigs)
  : outcome MemConfigs :=
  if negb (rd_clk_enable rport) then Ok cfgs
  else
    generations (fun '(wpidx, wport) cfgs =>
        trans_pair rpidx rport wpidx wport cfgs)
      (enumerate (mem_wr_ports mem)) cfgs.

Definition handle_trans (cfgs : MemConfigs) : outcome MemConfigs :=
  generations (fun '(rpidx, rport) cfgs => trans_rd_port rpidx rport cfgs)
    (enumerate (mem_rd_ports mem)) cfgs.

(** The body of the loop over the [wrprio] capabilities in
    [handle_priority]. *)
Definition priority_cap (p2idx : nat) (cfg : MemConfig)
    (p1def : Capability PortGroupDef) (prdef : Capability string)
  : outcome (list MemConfig * bool) :=
  name0 ← vec_at (pg_names (cap_val p1def)) 0;
  if decide (name0 ≠ cap_val prdef) then Ok ([], false)
  else use_wrport_cap cfg p2idx prdef.

(** The body of the loop over the candidates in [handle_priority].  The
    source takes [p1cfg] from [cfg.rd_ports], indexed by the write port
    index [p1idx]. *)
Definition priority_cfg (p1idx p2idx : nat) (cfg : MemConfig)
  : outcome MemConfigs :=
  p1cfg ← vec_at (cfg_rd_ports cfg) p1idx;
  p2cfg ← vec_at (cfg_wr_ports cfg) p2idx;
  rdef ← vec_at (ram_defs lib) (cfg_ram_def cfg);
  p1def ← vec_at (ram_ports rdef) (rp_port_def p1cfg);
  p2def ← vec_at (ram_ports rdef) (wp_port_def p2cfg);
  '(new_cfgs, found_free) ←
    caps_loop (priority_cap p2idx cfg p1def) (pg_wrprio (cap_val p2def));
  if negb found_free then
    Ok (new_cfgs ++
          [cfg_set_wr_ports cfg
             (<[p2idx := wp_set_emu_prio p2cfg (wp_emu_prio p2cfg ++ [p1idx])]>
                (cfg_wr_ports cfg))])
  else Ok new_cfgs.

(** One ordered pair of write ports of [handle_priority]. *)
Definition priority_pair (p1idx p2idx : nat) (port2 : MemWr)
    (cfgs : MemConfigs) : outcome MemConfigs :=
  prio ← vec_at (wr_priority_mask port2) p1idx;
  if negb prio then Ok cfgs
  else for_each (priority_cfg p1idx p2idx) cfgs.

Definition handle_priority (cfgs : MemConfigs) : outcome MemConfigs :=
  generations (fun '(p1idx, _) cfgs =>
      generations (fun '(p2idx, port2) cfgs =>
          priority_pair p1idx p2idx port2 cfgs)
        (enumerate (mem_wr_ports mem)) cfgs)
    (enumerate (mem_wr_ports mem)) cfgs.

(** The part that the loops over [rdrstval] in [handle_rd_init],
    [handle_rd_arst] and [handle_rd_srst] have in common, for the reset
    kind [kind] and the reset value [val]: the candidate [cfg2] that is
    kept, if any, and whether [found_free] is set. *)
Definition use_rdrstval (kind : ResetKind.t) (val : Const) (pidx : nat)
    (cfg : MemConfig) (rstdef : Capability ResetValDef)
  : outcome (option MemConfig * bool) :=
  if decide (rst_kind (cap_val rstdef) ≠ kind) then Ok (None, false)
  else
    pcfg2 ← vec_at (cfg_rd_ports cfg) pidx;
    let '(ok, pcfg2) := apply_rstval pcfg2 (cap_val rstdef) val in
    if negb ok then Ok (None, false)
    else
      let cfg2 := cfg_set_rd_ports cfg (<[pidx := pcfg2]> (cfg_rd_ports cfg)) in
      applied ← rdport_opts_applied cfg2 pidx rstdef;
      if (applied : bool) then Ok (Some cfg2, true)
      else
        '(ok, cfg2) ← apply_rdport_opts cfg2 pidx rstdef;
        if negb ok then Ok (None, false) else Ok (Some cfg2, false).

Definition rd_init_cap (val : Const) (pidx : nat) (cfg : MemConfig)
    (rstdef : Capability ResetValDef) : outcome (list MemConfig * bool) :=
  '(kept, free) ← use_rdrstval ResetKind.Init val pidx cfg rstdef;
  Ok (option_list kept, free).

Definition rd_init_cfg (port : MemRd) (pidx : nat) (cfg : MemConfig)
  : outcome MemConfigs :=
  pcfg ← vec_at (cfg_rd_ports cfg) pidx;
  rdef ← vec_at (ram_defs lib) (cfg_ram_def cfg);
  pdef ← vec_at (ram_ports rdef) (rp_port_def pcfg);
  if rp_emu_sync pcfg then Ok [cfg]
  else
    '(new_cfgs, found_free) ←
      caps_loop (rd_init_cap (rd_init_value port) pidx cfg)
        (pg_rdrstval (cap_val pdef));
    if negb found_free then
      Ok (new_cfgs ++
            [cfg_set_rd_ports cfg
               (<[pidx := rp_set_emu_init pcfg true]> (cfg_rd_ports cfg))])
    else Ok new_cfgs.

Definition handle_rd_init (cfgs : MemConfigs) : outcome MemConfigs :=
  generations (fun '(pidx, port) cfgs =>
      if negb (rd_clk_enable port) then Ok cfgs
      else if is_fully_undef (rd_init_value port) then Ok cfgs
      else for_each (rd_init_cfg port pidx) cfgs)
    (enumerate (mem_rd_ports mem)) cfgs.

Definition rd_arst_cap (val : Const) (pidx : nat) (cfg : MemConfig)
    (rstdef : Capability ResetValDef) : outcome (list MemConfig * bool) :=
  '(kept, free) ← use_rdrstval ResetKind.Async val pidx cfg rstdef;
  Ok (option_list kept, free).

Definition rd_arst_cfg (port : MemRd) (pidx : nat) (cfg : MemConfig)
  : outcome MemConfigs :=
  pcfg ← vec_at (cfg_rd_ports cfg) pidx;
  rdef ← vec_at (ram_defs lib) (cfg_ram_def cfg);
  pdef ← vec_at (ram_ports rdef) (rp_port_def pcfg);
  if rp_emu_sync pcfg then Ok [cfg]
  else
    '(new_cfgs, found_free) ←
      caps_loop (rd_arst_cap (rd_arst_value port) pidx cfg)
        (pg_rdrstval (cap_val pdef));
    if negb found_free then
      Ok (new_cfgs ++
            [cfg_set_rd_ports cfg
               (<[pidx := rp_set_emu_arst pcfg true]> (cfg_rd_ports cfg))])
    else Ok new_cfgs.

Definition handle_rd_arst (cfgs : MemConfigs) : outcome MemConfigs :=
  generations (fun '(pidx, port) cfgs =>
      if negb (rd_clk_enable port) then Ok cfgs
      else if decide (rd_arst port = sig_of_state S0) then Ok cfgs
      else if is_fully_undef (rd_arst_value port) then Ok cfgs
      else for_each (rd_arst_cfg port pidx) cfgs)
    (enumerate (mem_rd_ports mem)) cfgs.

(** The body of the loop over [rdsrstmode] in [handle_rd_srst]. *)
Definition rd_srst_mode (port : MemRd) (pidx : nat) (cfg2 : MemConfig)
    (mdef : Capability SrstKind.t) : outcome (list MemConfig) :=
  pcfg3 ← vec_at (cfg_rd_ports cfg2) pidx;
  let pcfg3 :=
    if bool_decide (cap_val mdef = SrstKind.SrstOverEn)
       && rd_ce_over_srst port
    then rp_set_emu_srst_en_prio pcfg3 true else pcfg3 in
  let pcfg3 :=
    if bool_decide (cap_val mdef = SrstKind.EnOverSrst)
       && negb (rd_ce_over_srst port)
    then rp_set_emu_srst_en_prio pcfg3 true else pcfg3 in
  let cfg3 := cfg_set_rd_ports cfg2 (<[pidx := pcfg3]> (cfg_rd_ports cfg2)) in
  '(ok, cfg3) ← apply_rdport_opts cfg3 pidx mdef;
  if negb ok then Ok [] else Ok [cfg3].

Definition rd_srst_cap (port : MemRd) (pidx : nat) (cfg : MemConfig)
    (pdef : Capability PortGroupDef) (rstdef : Capability ResetValDef)
  : outcome (list MemConfig * bool) :=
  '(kept, free) ←
    use_rdrstval ResetKind.Sync (rd_srst_value port) pidx cfg rstdef;
  match kept with
  | None => Ok ([], free)
  | Some cfg2 =>
      if decide (rd_en port = sig_of_state S1) then Ok ([cfg2], free)
      else
        new_cfgs ← for_each (rd_srst_mode port pidx cfg2)
                     (pg_rdsrstmode (cap_val pdef));
        Ok (new_cfgs, free)
  end.

Definition rd_srst_cfg (port : MemRd) (pidx : nat) (cfg : MemConfig)
  : outcome MemConfigs :=
  pcfg ← vec_at (cfg_rd_ports cfg) pidx;
  rdef ← vec_at (ram_defs lib) (cfg_ram_def cfg);
  pdef ← vec_at (ram_ports rdef) (rp_port_def pcfg);
  if rp_emu_sync pcfg then Ok [cfg]
  else
    '(new_cfgs, found_free) ←
      caps_loop (rd_srst_cap port pidx cfg pdef) (pg_rdrstval (cap_val pdef));
    if negb found_free then
      Ok (new_cfgs ++
            [cfg_set_rd_ports cfg
               (<[pidx := rp_set_emu_srst pcfg true]> (cfg_rd_ports cfg))])
    else Ok new_cfgs.

Definition handle_rd_srst (cfgs : MemConfigs) : outcome MemConfigs :=
  generations (fun '(pidx, port) cfgs =>
      if negb (rd_clk_enable port) then Ok cfgs
      else if decide (rd_srst port = sig_of_state S0) then Ok cfgs
      else if is_fully_undef (rd_srst_value port) then Ok cfgs
      else for_each (rd_srst_cfg port pidx) cfgs)
    (enumerate (mem_rd_ports mem)) cfgs.

(** [handle_dims] is empty in the source. *)
Definition handle_dims (cfgs : MemConfigs) : outcome MemConfigs := Ok cfgs.

(** ** The constructor of [MemMapping]

    The state it leaves: the members [kind], [style], [logic_ok] and
    [cfgs].  The debug trace between [handle_rd_srst] and [handle_dims]
    writes nothing to them and is left out. *)

Record MemMappingState := {
  mm_kind : RamKind.t;
  mm_style : string;
  mm_logic_ok : bool;
  mm_cfgs : MemConfigs;
}.

(** [for (int i = 0; i < GetSize(lib.ram_defs); i++) { MemConfig cfg;
    cfg.ram_def = i; cfgs.push_back(cfg); }] *)
Definition initial_cfgs : MemConfigs :=
  imap (fun i _ => new_MemConfig i) (ram_defs lib).

(** The phases up to the binding of the ports. *)
Definition binding_phases : outcome MemConfigs :=
  cfgs ← handle_ram_kind (determine_style.1) initial_cfgs;
  cfgs ← handle_ram_style (determine_style.2) cfgs;
  cfgs ← handle_init cfgs;
  cfgs ← handle_wr_ports cfgs;
  handle_rd_ports cfgs.

(** The phases after the binding of the ports. *)
Definition emulation_phases (cfgs : MemConfigs) : outcome MemConfigs :=
  cfgs ← handle_trans cfgs;
  cfgs ← handle_priority cfgs;
  cfgs ← handle_rd_init cfgs;
  cfgs ← handle_rd_arst cfgs;
  cfgs ← handle_rd_srst cfgs;
  handle_dims cfgs.

Definition MemMapping : outcome MemMappingState :=
  let '(kind, style) := determine_style in
  let logic_ok := determine_logic_ok kind in
  if decide (kind = RamKind.Logic) then
    Ok {| mm_kind := kind; mm_style := style; mm_logic_ok := logic_ok;
          mm_cfgs := [] |}
  else
    cfgs ← binding_phases;
    cfgs ← emulation_phases cfgs;
    Ok {| mm_kind := kind; mm_style := style; mm_logic_ok := logic_ok;
          mm_cfgs := cfgs |}.

End Engine.

Arguments cap_val {_ T} _.
Arguments cap_opts {_ T} _.
Arguments cap_portopts {_ T} _.

(** * The vocabulary of the specification *)

Section Vocabulary.
Context `{Kernel}.

(** Two sources "bind no common key to different values". *)
Definition opts_compatible (src1 src2 : OptionEntries) : Prop :=
  ∀ k v1 v2, (k, v1) ∈ src1 → (k, v2) ∈ src2 → v1 = v2.

(** The value of the first style attribute present, and the kind and
    named style it stands for. *)
Definition style_value_spec (val : Const) (r : RamKind.t * string) : Prop :=
  (val = const_of_int 1 → r = (RamKind.NotLogic, ""))
  ∧ (val ≠ const_of_int 1 →
     let s := decode_string val in
     (s = "auto" → r = (RamKind.Auto, ""))
     ∧ (s = "logic" ∨ s = "registers" → r = (RamKind.Logic, ""))
     ∧ (s = "distributed" → r = (RamKind.Distributed, ""))
     ∧ (s = "block" ∨ s = "block_ram" ∨ s = "ebr" → r = (RamKind.Block, ""))
     ∧ (s = "huge" ∨ s = "ultra" → r = (RamKind.Huge, ""))
     ∧ (s ∉ ["auto"; "logic"; "registers"; "distributed"; "block";
              "block_ram"; "ebr"; "huge"; "ultra"] →
        r = (RamKind.NotLogic, s))).

(** "All write ports share clock-enable, clock signal, and polarity". *)
Definition wr_ports_share (ports : list MemWr) : Prop :=
  ∀ p q, p ∈ ports → q ∈ ports →
    wr_clk_enable p = wr_clk_enable q
    ∧ wr_clk p = wr_clk q
    ∧ wr_clk_polarity p = wr_clk_polarity q.

(** All write ports are clocked, by one clock signal and polarity. *)
Definition wr_ports_one_clock (ports : list MemWr) : Prop :=
  (∀ p, p ∈ ports → wr_clk_enable p = true)
  ∧ ∀ p q, p ∈ ports → q ∈ ports →
      wr_clk p = wr_clk q ∧ wr_clk_polarity p = wr_clk_polarity q.

(** What the phases after the binding keep of a read port: its binding
    and its [emu_sync] flag, and every emulation flag when [emu_sync] is
    set. *)
Definition rd_port_kept (p p' : RdPortConfig) : Prop :=
  rp_wr_port p' = rp_wr_port p
  ∧ rp_port_def p' = rp_port_def p
  ∧ rp_emu_sync p' = rp_emu_sync p
  ∧ (rp_emu_sync p = true →
     rp_emu_en p' = rp_emu_en p
     ∧ rp_emu_arst p' = rp_emu_arst p
     ∧ rp_emu_srst p' = rp_emu_srst p
     ∧ rp_emu_init p' = rp_emu_init p
     ∧ rp_emu_srst_en_prio p' = rp_emu_srst_en_prio p).

(** The binding of a write port: its group and the read port it shares
    with. *)
Definition wr_binding (p : WrPortConfig) : nat * Z :=
  (wp_port_def p, wp_rd_port p).

(** What the phases after the binding keep of a candidate. *)
Definition binding_kept (c c' : MemConfig) : Prop :=
  cfg_ram_def c' = cfg_ram_def c
  ∧ wr_binding <$> cfg_wr_ports c' = wr_binding <$> cfg_wr_ports c
  ∧ Forall2 rd_port_kept (cfg_rd_ports c) (cfg_rd_ports c').

(** Every candidate of [out] descends from one of [cfgs]. *)
Definition kept_from (cfgs out : MemConfigs) : Prop :=
  ∀ c', c' ∈ out → ∃ c, c ∈ cfgs ∧ binding_kept c c'.

(** C9: [emu_sync] excludes the other emulation flags of a read port. *)
Definition emu_sync_exclusive (p : RdPortConfig) : Prop :=
  rp_emu_sync p = true →
  rp_emu_en p = false ∧ rp_emu_arst p = false ∧ rp_emu_srst p = false
  ∧ rp_emu_init p = false ∧ rp_emu_srst_en_prio p = false.

(** The read port config [p] is bound to the group [g] and shares no
    write port. *)
Definition unshared_on (g : nat) (p : RdPortConfig) : Prop :=
  rp_port_def p = g ∧ rp_wr_port p = (-1)%Z.

(** C2 as stated: the abstract ports bound to the group [g], a read port
    that shares a write port counting with its write port. *)
Definition ports_bound (cfg : MemConfig) (g : nat) : nat :=
  used_by_wr_ports cfg g
  + length (filter (unshared_on g) (cfg_rd_ports cfg)).

(** C2 as amended: the same, with the read ports that are bound to [g]
    without sharing counted as one port together. *)
Definition slots_bound (cfg : MemConfig) (g : nat) : nat :=
  used_by_wr_ports cfg g
  + min 1 (length (filter (unshared_on g) (cfg_rd_ports cfg))).

Definition group_slots_ok (lib : Library) (cfg : MemConfig) : Prop :=
  ∀ rdef g def,
    ram_defs lib !! cfg_ram_def cfg = Some rdef →
    ram_ports rdef !! g = Some def →
    slots_bound cfg g ≤ length (pg_names (cap_val def)).

(** The write ports bound to a group do not exceed its names. *)
Definition wr_usage_ok (lib : Library) (cfg : MemConfig) : Prop :=
  ∀ rdef g def,
    ram_defs lib !! cfg_ram_def cfg = Some rdef →
    ram_ports rdef !! g = Some def →
    used_by_wr_ports cfg g ≤ length (pg_names (cap_val def)).

(** Moreover, a group that a read port is bound to without sharing has a
    name that no write port uses. *)
Definition group_usage_ok (lib : Library) (cfg : MemConfig) : Prop :=
  wr_usage_ok lib cfg
  ∧ ∀ rdef g def p,
      ram_defs lib !! cfg_ram_def cfg = Some rdef →
      ram_ports rdef !! g = Some def →
      p ∈ cfg_rd_ports cfg → rp_wr_port p = (-1)%Z → rp_port_def p = g →
      used_by_wr_ports cfg g < length (pg_names (cap_val def)).

(** The candidate names a RAM definition of the library. *)
Definition cfg_valid (lib : Library) (cfg : MemConfig) : Prop :=
  cfg_ram_def cfg < length (ram_defs lib).

(** The masks of the ports have one entry per write port, as [Mem::check]
    of [kernel/mem.cc] asserts. *)
Definition mem_wf (mem : Mem) : Prop :=
  (∀ port, port ∈ mem_rd_ports mem →
     length (rd_transparency_mask port) = length (mem_wr_ports mem)
     ∧ length (rd_collision_x_mask port) = length (mem_wr_ports mem))
  ∧ (∀ port, port ∈ mem_wr_ports mem →
       length (wr_priority_mask port) = length (mem_wr_ports mem)).

(** What the filters by kind, style and initial value keep of a
    candidate: everything but [opts]. *)
Definition ports_kept (c c' : MemConfig) : Prop :=
  cfg_ram_def c' = cfg_ram_def c
  ∧ cfg_wr_ports c' = cfg_wr_ports c
  ∧ cfg_rd_ports c' = cfg_rd_ports c.

(** The invariant of the binding of the write ports. *)
Definition wr_inv (lib : Library) (cfg : MemConfig) : Prop :=
  cfg_valid lib cfg ∧ cfg_rd_ports cfg = [] ∧ wr_usage_ok lib cfg.

(** A read port that shares a write port is bound to the group of that
    write port. *)
Definition shared_on_write_group (cfg : MemConfig) : Prop :=
  ∀ p, p ∈ cfg_rd_ports cfg → rp_wr_port p ≠ (-1)%Z →
    (0 ≤ rp_wr_port p)%Z
    ∧ (wp_port_def <$> cfg_wr_ports cfg) !! Z.to_nat (rp_wr_port p)
      = Some (rp_port_def p).

(** The invariant of the binding of the read ports, and of the phases
    after it. *)
Definition rd_inv (lib : Library) (cfg : MemConfig) : Prop :=
  group_usage_ok lib cfg
  ∧ Forall emu_sync_exclusive (cfg_rd_ports cfg)
  ∧ shared_on_write_group cfg.

(** C4: a [wrtrans] capability matches the pair.  [shares] tells whether
    the read and the write port share a physical port, [rname] is the first
    name of the read port's group. *)
Definition wrtrans_matches (shares : bool) (rname : string)
    (transparent : bool) (t : WrTransDef) : bool :=
  match wt_target_kind t with
  | TransTargetKind.Self => shares
  | TransTargetKind.Other => negb shares
  | TransTargetKind.Named => bool_decide (rname = wt_target_name t)
  end
  && bool_decide
       (wt_kind t = if transparent then TransKind.New else TransKind.Old).

(** [is_applied]: the options of the capability are present already, in
    [opts] and in the [portopts] of the write port. *)
Definition is_applied {T} (cfg : MemConfig) (wpcfg : WrPortConfig)
    (cap : Capability T) : bool :=
  opts_applied (cfg_opts cfg) (cap_opts cap)
  && opts_applied (wp_portopts wpcfg) (cap_portopts cap).

(** "Clone + apply": the clone with the options of the capability merged
    into [opts] and into the [portopts] of the write port [wpidx], when
    both merges succeed. *)
Definition clone_apply {T} (cfg : MemConfig) (wpidx : nat)
    (wpcfg : WrPortConfig) (cap : Capability T) : list MemConfig :=
  let r1 := apply_opts (cfg_opts cfg) (cap_opts cap) in
  let r2 := apply_opts (wp_portopts wpcfg) (cap_portopts cap) in
  if r1.1 && r2.1 then
    [cfg_set_wr_ports (cfg_set_opts cfg r1.2)
       (<[wpidx := wp_set_portopts wpcfg r2.2]> (cfg_wr_ports cfg))]
  else [].

(** C4: the candidate [cfg] with [wpidx] appended to the [emu_trans] of
    the config [rpcfg] of the read port [rpidx]; every other field of the
    candidate and of the port config is as it was. *)
Definition emu_trans_appended (cfg : MemConfig) (rpidx : nat)
    (rpcfg : RdPortConfig) (wpidx : nat) : MemConfig :=
  {| cfg_ram_def := cfg_ram_def cfg;
     cfg_opts := cfg_opts cfg;
     cfg_wr_ports := cfg_wr_ports cfg;
     cfg_rd_ports :=
       <[rpidx :=
           {| rp_wr_port := rp_wr_port rpcfg;
              rp_port_def := rp_port_def rpcfg;
              rp_portopts := rp_portopts rpcfg;
              rp_resetvals := rp_resetvals rpcfg;
              rp_emu_sync := rp_emu_sync rpcfg;
              rp_emu_en := rp_emu_en rpcfg;
              rp_emu_arst := rp_emu_arst rpcfg;
              rp_emu_srst := rp_emu_srst rpcfg;
              rp_emu_init := rp_emu_init rpcfg;
              rp_emu_srst_en_prio := rp_emu_srst_en_prio rpcfg;
              rp_emu_trans := rp_emu_trans rpcfg ++ [wpidx] |}]>
         (cfg_rd_ports cfg);
     cfg_clocks_anyedge := cfg_clocks_anyedge cfg;
     cfg_clocks_pnedge := cfg_clocks_pnedge cfg |}.

(** C4: the candidates that one candidate gives for a pair with a
    transparency restriction. *)
Definition trans_spec (rpidx wpidx : nat) (transparent : bool)
    (cfg : MemConfig) (rpcfg : RdPortConfig) (wpcfg : WrPortConfig)
    (caps : Caps WrTransDef) (rname : string) : list MemConfig :=
  let emulated := emu_trans_appended cfg rpidx rpcfg wpidx in
  if rp_emu_sync rpcfg then [if transparent then emulated else cfg]
  else
    let shares := bool_decide (wp_rd_port wpcfg = Z.of_nat rpidx) in
    let matching :=
      List.filter
        (fun t => wrtrans_matches shares rname transparent (cap_val t))
        caps in
    flat_map (fun t => if is_applied cfg wpcfg t then [cfg]
                       else clone_apply cfg wpidx wpcfg t) matching
    ++ (if transparent && negb (existsb (is_applied cfg wpcfg) matching)
        then [emulated] else []).

(** C3: the bindings of [src] merge into [dst]: some map holds the
    bindings of [dst] and those of [src] together, so no key of [src] is
    bound to another value in [dst] or twice in [src]. *)
Definition opts_merge (dst : gmap string Const) (src : OptionEntries)
  : Prop :=
  ∃ m, dst ⊆ m ∧ ∀ k v, (k, v) ∈ src → m !! k = Some v.

(** [o] is the merge of [src] into [dst]: the least map that holds the
    bindings of [dst] and those of [src]. *)
Definition opts_merged (dst : gmap string Const) (src : OptionEntries)
    (o : gmap string Const) : Prop :=
  dst ⊆ o
  ∧ (∀ k v, (k, v) ∈ src → o !! k = Some v)
  ∧ ∀ m, dst ⊆ m → (∀ k v, (k, v) ∈ src → m !! k = Some v) → o ⊆ m.

(** C3: the candidate [cfg] with the read port [pidx] bound to share the
    port of the write port [wpidx], whose config was [wpcfg]: the write
    port records the read port and has the port options [popts], the
    candidate has the options [opts], and the new read port config records
    the write port and its group, with [emu_en] as given and nothing else
    set. *)
Definition shared_candidate (cfg : MemConfig) (pidx wpidx : nat)
    (wpcfg : WrPortConfig) (opts popts : gmap string Const) (emu_en : bool)
  : MemConfig :=
  {| cfg_ram_def := cfg_ram_def cfg;
     cfg_opts := opts;
     cfg_wr_ports :=
       <[wpidx := {| wp_rd_port := Z.of_nat pidx;
                     wp_port_def := wp_port_def wpcfg;
                     wp_portopts := popts;
                     wp_emu_prio := wp_emu_prio wpcfg |}]> (cfg_wr_ports cfg);
     cfg_rd_ports :=
       cfg_rd_ports cfg
       ++ [{| rp_wr_port := Z.of_nat wpidx;
              rp_port_def := wp_port_def wpcfg;
              rp_portopts := ∅; rp_resetvals := ∅;
              rp_emu_sync := false; rp_emu_en := emu_en;
              rp_emu_arst := false; rp_emu_srst := false;
              rp_emu_init := false; rp_emu_srst_en_prio := false;
              rp_emu_trans := [] |}];
     cfg_clocks_anyedge := cfg_clocks_anyedge cfg;
     cfg_clocks_pnedge := cfg_clocks_pnedge cfg |}.

(** C3: the candidates [out] that one [rden] capability gives for the read
    port [pidx] sharing the port of the write port [wpidx].  None if the
    options or the port options of the capability do not merge.  If they
    merge: for [none] the shared candidate, with [emu_en] iff the enable of
    the read port is not the constant 1; for [any] the shared candidate;
    for [write_implies] the shared candidate, with [emu_en] iff the query
    answers false; for [write_excludes] none iff the query answers false,
    the shared candidate otherwise. *)
Definition rden_split (get_wr_implies_rd get_wr_excludes_rd : nat → nat → bool)
    (port : MemRd) (pidx wpidx : nat) (cfg : MemConfig)
    (wpcfg : WrPortConfig) (endef : Capability RdEnKind.t)
    (out : list MemConfig) : Prop :=
  (¬ (opts_merge (cfg_opts cfg) (cap_opts endef)
      ∧ opts_merge (wp_portopts wpcfg) (cap_portopts endef)) → out = [])
  ∧ ∀ o po,
      opts_merged (cfg_opts cfg) (cap_opts endef) o →
      opts_merged (wp_portopts wpcfg) (cap_portopts endef) po →
      match cap_val endef with
      | RdEnKind.None =>
          ∃ b, out = [shared_candidate cfg pidx wpidx wpcfg o po b]
               ∧ (b = true ↔ rd_en port ≠ sig_of_state S1)
      | RdEnKind.Any =>
          out = [shared_candidate cfg pidx wpidx wpcfg o po false]
      | RdEnKind.WriteImplies =>
          ∃ b, out = [shared_candidate cfg pidx wpidx wpcfg o po b]
               ∧ (b = true ↔ get_wr_implies_rd wpidx pidx = false)
      | RdEnKind.WriteExcludes =>
          (out = [] ↔ get_wr_excludes_rd wpidx pidx = false)
          ∧ (get_wr_excludes_rd wpidx pidx = true →
             out = [shared_candidate cfg pidx wpidx wpcfg o po false])
      end.

(** C3 as the spec states it for [write_excludes], for the read port
    [pidx] and the write port [wpidx]: no candidate of [out] binds the read
    port to share the write port exactly when the query answers false. *)
Definition excludes_drop_iff_query (get_wr_excludes_rd : nat → nat → bool)
    (pidx wpidx : nat) (out : MemConfigs) : Prop :=
  (∀ c p, c ∈ out → cfg_rd_ports c !! pidx = Some p →
     rp_wr_port p ≠ Z.of_nat wpidx)
  ↔ get_wr_excludes_rd wpidx pidx = false.

(** ** Named clocks and reset values *)

(** The table in which [apply_clock] looks a clock definition up:
    [clocks_anyedge] for an [anyedge] clock, [clocks_pnedge] for a
    [posedge] or a [negedge] one. *)
Definition clock_table (cfg : MemConfig) (def : ClockDef)
  : gmap string (SigBit * bool) :=
  match clk_kind def with
  | ClkPolKind.Anyedge => cfg_clocks_anyedge cfg
  | ClkPolKind.Posedge | ClkPolKind.Negedge => cfg_clocks_pnedge cfg
  end.

(** What a port clocked with polarity [pol] asks of a named clock: the
    polarity itself of an [anyedge] clock, and whether the clock has to be
    inverted of a [posedge] or a [negedge] one. *)
Definition clock_edge (def : ClockDef) (pol : bool) : bool :=
  match clk_kind def with
  | ClkPolKind.Anyedge => pol
  | ClkPolKind.Posedge => negb pol
  | ClkPolKind.Negedge => pol
  end.

(** The clock definition is unnamed, or its name stands for the signal
    [clk] with the edge of the port in the candidate. *)
Definition clock_recorded (cfg : MemConfig) (def : ClockDef) (clk : SigBit)
    (pol : bool) : Prop :=
  clk_name def = ""
  ∨ clock_table cfg def !! clk_name def = Some (clk, clock_edge def pol).

(** The clock tables of [c'] hold every entry of the tables of [c]. *)
Definition clocks_kept (c c' : MemConfig) : Prop :=
  cfg_clocks_anyedge c ⊆ cfg_clocks_anyedge c'
  ∧ cfg_clocks_pnedge c ⊆ cfg_clocks_pnedge c'.

(** The candidate with the name of the clock definition standing for the
    signal [clk] and the edge of the port, in the table of the kind of the
    definition; every other field, and the other table, as in [cfg]. *)
Definition with_clock (cfg : MemConfig) (def : ClockDef) (clk : SigBit)
    (pol : bool) : MemConfig :=
  {| cfg_ram_def := cfg_ram_def cfg;
     cfg_opts := cfg_opts cfg;
     cfg_wr_ports := cfg_wr_ports cfg;
     cfg_rd_ports := cfg_rd_ports cfg;
     cfg_clocks_anyedge :=
       if decide (clk_kind def = ClkPolKind.Anyedge)
       then <[clk_name def := (clk, pol)]> (cfg_clocks_anyedge cfg)
       else cfg_clocks_anyedge cfg;
     cfg_clocks_pnedge :=
       if decide (clk_kind def = ClkPolKind.Anyedge)
       then cfg_clocks_pnedge cfg
       else <[clk_name def := (clk, clock_edge def pol)]>
              (cfg_clocks_pnedge cfg) |}.

(** No bit of the value is [1]. *)
Definition no_one_bit (val : Const) : Prop :=
  ∀ bit, bit ∈ const_bits val → bit ≠ S1.

(** ** What the memory asks for

    The conditions under which a phase deals with a port or with a pair of
    ports, read off the guards of its loops. *)

(** The read port [j] is clocked and has an initial value. *)
Definition init_guard (mem : Mem) (j : nat) : Prop :=
  ∃ port, mem_rd_ports mem !! j = Some port
    ∧ rd_clk_enable port = true
    ∧ is_fully_undef (rd_init_value port) = false.

(** The read port [j] is clocked and has an asynchronous reset with a
    value. *)
Definition arst_guard (mem : Mem) (j : nat) : Prop :=
  ∃ port, mem_rd_ports mem !! j = Some port
    ∧ rd_clk_enable port = true
    ∧ rd_arst port ≠ sig_of_state S0
    ∧ is_fully_undef (rd_arst_value port) = false.

(** The read port [j] is clocked and has a synchronous reset with a
    value. *)
Definition srst_guard (mem : Mem) (j : nat) : Prop :=
  ∃ port, mem_rd_ports mem !! j = Some port
    ∧ rd_clk_enable port = true
    ∧ rd_srst port ≠ sig_of_state S0
    ∧ is_fully_undef (rd_srst_value port) = false.

(** Moreover its enable is not the constant 1. *)
Definition srst_prio_guard (mem : Mem) (j : nat) : Prop :=
  ∃ port, mem_rd_ports mem !! j = Some port
    ∧ rd_clk_enable port = true
    ∧ rd_srst port ≠ sig_of_state S0
    ∧ is_fully_undef (rd_srst_value port) = false
    ∧ rd_en port ≠ sig_of_state S1.

(** The read port [j] and the write port [w] are in one clock domain and
    the read port has to show a definite value when both address one
    word. *)
Definition same_domain (mem : Mem) (j w : nat) (transparent : bool) : Prop :=
  ∃ port wport, mem_rd_ports mem !! j = Some port
    ∧ mem_wr_ports mem !! w = Some wport
    ∧ rd_clk_enable port = true
    ∧ wr_clk_enable wport = true
    ∧ rd_clk port = wr_clk wport
    ∧ rd_clk_polarity port = wr_clk_polarity wport
    ∧ rd_collision_x_mask port !! w = Some false
    ∧ rd_transparency_mask port !! w = Some transparent.

(** The write port [p2] has priority over the write port [p1]. *)
Definition prio_guard (mem : Mem) (p2 p1 : nat) : Prop :=
  ∃ port2, mem_wr_ports mem !! p2 = Some port2
    ∧ wr_priority_mask port2 !! p1 = Some true.

(** ** What a candidate keeps as the search goes on *)

(** The config of the write port [j] in a candidate and in a candidate
    that descends from it: the group is kept, and so is the read port it
    shares with once it shares with one; the port options are only added
    to; [emu_prio] only gets write ports that [j] has priority over. *)
Definition wr_port_evolves (mem : Mem) (j : nat) (p p' : WrPortConfig)
  : Prop :=
  wp_port_def p' = wp_port_def p
  ∧ (wp_rd_port p ≠ (-1)%Z → wp_rd_port p' = wp_rd_port p)
  ∧ wp_portopts p ⊆ wp_portopts p'
  ∧ (∀ p1, p1 ∈ wp_emu_prio p → p1 ∈ wp_emu_prio p')
  ∧ (∀ p1, p1 ∈ wp_emu_prio p' → p1 ∈ wp_emu_prio p ∨ prio_guard mem j p1).

(** The same for the read port [j]: the binding, [emu_sync] and [emu_en]
    are kept; the port options and the named reset values are only added
    to; an emulation flag that is set stays set, and is set only for what
    the memory asks for. *)
Definition rd_port_evolves (mem : Mem) (j : nat) (p p' : RdPortConfig)
  : Prop :=
  rp_wr_port p' = rp_wr_port p
  ∧ rp_port_def p' = rp_port_def p
  ∧ rp_emu_sync p' = rp_emu_sync p
  ∧ rp_emu_en p' = rp_emu_en p
  ∧ rp_portopts p ⊆ rp_portopts p'
  ∧ rp_resetvals p ⊆ rp_resetvals p'
  ∧ (rp_emu_init p = true → rp_emu_init p' = true)
  ∧ (rp_emu_init p' = true → rp_emu_init p = true ∨ init_guard mem j)
  ∧ (rp_emu_arst p = true → rp_emu_arst p' = true)
  ∧ (rp_emu_arst p' = true → rp_emu_arst p = true ∨ arst_guard mem j)
  ∧ (rp_emu_srst p = true → rp_emu_srst p' = true)
  ∧ (rp_emu_srst p' = true → rp_emu_srst p = true ∨ srst_guard mem j)
  ∧ (rp_emu_srst_en_prio p = true → rp_emu_srst_en_prio p' = true)
  ∧ (rp_emu_srst_en_prio p' = true →
     rp_emu_srst_en_prio p = true ∨ srst_prio_guard mem j)
  ∧ (∀ w, w ∈ rp_emu_trans p → w ∈ rp_emu_trans p')
  ∧ (∀ w, w ∈ rp_emu_trans p' →
       w ∈ rp_emu_trans p ∨ same_domain mem j w true).

(** The candidate [c'] descends from the candidate [c]. *)
Definition evolves (mem : Mem) (c c' : MemConfig) : Prop :=
  cfg_ram_def c' = cfg_ram_def c
  ∧ cfg_opts c ⊆ cfg_opts c'
  ∧ clocks_kept c c'
  ∧ (∀ j p, cfg_wr_ports c !! j = Some p →
       ∃ p', cfg_wr_ports c' !! j = Some p' ∧ wr_port_evolves mem j p p')
  ∧ (∀ j p, cfg_rd_ports c !! j = Some p →
       ∃ p', cfg_rd_ports c' !! j = Some p' ∧ rd_port_evolves mem j p p').

(** ... with the same ports, each write port sharing with the same read
    port. *)
Definition evolves_bound (mem : Mem) (c c' : MemConfig) : Prop :=
  evolves mem c c'
  ∧ length (cfg_wr_ports c') = length (cfg_wr_ports c)
  ∧ length (cfg_rd_ports c') = length (cfg_rd_ports c)
  ∧ wp_rd_port <$> cfg_wr_ports c' = wp_rd_port <$> cfg_wr_ports c.

(** Every candidate of [out] is related by [R] to one of [cfgs]. *)
Definition descend (R : MemConfig → MemConfig → Prop)
    (cfgs out : MemConfigs) : Prop :=
  ∀ c', c' ∈ out → ∃ c, c ∈ cfgs ∧ R c c'.

(** ** What a candidate provides

    For each thing that the memory asks for, a candidate either has a
    capability of the chosen RAM definition whose options it holds, or it
    records that the thing is to be emulated. *)

(** The [wrtrans] capability [t] of the group of the write port speaks of
    the read port [j], whose group is [rpdef], and gives the behaviour
    asked for. *)
Definition wrtrans_covers (j : nat) (wp : WrPortConfig)
    (rpdef : Capability PortGroupDef) (transparent : bool) (t : WrTransDef)
  : Prop :=
  match wt_target_kind t with
  | TransTargetKind.Self => wp_rd_port wp = Z.of_nat j
  | TransTargetKind.Other => wp_rd_port wp ≠ Z.of_nat j
  | TransTargetKind.Named =>
      pg_names (cap_val rpdef) !! 0 = Some (wt_target_name t)
  end
  ∧ wt_kind t = (if transparent then TransKind.New else TransKind.Old).

(** The pair of the read port [j] and the write port [w] is dealt with in
    the candidate [c]. *)
Definition trans_done (lib : Library) (j w : nat) (transparent : bool)
    (c : MemConfig) : Prop :=
  ∃ rp wp rdef wpdef rpdef,
    cfg_rd_ports c !! j = Some rp
    ∧ cfg_wr_ports c !! w = Some wp
    ∧ ram_defs lib !! cfg_ram_def c = Some rdef
    ∧ ram_ports rdef !! wp_port_def wp = Some wpdef
    ∧ ram_ports rdef !! rp_port_def rp = Some rpdef
    ∧ ((transparent = true ∧ w ∈ rp_emu_trans rp)
       ∨ (transparent = false ∧ rp_emu_sync rp = true)
       ∨ (rp_emu_sync rp = false
          ∧ ∃ tdef, tdef ∈ pg_wrtrans (cap_val wpdef)
              ∧ wrtrans_covers j wp rpdef transparent (cap_val tdef)
              ∧ is_applied c wp tdef = true)).

(** The options of a capability of the group of a read port are present:
    in [opts], and in the [portopts] of the read port or, when it shares a
    write port, of that write port. *)
Definition rd_caps_applied {T} (c : MemConfig) (rp : RdPortConfig)
    (cap : Capability T) : Prop :=
  opts_applied (cfg_opts c) (cap_opts cap) = true
  ∧ if decide (rp_wr_port rp = (-1)%Z)
    then opts_applied (rp_portopts rp) (cap_portopts cap) = true
    else ∃ wp, cfg_wr_ports c !! Z.to_nat (rp_wr_port rp) = Some wp
           ∧ opts_applied (wp_portopts wp) (cap_portopts cap) = true.

(** The [rdrstval] capability gives the reset of the kind [kind] the value
    [val]: it is [zero] and the value has no 1 bit, or it is named and the
    name stands for the value in the read port. *)
Definition rstval_covers (kind : ResetKind.t) (val : Const) (c : MemConfig)
    (rp : RdPortConfig) (rstdef : Capability ResetValDef) : Prop :=
  rst_kind (cap_val rstdef) = kind
  ∧ match rst_val_kind (cap_val rstdef) with
    | ResetValKind.None => False
    | ResetValKind.Zero => no_one_bit val
    | ResetValKind.Named =>
        rp_resetvals rp !! rst_name (cap_val rstdef) = Some val
    end
  ∧ rd_caps_applied c rp rstdef.

(** The initial value or the asynchronous reset value [val] of the read
    port [j] is dealt with; [flag] is the emulation flag of the kind. *)
Definition rst_done (lib : Library) (kind : ResetKind.t) (val : Const)
    (flag : RdPortConfig → bool) (j : nat) (c : MemConfig) : Prop :=
  ∃ rp rdef pdef,
    cfg_rd_ports c !! j = Some rp
    ∧ ram_defs lib !! cfg_ram_def c = Some rdef
    ∧ ram_ports rdef !! rp_port_def rp = Some pdef
    ∧ (rp_emu_sync rp = true
       ∨ flag rp = true
       ∨ ∃ rstdef, rstdef ∈ pg_rdrstval (cap_val pdef)
           ∧ rstval_covers kind val c rp rstdef).

(** The [rdsrstmode] capability agrees with the priority of enable and
    synchronous reset in the memory port, or the priority is emulated. *)
Definition srst_mode_ok (port : MemRd) (rp : RdPortConfig) (m : SrstKind.t)
  : Prop :=
  match m with
  | SrstKind.SrstOverEn =>
      rd_ce_over_srst port = true → rp_emu_srst_en_prio rp = true
  | SrstKind.EnOverSrst =>
      rd_ce_over_srst port = false → rp_emu_srst_en_prio rp = true
  | SrstKind.Any => True
  end.

(** The synchronous reset of the read port [j] is dealt with. *)
Definition srst_done (lib : Library) (port : MemRd) (j : nat)
    (c : MemConfig) : Prop :=
  ∃ rp rdef pdef,
    cfg_rd_ports c !! j = Some rp
    ∧ ram_defs lib !! cfg_ram_def c = Some rdef
    ∧ ram_ports rdef !! rp_port_def rp = Some pdef
    ∧ (rp_emu_sync rp = true
       ∨ rp_emu_srst rp = true
       ∨ ∃ rstdef, rstdef ∈ pg_rdrstval (cap_val pdef)
           ∧ rstval_covers ResetKind.Sync (rd_srst_value port) c rp rstdef
           ∧ (rd_en port = sig_of_state S1
              ∨ ∃ mdef, mdef ∈ pg_rdsrstmode (cap_val pdef)
                  ∧ rd_caps_applied c rp mdef
                  ∧ srst_mode_ok port rp (cap_val mdef))).

(** ** What the binding of a port records *)

(** The write port [port] of the memory is bound by the config [p]: the
    port has a clock; the group is one of the chosen RAM definition, with a
    write side, and its options are present; so are the options of one of
    its [clock] capabilities, whose name (if any) stands for the clock of
    the port. *)
Definition wr_port_ok (lib : Library) (c : MemConfig) (port : MemWr)
    (p : WrPortConfig) : Prop :=
  wr_clk_enable port = true
  ∧ ∃ rdef def cdef,
      ram_defs lib !! cfg_ram_def c = Some rdef
      ∧ ram_ports rdef !! wp_port_def p = Some def
      ∧ pg_kind (cap_val def) ≠ PortKind.Ar
      ∧ pg_kind (cap_val def) ≠ PortKind.Sr
      ∧ opts_applied (cfg_opts c) (cap_opts def) = true
      ∧ cdef ∈ pg_clock (cap_val def)
      ∧ is_applied c p cdef = true
      ∧ clock_recorded c (cap_val cdef) (sig_as_bit (wr_clk port))
          (wr_clk_polarity port).

(** The write port [w] shares with no read port, or with a read port
    that shares with it. *)
Definition wr_share_ok (c : MemConfig) (w : nat) (p : WrPortConfig) : Prop :=
  wp_rd_port p = (-1)%Z
  ∨ ∃ j rp, wp_rd_port p = Z.of_nat j
      ∧ cfg_rd_ports c !! j = Some rp
      ∧ rp_wr_port rp = Z.of_nat w.

(** The [rden] capability with the value [v] and the flag [emu_en] of the
    read port [j]. *)
Definition rden_ok (get_wr_implies_rd get_wr_excludes_rd : nat → nat → bool)
    (j : nat) (port : MemRd) (p : RdPortConfig) (v : RdEnKind.t) : Prop :=
  match v with
  | RdEnKind.None =>
      rp_emu_en p = bool_decide (rd_en port ≠ sig_of_state S1)
  | RdEnKind.Any => rp_emu_en p = false
  | RdEnKind.WriteImplies =>
      rp_emu_en p
      = if decide (rp_wr_port p = (-1)%Z) then false
        else negb (get_wr_implies_rd (Z.to_nat (rp_wr_port p)) j)
  | RdEnKind.WriteExcludes =>
      rp_emu_en p = false
      ∧ (rp_wr_port p ≠ (-1)%Z →
         get_wr_excludes_rd (Z.to_nat (rp_wr_port p)) j = true)
  end.

(** The read port [j] of the memory, [port], is bound by the config [p]. *)
Definition rd_port_ok (mem : Mem) (lib : Library)
    (addr_compatible get_wr_implies_rd get_wr_excludes_rd : nat → nat → bool)
    (c : MemConfig) (j : nat) (port : MemRd) (p : RdPortConfig) : Prop :=
  ∃ rdef def,
    ram_defs lib !! cfg_ram_def c = Some rdef
    ∧ ram_ports rdef !! rp_port_def p = Some def
    (* the group has a read side and its options are present *)
    ∧ pg_kind (cap_val def) ≠ PortKind.Sw
    ∧ opts_applied (cfg_opts c) (cap_opts def) = true
    (* a port without clock is on an asynchronous group; a clocked port
       on an asynchronous group gets a register after it *)
    ∧ (rd_clk_enable port = false →
       pg_kind (cap_val def) = PortKind.Ar
       ∨ pg_kind (cap_val def) = PortKind.Arsw)
    ∧ rp_emu_sync p
      = rd_clk_enable port
        && bool_decide (pg_kind (cap_val def) = PortKind.Ar
                        ∨ pg_kind (cap_val def) = PortKind.Arsw)
    (* the read enable *)
    ∧ (if bool_decide (pg_kind (cap_val def) = PortKind.Ar
                       ∨ pg_kind (cap_val def) = PortKind.Arsw)
       then rp_emu_en p = false
       else ∃ endef, endef ∈ pg_rden (cap_val def)
              ∧ rd_caps_applied c p endef
              ∧ rden_ok get_wr_implies_rd get_wr_excludes_rd j port p
                  (cap_val endef))
    (* the port alone, or sharing a write port *)
    ∧ (if decide (rp_wr_port p = (-1)%Z)
       then
         pg_kind (cap_val def) = PortKind.Sr
         ∨ pg_kind (cap_val def) = PortKind.Srsw →
         ∃ cdef, cdef ∈ pg_clock (cap_val def)
           ∧ rd_caps_applied c p cdef
           ∧ clock_recorded c (cap_val cdef) (sig_as_bit (rd_clk port))
               (rd_clk_polarity port)
       else
         ∃ w wport wp,
           rp_wr_port p = Z.of_nat w
           ∧ mem_wr_ports mem !! w = Some wport
           ∧ cfg_wr_ports c !! w = Some wp
           ∧ wp_rd_port wp = Z.of_nat j
           ∧ wp_port_def wp = rp_port_def p
           ∧ addr_compatible w j = true
           ∧ (pg_kind (cap_val def) = PortKind.Srsw →
              rd_clk port = wr_clk wport
              ∧ rd_clk_polarity port = wr_clk_polarity wport)).

(** The write port [w] emulates priority only over write ports that the
    memory gives it priority over. *)
Definition wr_emu_sound (mem : Mem) (w : nat) (p : WrPortConfig) : Prop :=
  ∀ p1, p1 ∈ wp_emu_prio p → prio_guard mem w p1.

(** The read port [j] emulates only what the memory asks for. *)
Definition rd_emu_sound (mem : Mem) (j : nat) (p : RdPortConfig) : Prop :=
  (rp_emu_init p = true → init_guard mem j)
  ∧ (rp_emu_arst p = true → arst_guard mem j)
  ∧ (rp_emu_srst p = true → srst_guard mem j)
  ∧ (rp_emu_srst_en_prio p = true → srst_prio_guard mem j)
  ∧ (∀ w, w ∈ rp_emu_trans p → same_domain mem j w true).

(** The candidate has a config for each of the first [nw] write ports and
    of the first [nr] read ports of the memory, and no other. *)
Definition ports_ok (mem : Mem) (lib : Library)
    (addr_compatible get_wr_implies_rd get_wr_excludes_rd : nat → nat → bool)
    (nw nr : nat) (c : MemConfig) : Prop :=
  cfg_ram_def c < length (ram_defs lib)
  ∧ length (cfg_wr_ports c) = nw
  ∧ length (cfg_rd_ports c) = nr
  ∧ (∀ w wport wp, mem_wr_ports mem !! w = Some wport →
       cfg_wr_ports c !! w = Some wp →
       wr_port_ok lib c wport wp ∧ wr_share_ok c w wp
       ∧ wr_emu_sound mem w wp)
  ∧ (∀ j port p, mem_rd_ports mem !! j = Some port →
       cfg_rd_ports c !! j = Some p →
       rd_port_ok mem lib addr_compatible get_wr_implies_rd
         get_wr_excludes_rd c j port p
       ∧ rd_emu_sound mem j p).

(** ** The choice of the RAM definition *)

(** The memory has initial contents that are not all undefined, and such
    contents with a [1] bit. *)
Definition mem_has_init (mem : Mem) : Prop :=
  ∃ init, init ∈ mem_inits mem ∧ is_fully_undef (init_data init) = false.

Definition mem_init_has_one (mem : Mem) : Prop :=
  ∃ init, init ∈ mem_inits mem
    ∧ is_fully_undef (init_data init) = false
    ∧ S1 ∈ const_bits (init_data init).

(** The kind of a RAM definition answers the kind asked for. *)
Definition kind_ok (kind : RamKind.t) (rdef : RamDef) : Prop :=
  kind = RamKind.Auto ∨ kind = RamKind.NotLogic ∨ ram_kind rdef = kind.

(** The candidate holds the options of a [style] capability of the RAM
    definition for the style asked for, if one is asked for. *)
Definition style_ok (style : string) (c : MemConfig) (rdef : RamDef) : Prop :=
  style = ""
  ∨ ∃ def, def ∈ ram_style rdef ∧ cap_val def = style
      ∧ opts_applied (cfg_opts c) (cap_opts def) = true.

(** The candidate holds the options of an [init] capability of the RAM
    definition that admits the initial contents of the memory, if it has
    any: [any], or [zero] when the contents have no [1] bit. *)
Definition init_ok (mem : Mem) (c : MemConfig) (rdef : RamDef) : Prop :=
  mem_has_init mem →
  ∃ def, def ∈ ram_init rdef
    ∧ (cap_val def = MemoryInitKind.Any
       ∨ (cap_val def = MemoryInitKind.Zero ∧ ¬ mem_init_has_one mem))
    ∧ opts_applied (cfg_opts c) (cap_opts def) = true.

(** A candidate with the RAM definition of another and at least its
    options. *)
Definition chosen_from (c c' : MemConfig) : Prop :=
  cfg_ram_def c' = cfg_ram_def c ∧ cfg_opts c ⊆ cfg_opts c'.

(** ** Failure *)

(** A result that fails, if it fails, only by an index out of range. *)
Definition out_of_range_only {A} (r : outcome A) : Prop :=
  ∀ e, r = Err e → e = OutOfRange.

(** ** What the indexing relies on *)

(** Every port group of the library has a name, as [parse_port_block]'s
    caller ensures: the names are read by a [do ... while] loop. *)
Definition lib_names_ok (lib : Library) : Prop :=
  ∀ rdef def, rdef ∈ ram_defs lib → def ∈ ram_ports rdef →
    pg_names (cap_val def) ≠ [].

(** Every write port that another write port has priority over has the
    index of a read port: [handle_priority] reads [cfg.rd_ports] at the
    index of that write port. *)
Definition prio_in_range (mem : Mem) : Prop :=
  ∀ p2 port2 p1, mem_wr_ports mem !! p2 = Some port2 →
    wr_priority_mask port2 !! p1 = Some true →
    p1 < length (mem_rd_ports mem).

(** The read port config [rp] shares no write port or one of the first
    [nw]. *)
Definition share_in_range (nw : nat) (rp : RdPortConfig) : Prop :=
  rp_wr_port rp = (-1)%Z ∨ ∃ w, rp_wr_port rp = Z.of_nat w ∧ w < nw.

(** The indices that a candidate with [nw] write ports and [nr] read
    ports holds are in range. *)
Definition indices_ok (lib : Library) (nw nr : nat) (c : MemConfig) : Prop :=
  ∃ rdef, ram_defs lib !! cfg_ram_def c = Some rdef
    ∧ length (cfg_wr_ports c) = nw
    ∧ length (cfg_rd_ports c) = nr
    ∧ (∀ w wp, cfg_wr_ports c !! w = Some wp →
         is_Some (ram_ports rdef !! wp_port_def wp))
    ∧ (∀ j rp, cfg_rd_ports c !! j = Some rp →
         is_Some (ram_ports rdef !! rp_port_def rp) ∧ share_in_range nw rp).

(** ** Where the options of a candidate come from *)

(** The options and the port options of the capabilities of a list. *)
Definition cap_entries {T} (caps : Caps T)
  : list (OptionEntries * OptionEntries) :=
  (fun cap => (cap_opts cap, cap_portopts cap)) <$> caps.

(** Those of the capabilities of a port group that the engine reads. *)
Definition group_caps (g : PortGroupDef)
  : list (OptionEntries * OptionEntries) :=
  cap_entries (pg_clock g) ++ cap_entries (pg_rden g)
  ++ cap_entries (pg_rdrstval g) ++ cap_entries (pg_rdsrstmode g)
  ++ cap_entries (pg_wrprio g) ++ cap_entries (pg_wrtrans g).

(** The RAM definition declares the option [k = v]: in a [style] or
    [init] capability, for a port group or in a capability of a port
    group. *)
Definition ram_option (rdef : RamDef) (k : string) (v : Const) : Prop :=
  ∃ e, e ∈ cap_entries (ram_style rdef) ++ cap_entries (ram_init rdef)
           ++ cap_entries (ram_ports rdef)
           ++ flat_map (fun def => group_caps (cap_val def)) (ram_ports rdef)
    ∧ (k, v) ∈ e.1.

(** The RAM definition declares the port option [k = v] in a capability
    of a port group. *)
Definition ram_portoption (rdef : RamDef) (k : string) (v : Const) : Prop :=
  ∃ def e, def ∈ ram_ports rdef ∧ e ∈ group_caps (cap_val def)
    ∧ (k, v) ∈ e.2.

(** The port options of the write port [j] and of the read port [j] of a
    candidate; none if it has no such port. *)
Definition wr_popts (c : MemConfig) (j : nat) : gmap string Const :=
  default ∅ (wp_portopts <$> cfg_wr_ports c !! j).

Definition rd_popts (c : MemConfig) (j : nat) : gmap string Const :=
  default ∅ (rp_portopts <$> cfg_rd_ports c !! j).

(** Every binding of [o'] is in [o] or declared. *)
Definition opts_sourced (D : string → Const → Prop)
    (o o' : gmap string Const) : Prop :=
  ∀ k v, o' !! k = Some v → o !! k = Some v ∨ D k v.

(** The candidate [c'] has the RAM definition of [c], and its options and
    port options are those of [c] or declared ([D] for options, [DP] for
    port options). *)
Definition sourced (D DP : string → Const → Prop) (c c' : MemConfig)
  : Prop :=
  cfg_ram_def c' = cfg_ram_def c
  ∧ opts_sourced D (cfg_opts c) (cfg_opts c')
  ∧ (∀ j, opts_sourced DP (wr_popts c j) (wr_popts c' j))
  ∧ (∀ j, opts_sourced DP (rd_popts c j) (rd_popts c' j)).

(** The options of a capability are declared. *)
Definition cap_declared {T} (D DP : string → Const → Prop)
    (cap : Capability T) : Prop :=
  (∀ k v, (k, v) ∈ cap_opts cap → D k v)
  ∧ (∀ k v, (k, v) ∈ cap_portopts cap → DP k v).

(** [D] and [DP] hold the options of the capabilities of a port group
    and of a RAM definition. *)
Definition group_declared (D DP : string → Const → Prop)
    (def : Capability PortGroupDef) : Prop :=
  (∀ k v, (k, v) ∈ cap_opts def → D k v)
  ∧ (∀ cap, cap ∈ pg_clock (cap_val def) → cap_declared D DP cap)
  ∧ (∀ cap, cap ∈ pg_rden (cap_val def) → cap_declared D DP cap)
  ∧ (∀ cap, cap ∈ pg_rdrstval (cap_val def) → cap_declared D DP cap)
  ∧ (∀ cap, cap ∈ pg_rdsrstmode (cap_val def) → cap_declared D DP cap)
  ∧ (∀ cap, cap ∈ pg_wrprio (cap_val def) → cap_declared D DP cap)
  ∧ (∀ cap, cap ∈ pg_wrtrans (cap_val def) → cap_declared D DP cap).

Definition ram_declared (D DP : string → Const → Prop) (rdef : RamDef)
  : Prop :=
  (∀ cap k v, cap ∈ ram_style rdef → (k, v) ∈ cap_opts cap → D k v)
  ∧ (∀ cap k v, cap ∈ ram_init rdef → (k, v) ∈ cap_opts cap → D k v)
  ∧ (∀ def, def ∈ ram_ports rdef → group_declared D DP def).

(** The options and port options of [c'] are those of [c] or declared by
    the RAM definition of [c], which is also that of [c']. *)
Definition declared_from (lib : Library) (c c' : MemConfig) : Prop :=
  ∀ rdef, ram_defs lib !! cfg_ram_def c = Some rdef →
    sourced (ram_option rdef) (ram_portoption rdef) c c'.

End Vocabulary.

(** * A kernel for the examples

    Constants as vectors of [State] bits, least significant bit first, and
    one-bit signals that are either a constant or a bit of a named wire,
    after [kernel/rtlil.h].  The general properties below hold for every
    [Kernel]; this one is used where a property is evaluated on a concrete
    memory and library. *)

Module BitKernel.

Inductive state := s0 | s1 | sx | sz | sa | sm.
#[global] Instance state_eq_dec : EqDecision state.
Proof. solve_decision. Defined.

Inductive sigbit :=
  | SigConst (s : state)
  | SigWire (name : string) (offset : nat).
#[global] Instance sigbit_eq_dec : EqDecision sigbit.
Proof. solve_decision. Defined.

Definition of_bool (b : bool) : state := if b then s1 else s0.

(** [Const(int val, int width = 32)]. *)
Fixpoint bits_of_int (width : nat) (val : Z) : list state :=
  match width with
  | O => []
  | S w => of_bool (Z.odd val) :: bits_of_int w (Z.div2 val)
  end.

Definition char_bits (c : Ascii.ascii) : list state :=
  let 'Ascii.Ascii b0 b1 b2 b3 b4 b5 b6 b7 := c in
  of_bool <$> [b0; b1; b2; b3; b4; b5; b6; b7].

(** [Const(const std::string &str)]: the last character first. *)
Definition const_of_string (str : string) : list state :=
  flat_map char_bits (reverse (String.list_ascii_of_string str)).

Definition is_one (s : state) : bool := bool_decide (s = s1).

Definition char_of_bits (bits : list state) : Ascii.ascii :=
  let b i := is_one (nth i bits s0) in
  Ascii.Ascii (b 0) (b 1) (b 2) (b 3) (b 4) (b 5) (b 6) (b 7).

Fixpoint decode_chars (fuel : nat) (bits : list state) : list Ascii.ascii :=
  match fuel, bits with
  | S fuel', _ :: _ =>
      let ch := char_of_bits (take 8 bits) in
      (if decide (ch = Ascii.zero) then [] else [ch])
        ++ decode_chars fuel' (drop 8 bits)
  | _, _ => []
  end.

(** [Const::decode_string]: one character for 8 bits, zero characters
    skipped, the result reversed. *)
Definition decode (bits : list state) : string :=
  String.string_of_list_ascii (reverse (decode_chars (length bits) bits)).

#[global] Instance kernel : Kernel := {|
  State := state;
  S0 := s0;
  S1 := s1;
  Const := list state;
  const_bits := fun c => c;
  const_of_int := bits_of_int 32;
  decode_string := decode;
  as_bool := existsb is_one;
  is_fully_undef := forallb (fun s => bool_decide (s = sx ∨ s = sz));
  SigSpec := list sigbit;
  sig_of_state := fun s => [SigConst s];
  SigBit := sigbit;
  sig_as_bit := fun sig => nth 0 sig (SigConst sx);
|}.

(** A capability declared outside every [option] block. *)
Definition cap {T} (val : T) : Capability T :=
  {| cap_val := val; cap_opts := []; cap_portopts := [] |}.

(** A port group with the given capabilities and the default [width 1]. *)
Definition port_group (kind : PortKind.t) (names : list string)
    (clock : Caps ClockDef) (rden : Caps RdEnKind.t)
    (wrprio : Caps string) (wrtrans : Caps WrTransDef)
  : Capability PortGroupDef :=
  cap {| pg_kind := kind; pg_names := names; pg_clock := clock;
         pg_width := [cap 1%Z]; pg_mixwidth := []; pg_addrce := [];
         pg_rden := rden; pg_rdrstval := []; pg_rdsrstmode := [];
         pg_wrbe := []; pg_wrprio := wrprio; pg_wrtrans := wrtrans;
         pg_wrcs := [] |}.

Definition anyedge : Caps ClockDef :=
  [cap {| clk_kind := ClkPolKind.Anyedge; clk_name := "" |}].

Definition ram (kind : RamKind.t) (id : string)
    (ports : Caps PortGroupDef) : RamDef :=
  {| ram_id := id; ram_kind := kind; ram_ports := ports;
     ram_dims := [cap {| abits := 10; dbits := 16 |}];
     ram_init := []; ram_style := [] |}.

Definition clk_K : list sigbit := [SigWire "K" 0].
Definition wire (name : string) : list sigbit := [SigWire name 0].

(** A clocked write port on the rising edge of [K]. *)
Definition sync_wr (en : string) (priority_mask : list bool) : MemWr :=
  {| wr_clk_enable := true; wr_clk_polarity := true; wr_clk := clk_K;
     wr_en := wire en; wr_priority_mask := priority_mask |}.

(** A write port without a clock. *)
Definition async_wr (en : string) (priority_mask : list bool) : MemWr :=
  {| wr_clk_enable := false; wr_clk_polarity := true; wr_clk := [SigConst sx];
     wr_en := wire en; wr_priority_mask := priority_mask |}.

(** A clocked read port on the rising edge of [K] with enable [1] and no
    reset or initial value. *)
Definition sync_rd (transparency_mask collision_x_mask : list bool) : MemRd :=
  {| rd_clk_enable := true; rd_clk_polarity := true;
     rd_ce_over_srst := false; rd_clk := clk_K;
     rd_en := [SigConst s1]; rd_arst := [SigConst s0];
     rd_srst := [SigConst s0];
     rd_init_value := [sx]; rd_arst_value := [sx]; rd_srst_value := [sx];
     rd_transparency_mask := transparency_mask;
     rd_collision_x_mask := collision_x_mask |}.

Definition memory (attributes : list (string * list state))
    (rd_ports : list MemRd) (wr_ports : list MemWr) : Mem :=
  {| mem_attributes := list_to_map attributes; mem_inits := [];
     mem_rd_ports := rd_ports; mem_wr_ports := wr_ports |}.

(** Ports at different addresses, and enables with no relation. *)
Definition no_query : nat -> nat -> bool := fun _ _ => false.

End BitKernel.

(** * Example libraries and memories *)

Module Examples.
Import BitKernel.

(** The port groups of the RAM definitions of a library. *)
Definition ram_ports_of (lib : Library) : Caps PortGroupDef :=
  flat_map ram_ports (ram_defs lib).

(** [ram block $R { port sr "R" { rden any; } port sw "A" { }
    port sw "B" { wrprio target; } }], every port with the default
    [clock anyedge]. *)
Definition lib_prio (target : string) : Library :=
  {| ram_defs :=
       [ram RamKind.Block "$R"
          [port_group PortKind.Sr ["R"] anyedge [cap RdEnKind.Any] [] [];
           port_group PortKind.Sw ["A"] anyedge [] [] [];
           port_group PortKind.Sw ["B"] anyedge [] [cap target] []]] |}.

(** Two clocked write ports, the second with priority over the first, and
    one clocked read port whose collisions with both are don't-care. *)
Definition mem_prio : Mem :=
  memory [] [sync_rd [false; false] [true; true]]
    [sync_wr "e0" [false; false]; sync_wr "e1" [true; false]].

(** The same write ports and no read port. *)
Definition mem_prio_no_rd : Mem :=
  memory [] [] [sync_wr "e0" [false; false]; sync_wr "e1" [true; false]].

(** What [f] shows of every candidate of a result. *)
Definition view {B} (f : MemConfig -> B) (r : outcome MemConfigs)
  : outcome (list B) :=
  match r with
  | Ok cfgs => Ok (f <$> cfgs)
  | Err e => Err e
  end.

(** Of every candidate that the constructor leaves: the groups of the
    write ports and their [emu_prio]. *)
Definition priority_view (r : outcome MemMappingState)
  : outcome (list (list nat * list (list nat))) :=
  view (fun c => (wp_port_def <$> cfg_wr_ports c,
                  wp_emu_prio <$> cfg_wr_ports c))
    (st ← r; Ok (mm_cfgs st)).

(** Of every read port of a candidate: [emu_sync], [emu_en] and
    [emu_trans]. *)
Definition rd_view (c : MemConfig) : list (bool * bool * list nat) :=
  (fun p => (rp_emu_sync p, rp_emu_en p, rp_emu_trans p)) <$> cfg_rd_ports c.

(** [ram block $R { port sr "R" { rden any; } }]. *)
Definition lib_one_read_group : Library :=
  {| ram_defs :=
       [ram RamKind.Block "$R"
          [port_group PortKind.Sr ["R"] anyedge [cap RdEnKind.Any] [] []]] |}.

(** Two clocked read ports and no write port. *)
Definition mem_two_readers : Mem :=
  memory [] [sync_rd [] []; sync_rd [] []] [].

(** A memory with the attributes [ram_style = "block"] and
    [logic_block]. *)
Definition mem_block_and_logic_block : Mem :=
  memory [("\ram_style", const_of_string "block");
          ("\logic_block", bits_of_int 32 1)] [] [].

(** One write port without a clock. *)
Definition mem_async_wr : Mem := memory [] [] [async_wr "e" [false]].

(** [ram distributed $D { port arsw "P" { } }]. *)
Definition lib_arsw : Library :=
  {| ram_defs :=
       [ram RamKind.Distributed "$D"
          [port_group PortKind.Arsw ["P"] anyedge [] [] []]] |}.

(** One clocked write port and one clocked read port, transparent with
    it, at the same address. *)
Definition mem_rw_transparent : Mem :=
  memory [] [sync_rd [true] [false]] [sync_wr "e" [false]].
Definition same_addr : nat -> nat -> bool := fun _ _ => true.

(** [ram block $S { port srsw "P" { rden none; rden any;
    rden write-implies; rden write-excludes; wrtrans self new; } }]. *)
Definition lib_srsw : Library :=
  {| ram_defs :=
       [ram RamKind.Block "$S"
          [port_group PortKind.Srsw ["P"] anyedge
             [cap RdEnKind.None; cap RdEnKind.Any;
              cap RdEnKind.WriteImplies; cap RdEnKind.WriteExcludes]
             []
             [cap {| wt_target_kind := TransTargetKind.Self;
                     wt_target_name := "";
                     wt_kind := TransKind.New |}]]] |}.

(** A candidate for [$S] with the write port bound to ["P"]. *)
Definition cfg_wr_bound : MemConfig :=
  cfg_set_wr_ports (new_MemConfig 0) [new_WrPortConfig 0].

(** And with the read port sharing it. *)
Definition cfg_rw_shared : MemConfig :=
  cfg_set_rd_ports
    (cfg_set_wr_ports (new_MemConfig 0)
       [wp_set_rd_port (new_WrPortConfig 0) 0])
    [new_RdPortConfig 0 0].

(** [ram block $F { port srsw "A" { portoption "CLKPOL" 1 { clock
    posedge "C"; } rden any; option "INIT" 0 { rdinitval zero; } rdsrstval
    "RV"; rdsrstmode srst-over-en; wrtrans self new; } }]. *)
Definition lib_full : Library :=
  {| ram_defs :=
       [ram RamKind.Block "$F"
          [cap {| pg_kind := PortKind.Srsw; pg_names := ["A"];
                  pg_clock :=
                    [{| cap_val := {| clk_kind := ClkPolKind.Posedge;
                                      clk_name := "C" |};
                        cap_opts := [];
                        cap_portopts := [("CLKPOL", [s1])] |}];
                  pg_width := [cap 1%Z]; pg_mixwidth := []; pg_addrce := [];
                  pg_rden := [cap RdEnKind.Any];
                  pg_rdrstval :=
                    [{| cap_val := {| rst_kind := ResetKind.Init;
                                      rst_val_kind := ResetValKind.Zero;
                                      rst_name := "" |};
                        cap_opts := [("INIT", [s0])];
                        cap_portopts := [] |};
                     cap {| rst_kind := ResetKind.Sync;
                            rst_val_kind := ResetValKind.Named;
                            rst_name := "RV" |}];
                  pg_rdsrstmode := [cap SrstKind.SrstOverEn];
                  pg_wrbe := []; pg_wrprio := [];
                  pg_wrtrans :=
                    [cap {| wt_target_kind := TransTargetKind.Self;
                            wt_target_name := "";
                            wt_kind := TransKind.New |}];
                  pg_wrcs := [] |}]] |}.

(** A clocked read port with an enable, an initial value 0 and a
    synchronous reset to 1, transparent to the write port 0. *)
Definition rd_full : MemRd :=
  {| rd_clk_enable := true; rd_clk_polarity := true;
     rd_ce_over_srst := false; rd_clk := clk_K;
     rd_en := wire "re"; rd_arst := [SigConst s0];
     rd_srst := wire "rst";
     rd_init_value := [s0; s0]; rd_arst_value := [sx; sx];
     rd_srst_value := [s1; s0];
     rd_transparency_mask := [true];
     rd_collision_x_mask := [false] |}.

(** That read port and one clocked write port, at the same address. *)
Definition mem_full : Mem := memory [] [rd_full] [sync_wr "we" [false]].

(** The same read port with an asynchronous reset to 0 in the place of
    the synchronous reset and of the initial value. *)
Definition rd_with_arst : MemRd :=
  {| rd_clk_enable := true; rd_clk_polarity := true;
     rd_ce_over_srst := false; rd_clk := clk_K;
     rd_en := wire "re"; rd_arst := wire "arst";
     rd_srst := [SigConst s0];
     rd_init_value := [sx; sx]; rd_arst_value := [s0; s0];
     rd_srst_value := [sx; sx];
     rd_transparency_mask := [true];
     rd_collision_x_mask := [false] |}.

Definition mem_arst : Mem :=
  memory [] [rd_with_arst] [sync_wr "we" [false]].

(** A query that always answers true. *)
Definition yes_query : nat -> nat -> bool := fun _ _ => true.

(** [ram block $X { port srsw "A" { portoption "P" 1 { clock anyedge; }
    portoption "P" 0 { rden write-excludes; } } }]: the port option of the
    only [rden] capability conflicts with that of the only [clock]
    capability. *)
Definition lib_rden_conflict : Library :=
  {| ram_defs :=
       [ram RamKind.Block "$X"
          [port_group PortKind.Srsw ["A"]
             [{| cap_val := {| clk_kind := ClkPolKind.Anyedge;
                               clk_name := "" |};
                 cap_opts := []; cap_portopts := [("P", [s1])] |}]
             [{| cap_val := RdEnKind.WriteExcludes;
                 cap_opts := []; cap_portopts := [("P", [s0])] |}]
             [] []]] |}.

(** [ram block $T { port srsw "P" { rden any; option "T" 1 { wrtrans self
    new; } } }]: the only [wrtrans] capability costs an option. *)
Definition lib_trans_option : Library :=
  {| ram_defs :=
       [ram RamKind.Block "$T"
          [port_group PortKind.Srsw ["P"] anyedge [cap RdEnKind.Any] []
             [{| cap_val := {| wt_target_kind := TransTargetKind.Self;
                               wt_target_name := "";
                               wt_kind := TransKind.New |};
                 cap_opts := [("T", [s1])]; cap_portopts := [] |}]]] |}.

(** Of every candidate: whether it holds an option, and [emu_sync],
    [emu_en] and [emu_trans] of every read port. *)
Definition trans_view (c : MemConfig)
  : bool * list (bool * bool * list nat) :=
  (bool_decide (cfg_opts c ≠ ∅),
   (fun p => (rp_emu_sync p, rp_emu_en p, rp_emu_trans p))
     <$> cfg_rd_ports c).

(** Of a candidate: the RAM definition, the group and the shared write
    port of every read port, the group and the shared read port of every
    write port. *)
Definition binding_view (c : MemConfig)
  : nat * list (nat * Z) * list (nat * Z) :=
  (cfg_ram_def c,
   (fun p => (rp_port_def p, rp_wr_port p)) <$> cfg_rd_ports c,
   (fun p => (wp_port_def p, wp_rd_port p)) <$> cfg_wr_ports c).

End Examples.

(** * Properties *)

Section OptionProperties.
Context `{Kernel}.
Local Abbreviation Options := (gmap string Const).

Lemma apply_opts_subseteq (src : OptionEntries) (dst : Options) :
  dst ⊆ (apply_opts dst src).2.
Proof.
  revert dst. induction src as [|[k v] rest IH]; intros dst; simpl.
  - done.
  - destruct (dst !! k) as [v2|] eqn:Hk.
    + destruct (decide (v2 ≠ v)); [done | apply IH].
    + etrans; [|apply IH]. by apply insert_subseteq.
Qed.

(** What a call adds to the destination comes from the source. *)
Lemma apply_opts_lookup (src : OptionEntries) (dst : Options) k v :
  (apply_opts dst src).2 !! k = Some v →
  dst !! k = Some v ∨ (dst !! k = None ∧ (k, v) ∈ src).
Proof.
  revert dst. induction src as [|[k0 v0] rest IH]; intros dst; simpl.
  - auto.
  - destruct (dst !! k0) as [v2|] eqn:Hk0.
    + destruct (decide (v2 ≠ v0)); simpl; [auto|].
      intros Hl. destruct (IH _ Hl) as [?|[? ?]]; [auto|].
      right. split; [done | by apply list_elem_of_further].
    + intros Hl. destruct (IH _ Hl) as [Hi|[Hi ?]].
      * destruct (decide (k0 = k)) as [->|Hne].
        -- rewrite lookup_insert_eq in Hi. injection Hi as ->.
           right. split; [done | apply list_elem_of_here].
        -- rewrite lookup_insert_ne in Hi by done. auto.
      * destruct (decide (k0 = k)) as [->|Hne].
        -- by rewrite lookup_insert_eq in Hi.
        -- rewrite lookup_insert_ne in Hi by done.
           right. split; [done | by apply list_elem_of_further].
Qed.

(** Bindings that agree with the source do not change what a call does. *)
Lemma apply_opts_union (src : OptionEntries) (dst E : Options) :
  (∀ k v v', E !! k = Some v → (k, v') ∈ src → v = v') →
  apply_opts (dst ∪ E) src
  = ((apply_opts dst src).1, (apply_opts dst src).2 ∪ E).
Proof.
  revert dst. induction src as [|[k v] rest IH]; intros dst HE; simpl.
  - done.
  - assert (HE' : ∀ k v v', E !! k = Some v → (k, v') ∈ rest → v = v').
    { intros k1 v1 v1' ? ?. eapply HE; [done|].
      by apply list_elem_of_further. }
    destruct (dst !! k) as [v2|] eqn:Hk.
    + rewrite (lookup_union_Some_l _ _ _ _ Hk).
      destruct (decide (v2 ≠ v)); [done | by apply IH].
    + rewrite (lookup_union_r _ _ _ Hk).
      destruct (E !! k) as [e|] eqn:HEk.
      * assert (e = v) as -> by (eapply HE; [done | apply list_elem_of_here]).
        destruct (decide (v ≠ v)); [done|].
        assert (dst ∪ E = <[k := v]> dst ∪ E) as ->.
        { apply map_eq. intros i. destruct (decide (i = k)) as [->|Hne].
          - rewrite (lookup_union_r _ _ _ Hk), HEk.
            symmetry. apply lookup_union_Some_l, lookup_insert_eq.
          - rewrite !lookup_union, lookup_insert_ne by done. done. }
        by apply IH.
      * rewrite insert_union_l. by apply IH.
Qed.

Lemma apply_opts_applied (src : OptionEntries) (dst : Options) :
  opts_applied dst src = true → apply_opts dst src = (true, dst).
Proof.
  induction src as [|[k v] rest IH]; simpl; [done|].
  destruct (dst !! k) as [v2|]; [|done].
  destruct (decide (v2 ≠ v)); [done | apply IH].
Qed.

Lemma opts_applied_lookup (src : OptionEntries) (dst : Options) k v :
  opts_applied dst src = true → (k, v) ∈ src → dst !! k = Some v.
Proof.
  induction src as [|[k1 v1] rest IH]; simpl; intros Happ Hin.
  - by apply elem_of_nil in Hin.
  - destruct (dst !! k1) as [w|] eqn:Hk1; [|done].
    destruct (decide (w ≠ v1)) as [|Heq]; [done|].
    apply elem_of_cons in Hin as [Hin|Hin]; [|by apply IH].
    injection Hin as -> ->. rewrite Hk1. f_equal.
    by destruct (decide (w = v1)).
Qed.

(** A successful call leaves every binding of the source in place. *)
Lemma apply_opts_true_applied (src : OptionEntries) (dst : Options) :
  (apply_opts dst src).1 = true →
  opts_applied (apply_opts dst src).2 src = true.
Proof.
  revert dst. induction src as [|[k v] rest IH]; intros dst; simpl; [done|].
  destruct (dst !! k) as [v2|] eqn:Hk.
  - destruct (decide (v2 ≠ v)) as [|Heq]; [done|]. intros Hok.
    rewrite (lookup_weaken _ _ _ _ Hk (apply_opts_subseteq rest dst)).
    destruct (decide (v2 ≠ v)); [done | by apply IH].
  - intros Hok.
    assert (Hin : <[k := v]> dst !! k = Some v) by apply lookup_insert_eq.
    rewrite (lookup_weaken _ _ _ _ Hin (apply_opts_subseteq rest _)).
    destruct (decide (v ≠ v)); [done | by apply IH].
Qed.

Lemma apply_opts_after (src1 src2 : OptionEntries) (dst : Options) :
  opts_compatible src1 src2 →
  apply_opts (apply_opts dst src1).2 src2
  = ((apply_opts dst src2).1,
     (apply_opts dst src2).2 ∪ ((apply_opts dst src1).2 ∖ dst)).
Proof.
  intros Hc.
  rewrite <- (map_difference_union dst (apply_opts dst src1).2) at 1
    by apply apply_opts_subseteq.
  apply apply_opts_union. intros k v v' Hd Hin.
  apply lookup_difference_Some in Hd as [Hl Hn].
  apply apply_opts_lookup in Hl as [Hl|[_ Hl]]; [congruence|].
  by eapply Hc.
Qed.

(** C8. [apply_opts] commutes on sources that bind no common key to
    different values: applying [src1] then [src2] to a destination gives
    the same final map and the same two success flags as applying [src2]
    then [src1]; and a call that succeeded, repeated on its result,
    succeeds again and leaves the map as it is. *)
Theorem apply_opts_commutative_idempotent :
  (∀ (dst : Options) (src1 src2 : OptionEntries),
     opts_compatible src1 src2 →
     let r1 := apply_opts dst src1 in
     let r12 := apply_opts r1.2 src2 in
     let r2 := apply_opts dst src2 in
     let r21 := apply_opts r2.2 src1 in
     r12.2 = r21.2 ∧ r1.1 = r21.1 ∧ r12.1 = r2.1)
  ∧ (∀ (dst : Options) (src : OptionEntries),
       (apply_opts dst src).1 = true →
       apply_opts (apply_opts dst src).2 src
       = (true, (apply_opts dst src).2)).
Proof.
  split.
  - intros dst src1 src2 Hc. simpl.
    assert (Hc' : opts_compatible src2 src1).
    { intros k v1 v2 ? ?. symmetry. by eapply Hc. }
    rewrite (apply_opts_after src1 src2 dst Hc).
    rewrite (apply_opts_after src2 src1 dst Hc'). simpl.
    split; [|done].
    apply map_eq. intros k.
    pose proof (apply_opts_subseteq src1 dst) as Hs1.
    pose proof (apply_opts_subseteq src2 dst) as Hs2.
    rewrite !lookup_union, !lookup_difference.
    destruct (dst !! k) as [v|] eqn:Hk.
    + rewrite (lookup_weaken _ _ _ _ Hk Hs1), (lookup_weaken _ _ _ _ Hk Hs2).
      done.
    + destruct ((apply_opts dst src1).2 !! k) as [v1|] eqn:H1;
        destruct ((apply_opts dst src2).2 !! k) as [v2|] eqn:H2; simpl;
        try done.
      apply apply_opts_lookup in H1 as [?|[_ H1]]; [congruence|].
      apply apply_opts_lookup in H2 as [?|[_ H2]]; [congruence|].
      by rewrite (Hc _ _ _ H1 H2).
  - intros dst src Hok. by apply apply_opts_applied, apply_opts_true_applied.
Qed.

(** C10. [apply_opts] is not atomic on failure.  For two keys and two
    constants that differ, a source that first binds the absent key and
    then contradicts the destination returns false and leaves a
    destination that differs from the one it was given.  In general, when
    the entries [pre] merge and the next entry contradicts the map they
    leave, the call returns false with the destination holding every
    binding of [pre].  At the call site of [handle_ram_style] the clone is
    dropped when the call fails: a candidate comes out only from a call
    that succeeded, and then carries the complete merge. *)
Theorem apply_opts_not_atomic :
  (∀ (a b : string) (v v' : Const),
     a ≠ b → v ≠ v' →
     let dst : Options := {[a := v]} in
     let src : OptionEntries := [(b, v); (a, v')] in
     (apply_opts dst src).1 = false ∧ (apply_opts dst src).2 ≠ dst)
  ∧ (∀ (dst : Options) (pre post : OptionEntries) k v v2,
       (apply_opts dst pre).1 = true →
       (apply_opts dst pre).2 !! k = Some v2 →
       v2 ≠ v →
       apply_opts dst (pre ++ (k, v) :: post)
       = (false, (apply_opts dst pre).2)
       ∧ ∀ k0 v0, (k0, v0) ∈ pre →
           (apply_opts dst pre).2 !! k0 = Some v0)
  ∧ (∀ (cfg : MemConfig) (src : OptionEntries),
       ((apply_opts (cfg_opts cfg) src).1 = false →
        clone_with_opts cfg src = [])
       ∧ ∀ c, c ∈ clone_with_opts cfg src →
           apply_opts (cfg_opts cfg) src = (true, cfg_opts c)
           ∧ c = cfg_set_opts cfg (cfg_opts c)).
Proof.
  split; [|split].
  - intros a b v v' Hab Hv. simpl.
    rewrite lookup_singleton_ne by done.
    rewrite lookup_insert_ne, lookup_singleton_eq by done.
    destruct (decide (v ≠ v')); [|done]. simpl. split; [done|].
    intros Heq.
    assert (Hl : (<[b := v]> {[a := v]} : Options) !! b = Some v)
      by apply lookup_insert_eq.
    rewrite Heq, lookup_singleton_ne in Hl by done. done.
  - intros dst pre post k v v2 Hok Hk Hne. split.
    + revert dst Hok Hk.
      induction pre as [|[k0 v0] rest IH]; intros dst Hok Hk; simpl in *.
      * rewrite Hk. destruct (decide (v2 ≠ v)); done.
      * destruct (dst !! k0) as [w|] eqn:Hk0.
        -- destruct (decide (w ≠ v0)); [done | by apply IH].
        -- by apply IH.
    + intros k0 v0 Hin. eapply opts_applied_lookup; [|done].
      by apply apply_opts_true_applied.
  - intros cfg src. unfold clone_with_opts.
    destruct (apply_opts (cfg_opts cfg) src) as [[] o]; simpl.
    + split; [done|]. intros c Hc.
      apply list_elem_of_singleton in Hc as ->. done.
    + split; [done|]. intros c Hc. by apply elem_of_nil in Hc.
Qed.

End OptionProperties.

Section StyleProperties.
Context `{Kernel}.
Variable mem : Mem.

(** One branch of [style_of_value]: the conjunct of the branch holds by
    computation, the premises of the others contradict the tests made. *)
Local Ltac style_branch :=
  repeat split; intros Hs; try reflexivity; try tauto;
  try (exfalso; destruct_or?; congruence);
  exfalso; apply Hs; rewrite !elem_of_cons; destruct_or?;
  repeat (first [left; assumption | right]).

Lemma style_of_value_spec (val : Const) :
  style_value_spec val (style_of_value val).
Proof.
  unfold style_value_spec, style_of_value.
  destruct (decide (val = const_of_int 1)) as [Hone|Hone]; [done|].
  split; [done|]. intros _. simpl.
  repeat (case_decide; [style_branch|]).
  style_branch.
Qed.

Lemma determine_style_loop_first (pre post : list string) attr val :
  (∀ a, a ∈ pre → mem_attributes mem !! a = None) →
  mem_attributes mem !! attr = Some val →
  determine_style_loop mem (pre ++ attr :: post) = Some (style_of_value val).
Proof.
  intros Hpre Hattr. induction pre as [|a pre IH]; simpl.
  - by rewrite Hattr.
  - rewrite (Hpre a) by apply list_elem_of_here.
    apply IH. intros a' Ha'. apply Hpre. by apply list_elem_of_further.
Qed.

Lemma determine_style_loop_none (attrs : list string) :
  (∀ a, a ∈ attrs → mem_attributes mem !! a = None) →
  determine_style_loop mem attrs = None.
Proof.
  induction attrs as [|a attrs IH]; intros Hall; simpl; [done|].
  rewrite (Hall a) by apply list_elem_of_here.
  apply IH. intros a' Ha'. apply Hall. by apply list_elem_of_further.
Qed.

(** C5, as amended.  The attributes are inspected in the order
    [ram_block], [rom_block], [ram_style], [rom_style], [ramstyle],
    [romstyle], [syn_ramstyle], [syn_romstyle]; the first one present
    determines kind and style by its value (1: not_logic; "auto": auto;
    "logic", "registers": logic; "distributed": distributed; "block",
    "block_ram", "ebr": block; "huge", "ultra": huge; another string:
    not_logic with that string as the style).  When none of them is
    present, the kind is logic if the boolean attribute [logic_block] is
    set and auto otherwise. *)
Theorem determine_style_spec :
  style_attrs
  = ["\ram_block"; "\rom_block"; "\ram_style"; "\rom_style";
     "\ramstyle"; "\romstyle"; "\syn_ramstyle"; "\syn_romstyle"]
  ∧ (∀ pre attr post val,
       style_attrs = pre ++ attr :: post →
       (∀ a, a ∈ pre → mem_attributes mem !! a = None) →
       mem_attributes mem !! attr = Some val →
       style_value_spec val (determine_style mem))
  ∧ ((∀ a, a ∈ style_attrs → mem_attributes mem !! a = None) →
     determine_style mem
     = (if get_bool_attribute mem ID_logic_block
        then RamKind.Logic else RamKind.Auto, "")).
Proof.
  split; [done|]. split.
  - intros pre attr post val Hsplit Hpre Hattr.
    unfold determine_style. rewrite Hsplit.
    rewrite (determine_style_loop_first pre post attr val Hpre Hattr).
    apply style_of_value_spec.
  - intros Hnone. unfold determine_style.
    rewrite (determine_style_loop_none _ Hnone).
    by destruct (get_bool_attribute mem ID_logic_block).
Qed.

Lemma determine_logic_ok_loop_spec (port0 : MemWr) (ports : list MemWr) :
  determine_logic_ok_loop port0 ports = true
  ↔ ∀ p, p ∈ ports →
      wr_clk_enable p = true ∧ wr_clk p = wr_clk port0
      ∧ wr_clk_polarity p = wr_clk_polarity port0.
Proof.
  induction ports as [|port rest IH]; simpl.
  - split; [|done]. intros _ p Hp. by apply elem_of_nil in Hp.
  - destruct (wr_clk_enable port) eqn:Hen; simpl.
    + destruct (decide (wr_clk port ≠ wr_clk port0)) as [Hc|Hc].
      * split; [done|]. intros Hall.
        destruct (Hall port) as (_ & ? & _); [apply list_elem_of_here|done].
      * destruct (decide (wr_clk_polarity port ≠ wr_clk_polarity port0))
          as [Hp|Hp].
        -- split; [done|]. intros Hall.
           destruct (Hall port) as (_ & _ & ?); [apply list_elem_of_here|done].
        -- rewrite IH. split.
           ++ intros Hall p Hin. apply elem_of_cons in Hin as [->|Hin].
              ** split; [done|]. split.
                 --- by destruct (decide (wr_clk port = wr_clk port0)).
                 --- by destruct (decide (wr_clk_polarity port
                                          = wr_clk_polarity port0)).
              ** by apply Hall.
           ++ intros Hall p Hin. apply Hall. by apply list_elem_of_further.
    + split; [done|]. intros Hall.
      destruct (Hall port) as (Hen' & _); [apply list_elem_of_here|].
      congruence.
Qed.

(** C6, as amended.  [logic_ok] is true if and only if the kind is auto
    or logic, and either the memory has no write ports or every write port
    is clocked and all write ports have the same clock signal and the same
    clock polarity. *)
Theorem determine_logic_ok_spec (kind : RamKind.t) :
  determine_logic_ok mem kind = true
  ↔ (kind = RamKind.Auto ∨ kind = RamKind.Logic)
    ∧ (mem_wr_ports mem = [] ∨ wr_ports_one_clock (mem_wr_ports mem)).
Proof.
  unfold determine_logic_ok, wr_ports_one_clock.
  destruct (decide (kind ≠ RamKind.Auto ∧ kind ≠ RamKind.Logic)) as [Hk|Hk].
  - split; [done|]. intros [[->| ->] _]; by destruct Hk.
  - assert (Hkind : kind = RamKind.Auto ∨ kind = RamKind.Logic).
    { destruct (decide (kind = RamKind.Auto)); [by left|].
      destruct (decide (kind = RamKind.Logic)); [by right|].
      by destruct Hk. }
    destruct (mem_wr_ports mem) as [|port0 rest] eqn:Hports.
    + split; [|done]. intros _. split; [done | by left].
    + rewrite determine_logic_ok_loop_spec. split.
      * intros Hall. split; [done|]. right. split.
        -- intros p Hp. by apply Hall.
        -- intros p q Hp Hq.
           destruct (Hall p Hp) as (_ & -> & ->).
           destruct (Hall q Hq) as (_ & -> & ->). done.
      * intros [_ [?|[Hen Hsame]]]; [done|].
        intros p Hp. split; [by apply Hen|].
        apply Hsame; [done | apply list_elem_of_here].
Qed.

End StyleProperties.

(** ** Loops and errors *)

Lemma bind_Ok {A B} (m : outcome A) (f : A → outcome B) b :
  m ≫= f = Ok b ↔ ∃ a, m = Ok a ∧ f a = Ok b.
Proof.
  destruct m as [a|e]; simpl.
  - split; [by exists a | by intros (? & [= <-] & ?)].
  - split; [done | by intros (? & ? & ?)].
Qed.

Lemma bind_Ok_l {A B} (m : outcome A) (f : A → outcome B) a :
  m = Ok a → m ≫= f = f a.
Proof. by intros ->. Qed.

Lemma vec_at_Ok {A} (v : list A) i x : vec_at v i = Ok x ↔ v !! i = Some x.
Proof. unfold vec_at. destruct (v !! i); split; congruence. Qed.

Lemma for_each_middle {A B} (f : A → outcome (list B)) pre x post :
  for_each f (pre ++ x :: post)
  = (a ← for_each f pre; b ← f x; c ← for_each f post; Ok (a ++ b ++ c)).
Proof.
  induction pre as [|y pre IH]; simpl.
  - destruct (f x) as [b|e]; simpl; [|done].
    by destruct (for_each f post).
  - destruct (f y) as [ys|e]; simpl; [|done]. rewrite IH.
    destruct (for_each f pre) as [a|e]; simpl; [|done].
    destruct (f x) as [b|e]; simpl; [|done].
    destruct (for_each f post) as [c|e]; simpl; [|done].
    by rewrite app_assoc.
Qed.

Lemma generations_middle `{Kernel} {A}
    (step : A → MemConfigs → outcome MemConfigs) pre x post cfgs :
  generations step (pre ++ x :: post) cfgs
  = (c1 ← generations step pre cfgs; c2 ← step x c1;
     generations step post c2).
Proof.
  revert cfgs. induction pre as [|y pre IH]; intros cfgs; simpl; [done|].
  destruct (step y cfgs) as [c|e]; simpl; [apply IH | done].
Qed.

(** The indexed vector around its entry [i]. *)
Lemma enumerate_middle {A} (v : list A) i x :
  v !! i = Some x →
  enumerate v
  = take i (enumerate v) ++ (i, x) :: drop (S i) (enumerate v).
Proof.
  intros Hl. symmetry. apply take_drop_middle.
  unfold enumerate. by rewrite list_lookup_imap, Hl.
Qed.

Lemma for_each_Ok {A B} (f : A → outcome (list B)) xs out :
  for_each f xs = Ok out →
  ∀ y, y ∈ out → ∃ x ys, x ∈ xs ∧ f x = Ok ys ∧ y ∈ ys.
Proof.
  revert out. induction xs as [|x rest IH]; simpl; intros out Hout y Hy.
  - injection Hout as <-. by apply elem_of_nil in Hy.
  - apply bind_Ok in Hout as (ys & Hys & Hout).
    apply bind_Ok in Hout as (zs & Hzs & [= <-]).
    apply elem_of_app in Hy as [Hy|Hy].
    + exists x, ys. split; [apply list_elem_of_here | done].
    + destruct (IH _ Hzs y Hy) as (x' & ys' & ? & ? & ?).
      exists x', ys'. split; [by apply list_elem_of_further | done].
Qed.

Lemma for_each_total {A B} (f : A → outcome (list B)) xs :
  (∀ x, x ∈ xs → ∃ ys, f x = Ok ys) → ∃ out, for_each f xs = Ok out.
Proof.
  induction xs as [|x rest IH]; simpl; intros Hall; [by eexists|].
  destruct (Hall x) as [ys ->]; [apply list_elem_of_here|].
  destruct IH as [zs ->].
  { intros x' ?. apply Hall. by apply list_elem_of_further. }
  simpl. by eexists.
Qed.

Lemma for_each_Err {A B} (f : A → outcome (list B)) xs e :
  for_each f xs = Err e → ∃ x, x ∈ xs ∧ f x = Err e.
Proof.
  induction xs as [|x rest IH]; simpl; [done|].
  destruct (f x) as [ys|e'] eqn:Hx; simpl.
  - destruct (for_each f rest) as [zs|e''] eqn:Hr; simpl; [done|].
    intros [= ->]. destruct IH as (x' & ? & ?); [done|].
    exists x'. split; [by apply list_elem_of_further | done].
  - intros [= ->]. exists x. split; [apply list_elem_of_here | done].
Qed.

Lemma elem_of_enumerate {A} (v : list A) i x :
  (i, x) ∈ enumerate v ↔ v !! i = Some x.
Proof.
  unfold enumerate. rewrite elem_of_lookup_imap. split.
  - by intros (j & y & [= -> ->] & ?).
  - intros ?. by exists i, x.
Qed.

Section KeptProperties.
Context `{Kernel}.
Variable mem : Mem.
Variable lib : Library.

Lemma caps_loop_Ok {A} (body : A → outcome (list MemConfig * bool))
    caps ys free :
  caps_loop body caps = Ok (ys, free) →
  ∀ y, y ∈ ys → ∃ cap zs f, cap ∈ caps ∧ body cap = Ok (zs, f) ∧ y ∈ zs.
Proof.
  revert ys free.
  induction caps as [|cap rest IH]; simpl; intros ys free Hout y Hy.
  - injection Hout as <- <-. by apply elem_of_nil in Hy.
  - apply bind_Ok in Hout as ([zs f1] & Hzs & Hout).
    apply bind_Ok in Hout as ([ws f2] & Hws & [= <- <-]).
    apply elem_of_app in Hy as [Hy|Hy].
    + exists cap, zs, f1. split; [apply list_elem_of_here | done].
    + destruct (IH _ _ Hws y Hy) as (cap' & zs' & f' & ? & ? & ?).
      exists cap', zs', f'. split; [by apply list_elem_of_further | done].
Qed.

Lemma generations_ind {A} (P : MemConfigs → Prop)
    (step : A → MemConfigs → outcome MemConfigs) xs cfgs out :
  (∀ x c c', x ∈ xs → step x c = Ok c' → P c → P c') →
  generations step xs cfgs = Ok out → P cfgs → P out.
Proof.
  revert cfgs. induction xs as [|x rest IH]; simpl; intros cfgs Hstep Hout HP.
  - by injection Hout as <-.
  - apply bind_Ok in Hout as (new_cfgs & Hnew & Hout).
    eapply IH; [|done|].
    + intros x' c c' ?. apply Hstep. by apply list_elem_of_further.
    + eapply Hstep; [apply list_elem_of_here|done..].
Qed.

(** *** The relation [binding_kept] *)

Lemma rd_port_kept_refl p : rd_port_kept p p.
Proof. by repeat split. Qed.

Lemma rd_port_kept_trans p1 p2 p3 :
  rd_port_kept p1 p2 → rd_port_kept p2 p3 → rd_port_kept p1 p3.
Proof.
  intros (Hw1 & Hd1 & Hs1 & Hf1) (Hw2 & Hd2 & Hs2 & Hf2).
  repeat split; try congruence;
    (destruct Hf1 as (? & ? & ? & ? & ?); [done|];
     destruct Hf2 as (? & ? & ? & ? & ?); congruence).
Qed.

Lemma binding_kept_refl c : binding_kept c c.
Proof.
  repeat split. apply Forall2_same_length_lookup. split; [done|].
  intros i x y ? ?. assert (x = y) as -> by congruence.
  apply rd_port_kept_refl.
Qed.

Lemma binding_kept_trans c1 c2 c3 :
  binding_kept c1 c2 → binding_kept c2 c3 → binding_kept c1 c3.
Proof.
  intros (Hr1 & Hw1 & Hp1) (Hr2 & Hw2 & Hp2).
  split; [congruence|]. split; [congruence|].
  eapply Forall2_trans; [|done..]. apply rd_port_kept_trans.
Qed.

Lemma kept_from_refl cfgs : kept_from cfgs cfgs.
Proof. intros c ?. exists c. split; [done | apply binding_kept_refl]. Qed.

Lemma kept_from_trans cfgs1 cfgs2 cfgs3 :
  kept_from cfgs1 cfgs2 → kept_from cfgs2 cfgs3 → kept_from cfgs1 cfgs3.
Proof.
  intros H12 H23 c3 Hc3.
  destruct (H23 c3 Hc3) as (c2 & Hc2 & Hk23).
  destruct (H12 c2 Hc2) as (c1 & Hc1 & Hk12).
  exists c1. split; [done | by eapply binding_kept_trans].
Qed.

Lemma for_each_kept (f : MemConfig → outcome MemConfigs) cfgs out :
  (∀ c ys y, f c = Ok ys → y ∈ ys → binding_kept c y) →
  for_each f cfgs = Ok out → kept_from cfgs out.
Proof.
  intros Hf Hout c' Hc'.
  destruct (for_each_Ok _ _ _ Hout c' Hc') as (c & ys & ? & ? & ?).
  exists c. split; [done | by eapply Hf].
Qed.

Lemma generations_kept {A}
    (step : A → MemConfigs → outcome MemConfigs) xs cfgs out :
  (∀ x c c', x ∈ xs → step x c = Ok c' → kept_from c c') →
  generations step xs cfgs = Ok out → kept_from cfgs out.
Proof.
  intros Hstep Hout.
  eapply (generations_ind (kept_from cfgs)); [|done|apply kept_from_refl].
  intros x c c' Hx Hs Hk. eapply kept_from_trans; [done|]. by eapply Hstep.
Qed.

Lemma binding_kept_set_opts c o : binding_kept c (cfg_set_opts c o).
Proof. destruct (binding_kept_refl c) as (? & ? & ?). by repeat split. Qed.

Lemma binding_kept_wr_port c pidx pcfg pcfg' :
  cfg_wr_ports c !! pidx = Some pcfg →
  wr_binding pcfg' = wr_binding pcfg →
  binding_kept c (cfg_set_wr_ports c (<[pidx := pcfg']> (cfg_wr_ports c))).
Proof.
  intros Hl Hb. split; [done|]. split; simpl.
  - rewrite list_fmap_insert, Hb. apply list_insert_id.
    by rewrite list_lookup_fmap, Hl.
  - apply (binding_kept_refl c).
Qed.

Lemma binding_kept_rd_port c pidx pcfg pcfg' :
  cfg_rd_ports c !! pidx = Some pcfg →
  rd_port_kept pcfg pcfg' →
  binding_kept c (cfg_set_rd_ports c (<[pidx := pcfg']> (cfg_rd_ports c))).
Proof.
  intros Hl Hk. split; [done|]. split; [done|]. simpl.
  rewrite <- (list_insert_id _ _ _ Hl) at 1.
  apply Forall2_insert; [|done].
  apply (binding_kept_refl c).
Qed.

Lemma apply_wrport_opts_kept {T} cfg pidx (cap : Capability T) ok cfg' :
  apply_wrport_opts cfg pidx cap = Ok (ok, cfg') → binding_kept cfg cfg'.
Proof.
  unfold apply_wrport_opts. intros Ha.
  apply bind_Ok in Ha as (pcfg & Hp%vec_at_Ok & Ha).
  destruct (apply_opts (cfg_opts cfg) (cap_opts cap)) as [[] o].
  - destruct (apply_opts (wp_portopts pcfg) (cap_portopts cap)) as [ok2 po].
    injection Ha as <- <-.
    by apply (binding_kept_wr_port (cfg_set_opts cfg o) pidx pcfg).
  - injection Ha as <- <-. apply binding_kept_set_opts.
Qed.

Lemma apply_wrport_opts_rd_ports {T} cfg pidx (cap : Capability T) ok cfg' :
  apply_wrport_opts cfg pidx cap = Ok (ok, cfg') →
  cfg_rd_ports cfg' = cfg_rd_ports cfg.
Proof.
  unfold apply_wrport_opts. intros Ha.
  apply bind_Ok in Ha as (pcfg & _ & Ha).
  destruct (apply_opts (cfg_opts cfg) (cap_opts cap)) as [[] o].
  - destruct (apply_opts (wp_portopts pcfg) (cap_portopts cap)) as [ok2 po].
    by injection Ha as <- <-.
  - by injection Ha as <- <-.
Qed.

Lemma apply_rdport_opts_kept {T} cfg pidx (cap : Capability T) ok cfg' :
  apply_rdport_opts cfg pidx cap = Ok (ok, cfg') → binding_kept cfg cfg'.
Proof.
  unfold apply_rdport_opts. intros Ha.
  apply bind_Ok in Ha as (pcfg & Hp%vec_at_Ok & Ha).
  destruct (decide (rp_wr_port pcfg ≠ (-1)%Z)).
  - destruct (decide (rp_wr_port pcfg < 0)%Z); [done|].
    by eapply apply_wrport_opts_kept.
  - destruct (apply_opts (cfg_opts cfg) (cap_opts cap)) as [[] o].
    + destruct (apply_opts (rp_portopts pcfg) (cap_portopts cap)) as [ok2 po].
      injection Ha as <- <-.
      apply (binding_kept_rd_port (cfg_set_opts cfg o) pidx pcfg); [done|].
      by repeat split.
    + injection Ha as <- <-. apply binding_kept_set_opts.
Qed.

Lemma use_wrport_cap_kept {T} cfg pidx (cap : Capability T) ys free y :
  use_wrport_cap cfg pidx cap = Ok (ys, free) → y ∈ ys → binding_kept cfg y.
Proof.
  unfold use_wrport_cap. intros Hu Hy.
  apply bind_Ok in Hu as (applied & _ & Hu). destruct applied.
  - injection Hu as <- <-. apply list_elem_of_singleton in Hy as ->.
    apply binding_kept_refl.
  - apply bind_Ok in Hu as ([ok cfg2] & Ha & Hu). destruct ok; simpl in Hu.
    + injection Hu as <- <-. apply list_elem_of_singleton in Hy as ->.
      by eapply apply_wrport_opts_kept.
    + injection Hu as <- <-. by apply elem_of_nil in Hy.
Qed.

(** *** The phases after the binding keep [binding_kept] *)

Lemma push_emu_trans_kept cfg rpidx rpcfg wpidx :
  cfg_rd_ports cfg !! rpidx = Some rpcfg →
  binding_kept cfg (push_emu_trans cfg rpidx rpcfg wpidx).
Proof.
  intros Hl. apply binding_kept_rd_port with rpcfg; [done | by repeat split].
Qed.

Lemma trans_cfg_kept rpidx wpidx transparent cfg ys y :
  trans_cfg lib rpidx wpidx transparent cfg = Ok ys → y ∈ ys →
  binding_kept cfg y.
Proof.
  unfold trans_cfg. intros Ht Hy.
  apply bind_Ok in Ht as (rpcfg & Hrp%vec_at_Ok & Ht).
  apply bind_Ok in Ht as (wpcfg & _ & Ht).
  apply bind_Ok in Ht as (rdef & _ & Ht).
  apply bind_Ok in Ht as (wpdef & _ & Ht).
  apply bind_Ok in Ht as (rpdef & _ & Ht).
  destruct (rp_emu_sync rpcfg).
  - destruct transparent; injection Ht as <-;
      apply list_elem_of_singleton in Hy as ->;
      [by apply push_emu_trans_kept | apply binding_kept_refl].
  - apply bind_Ok in Ht as ([new_cfgs found_free] & Hloop & Ht).
    assert (Hnew : ∀ y, y ∈ new_cfgs → binding_kept cfg y).
    { intros y' Hy'.
      destruct (caps_loop_Ok _ _ _ _ Hloop y' Hy')
        as (tdef & zs & f & _ & Hbody & Hz).
      unfold trans_cap in Hbody.
      apply bind_Ok in Hbody as (target_ok & _ & Hbody).
      destruct (negb target_ok);
        [injection Hbody as <- <-; by apply elem_of_nil in Hz|].
      destruct (if transparent then _ else _);
        [injection Hbody as <- <-; by apply elem_of_nil in Hz|].
      by eapply use_wrport_cap_kept. }
    destruct (negb found_free && transparent); injection Ht as <-.
    + apply elem_of_app in Hy as [Hy|Hy]; [by apply Hnew|].
      apply list_elem_of_singleton in Hy as ->. by apply push_emu_trans_kept.
    + by apply Hnew.
Qed.

Lemma handle_trans_kept cfgs out :
  handle_trans mem lib cfgs = Ok out → kept_from cfgs out.
Proof.
  apply generations_kept. intros [rpidx rport] c c' _ Hstep.
  unfold trans_rd_port in Hstep.
  destruct (negb (rd_clk_enable rport));
    [injection Hstep as <-; apply kept_from_refl|].
  revert Hstep. apply generations_kept. clear c c'.
  intros [wpidx wport] c c' _ Hstep. unfold trans_pair in Hstep.
  destruct (negb (wr_clk_enable wport));
    [injection Hstep as <-; apply kept_from_refl|].
  destruct (decide (rd_clk rport ≠ wr_clk wport));
    [injection Hstep as <-; apply kept_from_refl|].
  destruct (decide (rd_clk_polarity rport ≠ wr_clk_polarity wport));
    [injection Hstep as <-; apply kept_from_refl|].
  apply bind_Ok in Hstep as (collision_x & _ & Hstep).
  destruct collision_x; [injection Hstep as <-; apply kept_from_refl|].
  apply bind_Ok in Hstep as (transparent & _ & Hstep).
  revert Hstep. apply for_each_kept. intros ? ? ?. apply trans_cfg_kept.
Qed.

Lemma priority_cfg_kept p1idx p2idx cfg ys y :
  priority_cfg lib p1idx p2idx cfg = Ok ys → y ∈ ys → binding_kept cfg y.
Proof.
  unfold priority_cfg. intros Ht Hy.
  apply bind_Ok in Ht as (p1cfg & _ & Ht).
  apply bind_Ok in Ht as (p2cfg & Hp2%vec_at_Ok & Ht).
  apply bind_Ok in Ht as (rdef & _ & Ht).
  apply bind_Ok in Ht as (p1def & _ & Ht).
  apply bind_Ok in Ht as (p2def & _ & Ht).
  apply bind_Ok in Ht as ([new_cfgs found_free] & Hloop & Ht).
  assert (Hnew : ∀ y, y ∈ new_cfgs → binding_kept cfg y).
  { intros y' Hy'.
    destruct (caps_loop_Ok _ _ _ _ Hloop y' Hy')
      as (prdef & zs & f & _ & Hbody & Hz).
    unfold priority_cap in Hbody.
    apply bind_Ok in Hbody as (name0 & _ & Hbody).
    destruct (decide (name0 ≠ cap_val prdef));
      [injection Hbody as <- <-; by apply elem_of_nil in Hz|].
    by eapply use_wrport_cap_kept. }
  destruct (negb found_free); injection Ht as <-.
  - apply elem_of_app in Hy as [Hy|Hy]; [by apply Hnew|].
    apply list_elem_of_singleton in Hy as ->.
    by apply (binding_kept_wr_port cfg p2idx p2cfg).
  - by apply Hnew.
Qed.

Lemma handle_priority_kept cfgs out :
  handle_priority mem lib cfgs = Ok out → kept_from cfgs out.
Proof.
  apply generations_kept. intros [p1idx port1] c c' _ Hstep.
  revert Hstep. apply generations_kept. clear c c'.
  intros [p2idx port2] c c' _ Hstep. unfold priority_pair in Hstep.
  apply bind_Ok in Hstep as (prio & _ & Hstep).
  destruct (negb prio); [injection Hstep as <-; apply kept_from_refl|].
  revert Hstep. apply for_each_kept. intros ? ? ?. apply priority_cfg_kept.
Qed.

Lemma apply_rstval_kept pcfg def val ok pcfg' :
  apply_rstval pcfg def val = (ok, pcfg') → rd_port_kept pcfg pcfg'.
Proof.
  unfold apply_rstval. destruct (rst_val_kind def).
  - intros [= <- <-]. apply rd_port_kept_refl.
  - intros [= <- <-]. apply rd_port_kept_refl.
  - destruct (rp_resetvals pcfg !! rst_name def); intros [= <- <-];
      by repeat split.
Qed.

Lemma use_rdrstval_kept kind val pidx cfg rstdef cfg2 free :
  use_rdrstval kind val pidx cfg rstdef = Ok (Some cfg2, free) →
  binding_kept cfg cfg2.
Proof.
  unfold use_rdrstval. intros Hu.
  destruct (decide (rst_kind (cap_val rstdef) ≠ kind)); [done|].
  apply bind_Ok in Hu as (pcfg2 & Hp%vec_at_Ok & Hu).
  destruct (apply_rstval pcfg2 (cap_val rstdef) val) as [ok pcfg2'] eqn:Hrst.
  destruct ok; simpl in Hu; [|done].
  assert (Hk : binding_kept cfg
                 (cfg_set_rd_ports cfg (<[pidx := pcfg2']> (cfg_rd_ports cfg)))).
  { apply binding_kept_rd_port with pcfg2; [done|].
    by eapply apply_rstval_kept. }
  apply bind_Ok in Hu as (applied & _ & Hu). destruct applied.
  - by injection Hu as <- <-.
  - apply bind_Ok in Hu as ([ok cfg2'] & Ha & Hu).
    destruct ok; simpl in Hu; [|done]. injection Hu as <- <-.
    eapply binding_kept_trans; [done|]. by eapply apply_rdport_opts_kept.
Qed.

(** The three handlers of reset values: a loop over [rdrstval] whose
    bodies keep the binding, then a clone of [cfg] with one emulation flag
    of a port that is not [emu_sync]. *)
Lemma rd_rst_cfg_kept (body : Capability ResetValDef
                              → outcome (list MemConfig * bool))
    (caps : Caps ResetValDef) cfg pidx pcfg pcfg' ys y :
  cfg_rd_ports cfg !! pidx = Some pcfg →
  (∀ cap zs f z, body cap = Ok (zs, f) → z ∈ zs → binding_kept cfg z) →
  (rp_emu_sync pcfg = false → rd_port_kept pcfg pcfg') →
  (if rp_emu_sync pcfg then Ok [cfg]
   else
     '(new_cfgs, found_free) ← caps_loop body caps;
     if negb found_free then
       Ok (new_cfgs ++
             [cfg_set_rd_ports cfg (<[pidx := pcfg']> (cfg_rd_ports cfg))])
     else Ok new_cfgs) = Ok ys →
  y ∈ ys → binding_kept cfg y.
Proof.
  intros Hp Hbody Hflag Ht Hy. destruct (rp_emu_sync pcfg).
  - injection Ht as <-. apply list_elem_of_singleton in Hy as ->.
    apply binding_kept_refl.
  - apply bind_Ok in Ht as ([new_cfgs found_free] & Hloop & Ht).
    assert (Hnew : ∀ y, y ∈ new_cfgs → binding_kept cfg y).
    { intros y' Hy'.
      destruct (caps_loop_Ok _ _ _ _ Hloop y' Hy')
        as (cap & zs & f & _ & Hb & Hz).
      by eapply Hbody. }
    destruct (negb found_free); injection Ht as <-; [|by apply Hnew].
    apply elem_of_app in Hy as [Hy|Hy]; [by apply Hnew|].
    apply list_elem_of_singleton in Hy as ->.
    apply binding_kept_rd_port with pcfg; [done | by apply Hflag].
Qed.

Lemma rd_port_kept_flag pcfg pcfg' :
  rp_wr_port pcfg' = rp_wr_port pcfg →
  rp_port_def pcfg' = rp_port_def pcfg →
  rp_emu_sync pcfg' = rp_emu_sync pcfg →
  rp_emu_sync pcfg = false → rd_port_kept pcfg pcfg'.
Proof. intros ? ? ? Hs. repeat split; try done; congruence. Qed.

Lemma rd_init_cfg_kept port pidx cfg ys y :
  rd_init_cfg lib port pidx cfg = Ok ys → y ∈ ys → binding_kept cfg y.
Proof.
  unfold rd_init_cfg. intros Ht Hy.
  apply bind_Ok in Ht as (pcfg & Hp%vec_at_Ok & Ht).
  apply bind_Ok in Ht as (rdef & _ & Ht).
  apply bind_Ok in Ht as (pdef & _ & Ht).
  eapply rd_rst_cfg_kept; [exact Hp| | |exact Ht|exact Hy].
  - intros cap zs f z Hb Hz. unfold rd_init_cap in Hb.
    apply bind_Ok in Hb as ([kept free] & Hu & [= <- <-]).
    destruct kept as [cfg2|]; [|by apply elem_of_nil in Hz].
    apply list_elem_of_singleton in Hz as ->. by eapply use_rdrstval_kept.
  - by apply rd_port_kept_flag.
Qed.

Lemma rd_arst_cfg_kept port pidx cfg ys y :
  rd_arst_cfg lib port pidx cfg = Ok ys → y ∈ ys → binding_kept cfg y.
Proof.
  unfold rd_arst_cfg. intros Ht Hy.
  apply bind_Ok in Ht as (pcfg & Hp%vec_at_Ok & Ht).
  apply bind_Ok in Ht as (rdef & _ & Ht).
  apply bind_Ok in Ht as (pdef & _ & Ht).
  eapply rd_rst_cfg_kept; [exact Hp| | |exact Ht|exact Hy].
  - intros cap zs f z Hb Hz. unfold rd_arst_cap in Hb.
    apply bind_Ok in Hb as ([kept free] & Hu & [= <- <-]).
    destruct kept as [cfg2|]; [|by apply elem_of_nil in Hz].
    apply list_elem_of_singleton in Hz as ->. by eapply use_rdrstval_kept.
  - by apply rd_port_kept_flag.
Qed.

Lemma rd_srst_mode_kept port pidx cfg2 mdef ys y :
  (∀ p, cfg_rd_ports cfg2 !! pidx = Some p → rp_emu_sync p = false) →
  rd_srst_mode port pidx cfg2 mdef = Ok ys → y ∈ ys → binding_kept cfg2 y.
Proof.
  unfold rd_srst_mode. intros Hsync Ht Hy.
  apply bind_Ok in Ht as (pcfg3 & Hp%vec_at_Ok & Ht).
  apply bind_Ok in Ht as ([ok cfg3] & Ha & Ht).
  destruct ok; simpl in Ht; injection Ht as <-;
    [|by apply elem_of_nil in Hy].
  apply list_elem_of_singleton in Hy as ->.
  eapply binding_kept_trans; [|by eapply apply_rdport_opts_kept].
  apply binding_kept_rd_port with pcfg3; [done|].
  apply rd_port_kept_flag; [..|by apply Hsync];
    by repeat (destruct (_ && _)).
Qed.

Lemma rd_srst_cfg_kept port pidx cfg ys y :
  rd_srst_cfg lib port pidx cfg = Ok ys → y ∈ ys → binding_kept cfg y.
Proof.
  unfold rd_srst_cfg. intros Ht Hy.
  apply bind_Ok in Ht as (pcfg & Hp%vec_at_Ok & Ht).
  apply bind_Ok in Ht as (rdef & _ & Ht).
  apply bind_Ok in Ht as (pdef & _ & Ht).
  destruct (rp_emu_sync pcfg) eqn:Hsync.
  { injection Ht as <-. apply list_elem_of_singleton in Hy as ->.
    apply binding_kept_refl. }
  eapply (rd_rst_cfg_kept _ _ cfg pidx pcfg);
    [exact Hp| | |rewrite Hsync; exact Ht|exact Hy].
  - intros cap zs f z Hb Hz. unfold rd_srst_cap in Hb.
    apply bind_Ok in Hb as ([kept free] & Hu & Hb).
    destruct kept as [cfg2|];
      [|injection Hb as <- <-; by apply elem_of_nil in Hz].
    pose proof (use_rdrstval_kept _ _ _ _ _ _ _ Hu) as Hk.
    destruct (decide (rd_en port = sig_of_state S1)).
    + injection Hb as <- <-. by apply list_elem_of_singleton in Hz as ->.
    + apply bind_Ok in Hb as (new_cfgs & Hmodes & [= <- <-]).
      destruct (for_each_Ok _ _ _ Hmodes z Hz) as (mdef & ws & _ & Hm & Hw).
      eapply binding_kept_trans; [exact Hk|].
      eapply rd_srst_mode_kept; [|exact Hm|exact Hw].
      intros p Hp2. destruct Hk as (_ & _ & Hrd).
      destruct (Forall2_lookup_lr _ _ _ _ _ _ Hrd Hp Hp2) as (_ & _ & -> & _).
      done.
  - by apply rd_port_kept_flag.
Qed.

Lemma handle_rd_init_kept cfgs out :
  handle_rd_init mem lib cfgs = Ok out → kept_from cfgs out.
Proof.
  apply generations_kept. intros [pidx port] c c' _ Hstep.
  destruct (negb (rd_clk_enable port));
    [injection Hstep as <-; apply kept_from_refl|].
  destruct (is_fully_undef (rd_init_value port));
    [injection Hstep as <-; apply kept_from_refl|].
  revert Hstep. apply for_each_kept. intros ? ? ?. apply rd_init_cfg_kept.
Qed.

Lemma handle_rd_arst_kept cfgs out :
  handle_rd_arst mem lib cfgs = Ok out → kept_from cfgs out.
Proof.
  apply generations_kept. intros [pidx port] c c' _ Hstep.
  destruct (negb (rd_clk_enable port));
    [injection Hstep as <-; apply kept_from_refl|].
  destruct (decide (rd_arst port = sig_of_state S0));
    [injection Hstep as <-; apply kept_from_refl|].
  destruct (is_fully_undef (rd_arst_value port));
    [injection Hstep as <-; apply kept_from_refl|].
  revert Hstep. apply for_each_kept. intros ? ? ?. apply rd_arst_cfg_kept.
Qed.

Lemma handle_rd_srst_kept cfgs out :
  handle_rd_srst mem lib cfgs = Ok out → kept_from cfgs out.
Proof.
  apply generations_kept. intros [pidx port] c c' _ Hstep.
  destruct (negb (rd_clk_enable port));
    [injection Hstep as <-; apply kept_from_refl|].
  destruct (decide (rd_srst port = sig_of_state S0));
    [injection Hstep as <-; apply kept_from_refl|].
  destruct (is_fully_undef (rd_srst_value port));
    [injection Hstep as <-; apply kept_from_refl|].
  revert Hstep. apply for_each_kept. intros ? ? ?. apply rd_srst_cfg_kept.
Qed.

Lemma emulation_phases_kept cfgs out :
  emulation_phases mem lib cfgs = Ok out → kept_from cfgs out.
Proof.
  unfold emulation_phases, handle_dims. intros Hp.
  apply bind_Ok in Hp as (c1 & H1%handle_trans_kept & Hp).
  apply bind_Ok in Hp as (c2 & H2%handle_priority_kept & Hp).
  apply bind_Ok in Hp as (c3 & H3%handle_rd_init_kept & Hp).
  apply bind_Ok in Hp as (c4 & H4%handle_rd_arst_kept & Hp).
  apply bind_Ok in Hp as (c5 & H5%handle_rd_srst_kept & [= <-]).
  repeat (eapply kept_from_trans; [eassumption|]). apply kept_from_refl.
Qed.

End KeptProperties.

Lemma elem_of_flat_map {A B} (f : A → list B) (l : list A) y :
  y ∈ flat_map f l ↔ ∃ x, x ∈ l ∧ y ∈ f x.
Proof.
  rewrite list_elem_of_In, in_flat_map.
  by setoid_rewrite list_elem_of_In.
Qed.

Section BindingProperties.
Context `{Kernel}.
Variable mem : Mem.
Variable lib : Library.
Variable addr_compatible : nat → nat → bool.
Variable get_wr_implies_rd : nat → nat → bool.
Variable get_wr_excludes_rd : nat → nat → bool.

(** *** The phases before the binding *)

Lemma clone_with_opts_kept cfg src c :
  c ∈ clone_with_opts cfg src → ports_kept cfg c.
Proof.
  unfold clone_with_opts.
  destruct (apply_opts (cfg_opts cfg) src) as [[] o]; intros Hc.
  - by apply list_elem_of_singleton in Hc as ->.
  - by apply elem_of_nil in Hc.
Qed.

Lemma handle_ram_kind_kept kind cfgs out c' :
  handle_ram_kind lib kind cfgs = Ok out → c' ∈ out →
  ∃ c, c ∈ cfgs ∧ ports_kept c c'.
Proof.
  unfold handle_ram_kind. intros Hk Hc'.
  destruct (decide (kind = RamKind.Auto ∨ kind = RamKind.NotLogic)).
  { injection Hk as <-. by exists c'. }
  apply bind_Ok in Hk as (new_cfgs & Hnew & Hk).
  assert (out = new_cfgs) as -> by (destruct new_cfgs; congruence).
  destruct (for_each_Ok _ _ _ Hnew c' Hc') as (c & ys & Hc & Hf & Hy).
  apply bind_Ok in Hf as (rdef & _ & Hf).
  destruct (decide (ram_kind rdef = kind)); injection Hf as <-.
  - apply list_elem_of_singleton in Hy as ->. by exists c.
  - by apply elem_of_nil in Hy.
Qed.

Lemma handle_ram_style_kept style cfgs out c' :
  handle_ram_style lib style cfgs = Ok out → c' ∈ out →
  ∃ c, c ∈ cfgs ∧ ports_kept c c'.
Proof.
  unfold handle_ram_style. intros Hk Hc'.
  destruct (decide (style = "")).
  { injection Hk as <-. by exists c'. }
  apply bind_Ok in Hk as (new_cfgs & Hnew & Hk).
  assert (out = new_cfgs) as -> by (destruct new_cfgs; congruence).
  destruct (for_each_Ok _ _ _ Hnew c' Hc') as (c & ys & Hc & Hf & Hy).
  apply bind_Ok in Hf as (rdef & _ & [= <-]).
  apply elem_of_flat_map in Hy as (def & _ & Hy).
  destruct (decide (cap_val def ≠ style)); [by apply elem_of_nil in Hy|].
  exists c. split; [done | by eapply clone_with_opts_kept].
Qed.

Lemma handle_init_kept cfgs out c' :
  handle_init mem lib cfgs = Ok out → c' ∈ out →
  ∃ c, c ∈ cfgs ∧ ports_kept c c'.
Proof.
  unfold handle_init. intros Hk Hc'.
  destruct (init_flags (mem_inits mem) false false) as [has_nonx has_one].
  destruct (negb has_nonx).
  { injection Hk as <-. by exists c'. }
  destruct (for_each_Ok _ _ _ Hk c' Hc') as (c & ys & Hc & Hf & Hy).
  apply bind_Ok in Hf as (rdef & _ & [= <-]).
  apply elem_of_flat_map in Hy as (def & _ & Hy).
  exists c. split; [done|].
  destruct has_one; case_decide; try (by apply elem_of_nil in Hy);
    by eapply clone_with_opts_kept.
Qed.

(** A filter fails with [OutOfRange] only on a candidate that names no RAM
    definition. *)
Lemma filter_phase_in_range (f : RamDef → MemConfig → outcome MemConfigs)
    cfgs :
  Forall (cfg_valid lib) cfgs →
  (∀ rdef c, f rdef c ≠ Err OutOfRange) →
  for_each (fun cfg => rdef ← vec_at (ram_defs lib) (cfg_ram_def cfg);
                       f rdef cfg) cfgs ≠ Err OutOfRange.
Proof.
  intros Hvalid Hf Herr.
  apply for_each_Err in Herr as (c & Hc & Herr).
  rewrite Forall_forall in Hvalid. specialize (Hvalid c Hc).
  apply lookup_lt_is_Some_2 in Hvalid as [rdef Hrdef].
  unfold vec_at in Herr. rewrite Hrdef in Herr. simpl in Herr.
  by eapply Hf.
Qed.

Lemma handle_ram_kind_in_range kind cfgs :
  Forall (cfg_valid lib) cfgs →
  handle_ram_kind lib kind cfgs ≠ Err OutOfRange.
Proof.
  intros Hvalid. unfold handle_ram_kind. case_decide; [done|].
  destruct (for_each _ cfgs) as [[|c0 new_cfgs]|e] eqn:Hfe; simpl; try done.
  intros [= ->]. revert Hfe.
  apply (filter_phase_in_range
           (fun rdef cfg => if decide (ram_kind rdef = kind)
                            then Ok [cfg] else Ok [])); [done|].
  intros rdef c. by case_decide.
Qed.

Lemma handle_ram_style_in_range style cfgs :
  Forall (cfg_valid lib) cfgs →
  handle_ram_style lib style cfgs ≠ Err OutOfRange.
Proof.
  intros Hvalid. unfold handle_ram_style. case_decide; [done|].
  destruct (for_each _ cfgs) as [[|c0 new_cfgs]|e] eqn:Hfe; simpl; try done.
  intros [= ->]. revert Hfe.
  by apply (filter_phase_in_range (fun rdef cfg => Ok _)).
Qed.

Lemma handle_init_in_range cfgs :
  Forall (cfg_valid lib) cfgs →
  handle_init mem lib cfgs ≠ Err OutOfRange.
Proof.
  intros Hvalid. unfold handle_init.
  destruct (init_flags (mem_inits mem) false false) as [has_nonx has_one].
  destruct (negb has_nonx); [done|].
  by apply (filter_phase_in_range (fun rdef cfg => Ok _)).
Qed.

Lemma initial_cfgs_spec c :
  c ∈ initial_cfgs lib →
  cfg_valid lib c ∧ cfg_wr_ports c = [] ∧ cfg_rd_ports c = [].
Proof.
  unfold initial_cfgs. intros (i & rdef & -> & Hi)%elem_of_lookup_imap.
  split; [|done]. by eapply lookup_lt_Some.
Qed.

(** *** The binding of the write ports *)

Lemma apply_clock_fields cfg def clk pol ok cfg' :
  apply_clock cfg def clk pol = (ok, cfg') →
  cfg_ram_def cfg' = cfg_ram_def cfg
  ∧ cfg_opts cfg' = cfg_opts cfg
  ∧ cfg_wr_ports cfg' = cfg_wr_ports cfg
  ∧ cfg_rd_ports cfg' = cfg_rd_ports cfg.
Proof.
  unfold apply_clock. repeat case_decide; repeat case_match;
    by intros [= <- <-].
Qed.

Lemma wr_port_group_spec port cfg i def c' :
  c' ∈ wr_port_group port cfg i def →
  cfg_ram_def c' = cfg_ram_def cfg
  ∧ cfg_rd_ports c' = cfg_rd_ports cfg
  ∧ used_by_wr_ports cfg i < length (pg_names (cap_val def))
  ∧ ∃ p, cfg_wr_ports c' = cfg_wr_ports cfg ++ [p] ∧ wp_port_def p = i.
Proof.
  unfold wr_port_group. intros Hc'.
  case_decide; [by apply elem_of_nil in Hc'|].
  case_decide as Hused; [by apply elem_of_nil in Hc'|].
  destruct (apply_opts (cfg_opts cfg) (cap_opts def)) as [[] o]; simpl in Hc';
    [|by apply elem_of_nil in Hc'].
  apply elem_of_flat_map in Hc' as (cdef & _ & Hc').
  destruct (apply_opts _ (cap_opts cdef)) as [[] o3]; simpl in Hc';
    [|by apply elem_of_nil in Hc'].
  destruct (apply_opts _ (cap_portopts cdef)) as [[] po3]; simpl in Hc';
    [|by apply elem_of_nil in Hc'].
  destruct (apply_clock _ _ _ _) as [[] cfg3] eqn:Hclk; simpl in Hc';
    [|by apply elem_of_nil in Hc'].
  apply list_elem_of_singleton in Hc' as ->.
  apply apply_clock_fields in Hclk as (Hr & _ & Hw & Hrd). simpl in *.
  split; [done|]. split; [done|]. split; [lia|].
  eexists. by rewrite Hw.
Qed.

Lemma used_by_wr_ports_app cfg cfg' p g :
  cfg_wr_ports cfg' = cfg_wr_ports cfg ++ [p] →
  used_by_wr_ports cfg' g
  = used_by_wr_ports cfg g + (if decide (wp_port_def p = g) then 1 else 0).
Proof.
  unfold used_by_wr_ports. intros ->.
  rewrite filter_app, length_app. f_equal.
  rewrite filter_cons. by case_decide.
Qed.

Lemma used_by_wr_ports_defs cfg cfg' g :
  wp_port_def <$> cfg_wr_ports cfg' = wp_port_def <$> cfg_wr_ports cfg →
  used_by_wr_ports cfg' g = used_by_wr_ports cfg g.
Proof.
  unfold used_by_wr_ports. generalize (cfg_wr_ports cfg).
  induction (cfg_wr_ports cfg') as [|p' l' IH]; intros [|p l] Heq;
    try done.
  simpl in Heq. injection Heq as Hd Hl.
  rewrite !filter_cons, Hd.
  case_decide; simpl; by rewrite (IH l).
Qed.

Lemma wr_binding_defs (l l' : list WrPortConfig) :
  wr_binding <$> l' = wr_binding <$> l →
  wp_port_def <$> l' = wp_port_def <$> l.
Proof.
  intros Heq. apply (f_equal (fmap fst)) in Heq.
  by rewrite <- !list_fmap_compose in Heq.
Qed.

(** The invariant of the binding of the write ports. *)
Lemma wr_port_cfg_inv port cfg ys c' :
  wr_port_cfg lib port cfg = Ok ys → c' ∈ ys →
  cfg_rd_ports cfg = [] → wr_usage_ok lib cfg →
  cfg_valid lib c' ∧ cfg_rd_ports c' = [] ∧ wr_usage_ok lib c'.
Proof.
  unfold wr_port_cfg. intros Hw Hc' Hrd Hok.
  apply bind_Ok in Hw as (ram_def & Hram%vec_at_Ok & [= <-]).
  apply elem_of_flat_map in Hc' as ([i def] & Hdef%elem_of_enumerate & Hc').
  apply wr_port_group_spec in Hc' as (Hr & Hrd' & Hused & p & Hp & Hpd).
  split; [|split].
  - unfold cfg_valid. rewrite Hr. by eapply lookup_lt_Some.
  - congruence.
  - intros rdef g gdef Hrdef Hg. rewrite Hr in Hrdef.
    rewrite (used_by_wr_ports_app cfg c' p g Hp).
    specialize (Hok rdef g gdef Hrdef Hg).
    case_decide as Hpg; [|lia].
    assert (rdef = ram_def) as -> by congruence.
    assert (g = i) as -> by congruence.
    pose proof (eq_trans (eq_sym Hg) Hdef) as [= ->]. lia.
Qed.

Lemma wr_port_cfg_total port cfg :
  cfg_valid lib cfg → ∃ ys, wr_port_cfg lib port cfg = Ok ys.
Proof.
  intros [rdef Hrdef]%lookup_lt_is_Some_2. unfold wr_port_cfg, vec_at.
  rewrite Hrdef. simpl. by eexists.
Qed.

Lemma handle_wr_ports_loop_inv ports cfgs out :
  handle_wr_ports_loop lib ports cfgs = Ok out →
  Forall (wr_inv lib) cfgs → Forall (wr_inv lib) out.
Proof.
  revert cfgs. induction ports as [|port rest IH]; simpl; intros cfgs Hl Hinv.
  - by injection Hl as <-.
  - destruct (negb (wr_clk_enable port)); [by injection Hl as <-|].
    apply bind_Ok in Hl as (new_cfgs & Hnew & Hl).
    eapply IH; [done|]. apply Forall_forall. intros c' Hc'.
    destruct (for_each_Ok _ _ _ Hnew c' Hc') as (c & ys & Hc & Hf & Hy).
    rewrite Forall_forall in Hinv. destruct (Hinv c Hc) as (_ & ? & ?).
    by eapply wr_port_cfg_inv.
Qed.

Lemma wr_port_cfg_valid port cfg ys c' :
  wr_port_cfg lib port cfg = Ok ys → c' ∈ ys → cfg_valid lib c'.
Proof.
  unfold wr_port_cfg. intros Hw Hc'.
  apply bind_Ok in Hw as (ram_def & Hram%vec_at_Ok & [= <-]).
  apply elem_of_flat_map in Hc' as ([i def] & _ & Hc').
  apply wr_port_group_spec in Hc' as (Hr & _).
  unfold cfg_valid. rewrite Hr. by eapply lookup_lt_Some.
Qed.

Lemma handle_wr_ports_loop_async ports cfgs :
  (∃ port, port ∈ ports ∧ wr_clk_enable port = false) →
  Forall (cfg_valid lib) cfgs →
  handle_wr_ports_loop lib ports cfgs = Ok [].
Proof.
  revert cfgs. induction ports as [|port rest IH]; simpl;
    intros cfgs (aport & Hin & Hasync) Hvalid.
  - by apply elem_of_nil in Hin.
  - destruct (wr_clk_enable port) eqn:Hen; simpl; [|done].
    apply elem_of_cons in Hin as [->|Hin]; [congruence|].
    destruct (for_each_total (wr_port_cfg lib port) cfgs) as [new_cfgs Hnew].
    { intros c Hc. rewrite Forall_forall in Hvalid.
      apply wr_port_cfg_total. by apply Hvalid. }
    rewrite Hnew. simpl. apply IH; [by exists aport|].
    apply Forall_forall. intros c' Hc'.
    destruct (for_each_Ok _ _ _ Hnew c' Hc') as (c & ys & Hc & Hf & Hy).
    by eapply wr_port_cfg_valid.
Qed.

(** *** The binding of the read ports *)

Lemma rd_port_unshared_spec port cfg i def c' :
  c' ∈ rd_port_unshared port cfg i def →
  cfg_ram_def c' = cfg_ram_def cfg
  ∧ cfg_wr_ports c' = cfg_wr_ports cfg
  ∧ used_by_wr_ports cfg i < length (pg_names (cap_val def))
  ∧ ∃ p, cfg_rd_ports c' = cfg_rd_ports cfg ++ [p]
         ∧ rp_wr_port p = (-1)%Z ∧ rp_port_def p = i
         ∧ emu_sync_exclusive p.
Proof.
  unfold rd_port_unshared. intros Hc'.
  case_decide; [by apply elem_of_nil in Hc'|].
  destruct (negb (rd_clk_enable port) && _); [by apply elem_of_nil in Hc'|].
  case_decide as Hused; [by apply elem_of_nil in Hc'|].
  destruct (apply_opts (cfg_opts cfg) (cap_opts def)) as [[] o]; simpl in Hc';
    [|by apply elem_of_nil in Hc'].
  case_decide.
  - apply elem_of_flat_map in Hc' as (cdef & _ & Hc').
    destruct (apply_opts _ (cap_opts cdef)) as [[] o3]; simpl in Hc';
      [|by apply elem_of_nil in Hc'].
    destruct (apply_opts _ (cap_portopts cdef)) as [[] po3]; simpl in Hc';
      [|by apply elem_of_nil in Hc'].
    destruct (apply_clock _ _ _ _) as [[] cfg3] eqn:Hclk; simpl in Hc';
      [|by apply elem_of_nil in Hc'].
    apply apply_clock_fields in Hclk as (Hr & _ & Hw & Hrd). simpl in *.
    apply elem_of_flat_map in Hc' as (endef & _ & Hc').
    destruct (apply_opts _ (cap_opts endef)) as [[] o4]; simpl in Hc';
      [|by apply elem_of_nil in Hc'].
    destruct (apply_opts _ (cap_portopts endef)) as [[] po4]; simpl in Hc';
      [|by apply elem_of_nil in Hc'].
    apply list_elem_of_singleton in Hc' as ->. simpl.
    split; [done|]. split; [done|]. split; [lia|].
    eexists. rewrite Hrd. split; [done|].
    by destruct (_ && _).
  - apply list_elem_of_singleton in Hc' as ->. simpl.
    split; [done|]. split; [done|]. split; [lia|].
    eexists. split; [done|]. done.
Qed.

Lemma rd_port_shared_spec port pidx cfg ram_def wpidx wport ys c' :
  rd_port_shared addr_compatible get_wr_implies_rd get_wr_excludes_rd
    port pidx cfg ram_def wpidx wport = Ok ys →
  c' ∈ ys →
  cfg_ram_def c' = cfg_ram_def cfg
  ∧ wp_port_def <$> cfg_wr_ports c' = wp_port_def <$> cfg_wr_ports cfg
  ∧ ∃ p, cfg_rd_ports c' = cfg_rd_ports cfg ++ [p]
         ∧ rp_wr_port p = Z.of_nat wpidx
         ∧ (wp_port_def <$> cfg_wr_ports cfg) !! wpidx = Some (rp_port_def p)
         ∧ emu_sync_exclusive p.
Proof.
  unfold rd_port_shared. intros Hs Hc'.
  apply bind_Ok in Hs as (wpcfg & Hwp%vec_at_Ok & Hs).
  apply bind_Ok in Hs as (def & _ & Hs).
  case_decide; [injection Hs as <-; by apply elem_of_nil in Hc'|].
  case_decide; [injection Hs as <-; by apply elem_of_nil in Hc'|].
  destruct (negb (addr_compatible wpidx pidx));
    [injection Hs as <-; by apply elem_of_nil in Hc'|].
  destruct (bool_decide (pg_kind (cap_val def) = PortKind.Srsw) && _);
    [injection Hs as <-; by apply elem_of_nil in Hc'|].
  assert (Hdefs : wp_port_def <$>
                    <[wpidx := wp_set_rd_port wpcfg (Z.of_nat pidx)]>
                      (cfg_wr_ports cfg)
                  = wp_port_def <$> cfg_wr_ports cfg).
  { rewrite list_fmap_insert. apply list_insert_id.
    by rewrite list_lookup_fmap, Hwp. }
  assert (Hgroup : (wp_port_def <$> cfg_wr_ports cfg) !! wpidx
                   = Some (wp_port_def wpcfg))
    by (by rewrite list_lookup_fmap, Hwp).
  case_decide as Hkind.
  - destruct (for_each_Ok _ _ _ Hs c' Hc') as (endef & zs & _ & Hr & Hz).
    unfold rd_port_shared_rden in Hr.
    apply bind_Ok in Hr as ([ok cfg3] & Ha & Hr).
    pose proof (apply_wrport_opts_rd_ports _ _ _ _ _ Ha) as Hrd'.
    apply apply_wrport_opts_kept in Ha as (Hram & Hwr%wr_binding_defs & _).
    simpl in Hram, Hwr, Hrd'.
    destruct ok; simpl in Hr;
      [|injection Hr as <-; by apply elem_of_nil in Hz].
    rewrite Hkind, bool_decide_eq_false_2, andb_false_r in Hr by done.
    assert (Hex : ∀ b, emu_sync_exclusive
                    (rp_set_emu_en
                       (rp_set_emu_sync
                          (new_RdPortConfig (Z.of_nat wpidx)
                             (wp_port_def wpcfg)) false) b))
      by done.
    destruct (cap_val endef);
      try destruct (negb (get_wr_excludes_rd wpidx pidx));
      injection Hr as <-; try (by apply elem_of_nil in Hz);
      apply list_elem_of_singleton in Hz as ->; simpl;
      (split; [done|]); (split; [congruence|]);
      eexists; rewrite Hrd'; (split; [done|]); (split; [done|]);
      (split; [exact Hgroup|]); done.
  - injection Hs as <-. apply list_elem_of_singleton in Hc' as ->. simpl.
    split; [done|]. split; [done|].
    eexists. split; [done|]. split; [done|]. split; [exact Hgroup|]. done.
Qed.

Lemma rd_port_cfg_inv pidx port cfg ys c' :
  rd_port_cfg mem lib addr_compatible get_wr_implies_rd get_wr_excludes_rd
    pidx port cfg = Ok ys →
  c' ∈ ys → rd_inv lib cfg → rd_inv lib c'.
Proof.
  unfold rd_port_cfg. intros Hc Hc' ([Hwr Hrd] & Hex & Hsh).
  apply bind_Ok in Hc as (ram_def & Hram%vec_at_Ok & Hc).
  apply bind_Ok in Hc as (shared & Hshared & [= <-]).
  assert (Hnew : cfg_ram_def c' = cfg_ram_def cfg
                 ∧ wp_port_def <$> cfg_wr_ports c'
                   = wp_port_def <$> cfg_wr_ports cfg
                 ∧ ∃ p, cfg_rd_ports c' = cfg_rd_ports cfg ++ [p]
                        ∧ emu_sync_exclusive p
                        ∧ (rp_wr_port p = (-1)%Z →
                           ∀ def, ram_ports ram_def !! rp_port_def p = Some def →
                             used_by_wr_ports cfg (rp_port_def p)
                             < length (pg_names (cap_val def)))
                        ∧ (rp_wr_port p ≠ (-1)%Z →
                           (0 ≤ rp_wr_port p)%Z
                           ∧ (wp_port_def <$> cfg_wr_ports cfg)
                               !! Z.to_nat (rp_wr_port p)
                             = Some (rp_port_def p))).
  { apply elem_of_app in Hc' as [Hc'|Hc'].
    - apply elem_of_flat_map in Hc'
        as ([i def] & Hdef%elem_of_enumerate & Hc').
      apply rd_port_unshared_spec in Hc'
        as (? & Hw & ? & p & ? & ? & <- & ?).
      split; [done|]. split; [by rewrite Hw|].
      exists p. split; [done|]. split; [done|]. split; [|done].
      intros _ def' Hdef'.
      by pose proof (eq_trans (eq_sym Hdef') Hdef) as [= ->].
    - destruct (for_each_Ok _ _ _ Hshared c' Hc')
        as ([wpidx wport] & zs & _ & Hs & Hz).
      apply rd_port_shared_spec with (c' := c') in Hs
        as (? & ? & p & ? & Hw & Hg & ?); [|done].
      split; [done|]. split; [done|].
      exists p. split; [done|]. split; [done|]. split; [lia|].
      intros _. rewrite Hw, Nat2Z.id. split; [lia | done]. }
  destruct Hnew as (Hr & Hdefs & p & Hp & Hpex & Hpu & Hps).
  pose proof (used_by_wr_ports_defs cfg c') as Hused.
  split; [split|split].
  - intros rdef g def Hrdef Hg. rewrite Hr in Hrdef.
    rewrite Hused by done. by eapply Hwr.
  - intros rdef g def q Hrdef Hg Hq Hqw Hqd. rewrite Hr in Hrdef.
    rewrite Hused by done.
    rewrite Hp in Hq. apply elem_of_app in Hq as [Hq|Hq].
    + by eapply Hrd.
    + apply list_elem_of_singleton in Hq as ->. subst g.
      apply Hpu; [done|].
      by pose proof (eq_trans (eq_sym Hram) Hrdef) as [= ->].
  - rewrite Hp. apply Forall_app. split; [done|]. by apply Forall_singleton.
  - intros q Hq Hqw. rewrite Hdefs.
    rewrite Hp in Hq. apply elem_of_app in Hq as [Hq|Hq].
    + by apply Hsh.
    + apply list_elem_of_singleton in Hq as ->. by apply Hps.
Qed.

Lemma handle_rd_ports_inv cfgs out :
  handle_rd_ports mem lib addr_compatible get_wr_implies_rd get_wr_excludes_rd
    cfgs = Ok out →
  Forall (rd_inv lib) cfgs → Forall (rd_inv lib) out.
Proof.
  apply generations_ind. intros [pidx port] c c' _ Hstep Hinv.
  apply Forall_forall. intros y Hy.
  destruct (for_each_Ok _ _ _ Hstep y Hy) as (x & ys & Hx & Hf & Hys).
  rewrite Forall_forall in Hinv.
  eapply rd_port_cfg_inv; [exact Hf | exact Hys | by apply Hinv].
Qed.

Lemma rd_inv_kept c c' : binding_kept c c' → rd_inv lib c → rd_inv lib c'.
Proof.
  intros (Hr & Hw%wr_binding_defs & Hp) ([Hwr Hrd] & Hex & Hsh).
  pose proof (used_by_wr_ports_defs c c') as Hused.
  split; [split|split].
  - intros rdef g def Hrdef Hg. rewrite Hr in Hrdef.
    rewrite Hused by done. by eapply Hwr.
  - intros rdef g def q' Hrdef Hg Hq Hqw Hqd. rewrite Hr in Hrdef.
    rewrite Hused by done.
    apply list_elem_of_lookup in Hq as [i Hq].
    destruct (Forall2_lookup_r _ _ _ _ _ Hp Hq) as (q & Hq0 & Hk & Hd & _).
    eapply (Hrd rdef g def q); [done..| |congruence|congruence].
    apply list_elem_of_lookup. by exists i.
  - apply Forall_forall. intros q' Hq.
    apply list_elem_of_lookup in Hq as [i Hq].
    destruct (Forall2_lookup_r _ _ _ _ _ Hp Hq)
      as (q & Hq0 & _ & _ & Hs & Hf).
    rewrite Forall_lookup in Hex. specialize (Hex i q Hq0).
    intros Hs'. rewrite Hs in Hs'.
    destruct (Hf Hs') as (-> & -> & -> & -> & ->). by apply Hex.
  - intros q' Hq Hqw. rewrite Hw.
    apply list_elem_of_lookup in Hq as [i Hq].
    destruct (Forall2_lookup_r _ _ _ _ _ Hp Hq) as (q & Hq0 & Hk & Hd & _).
    rewrite Hk, Hd. apply Hsh; [|congruence].
    apply list_elem_of_lookup. by exists i.
Qed.

Lemma binding_phases_inv cfgs :
  binding_phases mem lib addr_compatible get_wr_implies_rd get_wr_excludes_rd
  = Ok cfgs →
  Forall (rd_inv lib) cfgs.
Proof.
  unfold binding_phases. intros Hb.
  apply bind_Ok in Hb as (c1 & H1 & Hb).
  apply bind_Ok in Hb as (c2 & H2 & Hb).
  apply bind_Ok in Hb as (c3 & H3 & Hb).
  apply bind_Ok in Hb as (c4 & H4 & Hb).
  eapply handle_rd_ports_inv; [exact Hb|].
  assert (Hw : Forall (wr_inv lib) c4).
  { eapply handle_wr_ports_loop_inv; [exact H4|].
    apply Forall_forall. intros x3 Hx3.
    destruct (handle_init_kept _ _ _ H3 Hx3) as (x2 & Hx2 & ? & ? & ?).
    destruct (handle_ram_style_kept _ _ _ _ H2 Hx2)
      as (x1 & Hx1 & ? & ? & ?).
    destruct (handle_ram_kind_kept _ _ _ _ H1 Hx1)
      as (x0 & Hx0 & ? & ? & ?).
    apply initial_cfgs_spec in Hx0 as (Hv & Hw0 & Hr0).
    split; [unfold cfg_valid in *; congruence|].
    split; [congruence|].
    intros rdef g def _ _. unfold used_by_wr_ports.
    assert (cfg_wr_ports x3 = []) as -> by congruence. simpl. lia. }
  apply Forall_forall. intros c Hc.
  rewrite Forall_forall in Hw. destruct (Hw c Hc) as (_ & Hrd & Hu).
  split; [split; [done|]|split].
  - intros rdef g def p _ _ Hp. rewrite Hrd in Hp. by apply elem_of_nil in Hp.
  - rewrite Hrd. constructor.
  - intros p Hp. rewrite Hrd in Hp. by apply elem_of_nil in Hp.
Qed.

(** *** The constructor *)

Lemma MemMapping_inv st :
  MemMapping mem lib addr_compatible get_wr_implies_rd get_wr_excludes_rd
  = Ok st →
  Forall (rd_inv lib) (mm_cfgs st).
Proof.
  unfold MemMapping. destruct (determine_style mem) as [kind style].
  case_decide.
  - intros [= <-]. constructor.
  - intros Hm.
    apply bind_Ok in Hm as (cfgs1 & Hb%binding_phases_inv & Hm).
    apply bind_Ok in Hm as (cfgs2 & He%emulation_phases_kept & [= <-]).
    simpl. apply Forall_forall. intros c' Hc'.
    destruct (He c' Hc') as (c & Hc & Hk).
    rewrite Forall_forall in Hb. eapply rd_inv_kept; [exact Hk | by apply Hb].
Qed.

(** C9. In every candidate that the constructor leaves, a read port with
    [emu_sync] set has [emu_en], [emu_arst], [emu_srst], [emu_init] and
    [emu_srst_en_prio] all false. *)
Theorem emu_sync_excludes_emulation st c p :
  MemMapping mem lib addr_compatible get_wr_implies_rd get_wr_excludes_rd
  = Ok st →
  c ∈ mm_cfgs st → p ∈ cfg_rd_ports c →
  rp_emu_sync p = true →
  rp_emu_en p = false ∧ rp_emu_arst p = false ∧ rp_emu_srst p = false
  ∧ rp_emu_init p = false ∧ rp_emu_srst_en_prio p = false.
Proof.
  intros Hm%MemMapping_inv Hc Hp.
  rewrite Forall_forall in Hm. destruct (Hm c Hc) as (_ & Hex & _).
  rewrite Forall_forall in Hex. by apply Hex.
Qed.

Lemma group_usage_ok_slots c : group_usage_ok lib c → group_slots_ok lib c.
Proof.
  intros [Hwr Hrd] rdef g def Hrdef Hg. unfold slots_bound.
  destruct (filter (unshared_on g) (cfg_rd_ports c)) as [|p ps] eqn:Hf.
  - specialize (Hwr rdef g def Hrdef Hg). simpl. lia.
  - assert (Hp : p ∈ filter (unshared_on g) (cfg_rd_ports c))
      by (rewrite Hf; apply list_elem_of_here).
    apply list_elem_of_filter in Hp as [[Hd Hw] Hp].
    specialize (Hrd rdef g def p Hrdef Hg Hp Hw Hd). simpl. lia.
Qed.

(** C2, as amended. In every candidate after the binding phases, and in
    every candidate that the constructor leaves, for every port group [g]
    of the chosen RAM definition: the write ports bound to [g], plus one
    if some read port is bound to [g] without sharing a write port, are at
    most as many as the names of [g]; and a read port that shares a write
    port is bound to the group of that write port.  (The read ports bound
    to a group without sharing are not limited in number.) *)
Theorem group_usage_bounded :
  (∀ cfgs,
     binding_phases mem lib addr_compatible get_wr_implies_rd
       get_wr_excludes_rd = Ok cfgs →
     Forall (fun c => group_slots_ok lib c ∧ shared_on_write_group c) cfgs)
  ∧ (∀ st,
       MemMapping mem lib addr_compatible get_wr_implies_rd
         get_wr_excludes_rd = Ok st →
       Forall (fun c => group_slots_ok lib c ∧ shared_on_write_group c)
         (mm_cfgs st)).
Proof.
  split.
  - intros cfgs Hb%binding_phases_inv.
    eapply Forall_impl; [exact Hb|].
    intros c (? & _ & ?). split; [by apply group_usage_ok_slots | done].
  - intros st Hm%MemMapping_inv.
    eapply Forall_impl; [exact Hm|].
    intros c (? & _ & ?). split; [by apply group_usage_ok_slots | done].
Qed.

Lemma generations_nil {A} (step : A → MemConfigs → outcome MemConfigs) xs :
  (∀ x, x ∈ xs → step x [] = Ok []) → generations step xs [] = Ok [].
Proof.
  induction xs as [|x rest IH]; simpl; intros Hstep; [done|].
  rewrite (Hstep x) by apply list_elem_of_here. simpl.
  apply IH. intros x' ?. apply Hstep. by apply list_elem_of_further.
Qed.

Lemma handle_rd_ports_nil :
  handle_rd_ports mem lib addr_compatible get_wr_implies_rd get_wr_excludes_rd
    [] = Ok [].
Proof. apply generations_nil. by intros [pidx port] _. Qed.

Lemma vec_at_in_range {A} (v : list A) i :
  i < length v → ∃ x, vec_at v i = Ok x.
Proof.
  intros [x Hx]%lookup_lt_is_Some_2. exists x. by apply vec_at_Ok.
Qed.

Lemma emulation_phases_nil :
  mem_wf mem → emulation_phases mem lib [] = Ok [].
Proof.
  intros [Hrd Hwr]. unfold emulation_phases.
  assert (Htrans : handle_trans mem lib [] = Ok []).
  { apply generations_nil. intros [rpidx rport] Hr%elem_of_enumerate.
    unfold trans_rd_port.
    destruct (negb (rd_clk_enable rport)); [done|].
    apply generations_nil. intros [wpidx wport] Hw%elem_of_enumerate.
    unfold trans_pair. repeat (case_match; [done|]).
    destruct (Hrd rport) as [Ht Hc]; [by eapply list_elem_of_lookup_2|].
    apply lookup_lt_Some in Hw.
    destruct (vec_at_in_range (rd_collision_x_mask rport) wpidx)
      as [cx ->]; [lia|].
    destruct (vec_at_in_range (rd_transparency_mask rport) wpidx)
      as [tr ->]; [lia|].
    simpl. by destruct cx. }
  assert (Hprio : handle_priority mem lib [] = Ok []).
  { apply generations_nil. intros [p1idx port1] H1%elem_of_enumerate.
    apply generations_nil. intros [p2idx port2] H2%elem_of_enumerate.
    unfold priority_pair.
    apply lookup_lt_Some in H1.
    destruct (vec_at_in_range (wr_priority_mask port2) p1idx) as [pr ->].
    { rewrite (Hwr port2); [done | by eapply list_elem_of_lookup_2]. }
    simpl. by destruct pr. }
  assert (Hinit : handle_rd_init mem lib [] = Ok []).
  { apply generations_nil. intros [pidx port] _.
    by repeat (case_match; [done|]). }
  assert (Harst : handle_rd_arst mem lib [] = Ok []).
  { apply generations_nil. intros [pidx port] _.
    by repeat (case_match; [done|]). }
  assert (Hsrst : handle_rd_srst mem lib [] = Ok []).
  { apply generations_nil. intros [pidx port] _.
    by repeat (case_match; [done|]). }
  rewrite Htrans. simpl. rewrite Hprio. simpl. rewrite Hinit. simpl.
  rewrite Harst. simpl. by rewrite Hsrst.
Qed.

Lemma pre_binding_valid kind style c1 c2 :
  handle_ram_kind lib kind (initial_cfgs lib) = Ok c1 →
  Forall (cfg_valid lib) c1
  ∧ (handle_ram_style lib style c1 = Ok c2 → Forall (cfg_valid lib) c2).
Proof.
  intros H1.
  assert (Hv1 : Forall (cfg_valid lib) c1).
  { apply Forall_forall. intros x1 Hx1.
    destruct (handle_ram_kind_kept _ _ _ _ H1 Hx1) as (x0 & Hx0 & Hr & _).
    apply initial_cfgs_spec in Hx0 as (Hv & _).
    unfold cfg_valid in *. congruence. }
  split; [done|]. intros H2.
  apply Forall_forall. intros x2 Hx2.
  destruct (handle_ram_style_kept _ _ _ _ H2 Hx2) as (x1 & Hx1 & Hr & _).
  rewrite Forall_forall in Hv1. specialize (Hv1 x1 Hx1).
  unfold cfg_valid in *. congruence.
Qed.

Lemma pre_binding_inv kind style c1 c2 c3 :
  handle_ram_kind lib kind (initial_cfgs lib) = Ok c1 →
  handle_ram_style lib style c1 = Ok c2 →
  handle_init mem lib c2 = Ok c3 →
  Forall (cfg_valid lib) c1 ∧ Forall (cfg_valid lib) c2
  ∧ Forall (wr_inv lib) c3.
Proof.
  intros H1 H2 H3.
  assert (Hc1 : ∀ x1, x1 ∈ c1 →
            cfg_valid lib x1 ∧ cfg_wr_ports x1 = [] ∧ cfg_rd_ports x1 = []).
  { intros x1 Hx1.
    destruct (handle_ram_kind_kept _ _ _ _ H1 Hx1)
      as (x0 & Hx0 & ? & ? & ?).
    apply initial_cfgs_spec in Hx0 as (Hv & Hw0 & Hr0).
    unfold cfg_valid in *. repeat split; congruence. }
  assert (Hc2 : ∀ x2, x2 ∈ c2 →
            cfg_valid lib x2 ∧ cfg_wr_ports x2 = [] ∧ cfg_rd_ports x2 = []).
  { intros x2 Hx2.
    destruct (handle_ram_style_kept _ _ _ _ H2 Hx2)
      as (x1 & Hx1 & ? & ? & ?).
    destruct (Hc1 x1 Hx1) as (Hv & Hw0 & Hr0).
    unfold cfg_valid in *. repeat split; congruence. }
  split; [|split]; apply Forall_forall.
  - intros x ?. by apply Hc1.
  - intros x ?. by apply Hc2.
  - intros x3 Hx3.
    destruct (handle_init_kept _ _ _ H3 Hx3) as (x2 & Hx2 & ? & ? & ?).
    destruct (Hc2 x2 Hx2) as (Hv & Hw0 & Hr0).
    split; [unfold cfg_valid in *; congruence|].
    split; [congruence|].
    intros rdef g def _ _. unfold used_by_wr_ports.
    assert (cfg_wr_ports x3 = []) as -> by congruence. simpl. lia.
Qed.

Lemma kept_from_nil out : kept_from [] out → out = [].
Proof.
  destruct out as [|c out]; [done|]. intros Hk.
  destruct (Hk c) as (c0 & Hc0 & _); [apply list_elem_of_here|].
  by apply elem_of_nil in Hc0.
Qed.

(** A memory with a write port without clock has no logic fallback. *)
Lemma async_write_port_no_logic_fallback kind :
  (∃ port, port ∈ mem_wr_ports mem ∧ wr_clk_enable port = false) →
  determine_logic_ok mem kind = false.
Proof.
  intros (aport & Hin & Hasync). unfold determine_logic_ok.
  case_decide; [done|].
  destruct (mem_wr_ports mem) as [|port0 rest] eqn:Hports;
    [by apply elem_of_nil in Hin|].
  apply not_true_is_false. intros Hok.
  pose proof (proj1 (determine_logic_ok_loop_spec _ _) Hok aport Hin)
    as (? & _).
  congruence.
Qed.

(** C7. When a write port of the memory has no clock ([clk_enable]
    false), the binding of the write ports leaves [cfgs] empty and returns
    without a fatal error; the phases that follow return the empty [cfgs]
    too, so that the constructor, when it completes, leaves no candidate
    (only the logic fallback can remain, subject to [logic_ok]); and the
    constructor does not index a vector out of range. *)
Theorem async_write_port_clears_cfgs :
  (∃ port, port ∈ mem_wr_ports mem ∧ wr_clk_enable port = false) →
  (∀ cfgs, Forall (cfg_valid lib) cfgs →
     handle_wr_ports mem lib cfgs = Ok [])
  ∧ handle_rd_ports mem lib addr_compatible get_wr_implies_rd
      get_wr_excludes_rd [] = Ok []
  ∧ (∀ st,
       MemMapping mem lib addr_compatible get_wr_implies_rd
         get_wr_excludes_rd = Ok st →
       mm_cfgs st = [])
  ∧ (mem_wf mem →
     emulation_phases mem lib [] = Ok []
     ∧ MemMapping mem lib addr_compatible get_wr_implies_rd
         get_wr_excludes_rd ≠ Err OutOfRange).
Proof.
  intros Hasync.
  assert (Hwr : ∀ cfgs, Forall (cfg_valid lib) cfgs →
                  handle_wr_ports mem lib cfgs = Ok []).
  { intros cfgs Hvalid. by apply handle_wr_ports_loop_async. }
  pose proof handle_rd_ports_nil as Hrd.
  assert (Hbind :
    (∃ e, e ≠ OutOfRange ∧
       binding_phases mem lib addr_compatible get_wr_implies_rd
         get_wr_excludes_rd = Err e)
    ∨ binding_phases mem lib addr_compatible get_wr_implies_rd
        get_wr_excludes_rd = Ok []).
  { unfold binding_phases.
    assert (Hv0 : Forall (cfg_valid lib) (initial_cfgs lib)).
    { apply Forall_forall. intros c Hc.
      by apply initial_cfgs_spec in Hc as (? & _). }
    pose proof (handle_ram_kind_in_range (determine_style mem).1 _ Hv0) as Hr1.
    destruct (handle_ram_kind lib _ (initial_cfgs lib)) as [c1|e1] eqn:H1;
      [|left; exists e1; split; [congruence | done]].
    simpl.
    destruct (handle_ram_style lib (determine_style mem).2 c1)
      as [c2|e2] eqn:H2.
    - simpl. destruct (handle_init mem lib c2) as [c3|e3] eqn:H3.
      + destruct (pre_binding_inv _ _ _ _ _ H1 H2 H3) as (_ & _ & Hinv).
        simpl. rewrite (Hwr c3); [by right|].
        eapply Forall_impl; [exact Hinv|]. by intros c [? _].
      + destruct (pre_binding_valid _ (determine_style mem).2 _ c2 H1)
          as [_ Hv2].
        pose proof (handle_init_in_range c2 (Hv2 H2)) as Hr3.
        left. exists e3. split; [congruence|done].
    - destruct (pre_binding_valid _ "" _ c1 H1) as [Hv1 _].
      pose proof (handle_ram_style_in_range (determine_style mem).2 c1 Hv1).
      left. exists e2. split; [congruence|done]. }
  split; [done|]. split; [done|]. split.
  - unfold MemMapping. destruct (determine_style mem) as [kind style].
    case_decide; [by intros st [= <-]|].
    destruct Hbind as [(e & Hne & ->) | ->]; simpl; [done|].
    intros st Hst.
    apply bind_Ok in Hst as (cfgs & Hk%emulation_phases_kept & [= <-]).
    simpl. by apply kept_from_nil.
  - intros Hwf. pose proof (emulation_phases_nil Hwf) as Hemu.
    split; [done|].
    unfold MemMapping. destruct (determine_style mem) as [kind style].
    case_decide; [done|].
    destruct Hbind as [(e & Hne & ->) | ->]; simpl; [congruence|].
    by rewrite Hemu.
Qed.

(** *** The sharing of a port and the [rden] capabilities *)

(** On an [srsw] group that the write port does not share yet, with
    compatible addresses and the clock of the write port, the second pass
    is the loop over the [rden] capabilities of the group. *)
Lemma rd_port_shared_srsw_split port pidx cfg ram_def wpidx wport wpcfg def :
  cfg_wr_ports cfg !! wpidx = Some wpcfg →
  ram_ports ram_def !! wp_port_def wpcfg = Some def →
  pg_kind (cap_val def) = PortKind.Srsw →
  wp_rd_port wpcfg = (-1)%Z →
  addr_compatible wpidx pidx = true →
  rd_clk_enable port = true →
  rd_clk port = wr_clk wport →
  rd_clk_polarity port = wr_clk_polarity wport →
  rd_port_shared addr_compatible get_wr_implies_rd get_wr_excludes_rd
    port pidx cfg ram_def wpidx wport
  = for_each
      (rd_port_shared_rden get_wr_implies_rd get_wr_excludes_rd
         port pidx wpidx
         (cfg_set_wr_ports cfg
            (<[wpidx := wp_set_rd_port wpcfg (Z.of_nat pidx)]>
               (cfg_wr_ports cfg)))
         (new_RdPortConfig (Z.of_nat wpidx) (wp_port_def wpcfg)))
      (pg_rden (cap_val def)).
Proof.
  intros Hwp Hdef Hkind Hfree Haddr Hen Hclk Hpol.
  unfold rd_port_shared.
  rewrite (bind_Ok_l _ _ _ (proj2 (vec_at_Ok _ _ _) Hwp)).
  rewrite (bind_Ok_l _ _ _ (proj2 (vec_at_Ok _ _ _) Hdef)).
  case_decide; [done|]. case_decide; [congruence|].
  rewrite Haddr, Hen, Hclk, Hpol.
  rewrite (bool_decide_eq_false_2 (wr_clk wport ≠ wr_clk wport))
    by (intros Hne; by apply Hne).
  rewrite (bool_decide_eq_false_2
             (wr_clk_polarity wport ≠ wr_clk_polarity wport))
    by (intros Hne; by apply Hne).
  rewrite andb_false_r. cbn [negb].
  case_decide; [|done].
  rewrite Hkind, bool_decide_eq_false_2, andb_false_r by done. done.
Qed.

(** *** Transparency *)

Lemma use_wrport_cap_spec {T} cfg wpidx wpcfg (cap : Capability T) :
  cfg_wr_ports cfg !! wpidx = Some wpcfg →
  use_wrport_cap cfg wpidx cap
  = Ok (if is_applied cfg wpcfg cap then [cfg]
        else clone_apply cfg wpidx wpcfg cap,
        is_applied cfg wpcfg cap).
Proof.
  intros Hwp%vec_at_Ok.
  unfold use_wrport_cap, wrport_opts_applied, apply_wrport_opts.
  rewrite !Hwp. cbn [mbind outcome_bind].
  fold (is_applied cfg wpcfg cap).
  destruct (is_applied cfg wpcfg cap); [done|].
  unfold clone_apply.
  destruct (apply_opts (cfg_opts cfg) (cap_opts cap)) as [[] o];
    [|done].
  by destruct (apply_opts (wp_portopts wpcfg) (cap_portopts cap)) as [[] po].
Qed.

Lemma trans_cap_spec rpidx wpidx transparent cfg wpcfg rpdef rname tdef :
  cfg_wr_ports cfg !! wpidx = Some wpcfg →
  pg_names (cap_val rpdef) !! 0 = Some rname →
  trans_cap rpidx wpidx transparent cfg wpcfg rpdef tdef
  = if wrtrans_matches (bool_decide (wp_rd_port wpcfg = Z.of_nat rpidx))
         rname transparent (cap_val tdef)
    then Ok (if is_applied cfg wpcfg tdef then [cfg]
             else clone_apply cfg wpidx wpcfg tdef,
             is_applied cfg wpcfg tdef)
    else Ok ([], false).
Proof.
  intros Hwp Hname%vec_at_Ok. unfold trans_cap, wrtrans_matches.
  rewrite (use_wrport_cap_spec cfg wpidx wpcfg tdef Hwp).
  assert (Hkind : (if transparent
                   then bool_decide (wt_kind (cap_val tdef) = TransKind.Old)
                   else bool_decide (wt_kind (cap_val tdef) ≠ TransKind.Old))
                  = negb (bool_decide
                            (wt_kind (cap_val tdef)
                             = if transparent then TransKind.New
                               else TransKind.Old))).
  { by destruct transparent, (wt_kind (cap_val tdef)). }
  rewrite Hkind. clear Hkind.
  destruct (wt_target_kind (cap_val tdef)).
  - cbn [mbind outcome_bind]. rewrite ?bool_decide_not.
    destruct (bool_decide (wp_rd_port wpcfg = Z.of_nat rpidx)); [|done].
    by destruct (bool_decide _).
  - cbn [mbind outcome_bind]. rewrite ?bool_decide_not.
    destruct (bool_decide (wp_rd_port wpcfg = Z.of_nat rpidx)); [done|].
    by destruct (bool_decide _).
  - rewrite (bind_Ok_l _ _ _ Hname). cbn [mbind outcome_bind].
    destruct (bool_decide (rname = _)); [|done].
    by destruct (bool_decide _).
Qed.

Lemma trans_caps_spec rpidx wpidx transparent cfg wpcfg rpdef rname caps :
  cfg_wr_ports cfg !! wpidx = Some wpcfg →
  pg_names (cap_val rpdef) !! 0 = Some rname →
  let matching :=
    List.filter
      (fun t => wrtrans_matches
                  (bool_decide (wp_rd_port wpcfg = Z.of_nat rpidx))
                  rname transparent (cap_val t))
      caps in
  caps_loop (trans_cap rpidx wpidx transparent cfg wpcfg rpdef) caps
  = Ok (flat_map (fun t => if is_applied cfg wpcfg t then [cfg]
                           else clone_apply cfg wpidx wpcfg t) matching,
        existsb (is_applied cfg wpcfg) matching).
Proof.
  intros Hwp Hname. induction caps as [|tdef rest IH]; [done|].
  cbn [caps_loop List.filter].
  rewrite (trans_cap_spec _ _ _ _ _ _ rname tdef Hwp Hname).
  simpl in IH. rewrite IH.
  by destruct (wrtrans_matches _ _ _ _).
Qed.

(** C4. For a read port [rpidx] and a write port [wpidx] of the memory
    that are both clocked, by the same clock signal and polarity, with
    [collision_x_mask] false: the transparency phase [handle_trans] runs
    the pairs before this one (the read ports before [rpidx] with every
    write port, then [rpidx] with the write ports before [wpidx]), maps
    every candidate on its own for this pair, and runs the pairs after it.
    The pair maps a candidate as follows.
    If the read port's config has [emu_sync], the candidate passes, with
    [wpidx] appended to its [emu_trans] when the pair is transparent.
    Otherwise it is split across the matching [wrtrans] capabilities of
    the write port's group (target [self] iff the pair shares a port,
    [other] iff it does not, [named] iff the name is the first name of the
    read port's group; kind [new] for a transparent pair, [old] for
    another): a capability whose options are applied already gives the
    candidate as it is and counts as free, another gives the clone with
    its options merged if they merge; and the clone with [wpidx] appended
    to [emu_trans] is added iff the pair is transparent and no matching
    capability is free. *)
Theorem handle_trans_pair_spec rpidx rport wpidx wport transparent :
  rd_clk_enable rport = true →
  wr_clk_enable wport = true →
  rd_clk rport = wr_clk wport →
  rd_clk_polarity rport = wr_clk_polarity wport →
  rd_collision_x_mask rport !! wpidx = Some false →
  rd_transparency_mask rport !! wpidx = Some transparent →
  (mem_rd_ports mem !! rpidx = Some rport →
   mem_wr_ports mem !! wpidx = Some wport →
   ∀ cfgs,
     handle_trans mem lib cfgs
     = (c1 ← generations (fun '(i, p) cs => trans_rd_port mem lib i p cs)
               (take rpidx (enumerate (mem_rd_ports mem))) cfgs;
        c2 ← generations
               (fun '(j, q) cs => trans_pair lib rpidx rport j q cs)
               (take wpidx (enumerate (mem_wr_ports mem))) c1;
        c3 ← for_each (trans_cfg lib rpidx wpidx transparent) c2;
        c4 ← generations
               (fun '(j, q) cs => trans_pair lib rpidx rport j q cs)
               (drop (S wpidx) (enumerate (mem_wr_ports mem))) c3;
        generations (fun '(i, p) cs => trans_rd_port mem lib i p cs)
          (drop (S rpidx) (enumerate (mem_rd_ports mem))) c4))
  ∧ (∀ cfgs,
       trans_rd_port mem lib rpidx rport cfgs
       = generations (fun '(wpidx, wport) cfgs =>
                        trans_pair lib rpidx rport wpidx wport cfgs)
           (enumerate (mem_wr_ports mem)) cfgs)
  ∧ (∀ cfgs,
       trans_pair lib rpidx rport wpidx wport cfgs
       = for_each (trans_cfg lib rpidx wpidx transparent) cfgs)
  ∧ ∀ cfg rpcfg wpcfg rdef wpdef rpdef rname,
      cfg_rd_ports cfg !! rpidx = Some rpcfg →
      cfg_wr_ports cfg !! wpidx = Some wpcfg →
      ram_defs lib !! cfg_ram_def cfg = Some rdef →
      ram_ports rdef !! wp_port_def wpcfg = Some wpdef →
      ram_ports rdef !! rp_port_def rpcfg = Some rpdef →
      pg_names (cap_val rpdef) !! 0 = Some rname →
      trans_cfg lib rpidx wpidx transparent cfg
      = Ok (trans_spec rpidx wpidx transparent cfg rpcfg wpcfg
              (pg_wrtrans (cap_val wpdef)) rname).
Proof.
  intros Hren Hwen Hclk Hpol Hcx%vec_at_Ok Htr%vec_at_Ok.
  assert (Hport : ∀ cfgs,
            trans_rd_port mem lib rpidx rport cfgs
            = generations (fun '(wpidx, wport) cfgs =>
                             trans_pair lib rpidx rport wpidx wport cfgs)
                (enumerate (mem_wr_ports mem)) cfgs).
  { intros cfgs. unfold trans_rd_port. by rewrite Hren. }
  assert (Hpair : ∀ cfgs,
            trans_pair lib rpidx rport wpidx wport cfgs
            = for_each (trans_cfg lib rpidx wpidx transparent) cfgs).
  { intros cfgs. unfold trans_pair. rewrite Hwen. cbn [negb].
    case_decide; [done|]. case_decide; [done|].
    rewrite (bind_Ok_l _ _ _ Hcx). by rewrite (bind_Ok_l _ _ _ Htr). }
  split; [|split; [done|split; [done|]]].
  - intros Hrport Hwport cfgs. unfold handle_trans.
    pose proof (enumerate_middle _ _ _ Hrport) as Er.
    pose proof (enumerate_middle _ _ _ Hwport) as Ew.
    set (pre_r := take rpidx (enumerate (mem_rd_ports mem))) in *.
    set (post_r := drop (S rpidx) (enumerate (mem_rd_ports mem))) in *.
    set (pre_w := take wpidx (enumerate (mem_wr_ports mem))) in *.
    set (post_w := drop (S wpidx) (enumerate (mem_wr_ports mem))) in *.
    rewrite Er, generations_middle.
    destruct (generations _ pre_r cfgs) as [c1|e]; simpl; [|done].
    rewrite Hport, Ew, generations_middle.
    destruct (generations _ pre_w c1) as [c2|e]; simpl; [|done].
    rewrite Hpair.
    by destruct (for_each (trans_cfg lib rpidx wpidx transparent) c2).
  - intros cfg rpcfg wpcfg rdef wpdef rpdef rname
      Hrp%vec_at_Ok Hwp Hrdef%vec_at_Ok Hwpdef%vec_at_Ok Hrpdef%vec_at_Ok
      Hname.
    unfold trans_cfg, trans_spec.
    rewrite (bind_Ok_l _ _ _ Hrp).
    rewrite (bind_Ok_l _ _ _ (proj2 (vec_at_Ok _ _ _) Hwp)).
    rewrite (bind_Ok_l _ _ _ Hrdef), (bind_Ok_l _ _ _ Hwpdef).
    rewrite (bind_Ok_l _ _ _ Hrpdef).
    destruct (rp_emu_sync rpcfg); [by destruct transparent|].
    rewrite (trans_caps_spec _ _ _ _ _ _ rname _ Hwp Hname).
    cbn [mbind outcome_bind].
    destruct (existsb _ _), transparent; cbn [negb andb];
      by rewrite ?app_nil_r.
Qed.

End BindingProperties.

(** * Further properties of the option primitives *)

Section PrimitiveProperties.
Context `{Kernel}.
Local Abbreviation Options := (gmap string Const).

Lemma opts_applied_all (src : OptionEntries) (dst : Options) :
  opts_applied dst src = true ↔ ∀ k v, (k, v) ∈ src → dst !! k = Some v.
Proof.
  split; [intros Ha k v; by apply opts_applied_lookup|].
  induction src as [|[k v] rest IH]; intros Hall; simpl; [done|].
  rewrite (Hall k v) by apply list_elem_of_here.
  case_decide as Hne; [done|].
  apply IH. intros k' v' Hin. apply Hall. by apply list_elem_of_further.
Qed.

Lemma opts_applied_mono (src : OptionEntries) (dst dst' : Options) :
  dst ⊆ dst' → opts_applied dst src = true → opts_applied dst' src = true.
Proof.
  rewrite !opts_applied_all. intros Hsub Hall k v Hin.
  eapply lookup_weaken; [by apply Hall | done].
Qed.

Lemma apply_opts_least (src : OptionEntries) (dst m : Options) :
  dst ⊆ m → opts_applied m src = true →
  (apply_opts dst src).1 = true ∧ (apply_opts dst src).2 ⊆ m.
Proof.
  revert dst. induction src as [|[k v] rest IH]; intros dst Hsub Ha.
  - done.
  - pose proof (proj1 (opts_applied_all _ _) Ha) as Hall.
    assert (Hk : m !! k = Some v) by apply Hall, list_elem_of_here.
    assert (Hrest : opts_applied m rest = true).
    { apply opts_applied_all. intros k' v' Hin.
      apply Hall. by apply list_elem_of_further. }
    simpl. destruct (dst !! k) as [v2|] eqn:Hd.
    + assert (v2 = v) as ->
        by (pose proof (lookup_weaken _ _ _ _ Hd Hsub); congruence).
      case_decide as Hne; [done|]. by apply IH.
    + apply IH; [|done]. by apply insert_subseteq_l.
Qed.

(** X1.  [opts_applied(dst, src)] holds exactly when every binding of
    [src] is present in [dst] with the same value; the empty source is
    applied to every destination. *)
Theorem opts_applied_spec (dst : Options) (src : OptionEntries) :
  (opts_applied dst src = true
   ↔ ∀ k v, (k, v) ∈ src → dst !! k = Some v)
  ∧ opts_applied dst [] = true.
Proof. split; [apply opts_applied_all | done]. Qed.

(** X2.  [apply_opts(dst, src)] returns true exactly when some map holds
    the bindings of [dst] and those of [src] together; the destination it
    then leaves is the least such map. *)
Theorem apply_opts_least_extension (dst : Options) (src : OptionEntries) :
  ((apply_opts dst src).1 = true
   ↔ ∃ m, dst ⊆ m ∧ opts_applied m src = true)
  ∧ ((apply_opts dst src).1 = true →
     dst ⊆ (apply_opts dst src).2
     ∧ opts_applied (apply_opts dst src).2 src = true
     ∧ ∀ m, dst ⊆ m → opts_applied m src = true →
         (apply_opts dst src).2 ⊆ m).
Proof.
  split; [split|].
  - intros Hok. exists (apply_opts dst src).2.
    split; [apply apply_opts_subseteq | by apply apply_opts_true_applied].
  - intros (m & Hsub & Ha). by apply (apply_opts_least src dst m).
  - intros Hok. split; [apply apply_opts_subseteq|].
    split; [by apply apply_opts_true_applied|].
    intros m Hsub Ha. by apply (apply_opts_least src dst m).
Qed.

(** X3.  The test [opts_applied] recognises exactly the sources whose
    application succeeds and adds nothing: the capabilities that the
    engine treats as free. *)
Theorem opts_applied_iff_apply_unchanged (dst : Options)
    (src : OptionEntries) :
  opts_applied dst src = true ↔ apply_opts dst src = (true, dst).
Proof.
  split; [apply apply_opts_applied|].
  intros Heq. pose proof (apply_opts_true_applied src dst) as Ha.
  rewrite Heq in Ha. by apply Ha.
Qed.

Lemma apply_clock_kept cfg def clk pol :
  clocks_kept cfg (apply_clock cfg def clk pol).2.
Proof.
  unfold apply_clock, clocks_kept.
  repeat case_decide; try done; case_match; simpl; split; try done;
    by apply insert_subseteq.
Qed.

Lemma apply_clock_flip (def : ClockDef) (pol : bool) :
  clk_kind def ≠ ClkPolKind.Anyedge →
  xorb pol (bool_decide (clk_kind def = ClkPolKind.Posedge))
  = clock_edge def pol.
Proof.
  unfold clock_edge. intros Hk.
  destruct (clk_kind def); [done| |]; by destruct pol.
Qed.

Lemma apply_clock_success cfg def clk pol :
  clk_name def ≠ "" →
  (apply_clock cfg def clk pol).1 = true
  ↔ clock_table cfg def !! clk_name def = None
    ∨ clock_table cfg def !! clk_name def = Some (clk, clock_edge def pol).
Proof.
  intros Hn. unfold apply_clock. rewrite decide_False by done.
  case_decide as Hk.
  - unfold clock_table, clock_edge. rewrite Hk.
    destruct (cfg_clocks_anyedge cfg !! clk_name def) as [p|]; simpl.
    + rewrite bool_decide_eq_true. split; [intros ->; by right|].
      intros [?|[= ->]]; done.
    + split; [by left | done].
  - rewrite (apply_clock_flip def pol Hk).
    replace (clock_table cfg def) with (cfg_clocks_pnedge cfg)
      by (unfold clock_table; by destruct (clk_kind def)).
    destruct (cfg_clocks_pnedge cfg !! clk_name def) as [p|]; simpl.
    + rewrite bool_decide_eq_true. split; [intros ->; by right|].
      intros [?|[= ->]]; done.
    + split; [by left | done].
Qed.

Lemma apply_clock_recorded cfg def clk pol :
  (apply_clock cfg def clk pol).1 = true →
  clock_recorded (apply_clock cfg def clk pol).2 def clk pol.
Proof.
  unfold clock_recorded.
  destruct (decide (clk_name def = "")) as [Hn|Hn]; [by left|].
  intros Hok. right. revert Hok.
  unfold apply_clock. rewrite decide_False by done.
  case_decide as Hk.
  - unfold clock_table, clock_edge. rewrite Hk.
    destruct (cfg_clocks_anyedge cfg !! clk_name def) as [p|] eqn:Hl; simpl.
    + rewrite bool_decide_eq_true. by intros ->.
    + intros _. apply lookup_insert_eq.
  - rewrite (apply_clock_flip def pol Hk).
    replace (clock_table _ def)
      with (cfg_clocks_pnedge
              (match cfg_clocks_pnedge cfg !! clk_name def with
               | Some p => (bool_decide (p = (clk, clock_edge def pol)), cfg)
               | None =>
                   (true, cfg_set_clocks_pnedge cfg
                            (<[clk_name def := (clk, clock_edge def pol)]>
                               (cfg_clocks_pnedge cfg)))
               end).2)
      by (unfold clock_table; by destruct (clk_kind def)).
    destruct (cfg_clocks_pnedge cfg !! clk_name def) as [p|] eqn:Hl; simpl.
    + rewrite bool_decide_eq_true. by intros ->.
    + intros _. apply lookup_insert_eq.
Qed.

Lemma clock_table_kept c c' def :
  clocks_kept c c' → clock_table c def ⊆ clock_table c' def.
Proof. intros [Ha Hp]. unfold clock_table. by destruct (clk_kind def). Qed.

Lemma clock_recorded_kept c c' def clk pol :
  clocks_kept c c' → clock_recorded c def clk pol →
  clock_recorded c' def clk pol.
Proof.
  intros Hk [Hn|Hr]; [by left|]. right.
  eapply lookup_weaken; [done | by apply clock_table_kept].
Qed.

Lemma apply_clock_exact cfg def clk pol :
  (apply_clock cfg def clk pol).1 = true →
  (apply_clock cfg def clk pol).2
  = if decide (clk_name def = "") then cfg else with_clock cfg def clk pol.
Proof.
  unfold apply_clock, with_clock.
  destruct (decide (clk_name def = "")) as [Hn|Hn]; [done|].
  destruct (decide (clk_kind def = ClkPolKind.Anyedge)) as [Hk|Hk].
  - destruct (cfg_clocks_anyedge cfg !! clk_name def) as [p|] eqn:Hl;
      simpl; [|done].
    rewrite bool_decide_eq_true. intros ->.
    rewrite (insert_id _ _ _ Hl). by destruct cfg.
  - rewrite (apply_clock_flip def pol Hk).
    destruct (cfg_clocks_pnedge cfg !! clk_name def) as [p|] eqn:Hl;
      simpl; [|done].
    rewrite bool_decide_eq_true. intros ->.
    rewrite (insert_id _ _ _ Hl). by destruct cfg.
Qed.

(** X4.  [apply_clock] succeeds exactly when the clock definition is
    unnamed, or its name is not yet in the clock table of its kind, or
    stands there for the signal and the edge of the port.  When it fails it
    leaves the candidate as it was.  When it succeeds, the result is the
    candidate itself for an unnamed definition, and otherwise the candidate
    with the one entry (name, signal and edge) in the table of the kind of
    the definition: the RAM, the options, the port configurations and the
    other table are unchanged, and no other entry is added or removed; so
    the tables only grow, the name stands for the signal and the edge of
    the port, and a second call with the same arguments succeeds and
    changes nothing. *)
Theorem apply_clock_records cfg def clk pol :
  clocks_kept cfg (apply_clock cfg def clk pol).2
  ∧ ((apply_clock cfg def clk pol).1 = false →
     (apply_clock cfg def clk pol).2 = cfg)
  ∧ ((apply_clock cfg def clk pol).1 = true →
     clock_recorded (apply_clock cfg def clk pol).2 def clk pol
     ∧ apply_clock (apply_clock cfg def clk pol).2 def clk pol
       = (true, (apply_clock cfg def clk pol).2))
  ∧ ((apply_clock cfg def clk pol).1 = true →
     (apply_clock cfg def clk pol).2
     = if decide (clk_name def = "") then cfg
       else with_clock cfg def clk pol)
  ∧ ((apply_clock cfg def clk pol).1 = true
     ↔ clk_name def = ""
       ∨ clock_table cfg def !! clk_name def = None
       ∨ clock_table cfg def !! clk_name def
         = Some (clk, clock_edge def pol))
  ∧ cfg_ram_def (apply_clock cfg def clk pol).2 = cfg_ram_def cfg
  ∧ cfg_opts (apply_clock cfg def clk pol).2 = cfg_opts cfg
  ∧ cfg_wr_ports (apply_clock cfg def clk pol).2 = cfg_wr_ports cfg
  ∧ cfg_rd_ports (apply_clock cfg def clk pol).2 = cfg_rd_ports cfg.
Proof.
  split; [apply apply_clock_kept|]. split; [|split; [|split; [|split]]].
  - unfold apply_clock. repeat case_decide; try done; by case_match.
  - intros Hok. split; [by apply apply_clock_recorded|].
    pose proof (apply_clock_recorded _ _ _ _ Hok) as [Hn|Hr].
    + unfold apply_clock. by rewrite !decide_True by done.
    + destruct (decide (clk_name def = "")) as [Hn|Hn].
      { unfold apply_clock. by rewrite !decide_True by done. }
      revert Hr. generalize (apply_clock cfg def clk pol).2. intros c Hr.
      unfold apply_clock. rewrite decide_False by done.
      case_decide as Hk.
      * unfold clock_table, clock_edge in Hr. rewrite Hk in Hr.
        rewrite Hr. by rewrite bool_decide_eq_true_2.
      * rewrite (apply_clock_flip def pol Hk).
        replace (clock_table c def) with (cfg_clocks_pnedge c) in Hr
          by (unfold clock_table; by destruct (clk_kind def)).
        rewrite Hr. by rewrite bool_decide_eq_true_2.
  - apply apply_clock_exact.
  - destruct (decide (clk_name def = "")) as [Hn|Hn].
    + split; [by left|]. intros _. unfold apply_clock.
      by rewrite decide_True by done.
    + rewrite (apply_clock_success _ _ _ _ Hn).
      split; [by right|]. by intros [?|?].
  - apply (apply_clock_fields cfg def clk pol _ _ (surjective_pairing _)).
Qed.

(** X5.  Two clock definitions with one name, both [anyedge] or both
    [posedge]/[negedge]: once the first has been applied for a port, the
    second can be applied for another port exactly when that port has the
    same clock signal, and the same polarity if the two definitions have
    the same kind, the opposite polarity otherwise. *)
Theorem apply_clock_shared_name cfg d1 clk1 pol1 cfg1 cfg2 d2 clk2 pol2 :
  clk_name d1 ≠ "" →
  clk_name d2 = clk_name d1 →
  (clk_kind d1 = ClkPolKind.Anyedge ↔ clk_kind d2 = ClkPolKind.Anyedge) →
  apply_clock cfg d1 clk1 pol1 = (true, cfg1) →
  clocks_kept cfg1 cfg2 →
  (apply_clock cfg2 d2 clk2 pol2).1 = true
  ↔ clk2 = clk1
    ∧ pol2 = (if decide (clk_kind d1 = clk_kind d2) then pol1 else negb pol1).
Proof.
  intros Hn Hname Hclass Hfirst Hkept.
  assert (Hrec : clock_recorded cfg1 d1 clk1 pol1).
  { pose proof (apply_clock_recorded cfg d1 clk1 pol1) as Hr.
    rewrite Hfirst in Hr. by apply Hr. }
  destruct Hrec as [?|Hrec]; [done|].
  pose proof (lookup_weaken _ _ _ _ Hrec (clock_table_kept _ _ d1 Hkept))
    as Hrec2.
  assert (Htab : clock_table cfg2 d1 = clock_table cfg2 d2).
  { unfold clock_table.
    destruct (clk_kind d1), (clk_kind d2); try done;
      by (destruct Hclass as [H1 H2]; first [specialize (H1 eq_refl)
                                            | specialize (H2 eq_refl)]). }
  rewrite apply_clock_success by congruence.
  rewrite Hname, <- Htab, Hrec2.
  split.
  - intros [?|[= -> Hedge]]; [done|]. split; [done|].
    unfold clock_edge in Hedge. case_decide as Hk.
    + rewrite <- Hk in Hedge.
      destruct (clk_kind d1), pol1, pol2; done.
    + destruct (clk_kind d1), (clk_kind d2), pol1, pol2; try done;
        by (destruct Hclass as [H1 H2]; first [specialize (H1 eq_refl)
                                              | specialize (H2 eq_refl)]).
  - intros [-> ->]. right. f_equal. f_equal.
    unfold clock_edge. case_decide as Hk.
    + by rewrite <- Hk.
    + destruct (clk_kind d1), (clk_kind d2), pol1; try done;
        by (destruct Hclass as [H1 H2]; first [specialize (H1 eq_refl)
                                              | specialize (H2 eq_refl)]).
Qed.

Lemma no_one_bit_spec (val : Const) :
  existsb (fun bit => bool_decide (bit = S1)) (const_bits val) = false
  ↔ no_one_bit val.
Proof.
  unfold no_one_bit. induction (const_bits val) as [|b bits IH]; simpl.
  - split; [intros _ bit Hin; by apply elem_of_nil in Hin | done].
  - rewrite orb_false_iff, IH, bool_decide_eq_false. split.
    + intros [Hb Hall] bit [->|Hin]%elem_of_cons; [done | by apply Hall].
    + intros Hall. split; [apply Hall, list_elem_of_here|].
      intros bit Hin. by apply Hall, list_elem_of_further.
Qed.

(** X6.  A reset value capability without a name never changes the read
    port config: [none] never matches, and [zero] matches exactly the
    values without a [1] bit (so also values with undefined bits). *)
Theorem apply_rstval_unnamed pcfg def val :
  rst_val_kind def ≠ ResetValKind.Named →
  (apply_rstval pcfg def val).2 = pcfg
  ∧ ((apply_rstval pcfg def val).1 = true
     ↔ rst_val_kind def = ResetValKind.Zero ∧ no_one_bit val).
Proof.
  intros Hk. unfold apply_rstval.
  destruct (rst_val_kind def); [| |done]; simpl; (split; [done|]).
  - split; [done | by intros [? _]].
  - rewrite negb_true_iff, no_one_bit_spec.
    split; [intros ?; by split | by intros [_ ?]].
Qed.

(** X7.  A named reset value: once a capability with the name has been
    applied to a read port for a value, a capability with the same name
    (for the same or another kind of reset) can be applied exactly for
    the same value; the name stays bound to the first value. *)
Theorem apply_rstval_shared_name pcfg d1 v1 p1 p2 d2 v2 :
  rst_val_kind d1 = ResetValKind.Named →
  rst_val_kind d2 = ResetValKind.Named →
  rst_name d2 = rst_name d1 →
  apply_rstval pcfg d1 v1 = (true, p1) →
  rp_resetvals p1 ⊆ rp_resetvals p2 →
  rp_resetvals p1 !! rst_name d1 = Some v1
  ∧ ((apply_rstval p2 d2 v2).1 = true ↔ v2 = v1)
  ∧ rp_resetvals (apply_rstval p2 d2 v2).2 !! rst_name d1 = Some v1.
Proof.
  intros Hk1 Hk2 Hname Hfirst Hsub.
  assert (Hrec : rp_resetvals p1 !! rst_name d1 = Some v1).
  { revert Hfirst. unfold apply_rstval. rewrite Hk1.
    destruct (rp_resetvals pcfg !! rst_name d1) as [v|] eqn:Hl.
    - intros [= Hv <-]. apply bool_decide_eq_true in Hv. by subst.
    - intros [= <-]. simpl. apply lookup_insert_eq. }
  split; [done|].
  pose proof (lookup_weaken _ _ _ _ Hrec Hsub) as Hrec2.
  unfold apply_rstval. rewrite Hk2, Hname, Hrec2. simpl.
  split; [|done]. rewrite bool_decide_eq_true. split; congruence.
Qed.

End PrimitiveProperties.

(** * How the candidates evolve *)

Section EvolveProperties.
Context `{Kernel}.
Variable mem : Mem.
Variable lib : Library.

Lemma clocks_kept_refl c : clocks_kept c c.
Proof. by split. Qed.

Lemma clocks_kept_trans c1 c2 c3 :
  clocks_kept c1 c2 → clocks_kept c2 c3 → clocks_kept c1 c3.
Proof. intros [? ?] [? ?]. split; by etrans. Qed.

Lemma wr_port_evolves_refl j p : wr_port_evolves mem j p p.
Proof. repeat split; try done. by left. Qed.

Lemma wr_port_evolves_trans j p1 p2 p3 :
  wr_port_evolves mem j p1 p2 → wr_port_evolves mem j p2 p3 →
  wr_port_evolves mem j p1 p3.
Proof.
  intros (Hd1 & Hr1 & Ho1 & Hm1 & Hg1) (Hd2 & Hr2 & Ho2 & Hm2 & Hg2).
  split; [congruence|]. split.
  { intros Hne. rewrite Hr2; [by apply Hr1|]. by rewrite Hr1. }
  split; [by etrans|]. split; [by auto|].
  intros p1' Hin. destruct (Hg2 _ Hin) as [Hin2|?]; [by apply Hg1 | by right].
Qed.

Lemma rd_port_evolves_refl j p : rd_port_evolves mem j p p.
Proof. repeat split; try done; by left. Qed.

Lemma rd_port_evolves_trans j p1 p2 p3 :
  rd_port_evolves mem j p1 p2 → rd_port_evolves mem j p2 p3 →
  rd_port_evolves mem j p1 p3.
Proof.
  intros (Hw1 & Hd1 & Hs1 & He1 & Ho1 & Hv1 & Hi1 & Hi1' & Ha1 & Ha1'
          & Hr1 & Hr1' & Hp1 & Hp1' & Ht1 & Ht1')
         (Hw2 & Hd2 & Hs2 & He2 & Ho2 & Hv2 & Hi2 & Hi2' & Ha2 & Ha2'
          & Hr2 & Hr2' & Hp2 & Hp2' & Ht2 & Ht2').
  do 4 (split; [congruence|]).
  do 2 (split; [by etrans|]).
  split; [by auto|].
  split; [intros Hf; destruct (Hi2' Hf) as [?|?]; [by auto | by right]|].
  split; [by auto|].
  split; [intros Hf; destruct (Ha2' Hf) as [?|?]; [by auto | by right]|].
  split; [by auto|].
  split; [intros Hf; destruct (Hr2' Hf) as [?|?]; [by auto | by right]|].
  split; [by auto|].
  split; [intros Hf; destruct (Hp2' Hf) as [?|?]; [by auto | by right]|].
  split; [by auto|].
  intros w Hin. destruct (Ht2' _ Hin) as [?|?]; [by auto | by right].
Qed.

Lemma evolves_refl c : evolves mem c c.
Proof.
  split; [done|]. split; [done|]. split; [apply clocks_kept_refl|].
  split; intros j p Hl; exists p;
    (split; [done|]); [apply wr_port_evolves_refl | apply rd_port_evolves_refl].
Qed.

Lemma evolves_trans c1 c2 c3 :
  evolves mem c1 c2 → evolves mem c2 c3 → evolves mem c1 c3.
Proof.
  intros (Hd1 & Ho1 & Hc1 & Hw1 & Hr1) (Hd2 & Ho2 & Hc2 & Hw2 & Hr2).
  split; [congruence|]. split; [by etrans|].
  split; [by eapply clocks_kept_trans|]. split.
  - intros j p Hl. destruct (Hw1 _ _ Hl) as (p2 & Hl2 & He1).
    destruct (Hw2 _ _ Hl2) as (p3 & Hl3 & He2).
    exists p3. split; [done | by eapply wr_port_evolves_trans].
  - intros j p Hl. destruct (Hr1 _ _ Hl) as (p2 & Hl2 & He1).
    destruct (Hr2 _ _ Hl2) as (p3 & Hl3 & He2).
    exists p3. split; [done | by eapply rd_port_evolves_trans].
Qed.

Lemma evolves_bound_refl c : evolves_bound mem c c.
Proof. split; [apply evolves_refl | done]. Qed.

Lemma evolves_bound_trans c1 c2 c3 :
  evolves_bound mem c1 c2 → evolves_bound mem c2 c3 →
  evolves_bound mem c1 c3.
Proof.
  intros (He1 & Hw1 & Hr1 & Hs1) (He2 & Hw2 & Hr2 & Hs2).
  split; [by eapply evolves_trans|]. repeat split; congruence.
Qed.

Lemma evolves_bound_set_opts c o :
  cfg_opts c ⊆ o → evolves_bound mem c (cfg_set_opts c o).
Proof.
  intros Hsub. destruct (evolves_refl c) as (? & ? & ? & ? & ?).
  by repeat split.
Qed.

Lemma evolves_bound_wr_port c i p p' :
  cfg_wr_ports c !! i = Some p →
  wr_port_evolves mem i p p' →
  wp_rd_port p' = wp_rd_port p →
  evolves_bound mem c (cfg_set_wr_ports c (<[i := p']> (cfg_wr_ports c))).
Proof.
  intros Hl He Hrd. destruct (evolves_refl c) as (? & ? & ? & Hw & Hr).
  split; [|split; [simpl; by rewrite length_insert|split; [done|]]].
  - do 3 (split; [done|]). split; [|done].
    intros j q Hq. simpl. destruct (decide (j = i)) as [->|Hne].
    + exists p'. split; [|congruence].
      apply list_lookup_insert_eq. by eapply lookup_lt_Some.
    + exists q. split; [by rewrite list_lookup_insert_ne by done|].
      apply wr_port_evolves_refl.
  - simpl. rewrite list_fmap_insert, Hrd. apply list_insert_id.
    by rewrite list_lookup_fmap, Hl.
Qed.

Lemma evolves_bound_rd_port c i p p' :
  cfg_rd_ports c !! i = Some p →
  rd_port_evolves mem i p p' →
  evolves_bound mem c (cfg_set_rd_ports c (<[i := p']> (cfg_rd_ports c))).
Proof.
  intros Hl He. destruct (evolves_refl c) as (? & ? & ? & Hw & Hr).
  split; [|split; [done|split; [simpl; by rewrite length_insert|done]]].
  do 4 (split; [done|]).
  intros j q Hq. simpl. destruct (decide (j = i)) as [->|Hne].
  + exists p'. split; [|congruence].
    apply list_lookup_insert_eq. by eapply lookup_lt_Some.
  + exists q. split; [by rewrite list_lookup_insert_ne by done|].
    apply rd_port_evolves_refl.
Qed.

(** *** The assignments of the phases after the binding *)

Local Ltac port_evolves :=
  repeat split; simpl; intros; try done; try (by left); try (by right).

Lemma wr_port_evolves_portopts j p po :
  wp_portopts p ⊆ po → wr_port_evolves mem j p (wp_set_portopts p po).
Proof. port_evolves. Qed.

Lemma wr_port_evolves_emu_prio j p p1 :
  prio_guard mem j p1 →
  wr_port_evolves mem j p (wp_set_emu_prio p (wp_emu_prio p ++ [p1])).
Proof.
  intros Hg. port_evolves.
  - apply elem_of_app. by left.
  - match goal with Hin : _ ∈ _ ++ _ |- _ =>
      apply elem_of_app in Hin as [?|Hin]; [by left|];
      apply list_elem_of_singleton in Hin as ->; by right end.
Qed.

Lemma rd_port_evolves_portopts j p po :
  rp_portopts p ⊆ po → rd_port_evolves mem j p (rp_set_portopts p po).
Proof. port_evolves. Qed.

Lemma rd_port_evolves_resetvals j p rv :
  rp_resetvals p ⊆ rv → rd_port_evolves mem j p (rp_set_resetvals p rv).
Proof. port_evolves. Qed.

Lemma rd_port_evolves_emu_init j p :
  init_guard mem j → rd_port_evolves mem j p (rp_set_emu_init p true).
Proof. port_evolves. Qed.

Lemma rd_port_evolves_emu_arst j p :
  arst_guard mem j → rd_port_evolves mem j p (rp_set_emu_arst p true).
Proof. port_evolves. Qed.

Lemma rd_port_evolves_emu_srst j p :
  srst_guard mem j → rd_port_evolves mem j p (rp_set_emu_srst p true).
Proof. port_evolves. Qed.

Lemma rd_port_evolves_emu_srst_en_prio j p :
  srst_prio_guard mem j →
  rd_port_evolves mem j p (rp_set_emu_srst_en_prio p true).
Proof. port_evolves. Qed.

Lemma rd_port_evolves_emu_trans j p w :
  same_domain mem j w true →
  rd_port_evolves mem j p (rp_set_emu_trans p (rp_emu_trans p ++ [w])).
Proof.
  intros Hg. port_evolves.
  - apply elem_of_app. by left.
  - match goal with Hin : _ ∈ _ ++ _ |- _ =>
      apply elem_of_app in Hin as [?|Hin]; [by left|];
      apply list_elem_of_singleton in Hin as ->; by right end.
Qed.

Lemma apply_opts_sub (dst : gmap string Const) src ok o :
  apply_opts dst src = (ok, o) → dst ⊆ o.
Proof.
  intros Ha. pose proof (apply_opts_subseteq src dst) as Hs.
  by rewrite Ha in Hs.
Qed.

Lemma apply_wrport_opts_evolves {T} cfg pidx (cap : Capability T) ok cfg' :
  apply_wrport_opts cfg pidx cap = Ok (ok, cfg') → evolves_bound mem cfg cfg'.
Proof.
  unfold apply_wrport_opts. intros Ha.
  apply bind_Ok in Ha as (pcfg & Hp%vec_at_Ok & Ha).
  destruct (apply_opts (cfg_opts cfg) (cap_opts cap)) as [ok1 o] eqn:H1.
  apply apply_opts_sub in H1. destruct ok1.
  - destruct (apply_opts (wp_portopts pcfg) (cap_portopts cap))
      as [ok2 po] eqn:H2.
    apply apply_opts_sub in H2. injection Ha as <- <-.
    eapply evolves_bound_trans; [by apply evolves_bound_set_opts|].
    apply (evolves_bound_wr_port (cfg_set_opts cfg o) pidx pcfg);
      [done | by apply wr_port_evolves_portopts | done].
  - injection Ha as <- <-. by apply evolves_bound_set_opts.
Qed.

Lemma apply_rdport_opts_evolves {T} cfg pidx (cap : Capability T) ok cfg' :
  apply_rdport_opts cfg pidx cap = Ok (ok, cfg') → evolves_bound mem cfg cfg'.
Proof.
  unfold apply_rdport_opts. intros Ha.
  apply bind_Ok in Ha as (pcfg & Hp%vec_at_Ok & Ha).
  destruct (decide (rp_wr_port pcfg ≠ (-1)%Z)).
  - destruct (decide (rp_wr_port pcfg < 0)%Z); [done|].
    by eapply apply_wrport_opts_evolves.
  - destruct (apply_opts (cfg_opts cfg) (cap_opts cap)) as [ok1 o] eqn:H1.
    apply apply_opts_sub in H1. destruct ok1.
    + destruct (apply_opts (rp_portopts pcfg) (cap_portopts cap))
        as [ok2 po] eqn:H2.
      apply apply_opts_sub in H2. injection Ha as <- <-.
      eapply evolves_bound_trans; [by apply evolves_bound_set_opts|].
      apply (evolves_bound_rd_port (cfg_set_opts cfg o) pidx pcfg);
        [done | by apply rd_port_evolves_portopts].
    + injection Ha as <- <-. by apply evolves_bound_set_opts.
Qed.

Lemma use_wrport_cap_evolves {T} cfg pidx (cap : Capability T) ys free y :
  use_wrport_cap cfg pidx cap = Ok (ys, free) → y ∈ ys →
  evolves_bound mem cfg y.
Proof.
  unfold use_wrport_cap. intros Hu Hy.
  apply bind_Ok in Hu as (applied & _ & Hu). destruct applied.
  - injection Hu as <- <-. apply list_elem_of_singleton in Hy as ->.
    apply evolves_bound_refl.
  - apply bind_Ok in Hu as ([ok cfg2] & Ha & Hu). destruct ok; simpl in Hu.
    + injection Hu as <- <-. apply list_elem_of_singleton in Hy as ->.
      by eapply apply_wrport_opts_evolves.
    + injection Hu as <- <-. by apply elem_of_nil in Hy.
Qed.

(** *** Loops *)

Lemma descend_refl (R : MemConfig → MemConfig → Prop) cfgs :
  (∀ c, R c c) → descend R cfgs cfgs.
Proof. intros Hrefl c ?. by exists c. Qed.

Lemma descend_trans (R : MemConfig → MemConfig → Prop) cfgs1 cfgs2 cfgs3 :
  (∀ a b c, R a b → R b c → R a c) →
  descend R cfgs1 cfgs2 → descend R cfgs2 cfgs3 → descend R cfgs1 cfgs3.
Proof.
  intros Htrans H12 H23 c3 Hc3.
  destruct (H23 c3 Hc3) as (c2 & Hc2 & Hk2).
  destruct (H12 c2 Hc2) as (c1 & Hc1 & Hk1).
  exists c1. split; [done | by eapply Htrans].
Qed.

Lemma for_each_descend (R : MemConfig → MemConfig → Prop)
    (f : MemConfig → outcome MemConfigs) cfgs out :
  (∀ c ys y, c ∈ cfgs → f c = Ok ys → y ∈ ys → R c y) →
  for_each f cfgs = Ok out → descend R cfgs out.
Proof.
  intros Hf Hout c' Hc'.
  destruct (for_each_Ok _ _ _ Hout c' Hc') as (c & ys & ? & ? & ?).
  exists c. split; [done | by eapply Hf].
Qed.

Lemma generations_descend {A} (R : MemConfig → MemConfig → Prop)
    (step : A → MemConfigs → outcome MemConfigs) xs cfgs out :
  (∀ c, R c c) → (∀ a b c, R a b → R b c → R a c) →
  (∀ x c c', x ∈ xs → step x c = Ok c' → descend R c c') →
  generations step xs cfgs = Ok out → descend R cfgs out.
Proof.
  intros Hrefl Htrans Hstep Hout.
  apply (generations_ind (fun c => descend R cfgs c) step xs cfgs out);
    [|done|by apply descend_refl].
  intros x c c' Hx Hs Hk. eapply descend_trans; [done..|by eapply Hstep].
Qed.

(** The loop [for (int i = 0; i < GetSize(xs); i++)] with one generation
    of candidates for each [i]: what holds of the candidates after the
    iterations before [i]. *)
Lemma generations_from_ind {A} (P : nat → MemConfigs → Prop)
    (step : nat * A → MemConfigs → outcome MemConfigs) (xs : list A) k
    cfgs out :
  (∀ i x c c', xs !! i = Some x → step (k + i, x) c = Ok c' →
     P (k + i) c → P (S (k + i)) c') →
  generations step (imap (fun i x => (k + i, x)) xs) cfgs = Ok out →
  P k cfgs → P (k + length xs) out.
Proof.
  revert k cfgs. induction xs as [|x rest IH]; intros k cfgs Hstep Hout HP.
  - injection Hout as <-. by rewrite Nat.add_0_r.
  - simpl in Hout. apply bind_Ok in Hout as (new_cfgs & Hnew & Hout).
    rewrite Nat.add_0_r in Hnew.
    simpl. rewrite <- Nat.add_succ_comm. apply (IH (S k) new_cfgs).
    + intros i y c c' Hy. replace (S k + i) with (k + S i) by lia.
      by apply (Hstep (S i)).
    + erewrite imap_ext; [exact Hout|]. intros i y _. simpl.
      f_equal. lia.
    + specialize (Hstep 0 x cfgs new_cfgs eq_refl).
      rewrite Nat.add_0_r in Hstep. by apply Hstep.
Qed.

Lemma generations_enumerate_ind {A} (P : nat → MemConfigs → Prop)
    (step : nat * A → MemConfigs → outcome MemConfigs) (xs : list A)
    cfgs out :
  (∀ i x c c', xs !! i = Some x → step (i, x) c = Ok c' →
     P i c → P (S i) c') →
  generations step (enumerate xs) cfgs = Ok out →
  P 0 cfgs → P (length xs) out.
Proof.
  intros Hstep Hout HP.
  by apply (generations_from_ind P step xs 0 cfgs out).
Qed.

(** *** What a candidate provides, its descendants provide *)

Lemma evolves_bound_wr_lookup c c' j p :
  evolves_bound mem c c' → cfg_wr_ports c !! j = Some p →
  ∃ p', cfg_wr_ports c' !! j = Some p' ∧ wr_port_evolves mem j p p'
        ∧ wp_rd_port p' = wp_rd_port p.
Proof.
  intros ((_ & _ & _ & Hw & _) & _ & _ & Hs) Hl.
  destruct (Hw _ _ Hl) as (p' & Hl' & He). exists p'. do 2 (split; [done|]).
  assert (Hf : (wp_rd_port <$> cfg_wr_ports c') !! j
               = (wp_rd_port <$> cfg_wr_ports c) !! j) by by rewrite Hs.
  rewrite !list_lookup_fmap, Hl, Hl' in Hf. by injection Hf.
Qed.

Lemma evolves_bound_rd_lookup c c' j p :
  evolves_bound mem c c' → cfg_rd_ports c !! j = Some p →
  ∃ p', cfg_rd_ports c' !! j = Some p' ∧ rd_port_evolves mem j p p'.
Proof. intros ((_ & _ & _ & _ & Hr) & _) Hl. by apply Hr. Qed.

Lemma is_applied_evolves {T} c c' wp wp' (cap : Capability T) :
  cfg_opts c ⊆ cfg_opts c' → wp_portopts wp ⊆ wp_portopts wp' →
  is_applied c wp cap = true → is_applied c' wp' cap = true.
Proof.
  unfold is_applied. rewrite !andb_true_iff. intros Ho Hp [H1 H2].
  split; by eapply opts_applied_mono.
Qed.

Lemma rd_caps_applied_evolves {T} c c' j rp rp' (cap : Capability T) :
  evolves mem c c' → rd_port_evolves mem j rp rp' →
  rd_caps_applied c rp cap → rd_caps_applied c' rp' cap.
Proof.
  intros (_ & Ho & _ & Hw & _) (Hwp & _ & _ & _ & Hpo & _) [Ha Hb].
  split; [by eapply opts_applied_mono|]. rewrite Hwp.
  destruct (decide (rp_wr_port rp = (-1)%Z)).
  - by eapply opts_applied_mono.
  - destruct Hb as (wp & Hl & Hb). destruct (Hw _ _ Hl) as (wp' & Hl' & He).
    exists wp'. split; [done|]. eapply opts_applied_mono; [|done].
    apply He.
Qed.

Lemma rstval_covers_evolves kind val c c' j rp rp' rstdef :
  evolves mem c c' → rd_port_evolves mem j rp rp' →
  rstval_covers kind val c rp rstdef → rstval_covers kind val c' rp' rstdef.
Proof.
  intros He Hp (Hk & Hv & Ha). split; [done|].
  split; [|by eapply rd_caps_applied_evolves].
  destruct (rst_val_kind (cap_val rstdef)); [done..|].
  eapply lookup_weaken; [done|]. apply Hp.
Qed.

Lemma trans_done_evolves j w transparent c c' :
  evolves_bound mem c c' →
  trans_done lib j w transparent c → trans_done lib j w transparent c'.
Proof.
  intros He (rp & wp & rdef & wpdef & rpdef & Hrp & Hwp & Hrdef & Hwd & Hrd
             & Hcase).
  destruct (evolves_bound_rd_lookup _ _ _ _ He Hrp) as (rp' & Hrp' & Hre).
  destruct (evolves_bound_wr_lookup _ _ _ _ He Hwp)
    as (wp' & Hwp' & Hwe & Hshare).
  pose proof Hre as (_ & Hpd & Hsync & _ & _ & _ & _ & _ & _ & _ & _ & _
                     & _ & _ & Htr & _).
  pose proof Hwe as (Hwd' & _ & Hpo & _).
  pose proof He as ((Hram & Ho & _) & _).
  exists rp', wp', rdef, wpdef, rpdef.
  split; [done|]. split; [done|]. split; [by rewrite Hram|].
  split; [by rewrite Hwd'|]. split; [by rewrite Hpd|].
  destruct Hcase as [[? Hin]|[[? Hs]|(Hs & tdef & Hin & Hcov & Ha)]].
  - left. split; [done | by apply Htr].
  - right. left. split; [done | congruence].
  - right. right. split; [congruence|]. exists tdef. split; [done|].
    split; [|by eapply is_applied_evolves].
    destruct Hcov as [Ht Hk]. split; [|done].
    destruct (wt_target_kind (cap_val tdef)); [congruence..|done].
Qed.

Lemma rst_done_evolves kind val (flag : RdPortConfig → bool) j c c' :
  (∀ p p', rd_port_evolves mem j p p' → flag p = true → flag p' = true) →
  evolves_bound mem c c' →
  rst_done lib kind val flag j c → rst_done lib kind val flag j c'.
Proof.
  intros Hflag He (rp & rdef & pdef & Hrp & Hrdef & Hpd & Hcase).
  destruct (evolves_bound_rd_lookup _ _ _ _ He Hrp) as (rp' & Hrp' & Hre).
  pose proof Hre as (_ & Hpd' & Hsync & _).
  pose proof He as ((Hram & _) & _).
  exists rp', rdef, pdef.
  split; [done|]. split; [by rewrite Hram|]. split; [by rewrite Hpd'|].
  destruct Hcase as [Hs|[Hf|(rstdef & Hin & Hcov)]].
  - left. congruence.
  - right. left. by eapply Hflag.
  - right. right. exists rstdef. split; [done|].
    eapply rstval_covers_evolves; [apply He|done..].
Qed.

Lemma srst_done_evolves port j c c' :
  evolves_bound mem c c' →
  srst_done lib port j c → srst_done lib port j c'.
Proof.
  intros He (rp & rdef & pdef & Hrp & Hrdef & Hpd & Hcase).
  destruct (evolves_bound_rd_lookup _ _ _ _ He Hrp) as (rp' & Hrp' & Hre).
  pose proof Hre as (_ & Hpd' & Hsync & _ & _ & _ & _ & _ & _ & _ & Hsr & _
                     & Hpr & _).
  pose proof He as ((Hram & _) & _).
  exists rp', rdef, pdef.
  split; [done|]. split; [by rewrite Hram|]. split; [by rewrite Hpd'|].
  destruct Hcase as [Hs|[Hf|(rstdef & Hin & Hcov & Hmode)]].
  - left. congruence.
  - right. left. by apply Hsr.
  - right. right. exists rstdef. split; [done|].
    split; [eapply rstval_covers_evolves; [apply He|done..]|].
    destruct Hmode as [Hen|(mdef & Hm & Ha & Hok)]; [by left|]. right.
    exists mdef. split; [done|].
    split; [eapply rd_caps_applied_evolves; [apply He|done..]|].
    unfold srst_mode_ok in *. destruct (cap_val mdef); [| |done]; by auto.
Qed.

(** *** [handle_trans] *)

Lemma wrport_opts_applied_spec {T} cfg pidx (cap : Capability T) b :
  wrport_opts_applied cfg pidx cap = Ok b →
  ∃ wp, cfg_wr_ports cfg !! pidx = Some wp ∧ b = is_applied cfg wp cap.
Proof.
  unfold wrport_opts_applied. intros Ha.
  apply bind_Ok in Ha as (wp & Hl%vec_at_Ok & [= <-]). by exists wp.
Qed.

Lemma apply_opts_ok_applied (dst : gmap string Const) src o :
  apply_opts dst src = (true, o) → opts_applied o src = true.
Proof.
  intros Ha. pose proof (apply_opts_true_applied src dst) as Ht.
  rewrite Ha in Ht. by apply Ht.
Qed.

Lemma apply_wrport_opts_applied {T} cfg pidx (cap : Capability T) cfg' :
  apply_wrport_opts cfg pidx cap = Ok (true, cfg') →
  ∃ wp', cfg_wr_ports cfg' !! pidx = Some wp'
         ∧ is_applied cfg' wp' cap = true.
Proof.
  unfold apply_wrport_opts. intros Ha.
  apply bind_Ok in Ha as (pcfg & Hp%vec_at_Ok & Ha).
  destruct (apply_opts (cfg_opts cfg) (cap_opts cap)) as [ok1 o] eqn:H1.
  destruct ok1; [|done].
  destruct (apply_opts (wp_portopts pcfg) (cap_portopts cap))
    as [ok2 po] eqn:H2.
  injection Ha as -> <-. exists (wp_set_portopts pcfg po). split.
  - simpl. apply list_lookup_insert_eq. by eapply lookup_lt_Some.
  - unfold is_applied. simpl.
    by rewrite (apply_opts_ok_applied _ _ _ H1),
               (apply_opts_ok_applied _ _ _ H2).
Qed.

Lemma use_wrport_cap_applied {T} cfg pidx (cap : Capability T) ys free y :
  use_wrport_cap cfg pidx cap = Ok (ys, free) → y ∈ ys →
  ∃ wp', cfg_wr_ports y !! pidx = Some wp' ∧ is_applied y wp' cap = true.
Proof.
  unfold use_wrport_cap. intros Hu Hy.
  apply bind_Ok in Hu as (applied & Happ & Hu).
  apply wrport_opts_applied_spec in Happ as (wp & Hl & ->).
  destruct (is_applied cfg wp cap) eqn:Hia.
  - injection Hu as <- <-. apply list_elem_of_singleton in Hy as ->.
    by exists wp.
  - apply bind_Ok in Hu as ([ok cfg2] & Ha & Hu). destruct ok; simpl in Hu.
    + injection Hu as <- <-. apply list_elem_of_singleton in Hy as ->.
      by eapply apply_wrport_opts_applied.
    + injection Hu as <- <-. by apply elem_of_nil in Hy.
Qed.

Lemma push_emu_trans_evolves cfg rpidx rpcfg wpidx :
  cfg_rd_ports cfg !! rpidx = Some rpcfg →
  same_domain mem rpidx wpidx true →
  evolves_bound mem cfg (push_emu_trans cfg rpidx rpcfg wpidx).
Proof.
  intros Hl Hg. apply evolves_bound_rd_port with rpcfg; [done|].
  by apply rd_port_evolves_emu_trans.
Qed.

Lemma push_emu_trans_lookup cfg rpidx rpcfg wpidx :
  cfg_rd_ports cfg !! rpidx = Some rpcfg →
  ∃ rp', cfg_rd_ports (push_emu_trans cfg rpidx rpcfg wpidx) !! rpidx
         = Some rp' ∧ wpidx ∈ rp_emu_trans rp'.
Proof.
  intros Hl. eexists. split.
  - simpl. apply list_lookup_insert_eq. by eapply lookup_lt_Some.
  - simpl. apply elem_of_app. right. apply list_elem_of_here.
Qed.

Lemma trans_cfg_step rpidx wpidx transparent cfg ys y :
  (transparent = true → same_domain mem rpidx wpidx true) →
  trans_cfg lib rpidx wpidx transparent cfg = Ok ys → y ∈ ys →
  evolves_bound mem cfg y ∧ trans_done lib rpidx wpidx transparent y.
Proof.
  unfold trans_cfg. intros Hg Ht Hy.
  apply bind_Ok in Ht as (rpcfg & Hrp%vec_at_Ok & Ht).
  apply bind_Ok in Ht as (wpcfg & Hwp%vec_at_Ok & Ht).
  apply bind_Ok in Ht as (rdef & Hrdef%vec_at_Ok & Ht).
  apply bind_Ok in Ht as (wpdef & Hwd%vec_at_Ok & Ht).
  apply bind_Ok in Ht as (rpdef & Hrd%vec_at_Ok & Ht).
  assert (Hdone : ∀ y', evolves_bound mem cfg y' →
            (∃ rp', cfg_rd_ports y' !! rpidx = Some rp'
                    ∧ (transparent = true ∧ wpidx ∈ rp_emu_trans rp'
                       ∨ transparent = false ∧ rp_emu_sync rp' = true))
            ∨ (rp_emu_sync rpcfg = false
               ∧ ∃ tdef wp', tdef ∈ pg_wrtrans (cap_val wpdef)
                   ∧ cfg_wr_ports y' !! wpidx = Some wp'
                   ∧ wrtrans_covers rpidx wpcfg rpdef transparent
                       (cap_val tdef)
                   ∧ is_applied y' wp' tdef = true) →
            evolves_bound mem cfg y'
            ∧ trans_done lib rpidx wpidx transparent y').
  { intros y' He Hcase. split; [done|].
    destruct (evolves_bound_rd_lookup _ _ _ _ He Hrp) as (rp' & Hrp' & Hre).
    destruct (evolves_bound_wr_lookup _ _ _ _ He Hwp)
      as (wp' & Hwp' & Hwe & Hshare).
    pose proof Hre as (_ & Hpd & Hsync & _).
    pose proof Hwe as (Hwd' & _).
    pose proof He as ((Hram & _) & _).
    exists rp', wp', rdef, wpdef, rpdef.
    split; [done|]. split; [done|]. split; [by rewrite Hram|].
    split; [by rewrite Hwd'|]. split; [by rewrite Hpd|].
    destruct Hcase as [(rp2 & Hrp2 & Hc)|(Hs & tdef & wp2 & Hin & Hwp2
                                          & Hcov & Ha)].
    - assert (rp2 = rp') as -> by congruence.
      destruct Hc as [?|?]; [by left | by right; left].
    - assert (wp2 = wp') as -> by congruence.
      right. right. split; [congruence|]. exists tdef.
      split; [done|]. split; [|done].
      destruct Hcov as [Ht' Hk]. split; [|done].
      destruct (wt_target_kind (cap_val tdef)); [congruence..|done]. }
  assert (Hemu : transparent = true →
            evolves_bound mem cfg (push_emu_trans cfg rpidx rpcfg wpidx)
            ∧ trans_done lib rpidx wpidx transparent
                (push_emu_trans cfg rpidx rpcfg wpidx)).
  { intros Htr. apply Hdone; [by apply push_emu_trans_evolves, Hg|].
    left. destruct (push_emu_trans_lookup cfg rpidx rpcfg wpidx Hrp)
      as (rp' & Hl & Hin).
    exists rp'. split; [done|]. by left. }
  destruct (rp_emu_sync rpcfg) eqn:Hsync.
  - destruct transparent; injection Ht as <-;
      apply list_elem_of_singleton in Hy as ->; [by apply Hemu|].
    apply Hdone; [apply evolves_bound_refl|].
    left. exists rpcfg. split; [done|]. by right.
  - apply bind_Ok in Ht as ([new_cfgs found_free] & Hloop & Ht).
    assert (Hnew : ∀ y, y ∈ new_cfgs →
              evolves_bound mem cfg y
              ∧ trans_done lib rpidx wpidx transparent y).
    { intros y' Hy'.
      destruct (caps_loop_Ok _ _ _ _ Hloop y' Hy')
        as (tdef & zs & f & Hin & Hbody & Hz).
      unfold trans_cap in Hbody.
      apply bind_Ok in Hbody as (target_ok & Htarget & Hbody).
      destruct target_ok; simpl in Hbody;
        [|injection Hbody as <- <-; by apply elem_of_nil in Hz].
      destruct (if transparent then _ else _) eqn:Hkind;
        [injection Hbody as <- <-; by apply elem_of_nil in Hz|].
      apply Hdone; [by eapply use_wrport_cap_evolves|].
      right. split; [done|].
      destruct (use_wrport_cap_applied _ _ _ _ _ _ Hbody Hz)
        as (wp' & Hwp' & Ha).
      exists tdef, wp'. do 2 (split; [done|]). split; [|done]. split.
      - destruct (wt_target_kind (cap_val tdef)).
        + injection Htarget as Ht'. by apply bool_decide_eq_true in Ht'.
        + injection Htarget as Ht'. by apply bool_decide_eq_true in Ht'.
        + apply bind_Ok in Htarget as (name0 & Hn%vec_at_Ok & [= Ht']).
          apply bool_decide_eq_true in Ht'. by subst.
      - destruct transparent.
        + apply bool_decide_eq_false in Hkind.
          by destruct (wt_kind (cap_val tdef)).
        + apply bool_decide_eq_false in Hkind.
          destruct (wt_kind (cap_val tdef)); [|done].
          exfalso. by apply Hkind. }
    destruct (negb found_free && transparent) eqn:Hemu'; injection Ht as <-.
    + apply elem_of_app in Hy as [Hy|Hy]; [by apply Hnew|].
      apply list_elem_of_singleton in Hy as ->. apply Hemu.
      by apply andb_true_iff in Hemu' as [_ ?].
    + by apply Hnew.
Qed.

Lemma trans_pair_step rpidx rport wpidx wport cfgs out :
  mem_rd_ports mem !! rpidx = Some rport →
  mem_wr_ports mem !! wpidx = Some wport →
  rd_clk_enable rport = true →
  trans_pair lib rpidx rport wpidx wport cfgs = Ok out →
  descend (evolves_bound mem) cfgs out
  ∧ ∀ y t, y ∈ out → same_domain mem rpidx wpidx t →
      trans_done lib rpidx wpidx t y.
Proof.
  intros Hrport Hwport Hclk Hstep.
  assert (Hskip : (∀ t, ¬ same_domain mem rpidx wpidx t) →
            Ok cfgs = Ok out →
            descend (evolves_bound mem) cfgs out
            ∧ ∀ y t, y ∈ out → same_domain mem rpidx wpidx t →
                trans_done lib rpidx wpidx t y).
  { intros Hno [= <-]. split.
    - apply descend_refl, evolves_bound_refl.
    - intros y t _ Hd. by destruct (Hno t). }
  unfold trans_pair in Hstep.
  destruct (wr_clk_enable wport) eqn:Hwclk; simpl in Hstep;
    [|apply Hskip; [|done];
      intros t (p & wp & ? & ? & _ & ? & _); congruence].
  destruct (decide (rd_clk rport ≠ wr_clk wport));
    [apply Hskip; [|done];
     intros t (p & wp & ? & ? & _ & _ & ? & _); congruence|].
  destruct (decide (rd_clk_polarity rport ≠ wr_clk_polarity wport));
    [apply Hskip; [|done];
     intros t (p & wp & ? & ? & _ & _ & _ & ? & _); congruence|].
  apply bind_Ok in Hstep as (collision_x & Hcx%vec_at_Ok & Hstep).
  destruct collision_x;
    [apply Hskip; [|done];
     intros t (p & wp & ? & ? & _ & _ & _ & _ & ? & _); congruence|].
  apply bind_Ok in Hstep as (transparent & Htr%vec_at_Ok & Hstep).
  assert (Hdom : same_domain mem rpidx wpidx transparent).
  { exists rport, wport. repeat split; try done.
    - by apply dec_stable.
    - by apply dec_stable. }
  split.
  - revert Hstep. apply for_each_descend. intros c ys y _ Hc Hy.
    eapply trans_cfg_step; [|done..]. by intros ->.
  - intros y t Hy (p & wp & Hp & Hwp & _ & _ & _ & _ & _ & Ht).
    assert (t = transparent) as -> by congruence.
    destruct (for_each_Ok _ _ _ Hstep y Hy) as (c & ys & _ & Hc & Hys).
    eapply trans_cfg_step; [|done..]. by intros ->.
Qed.

Lemma trans_rd_port_step rpidx rport cfgs out :
  mem_rd_ports mem !! rpidx = Some rport →
  trans_rd_port mem lib rpidx rport cfgs = Ok out →
  descend (evolves_bound mem) cfgs out
  ∧ ∀ y w t, y ∈ out → same_domain mem rpidx w t →
      trans_done lib rpidx w t y.
Proof.
  intros Hrport Hstep. unfold trans_rd_port in Hstep.
  destruct (rd_clk_enable rport) eqn:Hclk; simpl in Hstep.
  2:{ injection Hstep as <-. split.
      - apply descend_refl, evolves_bound_refl.
      - intros y w t _ (p & wp & ? & _ & ? & _). congruence. }
  pose proof (generations_enumerate_ind
    (fun k cs => descend (evolves_bound mem) cfgs cs
                 ∧ ∀ y w t, y ∈ cs → w < k → same_domain mem rpidx w t →
                     trans_done lib rpidx w t y)
    (fun '(wpidx, wport) cfgs => trans_pair lib rpidx rport wpidx wport cfgs)
    (mem_wr_ports mem) cfgs out) as Hind.
  destruct Hind as [Hd Hall].
  - intros w wport c c' Hwport Hpair [Hd Hall].
    destruct (trans_pair_step _ _ _ _ _ _ Hrport Hwport Hclk Hpair)
      as [Hd' Hnew].
    split; [eapply descend_trans; [apply evolves_bound_trans|done..]|].
    intros y w' t Hy Hlt Hdom.
    destruct (decide (w' = w)) as [->|Hne]; [by apply Hnew|].
    destruct (Hd' y Hy) as (c0 & Hc0 & He).
    eapply trans_done_evolves; [done|]. apply Hall; [done|lia|done].
  - done.
  - split; [apply descend_refl, evolves_bound_refl|]. intros; lia.
  - split; [done|]. intros y w t Hy Hdom. apply Hall; [done| |done].
    destruct Hdom as (p & wp & _ & Hwp & _). by eapply lookup_lt_Some.
Qed.

Lemma handle_trans_step cfgs out :
  handle_trans mem lib cfgs = Ok out →
  descend (evolves_bound mem) cfgs out
  ∧ ∀ y j w t, y ∈ out → same_domain mem j w t → trans_done lib j w t y.
Proof.
  intros Hstep. unfold handle_trans in Hstep.
  pose proof (generations_enumerate_ind
    (fun k cs => descend (evolves_bound mem) cfgs cs
                 ∧ ∀ y j w t, y ∈ cs → j < k → same_domain mem j w t →
                     trans_done lib j w t y)
    (fun '(rpidx, rport) cfgs => trans_rd_port mem lib rpidx rport cfgs)
    (mem_rd_ports mem) cfgs out) as Hind.
  destruct Hind as [Hd Hall].
  - intros j rport c c' Hrport Hport [Hd Hall].
    destruct (trans_rd_port_step _ _ _ _ Hrport Hport) as [Hd' Hnew].
    split; [eapply descend_trans; [apply evolves_bound_trans|done..]|].
    intros y j' w t Hy Hlt Hdom.
    destruct (decide (j' = j)) as [->|Hne]; [by eapply Hnew|].
    destruct (Hd' y Hy) as (c0 & Hc0 & He).
    eapply trans_done_evolves; [done|]. apply Hall; [done|lia|done].
  - done.
  - split; [apply descend_refl, evolves_bound_refl|]. intros; lia.
  - split; [done|]. intros y j w t Hy Hdom. apply Hall; [done| |done].
    destruct Hdom as (p & wp & Hp & _). by eapply lookup_lt_Some.
Qed.

(** *** [handle_priority] *)

Lemma priority_cfg_evolves p1idx p2idx cfg ys y :
  prio_guard mem p2idx p1idx →
  priority_cfg lib p1idx p2idx cfg = Ok ys → y ∈ ys →
  evolves_bound mem cfg y.
Proof.
  unfold priority_cfg. intros Hg Ht Hy.
  apply bind_Ok in Ht as (p1cfg & _ & Ht).
  apply bind_Ok in Ht as (p2cfg & Hp2%vec_at_Ok & Ht).
  apply bind_Ok in Ht as (rdef & _ & Ht).
  apply bind_Ok in Ht as (p1def & _ & Ht).
  apply bind_Ok in Ht as (p2def & _ & Ht).
  apply bind_Ok in Ht as ([new_cfgs found_free] & Hloop & Ht).
  assert (Hnew : ∀ y, y ∈ new_cfgs → evolves_bound mem cfg y).
  { intros y' Hy'.
    destruct (caps_loop_Ok _ _ _ _ Hloop y' Hy')
      as (prdef & zs & f & _ & Hbody & Hz).
    unfold priority_cap in Hbody.
    apply bind_Ok in Hbody as (name0 & _ & Hbody).
    destruct (decide (name0 ≠ cap_val prdef));
      [injection Hbody as <- <-; by apply elem_of_nil in Hz|].
    by eapply use_wrport_cap_evolves. }
  destruct (negb found_free); injection Ht as <-.
  - apply elem_of_app in Hy as [Hy|Hy]; [by apply Hnew|].
    apply list_elem_of_singleton in Hy as ->.
    apply (evolves_bound_wr_port cfg p2idx p2cfg);
      [done | by apply wr_port_evolves_emu_prio | done].
  - by apply Hnew.
Qed.

Lemma handle_priority_evolves cfgs out :
  handle_priority mem lib cfgs = Ok out →
  descend (evolves_bound mem) cfgs out.
Proof.
  apply generations_descend;
    [apply evolves_bound_refl | apply evolves_bound_trans|].
  intros [p1idx port1] c c' _ Hstep.
  revert Hstep. apply generations_descend;
    [apply evolves_bound_refl | apply evolves_bound_trans|].
  clear c c'.
  intros [p2idx port2] c c' Hport2%elem_of_enumerate Hstep.
  unfold priority_pair in Hstep.
  apply bind_Ok in Hstep as (prio & Hprio%vec_at_Ok & Hstep).
  destruct prio; simpl in Hstep;
    [|injection Hstep as <-; apply descend_refl, evolves_bound_refl].
  revert Hstep. apply for_each_descend. intros cfg ys y _.
  apply priority_cfg_evolves. by exists port2.
Qed.

(** *** The reset values *)

Lemma apply_rstval_ok j pcfg def val pcfg' :
  apply_rstval pcfg def val = (true, pcfg') →
  rd_port_evolves mem j pcfg pcfg'
  ∧ rp_wr_port pcfg' = rp_wr_port pcfg
  ∧ match rst_val_kind def with
    | ResetValKind.None => False
    | ResetValKind.Zero => no_one_bit val
    | ResetValKind.Named => rp_resetvals pcfg' !! rst_name def = Some val
    end.
Proof.
  unfold apply_rstval. destruct (rst_val_kind def).
  - done.
  - intros [= Hz <-]. split; [apply rd_port_evolves_refl|]. split; [done|].
    apply no_one_bit_spec. by apply negb_true_iff.
  - destruct (rp_resetvals pcfg !! rst_name def) as [v|] eqn:Hl.
    + intros [= Hv <-]. split; [apply rd_port_evolves_refl|].
      split; [done|]. apply bool_decide_eq_true in Hv. by subst.
    + intros [= <-].
      split; [apply rd_port_evolves_resetvals; by apply insert_subseteq|].
      split; [done|]. simpl. apply lookup_insert_eq.
Qed.

Lemma rdport_opts_applied_spec {T} cfg pidx (cap : Capability T) :
  rdport_opts_applied cfg pidx cap = Ok true →
  ∃ rp, cfg_rd_ports cfg !! pidx = Some rp ∧ rd_caps_applied cfg rp cap.
Proof.
  unfold rdport_opts_applied, rd_caps_applied. intros Ha.
  apply bind_Ok in Ha as (rp & Hl%vec_at_Ok & Ha). exists rp.
  split; [done|].
  destruct (decide (rp_wr_port rp ≠ (-1)%Z)) as [Hne|Heq].
  - destruct (decide (rp_wr_port rp < 0)%Z); [done|].
    apply wrport_opts_applied_spec in Ha as (wp & Hwp & Ha).
    symmetry in Ha. apply andb_true_iff in Ha as [H1 H2].
    split; [done|]. rewrite decide_False by done. by exists wp.
  - injection Ha as Ha. apply andb_true_iff in Ha as [H1 H2].
    split; [done|]. rewrite decide_True; [done|].
    by apply dec_stable.
Qed.

Lemma apply_rdport_opts_applied {T} cfg pidx (cap : Capability T) cfg' :
  apply_rdport_opts cfg pidx cap = Ok (true, cfg') →
  ∃ rp', cfg_rd_ports cfg' !! pidx = Some rp' ∧ rd_caps_applied cfg' rp' cap.
Proof.
  unfold apply_rdport_opts, rd_caps_applied. intros Ha.
  apply bind_Ok in Ha as (rp & Hl%vec_at_Ok & Ha).
  destruct (decide (rp_wr_port rp ≠ (-1)%Z)) as [Hne|Heq].
  - destruct (decide (rp_wr_port rp < 0)%Z); [done|].
    exists rp. rewrite (apply_wrport_opts_rd_ports _ _ _ _ _ Ha).
    split; [done|].
    apply apply_wrport_opts_applied in Ha as (wp' & Hwp' & Ha).
    apply andb_true_iff in Ha as [H1 H2].
    split; [done|]. rewrite decide_False by done. by exists wp'.
  - destruct (apply_opts (cfg_opts cfg) (cap_opts cap)) as [ok1 o] eqn:H1.
    destruct ok1; [|done].
    destruct (apply_opts (rp_portopts rp) (cap_portopts cap))
      as [ok2 po] eqn:H2.
    injection Ha as -> <-. exists (rp_set_portopts rp po). split.
    + simpl. apply list_lookup_insert_eq. by eapply lookup_lt_Some.
    + simpl. split; [by eapply apply_opts_ok_applied|].
      rewrite decide_True; [by eapply apply_opts_ok_applied|].
      by apply dec_stable.
Qed.

Lemma use_rdrstval_step kind val pidx cfg rstdef cfg2 free :
  use_rdrstval kind val pidx cfg rstdef = Ok (Some cfg2, free) →
  evolves_bound mem cfg cfg2
  ∧ ∃ rp2, cfg_rd_ports cfg2 !! pidx = Some rp2
           ∧ rstval_covers kind val cfg2 rp2 rstdef.
Proof.
  unfold use_rdrstval. intros Hu.
  destruct (decide (rst_kind (cap_val rstdef) ≠ kind)) as [|Hkind]; [done|].
  apply dec_stable in Hkind.
  apply bind_Ok in Hu as (pcfg2 & Hp%vec_at_Ok & Hu).
  destruct (apply_rstval pcfg2 (cap_val rstdef) val) as [ok pcfg2'] eqn:Hrst.
  destruct ok; simpl in Hu; [|done].
  apply (apply_rstval_ok pidx) in Hrst as (Hev & Hwr & Hval).
  assert (Hk : evolves_bound mem cfg
                 (cfg_set_rd_ports cfg (<[pidx := pcfg2']> (cfg_rd_ports cfg))))
    by by apply evolves_bound_rd_port with pcfg2.
  assert (Hl : cfg_rd_ports
                 (cfg_set_rd_ports cfg (<[pidx := pcfg2']> (cfg_rd_ports cfg)))
               !! pidx = Some pcfg2').
  { simpl. apply list_lookup_insert_eq. by eapply lookup_lt_Some. }
  apply bind_Ok in Hu as (applied & Happ & Hu). destruct applied.
  - injection Hu as <- <-. split; [done|].
    apply rdport_opts_applied_spec in Happ as (rp & Hrp & Ha).
    exists rp. split; [done|].
    assert (rp = pcfg2') as -> by congruence. done.
  - apply bind_Ok in Hu as ([ok cfg2'] & Ha & Hu).
    destruct ok; simpl in Hu; [|done]. injection Hu as <- <-.
    pose proof (apply_rdport_opts_evolves _ _ _ _ _ Ha) as He.
    split; [by eapply evolves_bound_trans|].
    apply apply_rdport_opts_applied in Ha as (rp' & Hrp' & Happ').
    exists rp'. split; [done|]. split; [done|]. split; [|done].
    destruct (evolves_bound_rd_lookup _ _ _ _ He Hl) as (rp2 & Hrp2 & Hre).
    assert (rp2 = rp') as -> by congruence.
    destruct (rst_val_kind (cap_val rstdef)); [done..|].
    eapply lookup_weaken; [done|]. apply Hre.
Qed.

(** The handlers of the initial value and of the asynchronous reset: a
    loop over [rdrstval] whose bodies provide the value, then a clone of
    [cfg] with the emulation flag [flag] set by [set]. *)
Lemma rd_rst_cfg_step
    (covers : MemConfig → RdPortConfig → Capability PortGroupDef
              → Capability ResetValDef → Prop)
    (flag : RdPortConfig → bool)
    (body : Capability ResetValDef → outcome (list MemConfig * bool))
    cfg pidx pcfg pcfg' rdef pdef ys y :
  cfg_rd_ports cfg !! pidx = Some pcfg →
  ram_defs lib !! cfg_ram_def cfg = Some rdef →
  ram_ports rdef !! rp_port_def pcfg = Some pdef →
  (∀ cap zs f z, body cap = Ok (zs, f) → z ∈ zs →
     evolves_bound mem cfg z
     ∧ ∃ rp2, cfg_rd_ports z !! pidx = Some rp2 ∧ covers z rp2 pdef cap) →
  rd_port_evolves mem pidx pcfg pcfg' → flag pcfg' = true →
  (if rp_emu_sync pcfg then Ok [cfg]
   else
     '(new_cfgs, found_free) ← caps_loop body (pg_rdrstval (cap_val pdef));
     if negb found_free then
       Ok (new_cfgs ++
             [cfg_set_rd_ports cfg (<[pidx := pcfg']> (cfg_rd_ports cfg))])
     else Ok new_cfgs) = Ok ys →
  y ∈ ys →
  evolves_bound mem cfg y
  ∧ ∃ rp rdef pdef,
      cfg_rd_ports y !! pidx = Some rp
      ∧ ram_defs lib !! cfg_ram_def y = Some rdef
      ∧ ram_ports rdef !! rp_port_def rp = Some pdef
      ∧ (rp_emu_sync rp = true
         ∨ flag rp = true
         ∨ ∃ rstdef, rstdef ∈ pg_rdrstval (cap_val pdef)
             ∧ covers y rp pdef rstdef).
Proof.
  intros Hp Hrdef Hpdef Hbody Hev Hflag Ht Hy.
  assert (Hdone : ∀ y', evolves_bound mem cfg y' →
            (∀ rp', cfg_rd_ports y' !! pidx = Some rp' →
               rp_emu_sync rp' = true ∨ flag rp' = true
               ∨ ∃ rstdef, rstdef ∈ pg_rdrstval (cap_val pdef)
                   ∧ covers y' rp' pdef rstdef) →
            evolves_bound mem cfg y'
            ∧ ∃ rp rdef pdef,
                cfg_rd_ports y' !! pidx = Some rp
                ∧ ram_defs lib !! cfg_ram_def y' = Some rdef
                ∧ ram_ports rdef !! rp_port_def rp = Some pdef
                ∧ (rp_emu_sync rp = true
                   ∨ flag rp = true
                   ∨ ∃ rstdef, rstdef ∈ pg_rdrstval (cap_val pdef)
                       ∧ covers y' rp pdef rstdef)).
  { intros y' He Hcase. split; [done|].
    destruct (evolves_bound_rd_lookup _ _ _ _ He Hp) as (rp' & Hrp' & Hre).
    pose proof Hre as (_ & Hpd & _). pose proof He as ((Hram & _) & _).
    exists rp', rdef, pdef.
    split; [done|]. split; [by rewrite Hram|]. split; [by rewrite Hpd|].
    by apply Hcase. }
  destruct (rp_emu_sync pcfg) eqn:Hsync.
  - injection Ht as <-. apply list_elem_of_singleton in Hy as ->.
    apply Hdone; [apply evolves_bound_refl|].
    intros rp' Hrp'. left. congruence.
  - apply bind_Ok in Ht as ([new_cfgs found_free] & Hloop & Ht).
    assert (Hnew : ∀ y', y' ∈ new_cfgs →
              evolves_bound mem cfg y'
              ∧ ∃ rp rdef pdef,
                  cfg_rd_ports y' !! pidx = Some rp
                  ∧ ram_defs lib !! cfg_ram_def y' = Some rdef
                  ∧ ram_ports rdef !! rp_port_def rp = Some pdef
                  ∧ (rp_emu_sync rp = true
                     ∨ flag rp = true
                     ∨ ∃ rstdef, rstdef ∈ pg_rdrstval (cap_val pdef)
                         ∧ covers y' rp pdef rstdef)).
    { intros y' Hy'.
      destruct (caps_loop_Ok _ _ _ _ Hloop y' Hy')
        as (cap & zs & f & Hin & Hb & Hz).
      destruct (Hbody _ _ _ _ Hb Hz) as (He & rp2 & Hrp2 & Hcov).
      apply Hdone; [done|]. intros rp' Hrp'. right. right.
      exists cap. split; [done|]. congruence. }
    destruct (negb found_free); injection Ht as <-; [|by apply Hnew].
    apply elem_of_app in Hy as [Hy|Hy]; [by apply Hnew|].
    apply list_elem_of_singleton in Hy as ->.
    apply Hdone; [by apply evolves_bound_rd_port with pcfg|].
    intros rp' Hrp'. right. left. simpl in Hrp'.
    rewrite list_lookup_insert_eq in Hrp' by by eapply lookup_lt_Some.
    by injection Hrp' as <-.
Qed.

Lemma rd_init_cfg_step port pidx cfg ys y :
  init_guard mem pidx →
  rd_init_cfg lib port pidx cfg = Ok ys → y ∈ ys →
  evolves_bound mem cfg y
  ∧ rst_done lib ResetKind.Init (rd_init_value port) rp_emu_init pidx y.
Proof.
  unfold rd_init_cfg, rst_done. intros Hg Ht Hy.
  apply bind_Ok in Ht as (pcfg & Hp%vec_at_Ok & Ht).
  apply bind_Ok in Ht as (rdef & Hrdef%vec_at_Ok & Ht).
  apply bind_Ok in Ht as (pdef & Hpdef%vec_at_Ok & Ht).
  eapply (rd_rst_cfg_step
            (fun c rp _ =>
               rstval_covers ResetKind.Init (rd_init_value port) c rp));
    [exact Hp|exact Hrdef|exact Hpdef| | | |exact Ht|exact Hy].
  - intros cap zs f z Hb Hz. unfold rd_init_cap in Hb.
    apply bind_Ok in Hb as ([kept free] & Hu & [= <- <-]).
    destruct kept as [cfg2|]; [|by apply elem_of_nil in Hz].
    apply list_elem_of_singleton in Hz as ->. by eapply use_rdrstval_step.
  - by apply rd_port_evolves_emu_init.
  - done.
Qed.

Lemma rd_arst_cfg_step port pidx cfg ys y :
  arst_guard mem pidx →
  rd_arst_cfg lib port pidx cfg = Ok ys → y ∈ ys →
  evolves_bound mem cfg y
  ∧ rst_done lib ResetKind.Async (rd_arst_value port) rp_emu_arst pidx y.
Proof.
  unfold rd_arst_cfg, rst_done. intros Hg Ht Hy.
  apply bind_Ok in Ht as (pcfg & Hp%vec_at_Ok & Ht).
  apply bind_Ok in Ht as (rdef & Hrdef%vec_at_Ok & Ht).
  apply bind_Ok in Ht as (pdef & Hpdef%vec_at_Ok & Ht).
  eapply (rd_rst_cfg_step
            (fun c rp _ =>
               rstval_covers ResetKind.Async (rd_arst_value port) c rp));
    [exact Hp|exact Hrdef|exact Hpdef| | | |exact Ht|exact Hy].
  - intros cap zs f z Hb Hz. unfold rd_arst_cap in Hb.
    apply bind_Ok in Hb as ([kept free] & Hu & [= <- <-]).
    destruct kept as [cfg2|]; [|by apply elem_of_nil in Hz].
    apply list_elem_of_singleton in Hz as ->. by eapply use_rdrstval_step.
  - by apply rd_port_evolves_emu_arst.
  - done.
Qed.

(** One phase over the read ports: the iteration for the port [j]
    provides [Q j], which the later iterations keep. *)
Lemma rd_phase_step (Q : nat → MemConfig → Prop)
    (step : nat * MemRd → MemConfigs → outcome MemConfigs) cfgs out :
  (∀ j c c', evolves_bound mem c c' → Q j c → Q j c') →
  (∀ j port c c', mem_rd_ports mem !! j = Some port →
     step (j, port) c = Ok c' →
     descend (evolves_bound mem) c c' ∧ ∀ y, y ∈ c' → Q j y) →
  generations step (enumerate (mem_rd_ports mem)) cfgs = Ok out →
  descend (evolves_bound mem) cfgs out
  ∧ ∀ y j, y ∈ out → j < length (mem_rd_ports mem) → Q j y.
Proof.
  intros Hkeep Hstep Hrun.
  apply (generations_enumerate_ind
    (fun k cs => descend (evolves_bound mem) cfgs cs
                 ∧ ∀ y j, y ∈ cs → j < k → Q j y)
    step (mem_rd_ports mem) cfgs out); [|done|].
  - intros j port c c' Hport Hs [Hd Hall].
    destruct (Hstep _ _ _ _ Hport Hs) as [Hd' Hnew].
    split; [eapply descend_trans; [apply evolves_bound_trans|done..]|].
    intros y j' Hy Hlt.
    destruct (decide (j' = j)) as [->|Hne]; [by apply Hnew|].
    destruct (Hd' y Hy) as (c0 & Hc0 & He).
    eapply Hkeep; [done|]. apply Hall; [done|lia].
  - split; [apply descend_refl, evolves_bound_refl|]. intros; lia.
Qed.

Lemma handle_rd_init_step cfgs out :
  handle_rd_init mem lib cfgs = Ok out →
  descend (evolves_bound mem) cfgs out
  ∧ ∀ y j port, y ∈ out →
      mem_rd_ports mem !! j = Some port →
      rd_clk_enable port = true →
      is_fully_undef (rd_init_value port) = false →
      rst_done lib ResetKind.Init (rd_init_value port) rp_emu_init j y.
Proof.
  intros Hrun. unfold handle_rd_init in Hrun.
  eapply (rd_phase_step
    (fun j c => ∀ port, mem_rd_ports mem !! j = Some port →
       rd_clk_enable port = true →
       is_fully_undef (rd_init_value port) = false →
       rst_done lib ResetKind.Init (rd_init_value port) rp_emu_init j c))
    in Hrun as [Hd Hall].
  - split; [done|]. intros y j port Hy Hport.
    apply Hall; [done | by eapply lookup_lt_Some | done].
  - intros j c c' He HQ port Hport Hclk Hval.
    eapply rst_done_evolves; [|done|by apply HQ].
    intros p p' Hp. apply Hp.
  - intros j port c c' Hport Hstep.
    destruct (rd_clk_enable port) eqn:Hclk; simpl in Hstep.
    2:{ injection Hstep as <-.
        split; [apply descend_refl, evolves_bound_refl|].
        intros y _ port' ? ?. congruence. }
    destruct (is_fully_undef (rd_init_value port)) eqn:Hval.
    { injection Hstep as <-.
      split; [apply descend_refl, evolves_bound_refl|].
      intros y _ port' ? _ ?. congruence. }
    assert (Hg : init_guard mem j) by by exists port.
    split.
    + revert Hstep. apply for_each_descend. intros cfg ys y _ Hc Hy.
      by eapply rd_init_cfg_step.
    + intros y Hy port' Hport' _ _.
      assert (port' = port) as -> by congruence.
      destruct (for_each_Ok _ _ _ Hstep y Hy) as (cfg & ys & _ & Hc & Hys).
      by eapply rd_init_cfg_step.
Qed.

Lemma handle_rd_arst_step cfgs out :
  handle_rd_arst mem lib cfgs = Ok out →
  descend (evolves_bound mem) cfgs out
  ∧ ∀ y j port, y ∈ out →
      mem_rd_ports mem !! j = Some port →
      rd_clk_enable port = true →
      rd_arst port ≠ sig_of_state S0 →
      is_fully_undef (rd_arst_value port) = false →
      rst_done lib ResetKind.Async (rd_arst_value port) rp_emu_arst j y.
Proof.
  intros Hrun. unfold handle_rd_arst in Hrun.
  eapply (rd_phase_step
    (fun j c => ∀ port, mem_rd_ports mem !! j = Some port →
       rd_clk_enable port = true →
       rd_arst port ≠ sig_of_state S0 →
       is_fully_undef (rd_arst_value port) = false →
       rst_done lib ResetKind.Async (rd_arst_value port) rp_emu_arst j c))
    in Hrun as [Hd Hall].
  - split; [done|]. intros y j port Hy Hport.
    apply Hall; [done | by eapply lookup_lt_Some | done].
  - intros j c c' He HQ port Hport Hclk Hrst Hval.
    eapply rst_done_evolves; [|done|by apply HQ].
    intros p p' Hp. apply Hp.
  - intros j port c c' Hport Hstep.
    destruct (rd_clk_enable port) eqn:Hclk; simpl in Hstep.
    2:{ injection Hstep as <-.
        split; [apply descend_refl, evolves_bound_refl|].
        intros y _ port' ? ?. congruence. }
    destruct (decide (rd_arst port = sig_of_state S0)) as [Hrst|Hrst].
    { injection Hstep as <-.
      split; [apply descend_refl, evolves_bound_refl|].
      intros y _ port' ? _ ?. congruence. }
    destruct (is_fully_undef (rd_arst_value port)) eqn:Hval.
    { injection Hstep as <-.
      split; [apply descend_refl, evolves_bound_refl|].
      intros y _ port' ? _ _ ?. congruence. }
    assert (Hg : arst_guard mem j) by by exists port.
    split.
    + revert Hstep. apply for_each_descend. intros cfg ys y _ Hc Hy.
      by eapply rd_arst_cfg_step.
    + intros y Hy port' Hport' _ _ _.
      assert (port' = port) as -> by congruence.
      destruct (for_each_Ok _ _ _ Hstep y Hy) as (cfg & ys & _ & Hc & Hys).
      by eapply rd_arst_cfg_step.
Qed.

(** *** [handle_rd_srst] *)

Lemma rd_srst_mode_step port pidx cfg2 mdef ys y :
  srst_prio_guard mem pidx →
  rd_srst_mode port pidx cfg2 mdef = Ok ys → y ∈ ys →
  evolves_bound mem cfg2 y
  ∧ ∃ rp', cfg_rd_ports y !! pidx = Some rp'
           ∧ rd_caps_applied y rp' mdef
           ∧ srst_mode_ok port rp' (cap_val mdef).
Proof.
  unfold rd_srst_mode. intros Hg Ht Hy.
  apply bind_Ok in Ht as (pcfg3 & Hp%vec_at_Ok & Ht).
  apply bind_Ok in Ht as ([ok cfg3] & Ha & Ht).
  destruct ok; simpl in Ht; injection Ht as <-;
    [|by apply elem_of_nil in Hy].
  apply list_elem_of_singleton in Hy as ->.
  set (pcfg3a := if bool_decide (cap_val mdef = SrstKind.SrstOverEn)
                    && rd_ce_over_srst port
                 then rp_set_emu_srst_en_prio pcfg3 true else pcfg3) in *.
  set (pcfg3b := if bool_decide (cap_val mdef = SrstKind.EnOverSrst)
                    && negb (rd_ce_over_srst port)
                 then rp_set_emu_srst_en_prio pcfg3a true else pcfg3a) in *.
  assert (Hev : rd_port_evolves mem pidx pcfg3 pcfg3b).
  { apply rd_port_evolves_trans with pcfg3a.
    - unfold pcfg3a.
      destruct (bool_decide (cap_val mdef = SrstKind.SrstOverEn)
                && rd_ce_over_srst port);
        [by apply rd_port_evolves_emu_srst_en_prio
        |apply rd_port_evolves_refl].
    - unfold pcfg3b.
      destruct (bool_decide (cap_val mdef = SrstKind.EnOverSrst)
                && negb (rd_ce_over_srst port));
        [by apply rd_port_evolves_emu_srst_en_prio
        |apply rd_port_evolves_refl]. }
  assert (Hmode : srst_mode_ok port pcfg3b (cap_val mdef)).
  { unfold srst_mode_ok, pcfg3b, pcfg3a.
    destruct (cap_val mdef), (rd_ce_over_srst port); simpl; done. }
  pose proof (apply_rdport_opts_evolves _ _ _ _ _ Ha) as He.
  split.
  - eapply evolves_bound_trans; [|exact He].
    by apply evolves_bound_rd_port with pcfg3.
  - assert (Hl : cfg_rd_ports
                   (cfg_set_rd_ports cfg2
                      (<[pidx := pcfg3b]> (cfg_rd_ports cfg2))) !! pidx
                 = Some pcfg3b).
    { simpl. apply list_lookup_insert_eq. by eapply lookup_lt_Some. }
    destruct (evolves_bound_rd_lookup _ _ _ _ He Hl) as (rp' & Hrp' & Hre).
    apply apply_rdport_opts_applied in Ha as (rp2 & Hrp2 & Happ).
    assert (rp2 = rp') as -> by congruence.
    exists rp'. do 2 (split; [done|]).
    destruct Hre as (_ & _ & _ & _ & _ & _ & _ & _ & _ & _ & _ & _ & Hpr & _).
    unfold srst_mode_ok in *. destruct (cap_val mdef); [| |done]; by auto.
Qed.

Lemma rd_srst_cfg_step port pidx cfg ys y :
  srst_guard mem pidx →
  (rd_en port ≠ sig_of_state S1 → srst_prio_guard mem pidx) →
  rd_srst_cfg lib port pidx cfg = Ok ys → y ∈ ys →
  evolves_bound mem cfg y ∧ srst_done lib port pidx y.
Proof.
  unfold rd_srst_cfg, srst_done. intros Hg Hgp Ht Hy.
  apply bind_Ok in Ht as (pcfg & Hp%vec_at_Ok & Ht).
  apply bind_Ok in Ht as (rdef & Hrdef%vec_at_Ok & Ht).
  apply bind_Ok in Ht as (pdef & Hpdef%vec_at_Ok & Ht).
  eapply (rd_rst_cfg_step
            (fun c rp pdef rstdef =>
               rstval_covers ResetKind.Sync (rd_srst_value port) c rp rstdef
               ∧ (rd_en port = sig_of_state S1
                  ∨ ∃ mdef, mdef ∈ pg_rdsrstmode (cap_val pdef)
                      ∧ rd_caps_applied c rp mdef
                      ∧ srst_mode_ok port rp (cap_val mdef))));
    [exact Hp|exact Hrdef|exact Hpdef| | | |exact Ht|exact Hy].
  - intros cap zs f z Hb Hz. unfold rd_srst_cap in Hb.
    apply bind_Ok in Hb as ([kept free] & Hu & Hb).
    destruct kept as [cfg2|];
      [|injection Hb as <- <-; by apply elem_of_nil in Hz].
    destruct (use_rdrstval_step _ _ _ _ _ _ _ Hu) as (He & rp2 & Hrp2 & Hcov).
    destruct (decide (rd_en port = sig_of_state S1)) as [Hen|Hen].
    + injection Hb as <- <-. apply list_elem_of_singleton in Hz as ->.
      split; [done|]. exists rp2. split; [done|]. split; [done | by left].
    + apply bind_Ok in Hb as (new_cfgs & Hmodes & [= <- <-]).
      destruct (for_each_Ok _ _ _ Hmodes z Hz) as (mdef & ws & Hm & Hs & Hw).
      destruct (rd_srst_mode_step _ _ _ _ _ _ (Hgp Hen) Hs Hw)
        as (He2 & rp3 & Hrp3 & Happ & Hmode).
      split; [by eapply evolves_bound_trans|].
      exists rp3. split; [done|]. split.
      * destruct (evolves_bound_rd_lookup _ _ _ _ He2 Hrp2)
          as (rp3' & Hrp3' & Hre).
        assert (rp3' = rp3) as -> by congruence.
        eapply rstval_covers_evolves; [apply He2|done..].
      * right. by exists mdef.
  - by apply rd_port_evolves_emu_srst.
  - done.
Qed.

Lemma handle_rd_srst_step cfgs out :
  handle_rd_srst mem lib cfgs = Ok out →
  descend (evolves_bound mem) cfgs out
  ∧ ∀ y j port, y ∈ out →
      mem_rd_ports mem !! j = Some port →
      rd_clk_enable port = true →
      rd_srst port ≠ sig_of_state S0 →
      is_fully_undef (rd_srst_value port) = false →
      srst_done lib port j y.
Proof.
  intros Hrun. unfold handle_rd_srst in Hrun.
  eapply (rd_phase_step
    (fun j c => ∀ port, mem_rd_ports mem !! j = Some port →
       rd_clk_enable port = true →
       rd_srst port ≠ sig_of_state S0 →
       is_fully_undef (rd_srst_value port) = false →
       srst_done lib port j c))
    in Hrun as [Hd Hall].
  - split; [done|]. intros y j port Hy Hport.
    apply Hall; [done | by eapply lookup_lt_Some | done].
  - intros j c c' He HQ port Hport Hclk Hrst Hval.
    eapply srst_done_evolves; [done | by apply HQ].
  - intros j port c c' Hport Hstep.
    destruct (rd_clk_enable port) eqn:Hclk; simpl in Hstep.
    2:{ injection Hstep as <-.
        split; [apply descend_refl, evolves_bound_refl|].
        intros y _ port' ? ?. congruence. }
    destruct (decide (rd_srst port = sig_of_state S0)) as [Hrst|Hrst].
    { injection Hstep as <-.
      split; [apply descend_refl, evolves_bound_refl|].
      intros y _ port' ? _ ?. congruence. }
    destruct (is_fully_undef (rd_srst_value port)) eqn:Hval.
    { injection Hstep as <-.
      split; [apply descend_refl, evolves_bound_refl|].
      intros y _ port' ? _ _ ?. congruence. }
    assert (Hg : srst_guard mem j) by by exists port.
    assert (Hgp : rd_en port ≠ sig_of_state S1 → srst_prio_guard mem j)
      by (intros ?; by exists port).
    split.
    + revert Hstep. apply for_each_descend. intros cfg ys y _ Hc Hy.
      by eapply rd_srst_cfg_step.
    + intros y Hy port' Hport' _ _ _.
      assert (port' = port) as -> by congruence.
      destruct (for_each_Ok _ _ _ Hstep y Hy) as (cfg & ys & _ & Hc & Hys).
      by eapply rd_srst_cfg_step.
Qed.

(** *** The phases after the binding, together *)

Lemma emulation_phases_step cfgs out :
  emulation_phases mem lib cfgs = Ok out →
  descend (evolves_bound mem) cfgs out
  ∧ ∀ y, y ∈ out →
      (∀ j w t, same_domain mem j w t → trans_done lib j w t y)
      ∧ (∀ j port, mem_rd_ports mem !! j = Some port →
           rd_clk_enable port = true →
           is_fully_undef (rd_init_value port) = false →
           rst_done lib ResetKind.Init (rd_init_value port) rp_emu_init j y)
      ∧ (∀ j port, mem_rd_ports mem !! j = Some port →
           rd_clk_enable port = true →
           rd_arst port ≠ sig_of_state S0 →
           is_fully_undef (rd_arst_value port) = false →
           rst_done lib ResetKind.Async (rd_arst_value port) rp_emu_arst j y)
      ∧ (∀ j port, mem_rd_ports mem !! j = Some port →
           rd_clk_enable port = true →
           rd_srst port ≠ sig_of_state S0 →
           is_fully_undef (rd_srst_value port) = false →
           srst_done lib port j y).
Proof.
  unfold emulation_phases, handle_dims. intros Hrun.
  apply bind_Ok in Hrun as (c1 & [Hd1 Ht]%handle_trans_step & Hrun).
  apply bind_Ok in Hrun as (c2 & Hd2%handle_priority_evolves & Hrun).
  apply bind_Ok in Hrun as (c3 & [Hd3 Hi]%handle_rd_init_step & Hrun).
  apply bind_Ok in Hrun as (c4 & [Hd4 Ha]%handle_rd_arst_step & Hrun).
  apply bind_Ok in Hrun as (c5 & [Hd5 Hs]%handle_rd_srst_step & [= <-]).
  pose proof (descend_trans _ _ _ _ (evolves_bound_trans) Hd3
                (descend_trans _ _ _ _ (evolves_bound_trans) Hd4 Hd5))
    as Hd35.
  pose proof (descend_trans _ _ _ _ (evolves_bound_trans) Hd2 Hd35) as Hd25.
  split; [by eapply descend_trans; [apply evolves_bound_trans|..]|].
  intros y Hy. split; [|split; [|split]].
  - intros j w t Hdom. destruct (Hd25 y Hy) as (y1 & Hy1 & He).
    eapply trans_done_evolves; [done|]. by apply Ht.
  - intros j port Hport Hclk Hval.
    destruct (descend_trans _ _ _ _ (evolves_bound_trans) Hd4 Hd5 y Hy)
      as (y3 & Hy3 & He).
    eapply rst_done_evolves; [|done|by eapply Hi].
    intros p p' Hp. apply Hp.
  - intros j port Hport Hclk Hrst Hval.
    destruct (Hd5 y Hy) as (y4 & Hy4 & He).
    eapply rst_done_evolves; [|done|by eapply Ha].
    intros p p' Hp. apply Hp.
  - intros j port Hport Hclk Hrst Hval. by eapply Hs.
Qed.

End EvolveProperties.

(** * What the binding of the ports records *)

Section BoundProperties.
Context `{Kernel}.
Variable mem : Mem.
Variable lib : Library.
Variable addr_compatible : nat → nat → bool.
Variable get_wr_implies_rd : nat → nat → bool.
Variable get_wr_excludes_rd : nat → nat → bool.

Local Abbreviation rd_ok :=
  (rd_port_ok mem lib addr_compatible get_wr_implies_rd get_wr_excludes_rd).
Local Abbreviation all_ok :=
  (ports_ok mem lib addr_compatible get_wr_implies_rd get_wr_excludes_rd).

Lemma wr_port_ok_evolves c c' w port p p' :
  evolves mem c c' → wr_port_evolves mem w p p' →
  wr_port_ok lib c port p → wr_port_ok lib c' port p'.
Proof.
  intros (Hram & Ho & Hclk & _) (Hpd & _ & Hpo & _)
         (Hen & rdef & def & cdef & Hrdef & Hdef & Hk1 & Hk2 & Hopts & Hin
          & Happ & Hrec).
  split; [done|]. exists rdef, def, cdef.
  split; [by rewrite Hram|]. split; [by rewrite Hpd|].
  do 2 (split; [done|]). split; [by eapply opts_applied_mono|].
  split; [done|]. split; [by eapply is_applied_evolves|].
  by eapply clock_recorded_kept.
Qed.

Lemma wr_share_ok_evolves c c' w p p' :
  evolves mem c c' → wp_rd_port p' = wp_rd_port p →
  wr_share_ok c w p → wr_share_ok c' w p'.
Proof.
  intros (_ & _ & _ & _ & Hrd) Heq [Hno|(j & rp & Hj & Hrp & Hw)].
  - left. congruence.
  - right. destruct (Hrd _ _ Hrp) as (rp' & Hrp' & Hev).
    exists j, rp'. split; [congruence|]. split; [done|].
    destruct Hev as (-> & _). done.
Qed.

Lemma rden_ok_evolves j port p p' v :
  rd_port_evolves mem j p p' →
  rden_ok get_wr_implies_rd get_wr_excludes_rd j port p v →
  rden_ok get_wr_implies_rd get_wr_excludes_rd j port p' v.
Proof.
  intros (Hw & _ & _ & He & _). unfold rden_ok. rewrite Hw, He. done.
Qed.

Lemma rd_port_ok_evolves c c' j port p p' :
  evolves mem c c' → rd_port_evolves mem j p p' →
  rd_ok c j port p → rd_ok c' j port p'.
Proof.
  intros Hev Hp (rdef & def & Hrdef & Hdef & Hk & Hopts & Hasync & Hsync
                 & Hen & Hshare).
  pose proof Hev as (Hram & Ho & Hclk & Hwr & _).
  pose proof Hp as (Hw & Hpd & Hs & He & _).
  exists rdef, def.
  split; [by rewrite Hram|]. split; [by rewrite Hpd|]. split; [done|].
  split; [by eapply opts_applied_mono|]. split; [done|].
  split; [congruence|]. split.
  - destruct (bool_decide _); [congruence|].
    destruct Hen as (endef & Hin & Happ & Hok). exists endef.
    split; [done|]. split; [by eapply rd_caps_applied_evolves|].
    by eapply rden_ok_evolves.
  - rewrite Hw. destruct (decide (rp_wr_port p = (-1)%Z)).
    + intros Hkind. destruct (Hshare Hkind) as (cdef & Hin & Happ & Hrec).
      exists cdef. split; [done|].
      split; [by eapply rd_caps_applied_evolves|].
      by eapply clock_recorded_kept.
    + destruct Hshare as (w & wport & wp & Hwp & Hwport & Hl & Hrd & Hg
                          & Haddr & Hsame).
      destruct (Hwr _ _ Hl) as (wp' & Hl' & Hpd' & Hrd' & _).
      exists w, wport, wp'. split; [done|]. split; [done|]. split; [done|].
      split; [rewrite Hrd'; [done|]; rewrite Hrd; lia|].
      split; [congruence|]. done.
Qed.

Lemma wr_emu_sound_evolves w p p' :
  wr_port_evolves mem w p p' → wr_emu_sound mem w p → wr_emu_sound mem w p'.
Proof.
  intros (_ & _ & _ & _ & Hg) Hs p1 Hin.
  destruct (Hg _ Hin) as [?|?]; [by apply Hs | done].
Qed.

Lemma rd_emu_sound_evolves j p p' :
  rd_port_evolves mem j p p' → rd_emu_sound mem j p → rd_emu_sound mem j p'.
Proof.
  intros (_ & _ & _ & _ & _ & _ & _ & Hi & _ & Ha & _ & Hr & _ & Hp & _ & Ht)
         (Si & Sa & Sr & Sp & St).
  split; [intros Hf; destruct (Hi Hf); by auto|].
  split; [intros Hf; destruct (Ha Hf); by auto|].
  split; [intros Hf; destruct (Hr Hf); by auto|].
  split; [intros Hf; destruct (Hp Hf); by auto|].
  intros w Hin. destruct (Ht _ Hin); by auto.
Qed.

Lemma ports_ok_evolves nw nr c c' :
  evolves_bound mem c c' → all_ok nw nr c → all_ok nw nr c'.
Proof.
  intros He (Hv & Hnw & Hnr & Hwr & Hrd).
  pose proof He as (Hev & Hlw & Hlr & Hs).
  pose proof Hev as (Hram & _).
  split; [by rewrite Hram|]. split; [congruence|]. split; [congruence|].
  split.
  - intros w wport wp' Hwport Hl'.
    assert (is_Some (cfg_wr_ports c !! w)) as [wp Hl].
    { apply lookup_lt_is_Some. rewrite <- Hlw. by eapply lookup_lt_Some. }
    destruct (evolves_bound_wr_lookup _ _ _ _ _ He Hl)
      as (wp2 & Hl2 & Hwe & Hrp).
    assert (wp2 = wp') as -> by congruence.
    destruct (Hwr _ _ _ Hwport Hl) as (Hok & Hshare & Hsound).
    split; [by eapply wr_port_ok_evolves|].
    split; [by eapply wr_share_ok_evolves | by eapply wr_emu_sound_evolves].
  - intros j port p' Hport Hl'.
    assert (is_Some (cfg_rd_ports c !! j)) as [p Hl].
    { apply lookup_lt_is_Some. rewrite <- Hlr. by eapply lookup_lt_Some. }
    destruct (evolves_bound_rd_lookup _ _ _ _ _ He Hl) as (p2 & Hl2 & Hre).
    assert (p2 = p') as -> by congruence.
    destruct (Hrd _ _ _ Hport Hl) as [Hok Hsound].
    split; [by eapply rd_port_ok_evolves | by eapply rd_emu_sound_evolves].
Qed.

(** *** The binding of the write ports *)

Lemma apply_clock_ok cfg def clk pol cfg' :
  apply_clock cfg def clk pol = (true, cfg') →
  clocks_kept cfg cfg' ∧ clock_recorded cfg' def clk pol.
Proof.
  intros Ha. pose proof (apply_clock_kept cfg def clk pol) as Hk.
  pose proof (apply_clock_recorded cfg def clk pol) as Hr.
  rewrite Ha in Hk, Hr. split; [done | by apply Hr].
Qed.

(** Every candidate that [wr_port_group] gives descends from [cfg] and
    has one more write port config, bound to the group [i]. *)
Lemma wr_port_group_ok port cfg rdef i def c' :
  ram_defs lib !! cfg_ram_def cfg = Some rdef →
  ram_ports rdef !! i = Some def →
  wr_clk_enable port = true →
  c' ∈ wr_port_group port cfg i def →
  evolves mem cfg c'
  ∧ cfg_rd_ports c' = cfg_rd_ports cfg
  ∧ ∃ p, cfg_wr_ports c' = cfg_wr_ports cfg ++ [p]
      ∧ wp_rd_port p = (-1)%Z
      ∧ wp_emu_prio p = []
      ∧ wr_port_ok lib c' port p.
Proof.
  unfold wr_port_group. intros Hrdef Hdef Hen Hc'.
  case_decide as Hkind; [by apply elem_of_nil in Hc'|].
  case_decide as Hused; [by apply elem_of_nil in Hc'|].
  destruct (apply_opts (cfg_opts cfg) (cap_opts def)) as [[] o] eqn:H1;
    simpl in Hc'; [|by apply elem_of_nil in Hc'].
  apply elem_of_flat_map in Hc' as (cdef & Hcdef & Hc').
  destruct (apply_opts _ (cap_opts cdef)) as [[] o3] eqn:H2; simpl in Hc';
    [|by apply elem_of_nil in Hc'].
  destruct (apply_opts _ (cap_portopts cdef)) as [[] po3] eqn:H3;
    simpl in Hc'; [|by apply elem_of_nil in Hc'].
  destruct (apply_clock _ _ _ _) as [[] cfg3] eqn:Hclk; simpl in Hc';
    [|by apply elem_of_nil in Hc'].
  apply list_elem_of_singleton in Hc' as ->.
  pose proof (apply_clock_fields _ _ _ _ _ _ Hclk) as (Hr & Hopts & Hw & Hrd).
  apply apply_clock_ok in Hclk as [Hkept Hrec]. simpl in *.
  pose proof (apply_opts_sub _ _ _ _ H1) as Hs1.
  pose proof (apply_opts_sub _ _ _ _ H2) as Hs2.
  split; [|split; [done|]].
  - split; [done|]. split; [simpl; rewrite Hopts; by etrans|].
    split; [done|]. split.
    + intros j p Hl. exists p. split; [|apply wr_port_evolves_refl].
      simpl. rewrite Hw. by apply lookup_app_l_Some.
    + intros j p Hl. exists p. split; [|apply rd_port_evolves_refl].
      simpl. by rewrite Hrd.
  - eexists. split; [by rewrite Hw|]. split; [done|]. split; [done|].
    split; [done|]. exists rdef, def, cdef. simpl.
    split; [by rewrite Hr|]. split; [done|].
    split; [by intros ?; apply Hkind; left|].
    split; [by intros ?; apply Hkind; right|].
    rewrite Hopts.
    split; [eapply opts_applied_mono; [done|];
            by eapply apply_opts_ok_applied|].
    split; [done|]. split; [|done].
    unfold is_applied. simpl. rewrite Hopts.
    by rewrite (apply_opts_ok_applied _ _ _ H2),
               (apply_opts_ok_applied _ _ _ H3).
Qed.

Lemma wr_port_cfg_ok port cfg nw ys c' :
  mem_wr_ports mem !! nw = Some port →
  wr_clk_enable port = true →
  wr_port_cfg lib port cfg = Ok ys → c' ∈ ys →
  all_ok nw 0 cfg → evolves mem cfg c' ∧ all_ok (S nw) 0 c'.
Proof.
  unfold wr_port_cfg. intros Hport Hen Hrun Hc' (Hv & Hnw & Hnr & Hwr & Hrd).
  apply bind_Ok in Hrun as (rdef & Hrdef%vec_at_Ok & [= <-]).
  apply elem_of_flat_map in Hc' as ([i def] & Hin%elem_of_enumerate & Hc').
  destruct (wr_port_group_ok _ _ _ _ _ _ Hrdef Hin Hen Hc')
    as (Hev & Hrd' & p & Hw' & Hshare & Hprio & Hok).
  pose proof Hev as (Hram & _). split; [done|].
  split; [by rewrite Hram|].
  split; [rewrite Hw', length_app; simpl; lia|].
  split; [by rewrite Hrd'|]. split.
  - intros w wport wp Hwport Hl. rewrite Hw' in Hl.
    apply lookup_app_Some in Hl as [Hl|[Hge Hl]].
    + destruct (Hwr _ _ _ Hwport Hl) as (Hok' & Hsh' & Hso').
      split; [eapply (wr_port_ok_evolves _ _ w);
                [done|apply wr_port_evolves_refl|done]|].
      split; [by eapply wr_share_ok_evolves | done].
    + rewrite Hnw in Hge, Hl.
      destruct (w - nw) as [|n] eqn:Hd; [|by destruct n].
      injection Hl as <-. assert (w = nw) as -> by lia.
      assert (wport = port) as -> by congruence.
      split; [done|]. split; [by left|].
      intros p1 Hp1. rewrite Hprio in Hp1. by apply elem_of_nil in Hp1.
  - intros j rport rp _ Hl. rewrite Hrd' in Hl.
    apply lookup_lt_Some in Hl. lia.
Qed.

Lemma handle_wr_ports_loop_ok ports before cfgs out :
  mem_wr_ports mem = before ++ ports →
  handle_wr_ports_loop lib ports cfgs = Ok out →
  Forall (all_ok (length before) 0) cfgs →
  descend (evolves mem) cfgs out
  ∧ Forall (all_ok (length (mem_wr_ports mem)) 0) out.
Proof.
  revert before cfgs.
  induction ports as [|port rest IH]; intros before cfgs Hmem Hrun Hall.
  - injection Hrun as <-. split; [apply descend_refl, evolves_refl|].
    by rewrite Hmem, length_app, Nat.add_0_r.
  - simpl in Hrun. destruct (wr_clk_enable port) eqn:Hen; simpl in Hrun.
    2:{ injection Hrun as <-. split; [|by apply Forall_nil].
        intros c' Hc'. by apply elem_of_nil in Hc'. }
    apply bind_Ok in Hrun as (new_cfgs & Hnew & Hrun).
    assert (Hport : mem_wr_ports mem !! length before = Some port)
      by (rewrite Hmem; by apply list_lookup_middle).
    destruct (IH (before ++ [port]) new_cfgs) as [Hd Hout];
      [by rewrite <- app_assoc|done| |].
    + rewrite length_app. simpl. rewrite Nat.add_1_r.
      apply Forall_forall. intros c' Hc'.
      destruct (for_each_Ok _ _ _ Hnew c' Hc') as (c & ys & Hc & Hys & Hy).
      eapply wr_port_cfg_ok; [done..|by eapply Forall_forall in Hall].
    + split; [|done].
      eapply descend_trans; [apply evolves_trans| |done].
      revert Hnew. apply for_each_descend. intros c ys y Hc Hys Hy.
      eapply wr_port_cfg_ok; [done..|by eapply Forall_forall in Hall].
Qed.

(** *** The binding of the read ports *)

Lemma evolves_push_rd_port c c' pcfg :
  evolves mem c c' → evolves mem c (push_rd_port c' pcfg).
Proof.
  intros (Hram & Ho & Hclk & Hwr & Hrd). do 4 (split; [done|]).
  intros j p Hl. destruct (Hrd _ _ Hl) as (p' & Hl' & He).
  exists p'. split; [|done]. simpl. by apply lookup_app_l_Some.
Qed.

Lemma evolves_set_opts c o : cfg_opts c ⊆ o → evolves mem c (cfg_set_opts c o).
Proof. intros Hs. by apply evolves_bound_set_opts. Qed.

Lemma rd_port_unshared_ok port j cfg rdef i def c' :
  ram_defs lib !! cfg_ram_def cfg = Some rdef →
  ram_ports rdef !! i = Some def →
  c' ∈ rd_port_unshared port cfg i def →
  evolves mem cfg c'
  ∧ cfg_wr_ports c' = cfg_wr_ports cfg
  ∧ ∃ p, cfg_rd_ports c' = cfg_rd_ports cfg ++ [p]
      ∧ rp_wr_port p = (-1)%Z
      ∧ rd_emu_sound mem j p
      ∧ rd_ok c' j port p.
Proof.
  unfold rd_port_unshared. intros Hrdef Hdef Hc'.
  case_decide as Hsw; [by apply elem_of_nil in Hc'|].
  destruct (negb (rd_clk_enable port) && _) eqn:Hasync;
    [by apply elem_of_nil in Hc'|].
  case_decide as Hused; [by apply elem_of_nil in Hc'|].
  destruct (apply_opts (cfg_opts cfg) (cap_opts def)) as [[] o] eqn:H1;
    simpl in Hc'; [|by apply elem_of_nil in Hc'].
  pose proof (apply_opts_sub _ _ _ _ H1) as Hs1.
  pose proof (apply_opts_ok_applied _ _ _ H1) as Ha1.
  assert (Hnoclk : rd_clk_enable port = false →
            pg_kind (cap_val def) = PortKind.Ar
            ∨ pg_kind (cap_val def) = PortKind.Arsw).
  { intros Hen. rewrite Hen in Hasync. simpl in Hasync.
    apply bool_decide_eq_false in Hasync.
    destruct (pg_kind (cap_val def)) eqn:Hk;
      [exfalso; apply Hasync; by left | by left | done
      |exfalso; apply Hasync; by right | by right]. }
  clear Hasync. case_decide as Hkind.
  - assert (Hnot : bool_decide (pg_kind (cap_val def) = PortKind.Ar
                                ∨ pg_kind (cap_val def) = PortKind.Arsw)
                   = false).
    { apply bool_decide_eq_false. intros [Hk|Hk]; rewrite Hk in Hkind;
        by destruct Hkind. }
    apply elem_of_flat_map in Hc' as (cdef & Hcdef & Hc').
    destruct (apply_opts _ (cap_opts cdef)) as [[] o3] eqn:H2; simpl in Hc';
      [|by apply elem_of_nil in Hc'].
    destruct (apply_opts _ (cap_portopts cdef)) as [[] po3] eqn:H3;
      simpl in Hc'; [|by apply elem_of_nil in Hc'].
    destruct (apply_clock _ _ _ _) as [[] cfg3] eqn:Hclk; simpl in Hc';
      [|by apply elem_of_nil in Hc'].
    pose proof (apply_clock_fields _ _ _ _ _ _ Hclk)
      as (Hr & Hopts & Hw & Hrd).
    apply apply_clock_ok in Hclk as [Hkept Hrec]. simpl in *.
    apply elem_of_flat_map in Hc' as (endef & Hendef & Hc').
    destruct (apply_opts _ (cap_opts endef)) as [[] o4] eqn:H4; simpl in Hc';
      [|by apply elem_of_nil in Hc'].
    destruct (apply_opts _ (cap_portopts endef)) as [[] po4] eqn:H5;
      simpl in Hc'; [|by apply elem_of_nil in Hc'].
    apply list_elem_of_singleton in Hc' as ->. simpl.
    rewrite Hopts in H4.
    pose proof (apply_opts_sub _ _ _ _ H2) as Hs2.
    pose proof (apply_opts_sub _ _ _ _ H4) as Hs4.
    pose proof (apply_opts_sub _ _ _ _ H5) as Hs5.
    match goal with |- context [push_rd_port _ ?q] => set (pnew := q) end.
    assert (Hpnew : rp_wr_port pnew = (-1)%Z ∧ rp_port_def pnew = i
                    ∧ rp_emu_sync pnew = false ∧ rp_portopts pnew = po4
                    ∧ rp_emu_en pnew
                      = bool_decide (cap_val endef = RdEnKind.None)
                        && bool_decide (rd_en port ≠ sig_of_state S1)
                    ∧ rd_emu_sound mem j pnew).
    { unfold pnew.
      destruct (bool_decide (cap_val endef = RdEnKind.None)
                && bool_decide (rd_en port ≠ sig_of_state S1));
        repeat split; simpl; try done;
        intros w0 Hw0; by apply elem_of_nil in Hw0. }
    clearbody pnew. destruct Hpnew as (Hp1 & Hp2 & Hp3 & Hp4 & Hp5 & Hp6).
    split; [|split; [done|]].
    { apply evolves_push_rd_port.
      split; [done|]. split; [simpl; by do 2 (etrans; [done|])|].
      split; [done|]. split.
      - intros k p Hl. exists p. split; [|apply wr_port_evolves_refl].
        simpl. by rewrite Hw.
      - intros k p Hl. exists p. split; [|apply rd_port_evolves_refl].
        simpl. by rewrite Hrd. }
    exists pnew. split; [by rewrite Hrd|]. split; [done|]. split; [done|].
    exists rdef, def. simpl. rewrite Hr, Hp2, Hp3, Hnot, Hp1.
    split; [done|]. split; [done|]. split; [done|].
    split; [do 2 (eapply opts_applied_mono; [done|]); done|].
    split; [done|]. split; [by rewrite andb_false_r|].
    assert (Hcaps : ∀ T (cap : Capability T) oa pa,
              opts_applied oa (cap_opts cap) = true → oa ⊆ o4 →
              opts_applied pa (cap_portopts cap) = true → pa ⊆ po4 →
              rd_caps_applied (push_rd_port (cfg_set_opts cfg3 o4) pnew)
                pnew cap).
    { intros T cap oa pa Ho Hso Hp Hsp. split; simpl.
      - by eapply opts_applied_mono.
      - rewrite Hp1, decide_True by done. rewrite Hp4.
        by eapply opts_applied_mono. }
    split.
    + exists endef. split; [done|]. split.
      * eapply Hcaps; [by eapply apply_opts_ok_applied|done
                      |by eapply apply_opts_ok_applied|done].
      * unfold rden_ok. rewrite Hp5, Hp1.
        destruct (cap_val endef); simpl; try done.
    + rewrite decide_True by done. intros _. exists cdef.
      split; [done|]. split.
      * eapply Hcaps; [by eapply apply_opts_ok_applied|done
                      |by eapply apply_opts_ok_applied|done].
      * done.
  - assert (Hyes : bool_decide (pg_kind (cap_val def) = PortKind.Ar
                                ∨ pg_kind (cap_val def) = PortKind.Arsw)
                   = true).
    { apply bool_decide_eq_true.
      destruct (pg_kind (cap_val def)) eqn:Hk;
        [exfalso; apply Hkind; by left | by left | done
        |exfalso; apply Hkind; by right | by right]. }
    apply list_elem_of_singleton in Hc' as ->.
    split; [by apply evolves_push_rd_port, evolves_set_opts|].
    split; [done|]. eexists. split; [done|]. split; [done|].
    split.
    { repeat split; simpl; try done. intros w0 Hw0. by apply elem_of_nil in Hw0. }
    exists rdef, def. simpl. rewrite Hyes.
    split; [done|]. split; [done|]. split; [done|]. split; [done|].
    split; [done|]. split; [by rewrite andb_true_r|]. split; [done|].
    intros Hk. by destruct Hkind.
Qed.

(** A candidate that descends from [cfg], with the same write ports and
    one more read port config. *)
Lemma ports_ok_push cfg c' j port p nw :
  mem_rd_ports mem !! j = Some port →
  all_ok nw j cfg → evolves mem cfg c' →
  length (cfg_wr_ports c') = length (cfg_wr_ports cfg) →
  cfg_rd_ports c' = cfg_rd_ports cfg ++ [p] →
  (∀ w wp wp', cfg_wr_ports cfg !! w = Some wp →
     cfg_wr_ports c' !! w = Some wp' →
     wp_rd_port wp' = wp_rd_port wp
     ∨ (wp_rd_port wp' = Z.of_nat j ∧ rp_wr_port p = Z.of_nat w)) →
  rd_ok c' j port p → rd_emu_sound mem j p →
  all_ok nw (S j) c'.
Proof.
  intros Hport (Hv & Hnw & Hnr & Hwr & Hrd) Hev Hlen Hrd' Hshare Hnew Hsnd.
  pose proof Hev as (Hram & _ & _ & Hwe & Hre).
  split; [by rewrite Hram|]. split; [congruence|].
  split; [rewrite Hrd', length_app; simpl; lia|]. split.
  - intros w wport wp' Hwport Hl'.
    assert (is_Some (cfg_wr_ports cfg !! w)) as [wp Hl].
    { apply lookup_lt_is_Some. rewrite <- Hlen. by eapply lookup_lt_Some. }
    destruct (Hwe _ _ Hl) as (wp2 & Hl2 & Hwev).
    assert (wp2 = wp') as -> by congruence.
    destruct (Hwr _ _ _ Hwport Hl) as (Hok & Hsh & Hso).
    split; [by eapply wr_port_ok_evolves|].
    split; [|by eapply wr_emu_sound_evolves].
    destruct (Hshare _ _ _ Hl Hl') as [Hsame|[Hj Hw]].
    + by eapply wr_share_ok_evolves.
    + right. exists j, p. split; [done|]. split; [|done].
      rewrite Hrd', <- Hnr. by apply list_lookup_middle.
  - intros j' port' p' Hport' Hl'. rewrite Hrd' in Hl'.
    apply lookup_app_Some in Hl' as [Hl|[Hge Hl]].
    + destruct (Hre _ _ Hl) as (p2 & Hl2 & Hpev).
      rewrite Hrd' in Hl2. rewrite (lookup_app_l_Some _ _ _ _ Hl) in Hl2.
      injection Hl2 as <-. destruct (Hrd _ _ _ Hport' Hl) as [Hok Hso].
      split; [by eapply rd_port_ok_evolves | by eapply rd_emu_sound_evolves].
    + rewrite Hnr in Hge, Hl.
      destruct (j' - j) as [|n] eqn:Hd; [|by destruct n].
      injection Hl as <-. assert (j' = j) as -> by lia.
      assert (port' = port) as -> by congruence. done.
Qed.

Lemma rd_port_shared_ok port j cfg rdef wpidx wport ys c' :
  ram_defs lib !! cfg_ram_def cfg = Some rdef →
  mem_rd_ports mem !! j = Some port →
  mem_wr_ports mem !! wpidx = Some wport →
  all_ok (length (mem_wr_ports mem)) j cfg →
  rd_port_shared addr_compatible get_wr_implies_rd get_wr_excludes_rd
    port j cfg rdef wpidx wport = Ok ys →
  c' ∈ ys →
  evolves mem cfg c' ∧ all_ok (length (mem_wr_ports mem)) (S j) c'.
Proof.
  unfold rd_port_shared.
  intros Hrdef Hport Hwport Hall Hs Hc'.
  pose proof Hall as (Hv & Hnw & Hnr & Hwr & Hrd).
  apply bind_Ok in Hs as (wpcfg & Hwp%vec_at_Ok & Hs).
  apply bind_Ok in Hs as (def & Hdef%vec_at_Ok & Hs).
  case_decide as Hfree; [injection Hs as <-; by apply elem_of_nil in Hc'|].
  case_decide as Hsw; [injection Hs as <-; by apply elem_of_nil in Hc'|].
  destruct (addr_compatible wpidx j) eqn:Haddr; simpl in Hs;
    [|injection Hs as <-; by apply elem_of_nil in Hc'].
  destruct (bool_decide (pg_kind (cap_val def) = PortKind.Srsw) && _)
    eqn:Hclk; [injection Hs as <-; by apply elem_of_nil in Hc'|].
  destruct (Hwr _ _ _ Hwport Hwp)
    as [(_ & rdef' & def' & cdef & Hrdef' & Hdef' & Hnar & Hnsr & Hopts & _)
        _].
  assert (rdef' = rdef) as -> by congruence.
  pose proof (eq_trans (eq_sym Hdef') Hdef) as [= ->].
  set (cfg2 := cfg_set_wr_ports cfg
                 (<[wpidx := wp_set_rd_port wpcfg (Z.of_nat j)]>
                    (cfg_wr_ports cfg))) in *.
  assert (Hev2 : evolves mem cfg cfg2).
  { split; [done|]. split; [done|]. split; [by split|]. split.
    - intros w p Hl. simpl. destruct (decide (w = wpidx)) as [->|Hne].
      + eexists. split;
          [apply list_lookup_insert_eq; by eapply lookup_lt_Some|].
        assert (p = wpcfg) as -> by congruence.
        split; [done|]. split; [by intros ?|]. split; [done|].
        split; [done|]. intros; by left.
      + exists p. split; [by rewrite list_lookup_insert_ne|].
        apply wr_port_evolves_refl.
    - intros k p Hl. exists p. split; [done|apply rd_port_evolves_refl]. }
  assert (Hl2 : cfg_wr_ports cfg2 !! wpidx
                = Some (wp_set_rd_port wpcfg (Z.of_nat j))).
  { simpl. apply list_lookup_insert_eq. by eapply lookup_lt_Some. }
  assert (Hshare2 : ∀ w wp wp', cfg_wr_ports cfg !! w = Some wp →
            cfg_wr_ports cfg2 !! w = Some wp' →
            wp_rd_port wp' = wp_rd_port wp
            ∨ (wp_rd_port wp' = Z.of_nat j ∧ w = wpidx)).
  { intros w wp wp' Hl Hl'.
    destruct (decide (w = wpidx)) as [->|Hne].
    - rewrite Hl2 in Hl'. injection Hl' as <-. by right.
    - simpl in Hl'. rewrite list_lookup_insert_ne in Hl' by done.
      left. congruence. }
  assert (Hkinds : pg_kind (cap_val def) = PortKind.Srsw
                   ∨ pg_kind (cap_val def) = PortKind.Arsw).
  { destruct (pg_kind (cap_val def)); try done; [by left | by right]. }
  assert (Hfinish : ∀ cfg3 pnew,
            evolves_bound mem cfg2 cfg3 →
            cfg_rd_ports cfg3 = cfg_rd_ports cfg →
            rp_wr_port pnew = Z.of_nat wpidx →
            rp_port_def pnew = wp_port_def wpcfg →
            rp_emu_sync pnew
            = rd_clk_enable port
              && bool_decide (pg_kind (cap_val def) = PortKind.Arsw) →
            rd_emu_sound mem j pnew →
            (if bool_decide (pg_kind (cap_val def) = PortKind.Arsw)
             then rp_emu_en pnew = false
             else ∃ endef wp3, endef ∈ pg_rden (cap_val def)
                    ∧ cfg_wr_ports cfg3 !! wpidx = Some wp3
                    ∧ is_applied cfg3 wp3 endef = true
                    ∧ rden_ok get_wr_implies_rd get_wr_excludes_rd j port
                        pnew (cap_val endef)) →
            evolves mem cfg (push_rd_port cfg3 pnew)
            ∧ all_ok (length (mem_wr_ports mem)) (S j)
                (push_rd_port cfg3 pnew)).
  { intros cfg3 pnew He3 Hrd3 Hp1 Hp2 Hp3 Hsnd Hen.
    pose proof He3 as (Hev3 & Hlw3 & Hlr3 & Hsh3).
    destruct (evolves_bound_wr_lookup _ _ _ _ _ He3 Hl2)
      as (wp3 & Hl3 & Hwe3 & Hrp3).
    pose proof Hwe3 as (Hpd3 & _). simpl in Hrp3, Hpd3.
    assert (Hev : evolves mem cfg (push_rd_port cfg3 pnew))
      by (apply evolves_push_rd_port; by eapply evolves_trans).
    split; [done|].
    eapply (ports_ok_push cfg _ j port pnew); [done|done|done| | | | |done].
    - simpl. rewrite Hlw3. unfold cfg2. simpl. by rewrite length_insert.
    - simpl. by rewrite Hrd3.
    - intros w wp wp' Hl Hl'. simpl in Hl'.
      assert (is_Some (cfg_wr_ports cfg2 !! w)) as [wp2 Hw2].
      { apply lookup_lt_is_Some. rewrite <- Hlw3. by eapply lookup_lt_Some. }
      destruct (evolves_bound_wr_lookup _ _ _ _ _ He3 Hw2)
        as (wp3' & Hl3' & _ & Hrp3').
      assert (wp3' = wp') as -> by congruence.
      destruct (Hshare2 _ _ _ Hl Hw2) as [Hsame|[Hj ->]].
      + left. congruence.
      + right. split; [congruence | done].
    - exists rdef, def. simpl.
      pose proof Hev as (Hram & Ho & _). simpl in Hram, Ho.
      rewrite Hram, Hp2, Hp3, Hp1.
      split; [done|]. split; [done|]. split; [done|].
      split; [by eapply opts_applied_mono|].
      assert (Hsame : bool_decide (pg_kind (cap_val def) = PortKind.Ar
                                   ∨ pg_kind (cap_val def) = PortKind.Arsw)
                      = bool_decide (pg_kind (cap_val def) = PortKind.Arsw)).
      { apply bool_decide_ext. split; [by intros [?|?] | by right]. }
      rewrite Hsame.
      assert (Hsync : pg_kind (cap_val def) = PortKind.Srsw →
                rd_clk_enable port = true
                ∧ rd_clk port = wr_clk wport
                ∧ rd_clk_polarity port = wr_clk_polarity wport).
      { intros Hk. rewrite bool_decide_eq_true_2 in Hclk by done.
        simpl in Hclk.
        apply orb_false_iff in Hclk as [Hclk Hpol].
        apply orb_false_iff in Hclk as [Hen' Hclk].
        apply negb_false_iff in Hen'.
        apply bool_decide_eq_false in Hclk, Hpol.
        split; [done|]. split; by apply dec_stable. }
      split.
      { intros Hnoclk. right. destruct Hkinds as [Hk|Hk]; [|done].
        destruct (Hsync Hk) as [? _]. congruence. }
      split; [done|]. split.
      { destruct (bool_decide (pg_kind (cap_val def) = PortKind.Arsw));
          [done|].
        destruct Hen as (endef & wp3' & Hin & Hl3' & Happ & Hok).
        exists endef. split; [done|]. split; [|done].
        unfold is_applied in Happ. apply andb_true_iff in Happ as [Ha1 Ha2].
        split; [done|]. simpl. rewrite Hp1.
        rewrite decide_False by lia. rewrite Nat2Z.id. by exists wp3'. }
      rewrite decide_False by lia.
      exists wpidx, wport, wp3. simpl.
      split; [done|]. split; [done|]. split; [done|]. split; [done|].
      split; [done|]. split; [done|]. intros Hk. by apply Hsync. }
  case_decide as Hkind.
  - assert (Hnarsw : bool_decide (pg_kind (cap_val def) = PortKind.Arsw)
                     = false)
      by (apply bool_decide_eq_false; by rewrite Hkind).
    destruct (for_each_Ok _ _ _ Hs c' Hc') as (endef & zs & Hin & Hr & Hz).
    unfold rd_port_shared_rden in Hr.
    apply bind_Ok in Hr as ([ok cfg3] & Ha & Hr).
    destruct ok; simpl in Hr;
      [|injection Hr as <-; by apply elem_of_nil in Hz].
    pose proof (apply_wrport_opts_rd_ports _ _ _ _ _ Ha) as Hrd3.
    pose proof (apply_wrport_opts_evolves mem _ _ _ _ _ Ha) as He3.
    apply apply_wrport_opts_applied in Ha as (wp3 & Hl3 & Happ).
    rewrite Hnarsw in Hfinish.
    assert (Hpush : ∀ b,
              rden_ok get_wr_implies_rd get_wr_excludes_rd j port
                (rp_set_emu_en
                   (rp_set_emu_sync
                      (new_RdPortConfig (Z.of_nat wpidx) (wp_port_def wpcfg))
                      (rd_clk_enable port
                       && bool_decide
                            (pg_kind (cap_val def) = PortKind.Arsw))) b)
                (cap_val endef) →
              evolves mem cfg
                (push_rd_port cfg3
                   (rp_set_emu_en
                      (rp_set_emu_sync
                         (new_RdPortConfig (Z.of_nat wpidx)
                            (wp_port_def wpcfg))
                         (rd_clk_enable port
                          && bool_decide
                               (pg_kind (cap_val def) = PortKind.Arsw)))
                      b))
              ∧ all_ok (length (mem_wr_ports mem)) (S j)
                (push_rd_port cfg3
                   (rp_set_emu_en
                      (rp_set_emu_sync
                         (new_RdPortConfig (Z.of_nat wpidx)
                            (wp_port_def wpcfg))
                         (rd_clk_enable port
                          && bool_decide
                               (pg_kind (cap_val def) = PortKind.Arsw)))
                      b))).
    { intros b Hok.
      apply Hfinish;
        [done|exact Hrd3|done|done|simpl; by rewrite Hnarsw
        |repeat split; simpl; try done; intros w0 Hw0; by apply elem_of_nil in Hw0
        |by exists endef, wp3]. }
    destruct (cap_val endef) eqn:Hval.
    + injection Hr as <-. apply list_elem_of_singleton in Hz as ->.
      by apply Hpush.
    + injection Hr as <-. apply list_elem_of_singleton in Hz as ->.
      by apply (Hpush false).
    + injection Hr as <-. apply list_elem_of_singleton in Hz as ->.
      apply Hpush. simpl. rewrite decide_False by lia.
      by rewrite Nat2Z.id.
    + destruct (get_wr_excludes_rd wpidx j) eqn:Hex; simpl in Hr;
        injection Hr as <-; [|by apply elem_of_nil in Hz].
      apply list_elem_of_singleton in Hz as ->.
      apply (Hpush false). simpl. split; [done|]. intros _.
      by rewrite Nat2Z.id.
  - injection Hs as <-. apply list_elem_of_singleton in Hc' as ->.
    apply Hfinish; [apply evolves_bound_refl|done|done|done|done| |].
    { repeat split; simpl; try done. intros w0 Hw0. by apply elem_of_nil in Hw0. }
    destruct Hkinds as [?|Hk]; [done|].
    by rewrite bool_decide_eq_true_2.
Qed.

Lemma rd_port_cfg_ok j port cfg ys c' :
  mem_rd_ports mem !! j = Some port →
  all_ok (length (mem_wr_ports mem)) j cfg →
  rd_port_cfg mem lib addr_compatible get_wr_implies_rd get_wr_excludes_rd
    j port cfg = Ok ys →
  c' ∈ ys →
  evolves mem cfg c' ∧ all_ok (length (mem_wr_ports mem)) (S j) c'.
Proof.
  unfold rd_port_cfg. intros Hport Hall Hrun Hc'.
  apply bind_Ok in Hrun as (rdef & Hrdef%vec_at_Ok & Hrun).
  apply bind_Ok in Hrun as (shared & Hshared & [= <-]).
  apply elem_of_app in Hc' as [Hc'|Hc'].
  - apply elem_of_flat_map in Hc' as ([i def] & Hin%elem_of_enumerate & Hc').
    destruct (rd_port_unshared_ok port j _ _ _ _ _ Hrdef Hin Hc')
      as (Hev & Hwr' & p & Hrd' & Hp & Hsnd & Hok).
    split; [done|].
    eapply (ports_ok_push cfg c' j port p); try done.
    + by rewrite Hwr'.
    + intros w wp wp' Hl Hl'. left. rewrite Hwr' in Hl'. congruence.
  - destruct (for_each_Ok _ _ _ Hshared c' Hc')
      as ([wpidx wport] & zs & Hin%elem_of_enumerate & Hs & Hz).
    by eapply rd_port_shared_ok.
Qed.

Lemma handle_rd_ports_ok cfgs out :
  handle_rd_ports mem lib addr_compatible get_wr_implies_rd get_wr_excludes_rd
    cfgs = Ok out →
  Forall (all_ok (length (mem_wr_ports mem)) 0) cfgs →
  descend (evolves mem) cfgs out
  ∧ Forall (all_ok (length (mem_wr_ports mem)) (length (mem_rd_ports mem)))
      out.
Proof.
  unfold handle_rd_ports. intros Hrun Hall.
  apply (generations_enumerate_ind
    (fun k cs => descend (evolves mem) cfgs cs
                 ∧ Forall (all_ok (length (mem_wr_ports mem)) k) cs)
    (fun '(pidx, port) cfgs =>
       for_each (rd_port_cfg mem lib addr_compatible get_wr_implies_rd
                   get_wr_excludes_rd pidx port) cfgs)
    (mem_rd_ports mem) cfgs out);
    [|done|split; [apply descend_refl, evolves_refl|done]].
  intros j port c c' Hport Hstep [Hd Hc]. split.
  - eapply descend_trans; [apply evolves_trans|done|].
    revert Hstep. apply for_each_descend. intros cfg ys y Hcfg Hys Hy.
    eapply rd_port_cfg_ok; [done| |done..]. by eapply Forall_forall in Hc.
  - apply Forall_forall. intros y Hy.
    destruct (for_each_Ok _ _ _ Hstep y Hy) as (cfg & ys & Hcfg & Hys & Hin).
    eapply rd_port_cfg_ok; [done| |done..]. by eapply Forall_forall in Hc.
Qed.

Lemma pre_binding_ok kind style c1 c2 c3 :
  handle_ram_kind lib kind (initial_cfgs lib) = Ok c1 →
  handle_ram_style lib style c1 = Ok c2 →
  handle_init mem lib c2 = Ok c3 →
  Forall (all_ok 0 0) c3.
Proof.
  intros H1 H2 H3. apply Forall_forall. intros y3 Hy3.
  destruct (handle_init_kept _ _ _ _ _ H3 Hy3) as (y2 & Hy2 & Hk3).
  destruct (handle_ram_style_kept _ _ _ _ _ H2 Hy2) as (y1 & Hy1 & Hk2).
  destruct (handle_ram_kind_kept _ _ _ _ _ H1 Hy1) as (y0 & Hy0 & Hk1).
  apply initial_cfgs_spec in Hy0 as (Hv & Hw & Hr).
  destruct Hk1 as (Hd1 & Hw1 & Hr1), Hk2 as (Hd2 & Hw2 & Hr2),
           Hk3 as (Hd3 & Hw3 & Hr3).
  assert (Hw' : cfg_wr_ports y3 = []) by congruence.
  assert (Hr' : cfg_rd_ports y3 = []) by congruence.
  split; [unfold cfg_valid in Hv; congruence|].
  split; [by rewrite Hw'|]. split; [by rewrite Hr'|]. split.
  - intros w wport wp _ Hl. by rewrite Hw' in Hl.
  - intros j port p _ Hl. by rewrite Hr' in Hl.
Qed.

Lemma binding_phases_ok cfgs :
  binding_phases mem lib addr_compatible get_wr_implies_rd get_wr_excludes_rd
  = Ok cfgs →
  Forall (all_ok (length (mem_wr_ports mem)) (length (mem_rd_ports mem)))
    cfgs.
Proof.
  unfold binding_phases. intros Hrun.
  apply bind_Ok in Hrun as (c1 & H1 & Hrun).
  apply bind_Ok in Hrun as (c2 & H2 & Hrun).
  apply bind_Ok in Hrun as (c3 & H3 & Hrun).
  apply bind_Ok in Hrun as (c4 & H4 & Hrun).
  apply (handle_rd_ports_ok c4); [done|].
  apply (handle_wr_ports_loop_ok (mem_wr_ports mem) [] c3); [done|done|].
  by eapply pre_binding_ok.
Qed.

Lemma MemMapping_ports_ok st :
  MemMapping mem lib addr_compatible get_wr_implies_rd get_wr_excludes_rd
  = Ok st →
  Forall (all_ok (length (mem_wr_ports mem)) (length (mem_rd_ports mem)))
    (mm_cfgs st).
Proof.
  unfold MemMapping. destruct (determine_style mem) as [kind style].
  case_decide.
  - intros [= <-]. constructor.
  - intros Hrun. apply bind_Ok in Hrun as (c1 & H1 & Hrun).
    apply bind_Ok in Hrun as (c2 & H2 & [= <-]). simpl.
    apply binding_phases_ok in H1.
    apply (emulation_phases_step mem lib) in H2 as [Hd _].
    apply Forall_forall. intros y Hy. destruct (Hd y Hy) as (c & Hc & He).
    eapply ports_ok_evolves; [done|]. by eapply Forall_forall in H1.
Qed.

(** *** The candidates that the constructor leaves *)

Lemma MemMapping_final st c :
  MemMapping mem lib addr_compatible get_wr_implies_rd get_wr_excludes_rd
  = Ok st →
  c ∈ mm_cfgs st →
  all_ok (length (mem_wr_ports mem)) (length (mem_rd_ports mem)) c
  ∧ (∀ j w t, same_domain mem j w t → trans_done lib j w t c)
  ∧ (∀ j port, mem_rd_ports mem !! j = Some port →
       rd_clk_enable port = true →
       is_fully_undef (rd_init_value port) = false →
       rst_done lib ResetKind.Init (rd_init_value port) rp_emu_init j c)
  ∧ (∀ j port, mem_rd_ports mem !! j = Some port →
       rd_clk_enable port = true →
       rd_arst port ≠ sig_of_state S0 →
       is_fully_undef (rd_arst_value port) = false →
       rst_done lib ResetKind.Async (rd_arst_value port) rp_emu_arst j c)
  ∧ (∀ j port, mem_rd_ports mem !! j = Some port →
       rd_clk_enable port = true →
       rd_srst port ≠ sig_of_state S0 →
       is_fully_undef (rd_srst_value port) = false →
       srst_done lib port j c).
Proof.
  intros Hrun Hc. split.
  { pose proof (MemMapping_ports_ok st Hrun) as Hall.
    by eapply Forall_forall in Hall. }
  revert Hrun Hc. unfold MemMapping.
  destruct (determine_style mem) as [kind style]. case_decide.
  - intros [= <-] Hc. by apply elem_of_nil in Hc.
  - intros Hrun Hc. apply bind_Ok in Hrun as (c1 & H1 & Hrun).
    apply bind_Ok in Hrun as (c2 & H2 & [= <-]). simpl in Hc.
    apply (emulation_phases_step mem lib) in H2 as [_ Hdone].
    by apply Hdone.
Qed.

Lemma ports_ok_wr_lookup nw nr c w wport :
  all_ok nw nr c → nw = length (mem_wr_ports mem) →
  mem_wr_ports mem !! w = Some wport →
  ∃ wp, cfg_wr_ports c !! w = Some wp
        ∧ wr_port_ok lib c wport wp ∧ wr_share_ok c w wp
        ∧ wr_emu_sound mem w wp.
Proof.
  intros (_ & Hnw & _ & Hwr & _) -> Hwport.
  assert (is_Some (cfg_wr_ports c !! w)) as [wp Hl].
  { apply lookup_lt_is_Some. rewrite Hnw. by eapply lookup_lt_Some. }
  exists wp. split; [done|]. by eapply Hwr.
Qed.

Lemma ports_ok_rd_lookup nw nr c j port :
  all_ok nw nr c → nr = length (mem_rd_ports mem) →
  mem_rd_ports mem !! j = Some port →
  ∃ p, cfg_rd_ports c !! j = Some p ∧ rd_ok c j port p
       ∧ rd_emu_sound mem j p.
Proof.
  intros (_ & _ & Hnr & _ & Hrd) -> Hport.
  assert (is_Some (cfg_rd_ports c !! j)) as [p Hl].
  { apply lookup_lt_is_Some. rewrite Hnr. by eapply lookup_lt_Some. }
  exists p. split; [done|]. by eapply Hrd.
Qed.

(** X8.  Every candidate that the constructor leaves names a RAM
    definition of the library and has exactly one config for each write
    port and for each read port of the memory. *)
Theorem candidate_has_one_config_per_port st c :
  MemMapping mem lib addr_compatible get_wr_implies_rd get_wr_excludes_rd
  = Ok st →
  c ∈ mm_cfgs st →
  cfg_ram_def c < length (ram_defs lib)
  ∧ length (cfg_wr_ports c) = length (mem_wr_ports mem)
  ∧ length (cfg_rd_ports c) = length (mem_rd_ports mem).
Proof.
  intros Hrun Hc.
  destruct (MemMapping_final st c Hrun Hc) as ((Hv & Hw & Hr & _) & _).
  done.
Qed.

(** X9.  In every candidate that the constructor leaves, every write port
    of the memory has a clock and is bound to a port group of the chosen
    RAM definition that has a write side ([sw], [srsw] or [arsw]); the
    options of the group and of one of its [clock] capabilities are
    present in the candidate, and the name of that clock capability, if it
    has one, stands for the clock signal and the edge of the port. *)
Theorem write_port_binding_sound st c w wport :
  MemMapping mem lib addr_compatible get_wr_implies_rd get_wr_excludes_rd
  = Ok st →
  c ∈ mm_cfgs st →
  mem_wr_ports mem !! w = Some wport →
  wr_clk_enable wport = true
  ∧ ∃ wp rdef def cdef,
      cfg_wr_ports c !! w = Some wp
      ∧ ram_defs lib !! cfg_ram_def c = Some rdef
      ∧ ram_ports rdef !! wp_port_def wp = Some def
      ∧ pg_kind (cap_val def) ∈ [PortKind.Sw; PortKind.Srsw; PortKind.Arsw]
      ∧ opts_applied (cfg_opts c) (cap_opts def) = true
      ∧ cdef ∈ pg_clock (cap_val def)
      ∧ opts_applied (cfg_opts c) (cap_opts cdef) = true
      ∧ opts_applied (wp_portopts wp) (cap_portopts cdef) = true
      ∧ clock_recorded c (cap_val cdef) (sig_as_bit (wr_clk wport))
          (wr_clk_polarity wport).
Proof.
  intros Hrun Hc Hwport.
  destruct (MemMapping_final st c Hrun Hc) as (Hall & _).
  destruct (ports_ok_wr_lookup _ _ _ _ _ Hall eq_refl Hwport)
    as (wp & Hl & (Hen & rdef & def & cdef & Hrdef & Hdef & Hk1 & Hk2 & Hopts
                   & Hin & Happ & Hrec) & _).
  split; [done|]. exists wp, rdef, def, cdef.
  apply andb_true_iff in Happ as [Ha1 Ha2].
  do 3 (split; [done|]). split; [|done].
  destruct (pg_kind (cap_val def)); try done;
    repeat first [apply list_elem_of_here | apply list_elem_of_further].
Qed.

(** X10.  In every candidate that the constructor leaves, every read port
    of the memory is bound to a port group of the chosen RAM definition
    that has a read side, whose options are present in the candidate; a
    read port without clock is bound to an asynchronous group ([ar] or
    [arsw]); and [emu_sync] is set exactly for the clocked read ports that
    are bound to an asynchronous group. *)
Theorem read_port_binding_kind st c j port :
  MemMapping mem lib addr_compatible get_wr_implies_rd get_wr_excludes_rd
  = Ok st →
  c ∈ mm_cfgs st →
  mem_rd_ports mem !! j = Some port →
  ∃ p rdef def,
    cfg_rd_ports c !! j = Some p
    ∧ ram_defs lib !! cfg_ram_def c = Some rdef
    ∧ ram_ports rdef !! rp_port_def p = Some def
    ∧ pg_kind (cap_val def) ≠ PortKind.Sw
    ∧ opts_applied (cfg_opts c) (cap_opts def) = true
    ∧ (rd_clk_enable port = false →
       pg_kind (cap_val def) = PortKind.Ar
       ∨ pg_kind (cap_val def) = PortKind.Arsw)
    ∧ (rp_emu_sync p = true
       ↔ rd_clk_enable port = true
         ∧ (pg_kind (cap_val def) = PortKind.Ar
            ∨ pg_kind (cap_val def) = PortKind.Arsw)).
Proof.
  intros Hrun Hc Hport.
  destruct (MemMapping_final st c Hrun Hc) as (Hall & _).
  destruct (ports_ok_rd_lookup _ _ _ _ _ Hall eq_refl Hport)
    as (p & Hl & (rdef & def & Hrdef & Hdef & Hk & Hopts & Hasync & Hsync
                  & _) & _).
  exists p, rdef, def. do 6 (split; [done|]).
  by rewrite Hsync, andb_true_iff, bool_decide_eq_true.
Qed.

(** X11.  A read port that shares a write port, in a candidate that the
    constructor leaves: the write port is one of the memory and records
    the read port in turn; both are bound to one group, which is [srsw] or
    [arsw]; their addresses are compatible; on an [srsw] group the read
    port is clocked by the clock signal and the edge of the write port. *)
Theorem read_port_sharing_sound st c j port p :
  MemMapping mem lib addr_compatible get_wr_implies_rd get_wr_excludes_rd
  = Ok st →
  c ∈ mm_cfgs st →
  mem_rd_ports mem !! j = Some port →
  cfg_rd_ports c !! j = Some p →
  rp_wr_port p ≠ (-1)%Z →
  ∃ w wport wp rdef def,
    rp_wr_port p = Z.of_nat w
    ∧ mem_wr_ports mem !! w = Some wport
    ∧ cfg_wr_ports c !! w = Some wp
    ∧ wp_rd_port wp = Z.of_nat j
    ∧ wp_port_def wp = rp_port_def p
    ∧ addr_compatible w j = true
    ∧ ram_defs lib !! cfg_ram_def c = Some rdef
    ∧ ram_ports rdef !! rp_port_def p = Some def
    ∧ (pg_kind (cap_val def) = PortKind.Srsw
       ∨ pg_kind (cap_val def) = PortKind.Arsw)
    ∧ (pg_kind (cap_val def) = PortKind.Srsw →
       rd_clk_enable port = true
       ∧ rd_clk port = wr_clk wport
       ∧ rd_clk_polarity port = wr_clk_polarity wport).
Proof.
  intros Hrun Hc Hport Hl Hshared.
  destruct (MemMapping_final st c Hrun Hc) as (Hall & _).
  destruct (ports_ok_rd_lookup _ _ _ _ _ Hall eq_refl Hport)
    as (p' & Hl' & (rdef & def & Hrdef & Hdef & Hk & Hopts & Hasync & Hsync
                    & _ & Hshare) & _).
  assert (p' = p) as -> by congruence.
  rewrite decide_False in Hshare by done.
  destruct Hshare as (w & wport & wp & Hw & Hwport & Hwl & Hrd & Hg & Haddr
                      & Hsame).
  destruct (ports_ok_wr_lookup _ _ _ _ _ Hall eq_refl Hwport)
    as (wp' & Hwl' & (_ & rdef' & def' & _ & Hrdef' & Hdef' & Hk1 & Hk2 & _)
        & _).
  assert (wp' = wp) as -> by congruence.
  assert (rdef' = rdef) as -> by congruence.
  rewrite Hg in Hdef'. pose proof (eq_trans (eq_sym Hdef') Hdef) as [= ->].
  exists w, wport, wp, rdef, def. do 8 (split; [done|]).
  assert (Hkinds : pg_kind (cap_val def) = PortKind.Srsw
                   ∨ pg_kind (cap_val def) = PortKind.Arsw).
  { destruct (pg_kind (cap_val def)); try done; [by left | by right]. }
  split; [done|]. intros Hsrsw. split; [|by apply Hsame].
  destruct (rd_clk_enable port) eqn:Hen; [done|].
  destruct (Hasync eq_refl); congruence.
Qed.

(** X12.  A write port that records a read port, in a candidate that the
    constructor leaves: that read port has a config, which records the
    write port in turn. *)
Theorem write_port_sharing_sound st c w wp :
  MemMapping mem lib addr_compatible get_wr_implies_rd get_wr_excludes_rd
  = Ok st →
  c ∈ mm_cfgs st →
  cfg_wr_ports c !! w = Some wp →
  wp_rd_port wp ≠ (-1)%Z →
  ∃ j rp, wp_rd_port wp = Z.of_nat j
    ∧ cfg_rd_ports c !! j = Some rp
    ∧ rp_wr_port rp = Z.of_nat w.
Proof.
  intros Hrun Hc Hl Hshared.
  destruct (MemMapping_final st c Hrun Hc) as (Hall & _).
  pose proof Hall as (_ & Hnw & _).
  assert (is_Some (mem_wr_ports mem !! w)) as [wport Hwport].
  { apply lookup_lt_is_Some. rewrite <- Hnw. by eapply lookup_lt_Some. }
  destruct (ports_ok_wr_lookup _ _ _ _ _ Hall eq_refl Hwport)
    as (wp' & Hl' & _ & [Hno|Hshare] & _);
    assert (wp' = wp) as -> by congruence; done.
Qed.

(** X13.  The read enable, in a candidate that the constructor leaves: a
    read port on an asynchronous group has [emu_en] clear; for a read port
    on a synchronous group ([sr] or [srsw]) the candidate holds the
    options of one of the [rden] capabilities of the group, and [emu_en]
    is set exactly when that capability is [none] and the enable of the
    port is not the constant 1, or it is [write-implies], the port shares
    a write port and the query whether writing implies reading fails; with
    [write-excludes] and a shared write port the query whether writing
    excludes reading has succeeded. *)
Theorem read_port_enable_sound st c j port p rdef def :
  MemMapping mem lib addr_compatible get_wr_implies_rd get_wr_excludes_rd
  = Ok st →
  c ∈ mm_cfgs st →
  mem_rd_ports mem !! j = Some port →
  cfg_rd_ports c !! j = Some p →
  ram_defs lib !! cfg_ram_def c = Some rdef →
  ram_ports rdef !! rp_port_def p = Some def →
  (pg_kind (cap_val def) = PortKind.Ar
   ∨ pg_kind (cap_val def) = PortKind.Arsw → rp_emu_en p = false)
  ∧ (pg_kind (cap_val def) = PortKind.Sr
     ∨ pg_kind (cap_val def) = PortKind.Srsw →
     ∃ endef, endef ∈ pg_rden (cap_val def)
       ∧ rd_caps_applied c p endef
       ∧ rden_ok get_wr_implies_rd get_wr_excludes_rd j port p
           (cap_val endef)).
Proof.
  intros Hrun Hc Hport Hl Hrdef Hdef.
  destruct (MemMapping_final st c Hrun Hc) as (Hall & _).
  destruct (ports_ok_rd_lookup _ _ _ _ _ Hall eq_refl Hport)
    as (p' & Hl' & (rdef' & def' & Hrdef' & Hdef' & Hk & Hopts & Hasync
                    & Hsync & Hen & _) & _).
  assert (p' = p) as -> by congruence.
  assert (rdef' = rdef) as -> by congruence.
  pose proof (eq_trans (eq_sym Hdef') Hdef) as [= ->].
  split.
  - intros Hkind. by rewrite bool_decide_eq_true_2 in Hen.
  - intros Hkind. rewrite bool_decide_eq_false_2 in Hen; [done|].
    intros [Hk'|Hk']; rewrite Hk' in Hkind; by destruct Hkind.
Qed.

(** X14.  A read port that shares no write port and is bound to a
    synchronous group, in a candidate that the constructor leaves: the
    candidate holds the options of one of the [clock] capabilities of the
    group, and the name of that capability, if it has one, stands for the
    clock signal and the edge of the port. *)
Theorem read_port_clock_recorded st c j port p rdef def :
  MemMapping mem lib addr_compatible get_wr_implies_rd get_wr_excludes_rd
  = Ok st →
  c ∈ mm_cfgs st →
  mem_rd_ports mem !! j = Some port →
  cfg_rd_ports c !! j = Some p →
  ram_defs lib !! cfg_ram_def c = Some rdef →
  ram_ports rdef !! rp_port_def p = Some def →
  rp_wr_port p = (-1)%Z →
  pg_kind (cap_val def) = PortKind.Sr
  ∨ pg_kind (cap_val def) = PortKind.Srsw →
  rd_clk_enable port = true
  ∧ ∃ cdef, cdef ∈ pg_clock (cap_val def)
      ∧ opts_applied (cfg_opts c) (cap_opts cdef) = true
      ∧ opts_applied (rp_portopts p) (cap_portopts cdef) = true
      ∧ clock_recorded c (cap_val cdef) (sig_as_bit (rd_clk port))
          (rd_clk_polarity port).
Proof.
  intros Hrun Hc Hport Hl Hrdef Hdef Hunshared Hkind.
  destruct (MemMapping_final st c Hrun Hc) as (Hall & _).
  destruct (ports_ok_rd_lookup _ _ _ _ _ Hall eq_refl Hport)
    as (p' & Hl' & (rdef' & def' & Hrdef' & Hdef' & Hk & Hopts & Hasync
                    & Hsync & Hen & Hshare) & _).
  assert (p' = p) as -> by congruence.
  assert (rdef' = rdef) as -> by congruence.
  pose proof (eq_trans (eq_sym Hdef') Hdef) as [= ->].
  split.
  { destruct (rd_clk_enable port) eqn:Hclk; [done|].
    destruct (Hasync eq_refl) as [Hk'|Hk']; rewrite Hk' in Hkind;
      by destruct Hkind. }
  rewrite decide_True in Hshare by done.
  destruct (Hshare Hkind) as (cdef & Hin & [Ha1 Ha2] & Hrec).
  rewrite decide_True in Ha2 by done. by exists cdef.
Qed.

(** X15.  A candidate that the constructor leaves asks for emulation only
    where the memory gives a reason.  For a read port [j]: [emu_init] is
    set only if the port is clocked and has an initial value; [emu_arst]
    ([emu_srst]) only if it is clocked and has an asynchronous
    (synchronous) reset with a value; [emu_srst_en_prio] only if moreover
    its enable is not the constant 1; [emu_trans] holds a write port only
    if the two ports are in one clock domain, their collision is not
    don't-care and the read port is transparent to the write port.  For a
    write port [w]: [emu_prio] holds a write port only if the memory gives
    [w] priority over it. *)
Theorem emulation_only_where_asked st c :
  MemMapping mem lib addr_compatible get_wr_implies_rd get_wr_excludes_rd
  = Ok st →
  c ∈ mm_cfgs st →
  (∀ j p, cfg_rd_ports c !! j = Some p →
     (rp_emu_init p = true → init_guard mem j)
     ∧ (rp_emu_arst p = true → arst_guard mem j)
     ∧ (rp_emu_srst p = true → srst_guard mem j)
     ∧ (rp_emu_srst_en_prio p = true → srst_prio_guard mem j)
     ∧ (∀ w, w ∈ rp_emu_trans p → same_domain mem j w true))
  ∧ (∀ w wp p1, cfg_wr_ports c !! w = Some wp →
       p1 ∈ wp_emu_prio wp → prio_guard mem w p1).
Proof.
  intros Hrun Hc.
  destruct (MemMapping_final st c Hrun Hc) as (Hall & _).
  pose proof Hall as (_ & Hnw & Hnr & Hwr & Hrd). split.
  - intros j p Hl.
    assert (is_Some (mem_rd_ports mem !! j)) as [port Hport].
    { apply lookup_lt_is_Some. rewrite <- Hnr. by eapply lookup_lt_Some. }
    by destruct (Hrd _ _ _ Hport Hl) as [_ Hsound].
  - intros w wp p1 Hl Hin.
    assert (is_Some (mem_wr_ports mem !! w)) as [wport Hwport].
    { apply lookup_lt_is_Some. rewrite <- Hnw. by eapply lookup_lt_Some. }
    destruct (Hwr _ _ _ Hwport Hl) as (_ & _ & Hsound). by apply Hsound.
Qed.

(** X16.  Every pair of a read port [j] and a write port [w] in one clock
    domain whose collision is not don't-care is dealt with in every
    candidate that the constructor leaves: the read port is transparent
    to the write port and [w] is in its [emu_trans]; or it is not
    transparent and the read port is [emu_sync]; or the read port is not
    [emu_sync] and the group of the write port has a [wrtrans] capability
    that speaks of the read port (by [self], [other] or the first name of
    its group), gives the behaviour asked for ([new] if transparent, [old]
    if not), and whose options the candidate holds. *)
Theorem transparency_provided st c j w transparent :
  MemMapping mem lib addr_compatible get_wr_implies_rd get_wr_excludes_rd
  = Ok st →
  c ∈ mm_cfgs st →
  same_domain mem j w transparent →
  ∃ rp wp rdef wpdef rpdef,
    cfg_rd_ports c !! j = Some rp
    ∧ cfg_wr_ports c !! w = Some wp
    ∧ ram_defs lib !! cfg_ram_def c = Some rdef
    ∧ ram_ports rdef !! wp_port_def wp = Some wpdef
    ∧ ram_ports rdef !! rp_port_def rp = Some rpdef
    ∧ ((transparent = true ∧ w ∈ rp_emu_trans rp)
       ∨ (transparent = false ∧ rp_emu_sync rp = true)
       ∨ (rp_emu_sync rp = false
          ∧ ∃ tdef, tdef ∈ pg_wrtrans (cap_val wpdef)
              ∧ wrtrans_covers j wp rpdef transparent (cap_val tdef)
              ∧ is_applied c wp tdef = true)).
Proof.
  intros Hrun Hc Hdom.
  destruct (MemMapping_final st c Hrun Hc) as (_ & Ht & _). by apply Ht.
Qed.

(** X17.  The initial value of every clocked read port that has one is
    dealt with in every candidate that the constructor leaves: the port is
    [emu_sync], or [emu_init] is set, or the group of the port has an
    [rdinitval] capability that is [zero] while the value has no 1 bit, or
    is named while the name stands for the value in the port, and whose
    options the candidate holds. *)
Theorem init_value_provided st c j port :
  MemMapping mem lib addr_compatible get_wr_implies_rd get_wr_excludes_rd
  = Ok st →
  c ∈ mm_cfgs st →
  mem_rd_ports mem !! j = Some port →
  rd_clk_enable port = true →
  is_fully_undef (rd_init_value port) = false →
  ∃ rp rdef pdef,
    cfg_rd_ports c !! j = Some rp
    ∧ ram_defs lib !! cfg_ram_def c = Some rdef
    ∧ ram_ports rdef !! rp_port_def rp = Some pdef
    ∧ (rp_emu_sync rp = true
       ∨ rp_emu_init rp = true
       ∨ ∃ rstdef, rstdef ∈ pg_rdrstval (cap_val pdef)
           ∧ rstval_covers ResetKind.Init (rd_init_value port) c rp rstdef).
Proof.
  intros Hrun Hc Hport Hclk Hval.
  destruct (MemMapping_final st c Hrun Hc) as (_ & _ & Hi & _).
  by eapply Hi.
Qed.

(** X18.  The same for the asynchronous reset value of every clocked read
    port that has an asynchronous reset with a value, with [emu_arst] and
    the [rdarstval] capabilities. *)
Theorem arst_value_provided st c j port :
  MemMapping mem lib addr_compatible get_wr_implies_rd get_wr_excludes_rd
  = Ok st →
  c ∈ mm_cfgs st →
  mem_rd_ports mem !! j = Some port →
  rd_clk_enable port = true →
  rd_arst port ≠ sig_of_state S0 →
  is_fully_undef (rd_arst_value port) = false →
  ∃ rp rdef pdef,
    cfg_rd_ports c !! j = Some rp
    ∧ ram_defs lib !! cfg_ram_def c = Some rdef
    ∧ ram_ports rdef !! rp_port_def rp = Some pdef
    ∧ (rp_emu_sync rp = true
       ∨ rp_emu_arst rp = true
       ∨ ∃ rstdef, rstdef ∈ pg_rdrstval (cap_val pdef)
           ∧ rstval_covers ResetKind.Async (rd_arst_value port) c rp rstdef).
Proof.
  intros Hrun Hc Hport Hclk Hrst Hval.
  destruct (MemMapping_final st c Hrun Hc) as (_ & _ & _ & Ha & _).
  by eapply Ha.
Qed.

(** X19.  The same for the synchronous reset, with [emu_srst] and the
    [rdsrstval] capabilities; moreover, when the enable of the port is not
    the constant 1, the candidate holds the options of an [rdsrstmode]
    capability of the group, and [emu_srst_en_prio] is set if that
    capability gives the reset priority over the enable while the port
    gives the enable priority, or the other way round. *)
Theorem srst_value_provided st c j port :
  MemMapping mem lib addr_compatible get_wr_implies_rd get_wr_excludes_rd
  = Ok st →
  c ∈ mm_cfgs st →
  mem_rd_ports mem !! j = Some port →
  rd_clk_enable port = true →
  rd_srst port ≠ sig_of_state S0 →
  is_fully_undef (rd_srst_value port) = false →
  ∃ rp rdef pdef,
    cfg_rd_ports c !! j = Some rp
    ∧ ram_defs lib !! cfg_ram_def c = Some rdef
    ∧ ram_ports rdef !! rp_port_def rp = Some pdef
    ∧ (rp_emu_sync rp = true
       ∨ rp_emu_srst rp = true
       ∨ ∃ rstdef, rstdef ∈ pg_rdrstval (cap_val pdef)
           ∧ rstval_covers ResetKind.Sync (rd_srst_value port) c rp rstdef
           ∧ (rd_en port = sig_of_state S1
              ∨ ∃ mdef, mdef ∈ pg_rdsrstmode (cap_val pdef)
                  ∧ rd_caps_applied c rp mdef
                  ∧ srst_mode_ok port rp (cap_val mdef))).
Proof.
  intros Hrun Hc Hport Hclk Hrst Hval.
  destruct (MemMapping_final st c Hrun Hc) as (_ & _ & _ & _ & Hs).
  by eapply Hs.
Qed.

End BoundProperties.

(** * The choice of the RAM definition *)

Section SelectionProperties.
Context `{Kernel}.
Variable mem : Mem.
Variable lib : Library.
Variable addr_compatible : nat → nat → bool.
Variable get_wr_implies_rd : nat → nat → bool.
Variable get_wr_excludes_rd : nat → nat → bool.

Lemma init_flags_acc inits a b :
  ((init_flags inits a b).1 = true
   ↔ a = true
     ∨ ∃ init, init ∈ inits ∧ is_fully_undef (init_data init) = false)
  ∧ ((init_flags inits a b).2 = true
     ↔ b = true
       ∨ ∃ init, init ∈ inits ∧ is_fully_undef (init_data init) = false
           ∧ S1 ∈ const_bits (init_data init)).
Proof.
  revert a b. induction inits as [|init rest IH]; intros a b; simpl.
  - split; (split; [by left|]); intros [?|(? & Hin & _)]; try done;
      by apply elem_of_nil in Hin.
  - destruct (is_fully_undef (init_data init)) eqn:Hu.
    + destruct (IH a b) as [IH1 IH2]. rewrite IH1, IH2.
      split; (split; (intros [?|(i & Hin & Hi)]; [by left|right])).
      * exists i. split; [by apply list_elem_of_further | done].
      * apply elem_of_cons in Hin as [->|Hin]; [|by exists i].
        congruence.
      * exists i. split; [by apply list_elem_of_further | done].
      * apply elem_of_cons in Hin as [->|Hin]; [|by exists i].
        destruct Hi. congruence.
    + destruct (IH true
                  (b || existsb (fun bit => bool_decide (bit = S1))
                          (const_bits (init_data init)))) as [IH1 IH2].
      rewrite IH1, IH2. split.
      * split; [intros _|by left]. right. exists init.
        split; [apply list_elem_of_here | done].
      * rewrite orb_true_iff, existsb_exists. split.
        -- intros [[?|(bit & Hbit & Hb)]|(i & Hin & Hi)].
           ++ by left.
           ++ right. exists init. split; [apply list_elem_of_here|].
              split; [done|]. apply bool_decide_eq_true in Hb as ->.
              by apply list_elem_of_In.
           ++ right. exists i. split; [by apply list_elem_of_further|done].
        -- intros [?|(i & Hin & Hi1 & Hi2)]; [by left; left|].
           apply elem_of_cons in Hin as [->|Hin].
           ++ left. right. exists S1.
              split; [by apply list_elem_of_In | by apply bool_decide_eq_true].
           ++ right. by exists i.
Qed.

(** The flags of [handle_init]. *)
Lemma init_flags_spec :
  ((init_flags (mem_inits mem) false false).1 = true ↔ mem_has_init mem)
  ∧ ((init_flags (mem_inits mem) false false).2 = true
     ↔ mem_init_has_one mem).
Proof.
  destruct (init_flags_acc (mem_inits mem) false false) as [H1 H2].
  rewrite H1, H2. unfold mem_has_init, mem_init_has_one.
  split; (split; [by intros [?|?] | by right]).
Qed.

Lemma style_ok_chosen style c c' rdef :
  chosen_from c c' → style_ok style c rdef → style_ok style c' rdef.
Proof.
  intros [_ Hsub] [?|(def & ? & ? & Ha)]; [by left|right].
  exists def. split; [done|]. split; [done|]. by eapply opts_applied_mono.
Qed.

Lemma init_ok_chosen c c' rdef :
  chosen_from c c' → init_ok mem c rdef → init_ok mem c' rdef.
Proof.
  intros [_ Hsub] Hi Hinit. destruct (Hi Hinit) as (def & ? & ? & Ha).
  exists def. split; [done|]. split; [done|]. by eapply opts_applied_mono.
Qed.

Lemma clone_with_opts_chosen cfg src c :
  c ∈ clone_with_opts cfg src →
  chosen_from cfg c ∧ opts_applied (cfg_opts c) src = true.
Proof.
  unfold clone_with_opts.
  destruct (apply_opts (cfg_opts cfg) src) as [[] o] eqn:Ha; intros Hc.
  - apply list_elem_of_singleton in Hc as ->. simpl. split.
    + split; [done|]. by eapply apply_opts_sub.
    + by eapply apply_opts_ok_applied.
  - by apply elem_of_nil in Hc.
Qed.

Lemma handle_ram_kind_sound kind cfgs out c' rdef :
  handle_ram_kind lib kind cfgs = Ok out → c' ∈ out →
  ram_defs lib !! cfg_ram_def c' = Some rdef →
  c' ∈ cfgs ∧ kind_ok kind rdef.
Proof.
  unfold handle_ram_kind, kind_ok. intros Hk Hc' Hrdef.
  destruct (decide (kind = RamKind.Auto ∨ kind = RamKind.NotLogic))
    as [Hfree|_].
  { injection Hk as <-. split; [done|]. destruct Hfree; auto. }
  apply bind_Ok in Hk as (new_cfgs & Hnew & Hk).
  assert (out = new_cfgs) as -> by (destruct new_cfgs; congruence).
  destruct (for_each_Ok _ _ _ Hnew c' Hc') as (c & ys & Hc & Hf & Hy).
  apply bind_Ok in Hf as (rdef' & Hl%vec_at_Ok & Hf).
  destruct (decide (ram_kind rdef' = kind)); injection Hf as <-.
  - apply list_elem_of_singleton in Hy as ->.
    assert (rdef' = rdef) as -> by congruence. auto.
  - by apply elem_of_nil in Hy.
Qed.

Lemma handle_ram_style_sound style cfgs out c' rdef :
  handle_ram_style lib style cfgs = Ok out → c' ∈ out →
  ram_defs lib !! cfg_ram_def c' = Some rdef →
  ∃ c, c ∈ cfgs ∧ chosen_from c c' ∧ style_ok style c' rdef.
Proof.
  unfold handle_ram_style, style_ok. intros Hk Hc' Hrdef.
  destruct (decide (style = "")).
  { injection Hk as <-. exists c'. split; [done|]. split; [by split|].
    by left. }
  apply bind_Ok in Hk as (new_cfgs & Hnew & Hk).
  assert (out = new_cfgs) as -> by (destruct new_cfgs; congruence).
  destruct (for_each_Ok _ _ _ Hnew c' Hc') as (c & ys & Hc & Hf & Hy).
  apply bind_Ok in Hf as (rdef' & Hl%vec_at_Ok & [= <-]).
  apply elem_of_flat_map in Hy as (def & Hdef & Hy).
  case_decide as Hv; [by apply elem_of_nil in Hy|].
  apply clone_with_opts_chosen in Hy as [Hch Ha].
  assert (rdef' = rdef) as ->
    by (destruct Hch as [Hd _]; rewrite Hd in Hrdef; congruence).
  exists c. split; [done|]. split; [done|]. right. by exists def.
Qed.

Lemma handle_init_sound cfgs out c' rdef :
  handle_init mem lib cfgs = Ok out → c' ∈ out →
  ram_defs lib !! cfg_ram_def c' = Some rdef →
  ∃ c, c ∈ cfgs ∧ chosen_from c c' ∧ init_ok mem c' rdef.
Proof.
  unfold handle_init, init_ok. intros Hk Hc' Hrdef.
  destruct init_flags_spec as [Hnonx Hone].
  destruct (init_flags (mem_inits mem) false false) as [has_nonx has_one].
  simpl in Hnonx, Hone. destruct has_nonx; simpl in Hk.
  2:{ injection Hk as <-. exists c'. split; [done|]. split; [by split|].
      intros Hinit. by apply Hnonx in Hinit. }
  destruct (for_each_Ok _ _ _ Hk c' Hc') as (c & ys & Hc & Hf & Hy).
  apply bind_Ok in Hf as (rdef' & Hl%vec_at_Ok & [= <-]).
  apply elem_of_flat_map in Hy as (def & Hdef & Hy).
  assert (chosen_from c c' ∧ opts_applied (cfg_opts c') (cap_opts def) = true
          ∧ (cap_val def = MemoryInitKind.Any
             ∨ (cap_val def = MemoryInitKind.Zero ∧ ¬ mem_init_has_one mem)))
    as (Hch & Ha & Hval).
  { destruct has_one; case_decide as Hv; try (by apply elem_of_nil in Hy);
      apply clone_with_opts_chosen in Hy as [Hch Ha];
      (split; [done|]); (split; [done|]).
    - by left.
    - destruct (cap_val def); [exfalso; by apply Hv | right | by left].
      split; [done|]. intros Hh. by apply Hone in Hh. }
  assert (rdef' = rdef) as ->
    by (destruct Hch as [Hd _]; rewrite Hd in Hrdef; congruence).
  exists c. split; [done|]. split; [done|]. intros _. by exists def.
Qed.

Lemma evolves_chosen c c' : evolves mem c c' → chosen_from c c'.
Proof. by intros (? & ? & _). Qed.

Lemma chosen_from_trans c1 c2 c3 :
  chosen_from c1 c2 → chosen_from c2 c3 → chosen_from c1 c3.
Proof. intros [? ?] [? ?]. split; [congruence | by etrans]. Qed.

(** X20.  The RAM definition of every candidate that the constructor
    leaves answers the attributes and the initial contents of the memory:
    its kind is the kind determined from the attributes unless that is
    [auto] or [not_logic]; if the attributes name a style, the definition
    has a [style] capability with that name whose options the candidate
    holds; if the memory has initial contents that are not all undefined,
    the definition has an [init] capability whose options the candidate
    holds and which is [any], or [zero] while the contents have no [1]
    bit. *)
Theorem candidate_ram_selected st c :
  MemMapping mem lib addr_compatible get_wr_implies_rd get_wr_excludes_rd
  = Ok st →
  c ∈ mm_cfgs st →
  ∃ rdef, ram_defs lib !! cfg_ram_def c = Some rdef
    ∧ kind_ok (determine_style mem).1 rdef
    ∧ style_ok (determine_style mem).2 c rdef
    ∧ init_ok mem c rdef.
Proof.
  intros Hrun Hc.
  destruct (MemMapping_final mem lib addr_compatible get_wr_implies_rd
              get_wr_excludes_rd st c Hrun Hc) as ((Hvalid & _) & _).
  apply lookup_lt_is_Some in Hvalid as [rdef Hrdef].
  exists rdef. split; [done|].
  revert Hrun Hc. unfold MemMapping.
  destruct (determine_style mem) as [kind style] eqn:Hds. case_decide.
  - intros [= <-] Hc. by apply elem_of_nil in Hc.
  - intros Hrun Hc. apply bind_Ok in Hrun as (cb & Hb & Hrun).
    apply bind_Ok in Hrun as (ce & He & [= <-]). simpl in Hc.
    unfold binding_phases in Hb. rewrite Hds in Hb. simpl in Hb.
    apply bind_Ok in Hb as (c1 & H1 & Hb).
    apply bind_Ok in Hb as (c2 & H2 & Hb).
    apply bind_Ok in Hb as (c3 & H3 & Hb).
    apply bind_Ok in Hb as (c4 & H4 & H5).
    pose proof (pre_binding_ok mem lib addr_compatible get_wr_implies_rd
                  get_wr_excludes_rd _ _ _ _ _ H1 H2 H3) as Hok3.
    destruct (handle_wr_ports_loop_ok mem lib addr_compatible
                get_wr_implies_rd get_wr_excludes_rd (mem_wr_ports mem) []
                c3 c4 eq_refl H4 Hok3) as [Hd4 Hok4].
    destruct (handle_rd_ports_ok mem lib addr_compatible get_wr_implies_rd
                get_wr_excludes_rd c4 cb H5 Hok4) as [Hd5 _].
    apply (emulation_phases_step mem lib) in He as [Hd6 _].
    destruct (Hd6 c Hc) as (y5 & Hy5 & [He6 _]).
    destruct (Hd5 y5 Hy5) as (y4 & Hy4 & He5).
    destruct (Hd4 y4 Hy4) as (y3 & Hy3 & He4).
    assert (Hch : chosen_from y3 c).
    { eapply chosen_from_trans; [by apply evolves_chosen|].
      eapply chosen_from_trans; by apply evolves_chosen. }
    assert (Hr3 : ram_defs lib !! cfg_ram_def y3 = Some rdef).
    { destruct Hch as [Hd _]. by rewrite <- Hd. }
    destruct (handle_init_sound _ _ _ _ H3 Hy3 Hr3)
      as (y2 & Hy2 & Hch2 & Hinit).
    assert (Hr2 : ram_defs lib !! cfg_ram_def y2 = Some rdef).
    { destruct Hch2 as [Hd _]. by rewrite <- Hd. }
    destruct (handle_ram_style_sound _ _ _ _ _ H2 Hy2 Hr2)
      as (y1 & Hy1 & Hch1 & Hstyle).
    assert (Hr1 : ram_defs lib !! cfg_ram_def y1 = Some rdef).
    { destruct Hch1 as [Hd _]. by rewrite <- Hd. }
    destruct (handle_ram_kind_sound _ _ _ _ _ H1 Hy1 Hr1) as [_ Hkind].
    simpl. split; [done|]. split.
    + eapply style_ok_chosen; [|done].
      by eapply chosen_from_trans.
    + by eapply init_ok_chosen.
Qed.

End SelectionProperties.

(** * The failures of the constructor *)

Section FailureProperties.
Context `{Kernel}.
Variable mem : Mem.
Variable lib : Library.
Variable addr_compatible : nat → nat → bool.
Variable get_wr_implies_rd : nat → nat → bool.
Variable get_wr_excludes_rd : nat → nat → bool.

Lemma oor_Ok {A} (a : A) : out_of_range_only (Ok a).
Proof. intros e. discriminate. Qed.

Lemma oor_Err {A} : out_of_range_only (@Err A OutOfRange).
Proof. intros e. congruence. Qed.

Lemma oor_vec_at {A} (v : list A) i : out_of_range_only (vec_at v i).
Proof. unfold vec_at. destruct (v !! i); [apply oor_Ok | apply oor_Err]. Qed.

Lemma oor_bind {A B} (m : outcome A) (f : A → outcome B) :
  out_of_range_only m → (∀ a, out_of_range_only (f a)) →
  out_of_range_only (m ≫= f).
Proof.
  intros Hm Hf. destruct m as [a|e]; simpl; [apply Hf|].
  intros e' [= <-]. by apply Hm.
Qed.

Lemma oor_for_each {A B} (f : A → outcome (list B)) xs :
  (∀ x, out_of_range_only (f x)) → out_of_range_only (for_each f xs).
Proof.
  intros Hf. induction xs as [|x rest IH]; simpl; [apply oor_Ok|].
  apply oor_bind; [apply Hf|]. intros ys.
  apply oor_bind; [apply IH|]. intros zs. apply oor_Ok.
Qed.

Lemma oor_generations {A} (step : A → MemConfigs → outcome MemConfigs)
    xs cfgs :
  (∀ x c, out_of_range_only (step x c)) →
  out_of_range_only (generations step xs cfgs).
Proof.
  intros Hs. revert cfgs.
  induction xs as [|x rest IH]; intros cfgs; simpl; [apply oor_Ok|].
  apply oor_bind; [apply Hs | apply IH].
Qed.

Lemma oor_caps_loop {A} (body : A → outcome (list MemConfig * bool)) caps :
  (∀ c, out_of_range_only (body c)) →
  out_of_range_only (caps_loop body caps).
Proof.
  intros Hb. induction caps as [|c rest IH]; simpl; [apply oor_Ok|].
  apply oor_bind; [apply Hb|]. intros [ys f1].
  apply oor_bind; [apply IH|]. intros [zs f2]. apply oor_Ok.
Qed.

Local Ltac oor_with tac :=
  repeat first
    [ tac
    | match goal with
      | |- out_of_range_only (Ok _) => apply oor_Ok
      | |- out_of_range_only (Err OutOfRange) => apply oor_Err
      | |- out_of_range_only (vec_at _ _) => apply oor_vec_at
      | |- out_of_range_only (_ ≫= _) => apply oor_bind; [|intros ?]
      | |- out_of_range_only (for_each _ _) => apply oor_for_each; intros ?
      | |- out_of_range_only (generations _ _ _) =>
          apply oor_generations; intros ? ?
      | |- out_of_range_only (caps_loop _ _) =>
          apply oor_caps_loop; intros ?
      | |- out_of_range_only (if ?b then _ else _) => destruct b
      | |- out_of_range_only (match ?x with _ => _ end) => destruct x
      | |- out_of_range_only ((match ?x with _ => _ end) _) => destruct x
      end
    | progress cbv beta zeta ].

Local Ltac oor := oor_with fail.

Lemma oor_apply_wrport_opts {T} cfg pidx (cap : Capability T) :
  out_of_range_only (apply_wrport_opts cfg pidx cap).
Proof. unfold apply_wrport_opts. oor. Qed.

Lemma oor_wrport_opts_applied {T} cfg pidx (cap : Capability T) :
  out_of_range_only (wrport_opts_applied cfg pidx cap).
Proof. unfold wrport_opts_applied. oor. Qed.

Lemma oor_apply_rdport_opts {T} cfg pidx (cap : Capability T) :
  out_of_range_only (apply_rdport_opts cfg pidx cap).
Proof.
  unfold apply_rdport_opts. oor_with ltac:(apply oor_apply_wrport_opts).
Qed.

Lemma oor_rdport_opts_applied {T} cfg pidx (cap : Capability T) :
  out_of_range_only (rdport_opts_applied cfg pidx cap).
Proof.
  unfold rdport_opts_applied. oor_with ltac:(apply oor_wrport_opts_applied).
Qed.

Lemma oor_use_wrport_cap {T} cfg pidx (cap : Capability T) :
  out_of_range_only (use_wrport_cap cfg pidx cap).
Proof.
  unfold use_wrport_cap.
  oor_with ltac:(first [apply oor_wrport_opts_applied
                       | apply oor_apply_wrport_opts]).
Qed.

Lemma oor_use_rdrstval kind val pidx cfg rstdef :
  out_of_range_only (use_rdrstval kind val pidx cfg rstdef).
Proof.
  unfold use_rdrstval.
  oor_with ltac:(first [apply oor_rdport_opts_applied
                       | apply oor_apply_rdport_opts]).
Qed.

Lemma oor_handle_init cfgs : out_of_range_only (handle_init mem lib cfgs).
Proof. unfold handle_init. oor. Qed.

Lemma oor_handle_wr_ports cfgs :
  out_of_range_only (handle_wr_ports mem lib cfgs).
Proof.
  unfold handle_wr_ports. revert cfgs.
  induction (mem_wr_ports mem) as [|port rest IH]; intros cfgs; simpl.
  - apply oor_Ok.
  - destruct (negb (wr_clk_enable port)); [apply oor_Ok|].
    apply oor_bind; [|apply IH]. unfold wr_port_cfg. oor.
Qed.

Lemma oor_handle_rd_ports cfgs :
  out_of_range_only
    (handle_rd_ports mem lib addr_compatible get_wr_implies_rd
       get_wr_excludes_rd cfgs).
Proof.
  unfold handle_rd_ports, rd_port_cfg, rd_port_shared, rd_port_shared_rden.
  oor_with ltac:(apply oor_apply_wrport_opts).
Qed.

Lemma oor_handle_trans cfgs : out_of_range_only (handle_trans mem lib cfgs).
Proof.
  unfold handle_trans, trans_rd_port, trans_pair, trans_cfg, trans_cap.
  oor_with ltac:(apply oor_use_wrport_cap).
Qed.

Lemma oor_handle_priority cfgs :
  out_of_range_only (handle_priority mem lib cfgs).
Proof.
  unfold handle_priority, priority_pair, priority_cfg, priority_cap.
  oor_with ltac:(apply oor_use_wrport_cap).
Qed.

Lemma oor_handle_rd_init cfgs :
  out_of_range_only (handle_rd_init mem lib cfgs).
Proof.
  unfold handle_rd_init, rd_init_cfg, rd_init_cap.
  oor_with ltac:(apply oor_use_rdrstval).
Qed.

Lemma oor_handle_rd_arst cfgs :
  out_of_range_only (handle_rd_arst mem lib cfgs).
Proof.
  unfold handle_rd_arst, rd_arst_cfg, rd_arst_cap.
  oor_with ltac:(apply oor_use_rdrstval).
Qed.

Lemma oor_handle_rd_srst cfgs :
  out_of_range_only (handle_rd_srst mem lib cfgs).
Proof.
  unfold handle_rd_srst, rd_srst_cfg, rd_srst_cap, rd_srst_mode.
  oor_with ltac:(first [apply oor_use_rdrstval
                       | apply oor_apply_rdport_opts]).
Qed.

Lemma oor_emulation_phases cfgs :
  out_of_range_only (emulation_phases mem lib cfgs).
Proof.
  unfold emulation_phases, handle_dims.
  apply oor_bind; [apply oor_handle_trans|]. intros ?.
  apply oor_bind; [apply oor_handle_priority|]. intros ?.
  apply oor_bind; [apply oor_handle_rd_init|]. intros ?.
  apply oor_bind; [apply oor_handle_rd_arst|]. intros ?.
  apply oor_bind; [apply oor_handle_rd_srst|]. intros ?. apply oor_Ok.
Qed.

Lemma for_each_complete {A B} (f : A → outcome (list B)) xs out x ys y :
  for_each f xs = Ok out → x ∈ xs → f x = Ok ys → y ∈ ys → y ∈ out.
Proof.
  revert out. induction xs as [|x' rest IH]; simpl; intros out Hout Hx Hf Hy.
  - by apply elem_of_nil in Hx.
  - apply bind_Ok in Hout as (ys' & Hys & Hout).
    apply bind_Ok in Hout as (zs & Hzs & [= <-]).
    apply elem_of_app. apply elem_of_cons in Hx as [<-|Hx].
    + left. congruence.
    + right. by eapply IH.
Qed.

Lemma elem_of_initial_cfgs c :
  c ∈ initial_cfgs lib
  ↔ ∃ i rdef, c = new_MemConfig i ∧ ram_defs lib !! i = Some rdef.
Proof. unfold initial_cfgs. apply elem_of_lookup_imap. Qed.

(** What the filter by kind leaves of the initial candidates, or how it
    fails. *)
Lemma handle_ram_kind_cases kind :
  (∃ out, handle_ram_kind lib kind (initial_cfgs lib) = Ok out
     ∧ (∀ c, c ∈ out
          ↔ ∃ i rdef, c = new_MemConfig i ∧ ram_defs lib !! i = Some rdef
              ∧ kind_ok kind rdef)
     ∧ (kind = RamKind.Auto ∨ kind = RamKind.NotLogic
        ∨ ∃ rdef, rdef ∈ ram_defs lib ∧ ram_kind rdef = kind))
  ∨ (handle_ram_kind lib kind (initial_cfgs lib)
     = Err (FatalNoRamOfKind kind)
     ∧ kind ≠ RamKind.Auto ∧ kind ≠ RamKind.NotLogic
     ∧ ∀ rdef, rdef ∈ ram_defs lib → ram_kind rdef ≠ kind).
Proof.
  unfold handle_ram_kind, kind_ok.
  destruct (decide (kind = RamKind.Auto ∨ kind = RamKind.NotLogic))
    as [Hfree|Hfix].
  { left. exists (initial_cfgs lib). split; [done|]. split.
    - intros c. rewrite elem_of_initial_cfgs. split.
      + intros (i & rdef & ? & ?). exists i, rdef. destruct Hfree; auto.
      + intros (i & rdef & ? & ? & _). by exists i, rdef.
    - destruct Hfree; auto. }
  set (f := fun cfg : MemConfig =>
              rdef ← vec_at (ram_defs lib) (cfg_ram_def cfg);
              if decide (ram_kind rdef = kind) then Ok [cfg] else Ok []).
  destruct (for_each_total f (initial_cfgs lib)) as [out Hout].
  { intros c (i & rdef & -> & Hl)%elem_of_initial_cfgs.
    unfold f. simpl. apply vec_at_Ok in Hl as ->. simpl.
    case_decide; by eexists. }
  rewrite Hout. simpl.
  assert (Hspec : ∀ c, c ∈ out
            ↔ ∃ i rdef, c = new_MemConfig i ∧ ram_defs lib !! i = Some rdef
                ∧ ram_kind rdef = kind).
  { intros c. split.
    - intros Hc. destruct (for_each_Ok _ _ _ Hout c Hc)
        as (c0 & ys & Hc0 & Hf & Hy).
      apply elem_of_initial_cfgs in Hc0 as (i & rdef & -> & Hl).
      unfold f in Hf. simpl in Hf. apply vec_at_Ok in Hl as Hv.
      rewrite Hv in Hf. simpl in Hf. case_decide; injection Hf as <-.
      + apply list_elem_of_singleton in Hy as ->. by exists i, rdef.
      + by apply elem_of_nil in Hy.
    - intros (i & rdef & -> & Hl & Hk).
      eapply (for_each_complete f); [done| | |apply list_elem_of_here].
      + apply elem_of_initial_cfgs. by exists i, rdef.
      + unfold f. simpl. apply vec_at_Ok in Hl as ->. simpl.
        by rewrite decide_True. }
  destruct out as [|c0 out'].
  - right. split; [done|].
    split; [intros ->; apply Hfix; by left|].
    split; [intros ->; apply Hfix; by right|].
    intros rdef (i & Hl)%list_elem_of_lookup Hk.
    assert (Hin : new_MemConfig i ∈ []) by (apply Hspec; by exists i, rdef).
    by apply elem_of_nil in Hin.
  - left. eexists. split; [done|]. split.
    + intros c. rewrite Hspec. split.
      * intros (i & rdef & ? & ? & ?). exists i, rdef. auto.
      * intros (i & rdef & ? & ? & [?|[?|?]]);
          [exfalso; apply Hfix; by left | exfalso; apply Hfix; by right|].
        by exists i, rdef.
    + right. right.
      destruct (proj1 (Hspec c0)) as (i & rdef & _ & Hl & Hk);
        [apply list_elem_of_here|].
      exists rdef. split; [by eapply list_elem_of_lookup_2 | done].
Qed.

(** What the filter by style leaves of candidates with valid RAM
    definitions, or how it fails. *)
Lemma handle_ram_style_cases style cfgs :
  (∀ c, c ∈ cfgs → cfg_valid lib c) →
  (∃ out, handle_ram_style lib style cfgs = Ok out
     ∧ (style = ""
        ∨ ∃ c rdef def, c ∈ cfgs ∧ ram_defs lib !! cfg_ram_def c = Some rdef
            ∧ def ∈ ram_style rdef ∧ cap_val def = style
            ∧ (apply_opts (cfg_opts c) (cap_opts def)).1 = true))
  ∨ (handle_ram_style lib style cfgs = Err (FatalNoRamWithStyle style)
     ∧ style ≠ ""
     ∧ ∀ c rdef def, c ∈ cfgs → ram_defs lib !! cfg_ram_def c = Some rdef →
         def ∈ ram_style rdef → cap_val def = style →
         (apply_opts (cfg_opts c) (cap_opts def)).1 = false).
Proof.
  intros Hvalid. unfold handle_ram_style.
  destruct (decide (style = "")) as [->|Hstyle].
  { left. exists cfgs. split; [done | by left]. }
  set (f := fun cfg : MemConfig =>
              rdef ← vec_at (ram_defs lib) (cfg_ram_def cfg);
              Ok (flat_map (fun def : Capability string =>
                    if decide (cap_val def ≠ style) then []
                    else clone_with_opts cfg (cap_opts def))
                  (ram_style rdef))).
  destruct (for_each_total f cfgs) as [out Hout].
  { intros c Hc. apply Hvalid, lookup_lt_is_Some in Hc as [rdef Hl].
    unfold f. apply vec_at_Ok in Hl as ->. simpl. by eexists. }
  rewrite Hout. simpl. destruct out as [|c0 out'].
  - right. split; [done|]. split; [done|].
    intros c rdef def Hc Hl Hdef Hval.
    destruct (apply_opts (cfg_opts c) (cap_opts def)) as [[] o] eqn:Ha;
      [exfalso|done].
    assert (Hin : cfg_set_opts c o ∈ []); [|by apply elem_of_nil in Hin].
    eapply (for_each_complete f); [done|done| |].
    + unfold f. apply vec_at_Ok in Hl as ->. simpl. reflexivity.
    + apply elem_of_flat_map. exists def. split; [done|].
      rewrite decide_False by (intros Hne; by apply Hne).
      unfold clone_with_opts. rewrite Ha. apply list_elem_of_here.
  - left. eexists. split; [done|]. right.
    destruct (for_each_Ok _ _ _ Hout c0) as (c & ys & Hc & Hf & Hy);
      [apply list_elem_of_here|].
    unfold f in Hf. apply bind_Ok in Hf as (rdef & Hl%vec_at_Ok & [= <-]).
    apply elem_of_flat_map in Hy as (def & Hdef & Hy).
    case_decide as Hv; [by apply elem_of_nil in Hy|].
    exists c, rdef, def. split; [done|]. split; [done|]. split; [done|].
    split; [done|]. unfold clone_with_opts in Hy.
    destruct (apply_opts (cfg_opts c) (cap_opts def)) as [[] o]; [done|].
    by apply elem_of_nil in Hy.
Qed.

(** Where a failure of the constructor comes from. *)
Lemma MemMapping_Err e :
  MemMapping mem lib addr_compatible get_wr_implies_rd get_wr_excludes_rd
  = Err e →
  (determine_style mem).1 ≠ RamKind.Logic
  ∧ (e = OutOfRange
     ∨ handle_ram_kind lib (determine_style mem).1 (initial_cfgs lib) = Err e
     ∨ ∃ c1, handle_ram_kind lib (determine_style mem).1 (initial_cfgs lib)
             = Ok c1
         ∧ handle_ram_style lib (determine_style mem).2 c1 = Err e).
Proof.
  unfold MemMapping, binding_phases.
  destruct (determine_style mem) as [kind style]. simpl.
  case_decide as Hlogic; [done|]. intros Hrun. split; [done|].
  destruct (handle_ram_kind lib kind (initial_cfgs lib)) as [c1|e1];
    simpl in Hrun; [|right; left; congruence].
  destruct (handle_ram_style lib style c1) as [c2|e2] eqn:H2;
    simpl in Hrun; [|right; right; exists c1; split; congruence].
  left. revert Hrun. generalize e.
  change (out_of_range_only
    (cfgs ← (cfgs ← handle_init mem lib c2;
             cfgs ← handle_wr_ports mem lib cfgs;
             handle_rd_ports mem lib addr_compatible get_wr_implies_rd
               get_wr_excludes_rd cfgs);
     cfgs ← emulation_phases mem lib cfgs;
     Ok {| mm_kind := kind; mm_style := style;
           mm_logic_ok := determine_logic_ok mem kind; mm_cfgs := cfgs |})).
  apply oor_bind.
  - apply oor_bind; [apply oor_handle_init|]. intros ?.
    apply oor_bind; [apply oor_handle_wr_ports|]. intros ?.
    apply oor_handle_rd_ports.
  - intros ?. apply oor_bind; [apply oor_emulation_phases|]. intros ?.
    apply oor_Ok.
Qed.

Lemma MemMapping_kind_Err e :
  (determine_style mem).1 ≠ RamKind.Logic →
  handle_ram_kind lib (determine_style mem).1 (initial_cfgs lib) = Err e →
  MemMapping mem lib addr_compatible get_wr_implies_rd get_wr_excludes_rd
  = Err e.
Proof.
  unfold MemMapping, binding_phases.
  destruct (determine_style mem) as [kind style]. simpl.
  intros Hlogic ->. by rewrite decide_False.
Qed.

Lemma MemMapping_style_Err c1 e :
  (determine_style mem).1 ≠ RamKind.Logic →
  handle_ram_kind lib (determine_style mem).1 (initial_cfgs lib) = Ok c1 →
  handle_ram_style lib (determine_style mem).2 c1 = Err e →
  MemMapping mem lib addr_compatible get_wr_implies_rd get_wr_excludes_rd
  = Err e.
Proof.
  unfold MemMapping, binding_phases.
  destruct (determine_style mem) as [kind style]. simpl.
  intros Hlogic -> H2. rewrite decide_False by done. simpl. by rewrite H2.
Qed.

(** X21.  The two fatal errors of the constructor.  It reports that there
    is no RAM of a kind exactly when the attributes of the memory ask for
    that kind, the kind is [distributed], [block] or [huge], and no RAM
    definition of the library has it.  It reports that there is no RAM
    with a style exactly when the attributes name that style, the kind is
    not [logic], the library has a RAM definition of the kind asked for
    (or the kind is [auto] or [not_logic]), and no such definition has a
    [style] capability with that name whose options are free of conflict
    among themselves.  Later phases that leave no candidate report
    nothing. *)
Theorem constructor_fatal_errors :
  (∀ k,
     MemMapping mem lib addr_compatible get_wr_implies_rd get_wr_excludes_rd
     = Err (FatalNoRamOfKind k)
     ↔ k = (determine_style mem).1
       ∧ k ≠ RamKind.Auto ∧ k ≠ RamKind.NotLogic ∧ k ≠ RamKind.Logic
       ∧ ∀ rdef, rdef ∈ ram_defs lib → ram_kind rdef ≠ k)
  ∧ (∀ s,
       MemMapping mem lib addr_compatible get_wr_implies_rd
         get_wr_excludes_rd
       = Err (FatalNoRamWithStyle s)
       ↔ s = (determine_style mem).2
         ∧ s ≠ ""
         ∧ (determine_style mem).1 ≠ RamKind.Logic
         ∧ ((determine_style mem).1 = RamKind.Auto
            ∨ (determine_style mem).1 = RamKind.NotLogic
            ∨ ∃ rdef, rdef ∈ ram_defs lib
                ∧ ram_kind rdef = (determine_style mem).1)
         ∧ ∀ rdef def, rdef ∈ ram_defs lib →
             kind_ok (determine_style mem).1 rdef →
             def ∈ ram_style rdef → cap_val def = s →
             (apply_opts ∅ (cap_opts def)).1 = false).
Proof.
  pose proof (handle_ram_kind_cases (determine_style mem).1) as Hk.
  assert (Hvalid : ∀ c1,
            handle_ram_kind lib (determine_style mem).1 (initial_cfgs lib)
            = Ok c1 → ∀ c, c ∈ c1 → cfg_valid lib c).
  { intros c1 H1 c Hc.
    destruct (handle_ram_kind_kept _ _ _ _ _ H1 Hc) as (c0 & Hc0 & Hd & _).
    apply initial_cfgs_spec in Hc0 as [Hv _]. unfold cfg_valid in *.
    by rewrite Hd. }
  split.
  - intros k. split.
    + intros Hrun. apply MemMapping_Err in Hrun as [Hlogic Hrun].
      destruct Hrun as [?|[H1|(c1 & H1 & H2)]]; [done| |].
      * destruct Hk as [(c1 & H1' & _)|(H1' & ? & ? & ?)]; [congruence|].
        assert (k = (determine_style mem).1) as -> by congruence. done.
      * destruct (handle_ram_style_cases (determine_style mem).2 c1
                    (Hvalid c1 H1)) as [(? & ? & _)|(? & _)]; congruence.
    + intros (-> & Hna & Hnn & Hlogic & Hnone).
      apply MemMapping_kind_Err; [done|].
      destruct Hk as [(c1 & _ & _ & [?|[?|(rdef & ? & ?)]])|(? & _)];
        try done. exfalso. by eapply Hnone.
  - intros s. split.
    + intros Hrun. apply MemMapping_Err in Hrun as [Hlogic Hrun].
      destruct Hrun as [?|[H1|(c1 & H1 & H2)]]; [done| |].
      * destruct Hk as [(c1 & H1' & _)|(H1' & _)]; congruence.
      * destruct Hk as [(c1' & H1' & Hspec & Hsome)|(H1' & _)];
          [|congruence].
        assert (c1' = c1) as -> by congruence.
        destruct (handle_ram_style_cases (determine_style mem).2 c1
                    (Hvalid c1 H1)) as [(? & ? & _)|(H2' & Hs & Hnone)];
          [congruence|].
        assert (s = (determine_style mem).2) as -> by congruence.
        split; [done|]. split; [done|]. split; [done|]. split; [done|].
        intros rdef def (i & Hl)%list_elem_of_lookup Hkind Hdef Hval.
        apply (Hnone (new_MemConfig i) rdef def); try done.
        apply Hspec. by exists i, rdef.
    + intros (-> & Hs & Hlogic & Hsome & Hnone).
      destruct Hk as [(c1 & H1 & Hspec & _)|(_ & Hna & Hnn & Hno)].
      2:{ destruct Hsome as [?|[?|(rdef & ? & ?)]]; [done|done|].
          exfalso. by eapply Hno. }
      apply (MemMapping_style_Err c1); [done|done|].
      destruct (handle_ram_style_cases (determine_style mem).2 c1
                  (Hvalid c1 H1))
        as [(c2 & _ & [?|(c & rdef & def & Hc & Hl & Hdef & Hval & Ha)])
           |(? & _)]; [done| |done].
      exfalso. apply Hspec in Hc as (i & rdef' & -> & Hl' & Hkind).
      simpl in Hl. assert (rdef' = rdef) as -> by congruence.
      assert (Hf : (apply_opts (cfg_opts (new_MemConfig i))
                      (cap_opts def)).1 = false).
      { apply (Hnone rdef def); try done. by eapply list_elem_of_lookup_2. }
      congruence.
Qed.

End FailureProperties.

(** * No index out of range *)

Section RangeProperties.
Context `{Kernel}.
Variable mem : Mem.
Variable lib : Library.
Variable addr_compatible : nat → nat → bool.
Variable get_wr_implies_rd : nat → nat → bool.
Variable get_wr_excludes_rd : nat → nat → bool.

Local Abbreviation all_ok :=
  (ports_ok mem lib addr_compatible get_wr_implies_rd get_wr_excludes_rd).

Lemma vec_at_lt {A} (v : list A) i :
  i < length v → ∃ x, vec_at v i = Ok x ∧ v !! i = Some x.
Proof.
  intros [x Hx]%lookup_lt_is_Some. exists x.
  split; [by apply vec_at_Ok | done].
Qed.

Lemma generations_enumerate_total {A} (P : nat → MemConfigs → Prop)
    (step : nat * A → MemConfigs → outcome MemConfigs) (xs : list A) cfgs :
  P 0 cfgs →
  (∀ i x c, xs !! i = Some x → P i c →
     ∃ c', step (i, x) c = Ok c' ∧ P (S i) c') →
  ∃ out, generations step (enumerate xs) cfgs = Ok out ∧ P (length xs) out.
Proof.
  unfold enumerate. intros H0 Hstep.
  assert (Hgen : ∀ k cfgs,
            (∀ i x c, xs !! i = Some x → P (k + i) c →
               ∃ c', step (k + i, x) c = Ok c' ∧ P (S (k + i)) c') →
            P k cfgs →
            ∃ out, generations step (imap (fun i x => (k + i, x)) xs) cfgs
                   = Ok out ∧ P (k + length xs) out).
  { clear H0 Hstep cfgs.
    induction xs as [|x rest IH]; intros k cfgs Hs Hk; simpl.
    - exists cfgs. by rewrite Nat.add_0_r.
    - destruct (Hs 0 x cfgs eq_refl) as (c' & Hc' & HP');
        [by rewrite Nat.add_0_r|].
      rewrite Nat.add_0_r in Hc', HP'. rewrite Nat.add_0_r, Hc'. simpl.
      destruct (IH (S k) c') as (out & Hout & HP).
      + intros i y c Hy Hc.
        replace (S k + i) with (k + S i) in * by lia. by apply Hs.
      + done.
      + exists out. split.
        * rewrite <- Hout. f_equal. apply imap_ext. intros i y _. simpl.
          f_equal. lia.
        * by replace (k + S (length rest)) with (S k + length rest) by lia. }
  destruct (Hgen 0 cfgs) as (out & Hout & HP); [done|done|].
  by exists out.
Qed.

Lemma caps_loop_total {A} (body : A → outcome (list MemConfig * bool)) caps :
  (∀ cap, cap ∈ caps → ∃ r, body cap = Ok r) →
  ∃ r, caps_loop body caps = Ok r.
Proof.
  induction caps as [|cap rest IH]; simpl; intros Hall; [by eexists|].
  destruct (Hall cap) as [[ys f1] ->]; [apply list_elem_of_here|].
  destruct IH as [[zs f2] ->].
  { intros cap' ?. apply Hall. by apply list_elem_of_further. }
  simpl. by eexists.
Qed.

Lemma for_each_total_kept (I J : MemConfig → Prop)
    (f : MemConfig → outcome MemConfigs) cfgs :
  Forall I cfgs →
  (∀ c, I c →
     (∃ ys, f c = Ok ys) ∧ ∀ ys y, f c = Ok ys → y ∈ ys → J y) →
  ∃ out, for_each f cfgs = Ok out ∧ Forall J out.
Proof.
  intros Hall Hf.
  destruct (for_each_total f cfgs) as [out Hout].
  { intros c Hc. apply Hf. by eapply Forall_forall in Hall. }
  exists out. split; [done|]. apply Forall_forall. intros y Hy.
  destruct (for_each_Ok _ _ _ Hout y Hy) as (c & ys & Hc & Hfc & Hys).
  eapply Forall_forall in Hall; [|done].
  destruct (Hf c Hall) as [_ Hkept]. by eapply Hkept.
Qed.

(** ** The invariant *)

Lemma indices_ok_kept nw nr c c' :
  binding_kept c c' → indices_ok lib nw nr c → indices_ok lib nw nr c'.
Proof.
  intros (Hd & Hw & Hr) (rdef & Hrdef & Hnw & Hnr & Hwr & Hrd).
  exists rdef. split; [by rewrite Hd|].
  split; [by rewrite <- Hnw, <- (length_fmap wr_binding), Hw, length_fmap|].
  split; [by rewrite <- Hnr, (Forall2_length _ _ _ Hr)|]. split.
  - intros w wp' Hl'.
    assert (Hb : (wr_binding <$> cfg_wr_ports c') !! w = Some (wr_binding wp'))
      by (by rewrite list_lookup_fmap, Hl').
    rewrite Hw, list_lookup_fmap in Hb.
    destruct (cfg_wr_ports c !! w) as [wp|] eqn:Hl; [|done].
    injection Hb as Hb _. rewrite <- Hb. by eapply Hwr.
  - intros j rp' Hl'.
    destruct (Forall2_lookup_r _ _ _ _ _ Hr Hl') as (rp & Hl & Hk).
    destruct Hk as (Hshare & Hdef & _).
    destruct (Hrd j rp Hl) as [Hp Hs]. rewrite Hdef. split; [done|].
    unfold share_in_range. by rewrite Hshare.
Qed.

Lemma indices_ok_kept_from nw nr cfgs out :
  kept_from cfgs out → Forall (indices_ok lib nw nr) cfgs →
  Forall (indices_ok lib nw nr) out.
Proof.
  intros Hk Hall. apply Forall_forall. intros y Hy.
  destruct (Hk y Hy) as (c & Hc & Hkept).
  eapply indices_ok_kept; [done|]. by eapply Forall_forall in Hall.
Qed.

Lemma ports_ok_indices c :
  all_ok (length (mem_wr_ports mem)) (length (mem_rd_ports mem)) c →
  indices_ok lib (length (mem_wr_ports mem)) (length (mem_rd_ports mem)) c.
Proof.
  intros (Hv & Hnw & Hnr & Hwr & Hrd).
  apply lookup_lt_is_Some in Hv as [rdef Hrdef].
  exists rdef. split; [done|]. split; [done|]. split; [done|]. split.
  - intros w wp Hl.
    assert (is_Some (mem_wr_ports mem !! w)) as [wport Hwport].
    { apply lookup_lt_is_Some. rewrite <- Hnw. by eapply lookup_lt_Some. }
    destruct (Hwr _ _ _ Hwport Hl)
      as ((_ & rdef' & def & cdef & Hrdef' & Hdef & _) & _).
    assert (rdef' = rdef) as -> by congruence. by eexists.
  - intros j rp Hl.
    assert (is_Some (mem_rd_ports mem !! j)) as [port Hport].
    { apply lookup_lt_is_Some. rewrite <- Hnr. by eapply lookup_lt_Some. }
    destruct (Hrd _ _ _ Hport Hl)
      as ((rdef' & def & Hrdef' & Hdef & _ & _ & _ & _ & _ & Hshare) & _).
    assert (rdef' = rdef) as -> by congruence. split; [by eexists|].
    unfold share_in_range. case_decide as Hs; [by left|right].
    destruct Hshare as (w & wport & wp & Hw & Hwport & _).
    exists w. split; [done|]. by eapply lookup_lt_Some.
Qed.

(** ** The primitives *)

Lemma apply_wrport_opts_total {T} cfg pidx (cap : Capability T) :
  pidx < length (cfg_wr_ports cfg) →
  ∃ r, apply_wrport_opts cfg pidx cap = Ok r.
Proof.
  intros (pcfg & Hv & _)%vec_at_lt. unfold apply_wrport_opts.
  rewrite Hv. simpl.
  destruct (apply_opts (cfg_opts cfg) (cap_opts cap)) as [[] o];
    [|by eexists].
  destruct (apply_opts (wp_portopts pcfg) (cap_portopts cap)). by eexists.
Qed.

Lemma wrport_opts_applied_total {T} cfg pidx (cap : Capability T) :
  pidx < length (cfg_wr_ports cfg) →
  ∃ r, wrport_opts_applied cfg pidx cap = Ok r.
Proof.
  intros (pcfg & Hv & _)%vec_at_lt. unfold wrport_opts_applied.
  rewrite Hv. simpl. by eexists.
Qed.

Lemma apply_rdport_opts_total {T} cfg pidx (cap : Capability T) pcfg :
  cfg_rd_ports cfg !! pidx = Some pcfg →
  share_in_range (length (cfg_wr_ports cfg)) pcfg →
  ∃ r, apply_rdport_opts cfg pidx cap = Ok r.
Proof.
  intros Hl%vec_at_Ok Hs. unfold apply_rdport_opts. rewrite Hl. simpl.
  destruct Hs as [Hs|(w & Hs & Hw)]; rewrite Hs.
  - rewrite decide_False by (intros Hne; by apply Hne).
    destruct (apply_opts (cfg_opts cfg) (cap_opts cap)) as [[] o];
      [|by eexists].
    destruct (apply_opts (rp_portopts pcfg) (cap_portopts cap)).
    by eexists.
  - rewrite decide_True by lia. rewrite decide_False by lia.
    rewrite Nat2Z.id. by apply apply_wrport_opts_total.
Qed.

Lemma rdport_opts_applied_total {T} cfg pidx (cap : Capability T) pcfg :
  cfg_rd_ports cfg !! pidx = Some pcfg →
  share_in_range (length (cfg_wr_ports cfg)) pcfg →
  ∃ r, rdport_opts_applied cfg pidx cap = Ok r.
Proof.
  intros Hl%vec_at_Ok Hs. unfold rdport_opts_applied. rewrite Hl. simpl.
  destruct Hs as [Hs|(w & Hs & Hw)]; rewrite Hs.
  - rewrite decide_False by (intros Hne; by apply Hne). by eexists.
  - rewrite decide_True by lia. rewrite decide_False by lia.
    rewrite Nat2Z.id. by apply wrport_opts_applied_total.
Qed.

Lemma use_wrport_cap_total {T} cfg pidx (cap : Capability T) :
  pidx < length (cfg_wr_ports cfg) →
  ∃ r, use_wrport_cap cfg pidx cap = Ok r.
Proof.
  intros Hp. unfold use_wrport_cap.
  destruct (wrport_opts_applied_total cfg pidx cap Hp) as [[] ->]; simpl;
    [by eexists|].
  destruct (apply_wrport_opts_total cfg pidx cap Hp) as [[[] cfg2] ->];
    simpl; by eexists.
Qed.

Lemma use_rdrstval_total kind val pidx cfg rstdef pcfg :
  cfg_rd_ports cfg !! pidx = Some pcfg →
  share_in_range (length (cfg_wr_ports cfg)) pcfg →
  ∃ r, use_rdrstval kind val pidx cfg rstdef = Ok r.
Proof.
  intros Hl Hs. unfold use_rdrstval.
  case_decide; [by eexists|].
  apply vec_at_Ok in Hl as Hv. rewrite Hv. simpl.
  destruct (apply_rstval pcfg (cap_val rstdef) val) as [[] pcfg2] eqn:Ha;
    simpl; [|by eexists].
  apply apply_rstval_kept in Ha as (Hshare & _).
  set (cfg2 := cfg_set_rd_ports cfg (<[pidx:=pcfg2]> (cfg_rd_ports cfg))).
  assert (Hl2 : cfg_rd_ports cfg2 !! pidx = Some pcfg2).
  { simpl. apply list_lookup_insert_eq. by eapply lookup_lt_Some. }
  assert (Hs2 : share_in_range (length (cfg_wr_ports cfg2)) pcfg2).
  { unfold share_in_range. by rewrite Hshare. }
  destruct (rdport_opts_applied_total cfg2 pidx rstdef pcfg2 Hl2 Hs2)
    as [[] ->]; simpl; [by eexists|].
  destruct (apply_rdport_opts_total cfg2 pidx rstdef pcfg2 Hl2 Hs2)
    as [[[] cfg3] ->]; simpl; by eexists.
Qed.

(** ** The binding phases *)

Lemma handle_init_total cfgs :
  (∀ c, c ∈ cfgs → cfg_valid lib c) →
  ∃ out, handle_init mem lib cfgs = Ok out.
Proof.
  intros Hvalid. unfold handle_init.
  destruct (init_flags (mem_inits mem) false false) as [has_nonx has_one].
  destruct (negb has_nonx); [by eexists|].
  apply for_each_total. intros c Hc.
  apply Hvalid, lookup_lt_is_Some in Hc as [rdef Hl%vec_at_Ok].
  rewrite Hl. simpl. by eexists.
Qed.

Lemma handle_wr_ports_loop_total ports before cfgs :
  mem_wr_ports mem = before ++ ports →
  Forall (all_ok (length before) 0) cfgs →
  ∃ out, handle_wr_ports_loop lib ports cfgs = Ok out
    ∧ Forall (all_ok (length (mem_wr_ports mem)) 0) out.
Proof.
  revert before cfgs.
  induction ports as [|port rest IH]; intros before cfgs Hmem Hall; simpl.
  - exists cfgs. split; [done|].
    by rewrite Hmem, length_app, Nat.add_0_r.
  - destruct (wr_clk_enable port) eqn:Hen; simpl;
      [|exists []; split; [done | constructor]].
    assert (Hport : mem_wr_ports mem !! length before = Some port).
    { rewrite Hmem. apply list_lookup_middle. done. }
    assert (Hfe : ∃ new_cfgs,
              for_each (wr_port_cfg lib port) cfgs = Ok new_cfgs
              ∧ Forall (all_ok (S (length before)) 0) new_cfgs).
    { apply (for_each_total_kept (all_ok (length before) 0)); [done|].
      intros c Hc. split.
      - pose proof Hc as [Hv _]. unfold wr_port_cfg.
        apply lookup_lt_is_Some in Hv as [rdef Hl%vec_at_Ok].
        rewrite Hl. simpl. by eexists.
      - intros ys y Hf Hy.
        by destruct (wr_port_cfg_ok mem lib addr_compatible
                       get_wr_implies_rd get_wr_excludes_rd _ _ _ _ _
                       Hport Hen Hf Hy Hc). }
    destruct Hfe as (new_cfgs & -> & Hnew).
    simpl. apply (IH (before ++ [port])).
    + by rewrite <- app_assoc.
    + by rewrite length_app, Nat.add_1_r.
Qed.

Lemma rd_port_shared_total pidx port cfg rdef wpidx wport nr :
  all_ok (length (mem_wr_ports mem)) nr cfg →
  ram_defs lib !! cfg_ram_def cfg = Some rdef →
  mem_wr_ports mem !! wpidx = Some wport →
  ∃ ys, rd_port_shared addr_compatible get_wr_implies_rd get_wr_excludes_rd
          port pidx cfg rdef wpidx wport = Ok ys.
Proof.
  intros (_ & Hnw & _ & Hwr & _) Hrdef Hwport. unfold rd_port_shared.
  assert (is_Some (cfg_wr_ports cfg !! wpidx)) as [wpcfg Hl].
  { apply lookup_lt_is_Some. rewrite Hnw. by eapply lookup_lt_Some. }
  destruct (Hwr _ _ _ Hwport Hl)
    as ((_ & rdef' & def & cdef & Hrdef' & Hdef & _) & _).
  assert (rdef' = rdef) as -> by congruence.
  apply vec_at_Ok in Hl as Hv. rewrite Hv. simpl.
  apply vec_at_Ok in Hdef as ->. simpl.
  case_decide; [by eexists|]. case_decide; [by eexists|].
  destruct (negb (addr_compatible wpidx pidx)); [by eexists|].
  match goal with |- context [if ?b then Ok [] else _] => destruct b end;
    [by eexists|].
  case_decide; [|by eexists].
  apply for_each_total. intros endef _. unfold rd_port_shared_rden.
  match goal with
  | |- context [apply_wrport_opts ?c wpidx endef] =>
      destruct (apply_wrport_opts_total c wpidx endef) as [[[] cfg3] ->]
  end.
  { simpl. rewrite length_insert. by eapply lookup_lt_Some. }
  - simpl. destruct (cap_val endef); try by eexists.
    destruct (negb (get_wr_excludes_rd wpidx pidx)); by eexists.
  - simpl. by eexists.
Qed.

Lemma rd_port_cfg_total pidx port cfg nr :
  all_ok (length (mem_wr_ports mem)) nr cfg →
  ∃ ys, rd_port_cfg mem lib addr_compatible get_wr_implies_rd
          get_wr_excludes_rd pidx port cfg = Ok ys.
Proof.
  intros Hok. pose proof Hok as (Hv & _). unfold rd_port_cfg.
  apply lookup_lt_is_Some in Hv as [rdef Hrdef].
  apply vec_at_Ok in Hrdef as Hl. rewrite Hl. simpl.
  destruct (for_each_total
              (fun '(wpidx, wport) =>
                 rd_port_shared addr_compatible get_wr_implies_rd
                   get_wr_excludes_rd port pidx cfg rdef wpidx wport)
              (enumerate (mem_wr_ports mem))) as [shared ->].
  { intros [wpidx wport] Hin%elem_of_enumerate.
    by eapply rd_port_shared_total. }
  simpl. by eexists.
Qed.

Lemma handle_rd_ports_total cfgs :
  Forall (all_ok (length (mem_wr_ports mem)) 0) cfgs →
  ∃ out, handle_rd_ports mem lib addr_compatible get_wr_implies_rd
           get_wr_excludes_rd cfgs = Ok out
    ∧ Forall (all_ok (length (mem_wr_ports mem)) (length (mem_rd_ports mem)))
        out.
Proof.
  intros Hall. unfold handle_rd_ports.
  apply (generations_enumerate_total
           (fun k cs => Forall (all_ok (length (mem_wr_ports mem)) k) cs));
    [done|].
  intros i port c Hport Hc.
  apply (for_each_total_kept (all_ok (length (mem_wr_ports mem)) i)); [done|].
  intros cfg Hok. split.
  - by eapply rd_port_cfg_total.
  - intros ys y Hf Hy.
    by destruct (rd_port_cfg_ok mem lib addr_compatible get_wr_implies_rd
                   get_wr_excludes_rd _ _ _ _ _ Hport Hok Hf Hy).
Qed.

(** ** The phases after the binding *)

Local Abbreviation idx_ok :=
  (indices_ok lib (length (mem_wr_ports mem)) (length (mem_rd_ports mem))).

Lemma indices_ok_rd_lookup nw nr cfg pidx :
  indices_ok lib nw nr cfg → pidx < nr →
  ∃ pcfg, cfg_rd_ports cfg !! pidx = Some pcfg
    ∧ share_in_range (length (cfg_wr_ports cfg)) pcfg.
Proof.
  intros (rdef & _ & Hnw & Hnr & _ & Hrd) Hp.
  assert (is_Some (cfg_rd_ports cfg !! pidx)) as [pcfg Hl]
    by (apply lookup_lt_is_Some; lia).
  exists pcfg. split; [done|]. rewrite Hnw. by eapply Hrd.
Qed.

Lemma for_each_idx_ok (f : MemConfig → outcome MemConfigs) cfgs :
  Forall idx_ok cfgs →
  (∀ c, idx_ok c → ∃ ys, f c = Ok ys) →
  (∀ c ys y, f c = Ok ys → y ∈ ys → binding_kept c y) →
  ∃ out, for_each f cfgs = Ok out ∧ Forall idx_ok out.
Proof.
  intros Hall Htotal Hkept.
  apply (for_each_total_kept idx_ok); [done|]. intros c Hc.
  split; [by apply Htotal|]. intros ys y Hf Hy.
  eapply indices_ok_kept; [by eapply Hkept | done].
Qed.

Lemma trans_cap_total rpidx wpidx transparent cfg wpcfg rpdef tdef :
  pg_names (cap_val rpdef) ≠ [] → wpidx < length (cfg_wr_ports cfg) →
  ∃ r, trans_cap rpidx wpidx transparent cfg wpcfg rpdef tdef = Ok r.
Proof.
  intros Hn Hw. unfold trans_cap.
  destruct (pg_names (cap_val rpdef)) as [|name0 names]; [done|].
  destruct (wt_target_kind (cap_val tdef)); simpl;
    (match goal with |- context [if negb ?b then _ else _] => destruct b end;
     simpl; [|by eexists]);
    (match goal with
     | |- context [if ?c then Ok ([], false) else _] => destruct c
     end; [by eexists|]);
    by apply use_wrport_cap_total.
Qed.

Lemma trans_cfg_total rpidx wpidx transparent cfg nw nr :
  lib_names_ok lib → indices_ok lib nw nr cfg → rpidx < nr → wpidx < nw →
  ∃ ys, trans_cfg lib rpidx wpidx transparent cfg = Ok ys.
Proof.
  intros Hnames (rdef & Hrdef & Hnw & Hnr & Hwr & Hrd) Hr Hw.
  unfold trans_cfg.
  destruct (vec_at_lt (cfg_rd_ports cfg) rpidx) as (rpcfg & -> & Hlr);
    [lia|].
  destruct (vec_at_lt (cfg_wr_ports cfg) wpidx) as (wpcfg & -> & Hlw);
    [lia|].
  simpl. apply vec_at_Ok in Hrdef as Hv. rewrite Hv. simpl.
  destruct (Hwr _ _ Hlw) as [wpdef Hwpdef].
  destruct (Hrd _ _ Hlr) as [[rpdef Hrpdef] _].
  apply vec_at_Ok in Hwpdef as Hv1. rewrite Hv1. simpl.
  apply vec_at_Ok in Hrpdef as Hv2. rewrite Hv2. simpl.
  destruct (rp_emu_sync rpcfg); [destruct transparent; by eexists|].
  destruct (caps_loop_total
              (trans_cap rpidx wpidx transparent cfg wpcfg rpdef)
              (pg_wrtrans (cap_val wpdef))) as [[new_cfgs ff] ->].
  { intros tdef _. apply trans_cap_total; [|lia].
    eapply Hnames; by eapply list_elem_of_lookup_2. }
  simpl. destruct (negb ff && transparent); by eexists.
Qed.

Lemma trans_pair_total rpidx rport wpidx wport cfgs :
  mem_wf mem → lib_names_ok lib →
  mem_rd_ports mem !! rpidx = Some rport →
  mem_wr_ports mem !! wpidx = Some wport →
  Forall idx_ok cfgs →
  ∃ out, trans_pair lib rpidx rport wpidx wport cfgs = Ok out
    ∧ Forall idx_ok out.
Proof.
  intros [Hmasks _] Hnames Hrport Hwport Hall. unfold trans_pair.
  destruct (negb (wr_clk_enable wport)); [by exists cfgs|].
  case_decide; [by exists cfgs|]. case_decide; [by exists cfgs|].
  destruct (Hmasks rport) as [Ht Hx]; [by eapply list_elem_of_lookup_2|].
  apply lookup_lt_Some in Hwport as Hw. apply lookup_lt_Some in Hrport as Hr.
  destruct (vec_at_lt (rd_collision_x_mask rport) wpidx) as ([] & -> & _);
    [lia|by exists cfgs|]. simpl.
  destruct (vec_at_lt (rd_transparency_mask rport) wpidx) as (t & -> & _);
    [lia|]. simpl.
  apply for_each_idx_ok; [done| |].
  - intros c Hc. by eapply trans_cfg_total.
  - intros c ys y. apply trans_cfg_kept.
Qed.

Lemma handle_trans_total cfgs :
  mem_wf mem → lib_names_ok lib → Forall idx_ok cfgs →
  ∃ out, handle_trans mem lib cfgs = Ok out ∧ Forall idx_ok out.
Proof.
  intros Hwf Hnames Hall. unfold handle_trans.
  apply (generations_enumerate_total (fun _ cs => Forall idx_ok cs));
    [done|].
  intros rpidx rport c Hrport Hc. unfold trans_rd_port.
  destruct (negb (rd_clk_enable rport)); [by exists c|].
  apply (generations_enumerate_total (fun _ cs => Forall idx_ok cs));
    [done|].
  intros wpidx wport c' Hwport Hc'. by apply trans_pair_total.
Qed.

Lemma priority_cfg_total p1idx p2idx cfg nw nr :
  lib_names_ok lib → indices_ok lib nw nr cfg → p1idx < nr → p2idx < nw →
  ∃ ys, priority_cfg lib p1idx p2idx cfg = Ok ys.
Proof.
  intros Hnames (rdef & Hrdef & Hnw & Hnr & Hwr & Hrd) H1 H2.
  unfold priority_cfg.
  destruct (vec_at_lt (cfg_rd_ports cfg) p1idx) as (p1cfg & -> & Hl1);
    [lia|].
  destruct (vec_at_lt (cfg_wr_ports cfg) p2idx) as (p2cfg & -> & Hl2);
    [lia|].
  simpl. apply vec_at_Ok in Hrdef as Hv. rewrite Hv. simpl.
  destruct (Hrd _ _ Hl1) as [[p1def Hp1def] _].
  destruct (Hwr _ _ Hl2) as [p2def Hp2def].
  apply vec_at_Ok in Hp1def as Hv1. rewrite Hv1. simpl.
  apply vec_at_Ok in Hp2def as Hv2. rewrite Hv2. simpl.
  destruct (caps_loop_total (priority_cap p2idx cfg p1def)
              (pg_wrprio (cap_val p2def))) as [[new_cfgs ff] ->].
  { intros prdef _. unfold priority_cap.
    assert (Hn : pg_names (cap_val p1def) ≠ [])
      by (eapply Hnames; by eapply list_elem_of_lookup_2).
    destruct (pg_names (cap_val p1def)) as [|name0 names]; [done|]. simpl.
    case_decide; [by eexists|]. apply use_wrport_cap_total. lia. }
  simpl. destruct (negb ff); by eexists.
Qed.

Lemma handle_priority_total cfgs :
  mem_wf mem → lib_names_ok lib → prio_in_range mem →
  Forall idx_ok cfgs →
  ∃ out, handle_priority mem lib cfgs = Ok out ∧ Forall idx_ok out.
Proof.
  intros [_ Hmasks] Hnames Hprio Hall. unfold handle_priority.
  apply (generations_enumerate_total (fun _ cs => Forall idx_ok cs));
    [done|].
  intros p1idx port1 c Hport1 Hc.
  apply (generations_enumerate_total (fun _ cs => Forall idx_ok cs));
    [done|].
  intros p2idx port2 c' Hport2 Hc'. unfold priority_pair.
  apply lookup_lt_Some in Hport1 as H1. apply lookup_lt_Some in Hport2 as H2.
  pose proof (Hmasks port2 (list_elem_of_lookup_2 _ _ _ Hport2)) as Hlen.
  destruct (vec_at_lt (wr_priority_mask port2) p1idx) as ([] & -> & Hbit);
    [lia| |by exists c']. simpl.
  apply for_each_idx_ok; [done| |].
  - intros cfg Hcfg. eapply priority_cfg_total; [done|done| |done].
    by eapply Hprio.
  - intros cfg ys y. apply priority_cfg_kept.
Qed.

Lemma rd_rst_cfg_total (body : Capability ResetValDef
                               → outcome (list MemConfig * bool))
    cfg pidx (pcfg' : RdPortConfig → RdPortConfig) nw nr :
  indices_ok lib nw nr cfg → pidx < nr →
  (∀ pcfg rstdef, cfg_rd_ports cfg !! pidx = Some pcfg →
     share_in_range (length (cfg_wr_ports cfg)) pcfg →
     ∃ r, body rstdef = Ok r) →
  ∃ ys,
    (pcfg ← vec_at (cfg_rd_ports cfg) pidx;
     rdef ← vec_at (ram_defs lib) (cfg_ram_def cfg);
     pdef ← vec_at (ram_ports rdef) (rp_port_def pcfg);
     if rp_emu_sync pcfg then Ok [cfg]
     else
       '(new_cfgs, found_free) ←
         caps_loop body (pg_rdrstval (cap_val pdef));
       if negb found_free then
         Ok (new_cfgs ++
               [cfg_set_rd_ports cfg
                  (<[pidx := pcfg' pcfg]> (cfg_rd_ports cfg))])
       else Ok new_cfgs) = Ok ys.
Proof.
  intros Hidx Hp Hbody.
  destruct (indices_ok_rd_lookup _ _ _ _ Hidx Hp) as (pcfg & Hl & Hs).
  destruct Hidx as (rdef & Hrdef & _ & _ & _ & Hrd).
  destruct (Hrd _ _ Hl) as [[pdef Hpdef] _].
  apply vec_at_Ok in Hl as Hv. rewrite Hv. simpl.
  apply vec_at_Ok in Hrdef as Hv1. rewrite Hv1. simpl.
  apply vec_at_Ok in Hpdef as Hv2. rewrite Hv2. simpl.
  destruct (rp_emu_sync pcfg); [by eexists|].
  destruct (caps_loop_total body (pg_rdrstval (cap_val pdef)))
    as [[new_cfgs ff] ->].
  { intros rstdef _. by eapply Hbody. }
  simpl. destruct (negb ff); by eexists.
Qed.

Lemma rd_init_cfg_total port pidx cfg nw nr :
  indices_ok lib nw nr cfg → pidx < nr →
  ∃ ys, rd_init_cfg lib port pidx cfg = Ok ys.
Proof.
  intros Hidx Hp.
  apply (rd_rst_cfg_total _ cfg pidx (fun p => rp_set_emu_init p true) nw nr);
    [done|done|].
  intros pcfg rstdef Hl Hs. unfold rd_init_cap.
  destruct (use_rdrstval_total ResetKind.Init (rd_init_value port) pidx cfg
              rstdef pcfg Hl Hs) as [[kept free] ->].
  simpl. by eexists.
Qed.

Lemma rd_arst_cfg_total port pidx cfg nw nr :
  indices_ok lib nw nr cfg → pidx < nr →
  ∃ ys, rd_arst_cfg lib port pidx cfg = Ok ys.
Proof.
  intros Hidx Hp.
  apply (rd_rst_cfg_total _ cfg pidx (fun p => rp_set_emu_arst p true) nw nr);
    [done|done|].
  intros pcfg rstdef Hl Hs. unfold rd_arst_cap.
  destruct (use_rdrstval_total ResetKind.Async (rd_arst_value port) pidx cfg
              rstdef pcfg Hl Hs) as [[kept free] ->].
  simpl. by eexists.
Qed.

Lemma rd_srst_mode_total port pidx cfg2 mdef nw nr :
  indices_ok lib nw nr cfg2 → pidx < nr →
  ∃ ys, rd_srst_mode port pidx cfg2 mdef = Ok ys.
Proof.
  intros Hidx Hp.
  destruct (indices_ok_rd_lookup _ _ _ _ Hidx Hp) as (pcfg & Hl & Hs).
  unfold rd_srst_mode. apply vec_at_Ok in Hl as Hv. rewrite Hv. simpl.
  match goal with
  | |- context [apply_rdport_opts ?c pidx mdef] =>
      match c with
      | cfg_set_rd_ports _ (<[pidx := ?p]> _) =>
          destruct (apply_rdport_opts_total c pidx mdef p)
            as [[[] cfg3] ->]
      end
  end.
  - simpl. apply list_lookup_insert_eq. by eapply lookup_lt_Some.
  - unfold share_in_range in *. simpl.
    by repeat match goal with |- context [if ?b then _ else _] =>
                destruct b end.
  - simpl. by eexists.
  - simpl. by eexists.
Qed.

Lemma rd_srst_cfg_total port pidx cfg nw nr :
  indices_ok lib nw nr cfg → pidx < nr →
  ∃ ys, rd_srst_cfg lib port pidx cfg = Ok ys.
Proof.
  intros Hidx Hp. unfold rd_srst_cfg.
  destruct (indices_ok_rd_lookup _ _ _ _ Hidx Hp) as (pcfg & Hl & Hs).
  pose proof Hidx as (rdef & Hrdef & _ & _ & _ & Hrd).
  destruct (Hrd _ _ Hl) as [[pdef Hpdef] _].
  apply vec_at_Ok in Hl as Hv. rewrite Hv. simpl.
  apply vec_at_Ok in Hrdef as Hv1. rewrite Hv1. simpl.
  apply vec_at_Ok in Hpdef as Hv2. rewrite Hv2. simpl.
  destruct (rp_emu_sync pcfg); [by eexists|].
  destruct (caps_loop_total (rd_srst_cap port pidx cfg pdef)
              (pg_rdrstval (cap_val pdef))) as [[new_cfgs ff] ->].
  { intros rstdef _. unfold rd_srst_cap.
    destruct (use_rdrstval_total ResetKind.Sync (rd_srst_value port) pidx cfg
                rstdef pcfg Hl Hs) as [[[cfg2|] free] Hu]; rewrite Hu; simpl;
      [|by eexists].
    case_decide; [by eexists|].
    apply use_rdrstval_kept in Hu.
    destruct (for_each_total (rd_srst_mode port pidx cfg2)
                (pg_rdsrstmode (cap_val pdef))) as [ys ->].
    { intros mdef _. eapply rd_srst_mode_total; [|done].
      by eapply indices_ok_kept. }
    simpl. by eexists. }
  simpl. destruct (negb ff); by eexists.
Qed.

Lemma handle_rd_init_total cfgs :
  Forall idx_ok cfgs →
  ∃ out, handle_rd_init mem lib cfgs = Ok out ∧ Forall idx_ok out.
Proof.
  intros Hall. unfold handle_rd_init.
  apply (generations_enumerate_total (fun _ cs => Forall idx_ok cs));
    [done|].
  intros pidx port c Hport%lookup_lt_Some Hc.
  destruct (negb (rd_clk_enable port)); [by exists c|].
  destruct (is_fully_undef (rd_init_value port)); [by exists c|].
  apply for_each_idx_ok; [done| |].
  - intros cfg Hcfg. by eapply rd_init_cfg_total.
  - intros cfg ys y. apply rd_init_cfg_kept.
Qed.

Lemma handle_rd_arst_total cfgs :
  Forall idx_ok cfgs →
  ∃ out, handle_rd_arst mem lib cfgs = Ok out ∧ Forall idx_ok out.
Proof.
  intros Hall. unfold handle_rd_arst.
  apply (generations_enumerate_total (fun _ cs => Forall idx_ok cs));
    [done|].
  intros pidx port c Hport%lookup_lt_Some Hc.
  destruct (negb (rd_clk_enable port)); [by exists c|].
  case_decide; [by exists c|].
  destruct (is_fully_undef (rd_arst_value port)); [by exists c|].
  apply for_each_idx_ok; [done| |].
  - intros cfg Hcfg. by eapply rd_arst_cfg_total.
  - intros cfg ys y. apply rd_arst_cfg_kept.
Qed.

Lemma handle_rd_srst_total cfgs :
  Forall idx_ok cfgs →
  ∃ out, handle_rd_srst mem lib cfgs = Ok out ∧ Forall idx_ok out.
Proof.
  intros Hall. unfold handle_rd_srst.
  apply (generations_enumerate_total (fun _ cs => Forall idx_ok cs));
    [done|].
  intros pidx port c Hport%lookup_lt_Some Hc.
  destruct (negb (rd_clk_enable port)); [by exists c|].
  case_decide; [by exists c|].
  destruct (is_fully_undef (rd_srst_value port)); [by exists c|].
  apply for_each_idx_ok; [done| |].
  - intros cfg Hcfg. by eapply rd_srst_cfg_total.
  - intros cfg ys y. apply rd_srst_cfg_kept.
Qed.

Lemma emulation_phases_total cfgs :
  mem_wf mem → lib_names_ok lib → prio_in_range mem →
  Forall idx_ok cfgs →
  ∃ out, emulation_phases mem lib cfgs = Ok out.
Proof.
  intros Hwf Hnames Hprio Hall. unfold emulation_phases, handle_dims.
  destruct (handle_trans_total cfgs) as (c1 & -> & H1); [done..|]. simpl.
  destruct (handle_priority_total c1) as (c2 & -> & H2); [done..|]. simpl.
  destruct (handle_rd_init_total c2) as (c3 & -> & H3); [done|]. simpl.
  destruct (handle_rd_arst_total c3) as (c4 & -> & H4); [done|]. simpl.
  destruct (handle_rd_srst_total c4) as (c5 & -> & H5); [done|]. simpl.
  by eexists.
Qed.

(** X22.  The constructor indexes no vector out of range, and so returns
    a result or one of its two fatal errors, when the masks of the ports
    of the memory have one entry per write port, every port group of the
    library has a name, and every write port that another write port has
    priority over has the index of a read port (the index that
    [handle_priority] reads [cfg.rd_ports] at). *)
Theorem constructor_indices_in_range :
  mem_wf mem → lib_names_ok lib → prio_in_range mem →
  (∃ st, MemMapping mem lib addr_compatible get_wr_implies_rd
           get_wr_excludes_rd = Ok st)
  ∨ MemMapping mem lib addr_compatible get_wr_implies_rd get_wr_excludes_rd
    = Err (FatalNoRamOfKind (determine_style mem).1)
  ∨ MemMapping mem lib addr_compatible get_wr_implies_rd get_wr_excludes_rd
    = Err (FatalNoRamWithStyle (determine_style mem).2).
Proof.
  intros Hwf Hnames Hprio.
  destruct (decide ((determine_style mem).1 = RamKind.Logic)) as [Hl|Hl].
  { left. unfold MemMapping. destruct (determine_style mem) as [kind style].
    simpl in Hl. rewrite decide_True by done. by eexists. }
  destruct (handle_ram_kind_cases lib (determine_style mem).1)
    as [(c1 & H1 & _)|(H1 & _)].
  2:{ right. left. by apply MemMapping_kind_Err. }
  assert (Hv1 : ∀ c, c ∈ c1 → cfg_valid lib c).
  { intros c Hc.
    destruct (handle_ram_kind_kept _ _ _ _ _ H1 Hc) as (c0 & Hc0 & Hd & _).
    apply initial_cfgs_spec in Hc0 as [Hv _]. unfold cfg_valid in *.
    by rewrite Hd. }
  destruct (handle_ram_style_cases lib (determine_style mem).2 c1 Hv1)
    as [(c2 & H2 & _)|(H2 & _)].
  2:{ right. right. by eapply MemMapping_style_Err. }
  left.
  assert (Hv2 : ∀ c, c ∈ c2 → cfg_valid lib c).
  { intros c Hc.
    destruct (handle_ram_style_kept _ _ _ _ _ H2 Hc) as (c0 & Hc0 & Hd & _).
    apply Hv1 in Hc0. unfold cfg_valid in *. by rewrite Hd. }
  destruct (handle_init_total c2 Hv2) as [c3 H3].
  pose proof (pre_binding_ok mem lib addr_compatible get_wr_implies_rd
                get_wr_excludes_rd _ _ _ _ _ H1 H2 H3) as Hok3.
  destruct (handle_wr_ports_loop_total (mem_wr_ports mem) [] c3 eq_refl Hok3)
    as (c4 & H4 & Hok4).
  destruct (handle_rd_ports_total c4 Hok4) as (c5 & H5 & Hok5).
  destruct (emulation_phases_total c5) as [c6 H6]; [done..| |].
  { eapply Forall_impl; [done|]. intros c. apply ports_ok_indices. }
  unfold MemMapping, binding_phases, handle_wr_ports.
  destruct (determine_style mem) as [kind style]. simpl in *.
  rewrite decide_False by done.
  rewrite H1. simpl. rewrite H2. simpl. rewrite H3. simpl.
  rewrite H4. simpl. rewrite H5. simpl. rewrite H6. simpl. by eexists.
Qed.

End RangeProperties.

(** * The options of a port *)

Section PortOptionProperties.
Context `{Kernel}.

Lemma cfg_set_opts_id (cfg : MemConfig) :
  cfg_set_opts cfg (cfg_opts cfg) = cfg.
Proof. by destruct cfg. Qed.

Lemma cfg_set_wr_ports_id (cfg : MemConfig) :
  cfg_set_wr_ports cfg (cfg_wr_ports cfg) = cfg.
Proof. by destruct cfg. Qed.

Lemma cfg_set_rd_ports_id (cfg : MemConfig) :
  cfg_set_rd_ports cfg (cfg_rd_ports cfg) = cfg.
Proof. by destruct cfg. Qed.

Lemma wp_set_portopts_id (p : WrPortConfig) :
  wp_set_portopts p (wp_portopts p) = p.
Proof. by destruct p. Qed.

Lemma rp_set_portopts_id (p : RdPortConfig) :
  rp_set_portopts p (rp_portopts p) = p.
Proof. by destruct p. Qed.

Lemma apply_opts_true_unchanged (dst : gmap string Const) (src : OptionEntries) :
  apply_opts dst src = (true, dst) ↔ opts_applied dst src = true.
Proof.
  split.
  - intros Ha. pose proof (apply_opts_true_applied src dst) as Ht.
    rewrite Ha in Ht. by apply Ht.
  - intros Ha.
    destruct (apply_opts_least src dst dst) as [H1 H2]; [done|done|].
    pose proof (apply_opts_subseteq src dst) as H3.
    destruct (apply_opts dst src) as [ok o]. simpl in *. subst ok.
    f_equal. apply map_eq. intros k.
    apply option_eq. intros v. split; intros Hl; by eapply lookup_weaken.
Qed.

Lemma apply_opts_unchanged_inv (dst o : gmap string Const) (src : OptionEntries) ok :
  apply_opts dst src = (ok, o) → o = dst → opts_applied dst src = ok.
Proof.
  intros Ha ->. destruct ok.
  - by apply apply_opts_true_unchanged.
  - destruct (opts_applied dst src) eqn:Happ; [|done].
    apply apply_opts_true_unchanged in Happ. congruence.
Qed.

Lemma wrport_apply_unchanged {T} cfg pidx (cap : Capability T) :
  wrport_opts_applied cfg pidx cap = Ok true
  ↔ apply_wrport_opts cfg pidx cap = Ok (true, cfg).
Proof.
  unfold wrport_opts_applied, apply_wrport_opts.
  destruct (vec_at (cfg_wr_ports cfg) pidx) as [pcfg|e] eqn:Hv; simpl;
    [|done].
  apply vec_at_Ok in Hv. split.
  - intros [= [H1 H2]%andb_true_iff].
    apply apply_opts_true_unchanged in H1, H2. rewrite H1, H2.
    by rewrite wp_set_portopts_id, cfg_set_opts_id, list_insert_id,
         cfg_set_wr_ports_id.
  - destruct (apply_opts (cfg_opts cfg) (cap_opts cap)) as [[] o] eqn:H1;
      [|done].
    destruct (apply_opts (wp_portopts pcfg) (cap_portopts cap))
      as [ok2 po] eqn:H2.
    intros [= -> Hcfg]. f_equal. apply andb_true_iff.
    assert (Ho : o = cfg_opts cfg).
    { by pose proof (f_equal cfg_opts Hcfg) as Ho. }
    assert (Hpo : po = wp_portopts pcfg).
    { assert (Hl : cfg_wr_ports cfg !! pidx
                   = Some (wp_set_portopts pcfg po)).
      { pose proof (f_equal cfg_wr_ports Hcfg) as Hw. simpl in Hw.
        rewrite <- Hw. apply list_lookup_insert_eq.
        by eapply lookup_lt_Some. }
      rewrite Hv in Hl. injection Hl as Hl. by rewrite Hl. }
    split; by eapply apply_opts_unchanged_inv.
Qed.

Lemma wrport_apply_applied {T} cfg pidx (cap : Capability T) cfg' :
  apply_wrport_opts cfg pidx cap = Ok (true, cfg') →
  wrport_opts_applied cfg' pidx cap = Ok true.
Proof.
  unfold wrport_opts_applied, apply_wrport_opts. intros Ha.
  apply bind_Ok in Ha as (pcfg & Hv%vec_at_Ok & Ha).
  destruct (apply_opts (cfg_opts cfg) (cap_opts cap)) as [[] o] eqn:H1;
    [|done].
  destruct (apply_opts (wp_portopts pcfg) (cap_portopts cap))
    as [ok2 po] eqn:H2.
  injection Ha as -> <-. simpl.
  assert (Hl : <[pidx:=wp_set_portopts pcfg po]> (cfg_wr_ports cfg) !! pidx
               = Some (wp_set_portopts pcfg po)).
  { apply list_lookup_insert_eq. by eapply lookup_lt_Some. }
  apply vec_at_Ok in Hl. rewrite Hl. simpl.
  apply apply_opts_ok_applied in H1, H2. by rewrite H1, H2.
Qed.

(** X23.  The options of a capability on a port, for a write port and for
    a read port (whose port options are those of the write port it
    shares, if it shares one): the check that they are applied succeeds
    exactly when applying them succeeds and leaves the candidate as it
    is; and after applying them with success the check succeeds. *)
Theorem port_opts_applied_iff_apply_unchanged {T} cfg pidx
    (cap : Capability T) :
  (wrport_opts_applied cfg pidx cap = Ok true
   ↔ apply_wrport_opts cfg pidx cap = Ok (true, cfg))
  ∧ (rdport_opts_applied cfg pidx cap = Ok true
     ↔ apply_rdport_opts cfg pidx cap = Ok (true, cfg))
  ∧ (∀ cfg', apply_wrport_opts cfg pidx cap = Ok (true, cfg') →
       wrport_opts_applied cfg' pidx cap = Ok true)
  ∧ (∀ cfg', apply_rdport_opts cfg pidx cap = Ok (true, cfg') →
       rdport_opts_applied cfg' pidx cap = Ok true).
Proof.
  split; [apply wrport_apply_unchanged|].
  split; [|split; [apply wrport_apply_applied|]].
  - unfold rdport_opts_applied, apply_rdport_opts.
    destruct (vec_at (cfg_rd_ports cfg) pidx) as [pcfg|e] eqn:Hv; simpl;
      [|done].
    apply vec_at_Ok in Hv.
    case_decide; [case_decide; [done | apply wrport_apply_unchanged]|].
    split.
    + intros [= [H1 H2]%andb_true_iff].
      apply apply_opts_true_unchanged in H1, H2. rewrite H1, H2.
      by rewrite rp_set_portopts_id, cfg_set_opts_id, list_insert_id,
           cfg_set_rd_ports_id.
    + destruct (apply_opts (cfg_opts cfg) (cap_opts cap)) as [[] o] eqn:H1;
        [|done].
      destruct (apply_opts (rp_portopts pcfg) (cap_portopts cap))
        as [ok2 po] eqn:H2.
      intros [= -> Hcfg]. f_equal. apply andb_true_iff.
      assert (Ho : o = cfg_opts cfg).
      { by pose proof (f_equal cfg_opts Hcfg) as Ho. }
      assert (Hpo : po = rp_portopts pcfg).
      { assert (Hl : cfg_rd_ports cfg !! pidx
                     = Some (rp_set_portopts pcfg po)).
        { pose proof (f_equal cfg_rd_ports Hcfg) as Hr. simpl in Hr.
          rewrite <- Hr. apply list_lookup_insert_eq.
          by eapply lookup_lt_Some. }
        rewrite Hv in Hl. injection Hl as Hl. by rewrite Hl. }
      split; by eapply apply_opts_unchanged_inv.
  - intros cfg'. unfold rdport_opts_applied, apply_rdport_opts. intros Ha.
    apply bind_Ok in Ha as (pcfg & Hv%vec_at_Ok & Ha).
    case_decide as Hshare.
    + case_decide; [done|].
      pose proof (apply_wrport_opts_rd_ports _ _ _ _ _ Ha) as Hrd.
      rewrite Hrd. apply vec_at_Ok in Hv. rewrite Hv. simpl.
      rewrite decide_True by done. rewrite decide_False by done.
      by eapply wrport_apply_applied.
    + destruct (apply_opts (cfg_opts cfg) (cap_opts cap)) as [[] o] eqn:H1;
        [|done].
      destruct (apply_opts (rp_portopts pcfg) (cap_portopts cap))
        as [ok2 po] eqn:H2.
      injection Ha as -> <-. simpl.
      assert (Hl : <[pidx:=rp_set_portopts pcfg po]> (cfg_rd_ports cfg)
                     !! pidx = Some (rp_set_portopts pcfg po)).
      { apply list_lookup_insert_eq. by eapply lookup_lt_Some. }
      apply vec_at_Ok in Hl. rewrite Hl. simpl.
      rewrite decide_False by (intros Hne; by apply Hne).
      apply apply_opts_ok_applied in H1, H2. by rewrite H1, H2.
Qed.

End PortOptionProperties.

(** * One read port for a write port *)

Section SharingProperties.
Context `{Kernel}.
Variable mem : Mem.
Variable lib : Library.
Variable addr_compatible : nat → nat → bool.
Variable get_wr_implies_rd : nat → nat → bool.
Variable get_wr_excludes_rd : nat → nat → bool.

(** X24.  In a candidate that the constructor leaves no write port is
    shared by two read ports, and no read port by two write ports. *)
Theorem sharing_one_to_one st c :
  MemMapping mem lib addr_compatible get_wr_implies_rd get_wr_excludes_rd
  = Ok st →
  c ∈ mm_cfgs st →
  (∀ j1 j2 p1 p2,
     cfg_rd_ports c !! j1 = Some p1 → cfg_rd_ports c !! j2 = Some p2 →
     rp_wr_port p1 ≠ (-1)%Z → rp_wr_port p1 = rp_wr_port p2 → j1 = j2)
  ∧ (∀ w1 w2 q1 q2,
       cfg_wr_ports c !! w1 = Some q1 → cfg_wr_ports c !! w2 = Some q2 →
       wp_rd_port q1 ≠ (-1)%Z → wp_rd_port q1 = wp_rd_port q2 → w1 = w2).
Proof.
  intros Hrun Hc.
  destruct (MemMapping_final mem lib addr_compatible get_wr_implies_rd
              get_wr_excludes_rd st c Hrun Hc) as ((_ & Hnw & Hnr & Hwr & Hrd)
                                                   & _).
  assert (Hshared : ∀ j p, cfg_rd_ports c !! j = Some p →
            rp_wr_port p ≠ (-1)%Z →
            ∃ w wp, rp_wr_port p = Z.of_nat w
              ∧ cfg_wr_ports c !! w = Some wp
              ∧ wp_rd_port wp = Z.of_nat j).
  { intros j p Hl Hs.
    assert (is_Some (mem_rd_ports mem !! j)) as [port Hport].
    { apply lookup_lt_is_Some. rewrite <- Hnr. by eapply lookup_lt_Some. }
    destruct (Hrd _ _ _ Hport Hl)
      as ((rdef & def & _ & _ & _ & _ & _ & _ & _ & Hshare) & _).
    rewrite decide_False in Hshare by done.
    destruct Hshare as (w & wport & wp & ? & _ & ? & ? & _).
    by exists w, wp. }
  assert (Hsharing : ∀ w q, cfg_wr_ports c !! w = Some q →
            wp_rd_port q ≠ (-1)%Z →
            ∃ j rp, wp_rd_port q = Z.of_nat j
              ∧ cfg_rd_ports c !! j = Some rp
              ∧ rp_wr_port rp = Z.of_nat w).
  { intros w q Hl Hs.
    assert (is_Some (mem_wr_ports mem !! w)) as [wport Hwport].
    { apply lookup_lt_is_Some. rewrite <- Hnw. by eapply lookup_lt_Some. }
    by destruct (Hwr _ _ _ Hwport Hl) as (_ & [?|?] & _). }
  split.
  - intros j1 j2 p1 p2 Hl1 Hl2 Hs Heq.
    destruct (Hshared _ _ Hl1 Hs) as (w1 & wp1 & Hw1 & Hwp1 & Hj1).
    destruct (Hshared j2 p2 Hl2) as (w2 & wp2 & Hw2 & Hwp2 & Hj2);
      [congruence|].
    assert (w2 = w1) as -> by lia.
    assert (wp2 = wp1) as -> by congruence. lia.
  - intros w1 w2 q1 q2 Hl1 Hl2 Hs Heq.
    destruct (Hsharing _ _ Hl1 Hs) as (j1 & rp1 & Hj1 & Hrp1 & Hw1).
    destruct (Hsharing w2 q2 Hl2) as (j2 & rp2 & Hj2 & Hrp2 & Hw2);
      [congruence|].
    assert (j2 = j1) as -> by lia.
    assert (rp2 = rp1) as -> by congruence. lia.
Qed.

End SharingProperties.

(** * Where the options of a candidate come from *)

Section SourceProperties.
Context `{Kernel}.
Variable mem : Mem.
Variable lib : Library.
Variable addr_compatible : nat → nat → bool.
Variable get_wr_implies_rd : nat → nat → bool.
Variable get_wr_excludes_rd : nat → nat → bool.
Variables D DP : string → Const → Prop.

Lemma opts_sourced_refl (P : string → Const → Prop) o : opts_sourced P o o.
Proof. intros k v ?. by left. Qed.

Lemma opts_sourced_trans (P : string → Const → Prop) o1 o2 o3 :
  opts_sourced P o1 o2 → opts_sourced P o2 o3 → opts_sourced P o1 o3.
Proof.
  intros H12 H23 k v Hl. destruct (H23 k v Hl) as [Hl2|?]; [|by right].
  by apply H12.
Qed.

Lemma sourced_refl c : sourced D DP c c.
Proof.
  split; [done|]. split; [apply opts_sourced_refl|].
  split; intros j; apply opts_sourced_refl.
Qed.

Lemma sourced_trans c1 c2 c3 :
  sourced D DP c1 c2 → sourced D DP c2 c3 → sourced D DP c1 c3.
Proof.
  intros (Hd1 & Ho1 & Hw1 & Hr1) (Hd2 & Ho2 & Hw2 & Hr2).
  split; [congruence|]. split; [by eapply opts_sourced_trans|].
  split; intros j; by eapply opts_sourced_trans.
Qed.

Lemma apply_opts_sourced (P : string → Const → Prop)
    (dst : gmap string Const) src ok o :
  apply_opts dst src = (ok, o) → (∀ k v, (k, v) ∈ src → P k v) →
  opts_sourced P dst o.
Proof.
  intros Ha Hsrc k v Hl.
  pose proof (apply_opts_lookup src dst k v) as Hlk. rewrite Ha in Hlk.
  destruct (Hlk Hl) as [?|[_ ?]]; [by left | right; by apply Hsrc].
Qed.

Lemma sourced_set_opts c o :
  opts_sourced D (cfg_opts c) o → sourced D DP c (cfg_set_opts c o).
Proof.
  intros Ho. split; [done|]. split; [done|].
  split; intros j; apply opts_sourced_refl.
Qed.

Lemma wr_popts_insert c pidx p p' j :
  cfg_wr_ports c !! pidx = Some p →
  wr_popts (cfg_set_wr_ports c (<[pidx:=p']> (cfg_wr_ports c))) j
  = if decide (j = pidx) then wp_portopts p' else wr_popts c j.
Proof.
  intros Hl. unfold wr_popts. simpl. case_decide as Hj.
  - subst j. rewrite list_lookup_insert_eq by (by eapply lookup_lt_Some).
    done.
  - by rewrite list_lookup_insert_ne.
Qed.

Lemma rd_popts_insert c pidx p p' j :
  cfg_rd_ports c !! pidx = Some p →
  rd_popts (cfg_set_rd_ports c (<[pidx:=p']> (cfg_rd_ports c))) j
  = if decide (j = pidx) then rp_portopts p' else rd_popts c j.
Proof.
  intros Hl. unfold rd_popts. simpl. case_decide as Hj.
  - subst j. rewrite list_lookup_insert_eq by (by eapply lookup_lt_Some).
    done.
  - by rewrite list_lookup_insert_ne.
Qed.

Lemma sourced_wr_port c pidx p p' :
  cfg_wr_ports c !! pidx = Some p →
  opts_sourced DP (wp_portopts p) (wp_portopts p') →
  sourced D DP c (cfg_set_wr_ports c (<[pidx:=p']> (cfg_wr_ports c))).
Proof.
  intros Hl Hp. split; [done|]. split; [apply opts_sourced_refl|]. split.
  - intros j. rewrite (wr_popts_insert _ _ _ _ _ Hl). case_decide as Hj.
    + subst j. unfold wr_popts at 1. by rewrite Hl.
    + apply opts_sourced_refl.
  - intros j. apply opts_sourced_refl.
Qed.

Lemma sourced_rd_port c pidx p p' :
  cfg_rd_ports c !! pidx = Some p →
  opts_sourced DP (rp_portopts p) (rp_portopts p') →
  sourced D DP c (cfg_set_rd_ports c (<[pidx:=p']> (cfg_rd_ports c))).
Proof.
  intros Hl Hp. split; [done|]. split; [apply opts_sourced_refl|]. split.
  - intros j. apply opts_sourced_refl.
  - intros j. rewrite (rd_popts_insert _ _ _ _ _ Hl). case_decide as Hj.
    + subst j. unfold rd_popts at 1. by rewrite Hl.
    + apply opts_sourced_refl.
Qed.

Lemma sourced_push_wr c p :
  opts_sourced DP ∅ (wp_portopts p) →
  sourced D DP c (cfg_set_wr_ports c (cfg_wr_ports c ++ [p])).
Proof.
  intros Hp. split; [done|]. split; [apply opts_sourced_refl|]. split.
  - intros j k v. unfold wr_popts. simpl.
    destruct (cfg_wr_ports c !! j) as [q|] eqn:Hl.
    + rewrite (lookup_app_l_Some _ _ _ _ Hl). by left.
    + destruct ((cfg_wr_ports c ++ [p]) !! j) as [q|] eqn:Hl'; [|done].
      apply lookup_app_Some in Hl' as [?|[_ Hl']]; [congruence|].
      apply list_lookup_singleton_Some in Hl' as [_ <-]. simpl.
      intros Hk. destruct (Hp k v Hk) as [?|?]; [done | by right].
  - intros j. apply opts_sourced_refl.
Qed.

Lemma sourced_push_rd c p :
  opts_sourced DP ∅ (rp_portopts p) →
  sourced D DP c (push_rd_port c p).
Proof.
  intros Hp. split; [done|]. split; [apply opts_sourced_refl|]. split.
  - intros j. apply opts_sourced_refl.
  - intros j k v. unfold rd_popts, push_rd_port. simpl.
    destruct (cfg_rd_ports c !! j) as [q|] eqn:Hl.
    + rewrite (lookup_app_l_Some _ _ _ _ Hl). by left.
    + destruct ((cfg_rd_ports c ++ [p]) !! j) as [q|] eqn:Hl'; [|done].
      apply lookup_app_Some in Hl' as [?|[_ Hl']]; [congruence|].
      apply list_lookup_singleton_Some in Hl' as [_ <-]. simpl.
      intros Hk. destruct (Hp k v Hk) as [?|?]; [done | by right].
Qed.

Lemma sourced_fields c c' :
  cfg_ram_def c' = cfg_ram_def c →
  opts_sourced D (cfg_opts c) (cfg_opts c') →
  cfg_wr_ports c' = cfg_wr_ports c →
  cfg_rd_ports c' = cfg_rd_ports c →
  sourced D DP c c'.
Proof.
  intros Hd Ho Hw Hr. split; [done|]. split; [done|].
  split; intros j; unfold wr_popts, rd_popts; rewrite ?Hw, ?Hr;
    apply opts_sourced_refl.
Qed.

Lemma clone_with_opts_sourced cfg src c :
  (∀ k v, (k, v) ∈ src → D k v) →
  c ∈ clone_with_opts cfg src → sourced D DP cfg c.
Proof.
  unfold clone_with_opts. intros Hsrc.
  destruct (apply_opts (cfg_opts cfg) src) as [[] o] eqn:Ha; intros Hc.
  - apply list_elem_of_singleton in Hc as ->.
    apply sourced_set_opts. by eapply apply_opts_sourced.
  - by apply elem_of_nil in Hc.
Qed.

Lemma apply_wrport_opts_sourced {T} cfg pidx (cap : Capability T) ok cfg' :
  cap_declared D DP cap →
  apply_wrport_opts cfg pidx cap = Ok (ok, cfg') → sourced D DP cfg cfg'.
Proof.
  unfold apply_wrport_opts. intros [Hd Hdp] Ha.
  apply bind_Ok in Ha as (pcfg & Hp%vec_at_Ok & Ha).
  destruct (apply_opts (cfg_opts cfg) (cap_opts cap)) as [ok1 o] eqn:H1.
  pose proof (apply_opts_sourced D _ _ _ _ H1 Hd) as Hs1.
  destruct ok1.
  - destruct (apply_opts (wp_portopts pcfg) (cap_portopts cap))
      as [ok2 po] eqn:H2.
    pose proof (apply_opts_sourced DP _ _ _ _ H2 Hdp) as Hs2.
    injection Ha as _ <-.
    eapply sourced_trans; [by apply sourced_set_opts|].
    by apply (sourced_wr_port (cfg_set_opts cfg o) pidx pcfg).
  - injection Ha as _ <-. by apply sourced_set_opts.
Qed.

Lemma apply_rdport_opts_sourced {T} cfg pidx (cap : Capability T) ok cfg' :
  cap_declared D DP cap →
  apply_rdport_opts cfg pidx cap = Ok (ok, cfg') → sourced D DP cfg cfg'.
Proof.
  unfold apply_rdport_opts. intros Hcap Ha.
  apply bind_Ok in Ha as (pcfg & Hp%vec_at_Ok & Ha).
  case_decide.
  { case_decide; [done|]. by eapply apply_wrport_opts_sourced. }
  destruct Hcap as [Hd Hdp].
  destruct (apply_opts (cfg_opts cfg) (cap_opts cap)) as [ok1 o] eqn:H1.
  pose proof (apply_opts_sourced D _ _ _ _ H1 Hd) as Hs1.
  destruct ok1.
  - destruct (apply_opts (rp_portopts pcfg) (cap_portopts cap))
      as [ok2 po] eqn:H2.
    pose proof (apply_opts_sourced DP _ _ _ _ H2 Hdp) as Hs2.
    injection Ha as _ <-.
    eapply sourced_trans; [by apply sourced_set_opts|].
    by apply (sourced_rd_port (cfg_set_opts cfg o) pidx pcfg).
  - injection Ha as _ <-. by apply sourced_set_opts.
Qed.

Lemma use_wrport_cap_sourced {T} cfg pidx (cap : Capability T) ys free y :
  cap_declared D DP cap →
  use_wrport_cap cfg pidx cap = Ok (ys, free) → y ∈ ys →
  sourced D DP cfg y.
Proof.
  unfold use_wrport_cap. intros Hcap Hu Hy.
  apply bind_Ok in Hu as (applied & _ & Hu). destruct applied.
  - injection Hu as <- _. apply list_elem_of_singleton in Hy as ->.
    apply sourced_refl.
  - apply bind_Ok in Hu as ([ok cfg2] & Ha & Hu). destruct ok; simpl in Hu.
    + injection Hu as <- _. apply list_elem_of_singleton in Hy as ->.
      by eapply apply_wrport_opts_sourced.
    + injection Hu as <- _. by apply elem_of_nil in Hy.
Qed.

(** ** The binding phases *)

Lemma wr_port_group_sourced port cfg i def c' :
  group_declared D DP def →
  c' ∈ wr_port_group port cfg i def → sourced D DP cfg c'.
Proof.
  unfold wr_port_group. intros (Hd & Hclock & _) Hc'.
  case_decide; [by apply elem_of_nil in Hc'|].
  case_decide; [by apply elem_of_nil in Hc'|].
  destruct (apply_opts (cfg_opts cfg) (cap_opts def)) as [[] o] eqn:E1;
    simpl in Hc'; [|by apply elem_of_nil in Hc'].
  apply elem_of_flat_map in Hc' as (cdef & Hcdef & Hc').
  destruct (Hclock cdef Hcdef) as [Hcd Hcdp].
  destruct (apply_opts _ (cap_opts cdef)) as [[] o3] eqn:E2; simpl in Hc';
    [|by apply elem_of_nil in Hc'].
  destruct (apply_opts _ (cap_portopts cdef)) as [[] po3] eqn:E3;
    simpl in Hc'; [|by apply elem_of_nil in Hc'].
  destruct (apply_clock _ _ _ _) as [[] cfg3] eqn:Hclk; simpl in Hc';
    [|by apply elem_of_nil in Hc'].
  apply list_elem_of_singleton in Hc' as ->.
  pose proof (apply_clock_fields _ _ _ _ _ _ Hclk) as (Hr & Hopts & Hw & Hrd).
  simpl in *.
  pose proof (apply_opts_sourced D _ _ _ _ E1 Hd) as Hs1.
  pose proof (apply_opts_sourced D _ _ _ _ E2 Hcd) as Hs2.
  pose proof (apply_opts_sourced DP _ _ _ _ E3 Hcdp) as Hs3.
  apply (sourced_trans _ cfg3).
  - apply sourced_fields; try done. rewrite Hopts.
    by eapply opts_sourced_trans.
  - by apply sourced_push_wr.
Qed.

Lemma rd_port_unshared_sourced port cfg i def c' :
  group_declared D DP def →
  c' ∈ rd_port_unshared port cfg i def → sourced D DP cfg c'.
Proof.
  unfold rd_port_unshared. intros (Hd & Hclock & Hrden & _) Hc'.
  case_decide; [by apply elem_of_nil in Hc'|].
  destruct (negb (rd_clk_enable port) && _); [by apply elem_of_nil in Hc'|].
  case_decide; [by apply elem_of_nil in Hc'|].
  destruct (apply_opts (cfg_opts cfg) (cap_opts def)) as [[] o] eqn:E1;
    simpl in Hc'; [|by apply elem_of_nil in Hc'].
  pose proof (apply_opts_sourced D _ _ _ _ E1 Hd) as Hs1.
  case_decide.
  - apply elem_of_flat_map in Hc' as (cdef & Hcdef & Hc').
    destruct (Hclock cdef Hcdef) as [Hcd Hcdp].
    destruct (apply_opts _ (cap_opts cdef)) as [[] o3] eqn:E2; simpl in Hc';
      [|by apply elem_of_nil in Hc'].
    destruct (apply_opts _ (cap_portopts cdef)) as [[] po3] eqn:E3;
      simpl in Hc'; [|by apply elem_of_nil in Hc'].
    destruct (apply_clock _ _ _ _) as [[] cfg3] eqn:Hclk; simpl in Hc';
      [|by apply elem_of_nil in Hc'].
    pose proof (apply_clock_fields _ _ _ _ _ _ Hclk)
      as (Hr & Hopts & Hw & Hrd).
    simpl in *.
    apply elem_of_flat_map in Hc' as (endef & Hendef & Hc').
    destruct (Hrden endef Hendef) as [Hed Hedp].
    destruct (apply_opts _ (cap_opts endef)) as [[] o4] eqn:E4; simpl in Hc';
      [|by apply elem_of_nil in Hc'].
    destruct (apply_opts _ (cap_portopts endef)) as [[] po4] eqn:E5;
      simpl in Hc'; [|by apply elem_of_nil in Hc'].
    apply list_elem_of_singleton in Hc' as ->.
    rewrite Hopts in E4.
    pose proof (apply_opts_sourced D _ _ _ _ E2 Hcd) as Hs2.
    pose proof (apply_opts_sourced DP _ _ _ _ E3 Hcdp) as Hs3.
    pose proof (apply_opts_sourced D _ _ _ _ E4 Hed) as Hs4.
    pose proof (apply_opts_sourced DP _ _ _ _ E5 Hedp) as Hs5.
    apply (sourced_trans _ (cfg_set_opts cfg3 o4)).
    + apply sourced_fields; try done. simpl.
      eapply opts_sourced_trans; [|done]. by eapply opts_sourced_trans.
    + apply sourced_push_rd.
      match goal with |- context [if ?b then _ else _] => destruct b end;
        simpl; by eapply opts_sourced_trans.
  - apply list_elem_of_singleton in Hc' as ->.
    apply (sourced_trans _ (cfg_set_opts cfg o));
      [by apply sourced_set_opts|].
    apply sourced_push_rd. simpl. apply opts_sourced_refl.
Qed.

Lemma rd_port_shared_sourced port pidx cfg rdef wpidx wport ys y :
  (∀ def, def ∈ ram_ports rdef → group_declared D DP def) →
  rd_port_shared addr_compatible get_wr_implies_rd get_wr_excludes_rd port
    pidx cfg rdef wpidx wport = Ok ys →
  y ∈ ys → sourced D DP cfg y.
Proof.
  unfold rd_port_shared. intros Hdecl Hrun Hy.
  apply bind_Ok in Hrun as (wpcfg & Hl%vec_at_Ok & Hrun).
  apply bind_Ok in Hrun as (def & Hdef%vec_at_Ok & Hrun).
  destruct (Hdecl def) as (_ & _ & Hrden & _);
    [by eapply list_elem_of_lookup_2|].
  case_decide; [injection Hrun as <-; by apply elem_of_nil in Hy|].
  case_decide; [injection Hrun as <-; by apply elem_of_nil in Hy|].
  destruct (negb (addr_compatible wpidx pidx));
    [injection Hrun as <-; by apply elem_of_nil in Hy|].
  match type of Hrun with (if ?b then Ok [] else _) = _ => destruct b end;
    [injection Hrun as <-; by apply elem_of_nil in Hy|].
  match type of Hrun with
  | context [rp_set_emu_sync ?p ?b] => set (pcfg2 := rp_set_emu_sync p b) in *
  end.
  match type of Hrun with
  | context [push_rd_port ?c pcfg2] => set (cfg2 := c) in *
  end.
  assert (Hs2 : sourced D DP cfg cfg2).
  { apply (sourced_wr_port cfg wpidx wpcfg); [done|]. simpl.
    apply opts_sourced_refl. }
  assert (Hp2 : rp_portopts pcfg2 = ∅) by done.
  case_decide.
  - destruct (for_each_Ok _ _ _ Hrun y Hy) as (endef & zs & Hin & Hf & Hz).
    unfold rd_port_shared_rden in Hf.
    apply bind_Ok in Hf as ([ok cfg3] & Ha & Hf).
    apply apply_wrport_opts_sourced in Ha; [|by apply Hrden].
    destruct ok; simpl in Hf; [|injection Hf as <-; by apply elem_of_nil in Hz].
    eapply sourced_trans; [done|]. eapply sourced_trans; [done|].
    destruct (cap_val endef);
      try (destruct (negb (get_wr_excludes_rd wpidx pidx));
           [injection Hf as <-; by apply elem_of_nil in Hz|]);
      injection Hf as <-; apply list_elem_of_singleton in Hz as ->;
      apply sourced_push_rd; simpl; apply opts_sourced_refl.
  - injection Hrun as <-. apply list_elem_of_singleton in Hy as ->.
    eapply sourced_trans; [done|]. apply sourced_push_rd.
    rewrite Hp2. apply opts_sourced_refl.
Qed.

(** ** The phases after the binding *)

Lemma trans_cfg_sourced rpidx wpidx transparent cfg rdef ys y :
  ram_defs lib !! cfg_ram_def cfg = Some rdef →
  (∀ def, def ∈ ram_ports rdef → group_declared D DP def) →
  trans_cfg lib rpidx wpidx transparent cfg = Ok ys → y ∈ ys →
  sourced D DP cfg y.
Proof.
  unfold trans_cfg. intros Hrdef Hdecl Hrun Hy.
  apply bind_Ok in Hrun as (rpcfg & Hlr%vec_at_Ok & Hrun).
  apply bind_Ok in Hrun as (wpcfg & Hlw%vec_at_Ok & Hrun).
  apply bind_Ok in Hrun as (rdef' & Hrdef'%vec_at_Ok & Hrun).
  assert (rdef' = rdef) as -> by congruence.
  apply bind_Ok in Hrun as (wpdef & Hwpdef%vec_at_Ok & Hrun).
  apply bind_Ok in Hrun as (rpdef & Hrpdef%vec_at_Ok & Hrun).
  assert (Hemu : sourced D DP cfg (push_emu_trans cfg rpidx rpcfg wpidx)).
  { apply (sourced_rd_port cfg rpidx rpcfg); [done|]. simpl.
    apply opts_sourced_refl. }
  destruct (rp_emu_sync rpcfg).
  { destruct transparent; injection Hrun as <-;
      apply list_elem_of_singleton in Hy as ->;
      [done | apply sourced_refl]. }
  apply bind_Ok in Hrun as ([new_cfgs ff] & Hloop & Hrun).
  assert (Hnew : ∀ z, z ∈ new_cfgs → sourced D DP cfg z).
  { intros z Hz.
    destruct (caps_loop_Ok _ _ _ _ Hloop z Hz)
      as (tdef & zs & f & Hin & Hcap & Hzs).
    unfold trans_cap in Hcap.
    apply bind_Ok in Hcap as (target_ok & _ & Hcap).
    destruct (negb target_ok);
      [injection Hcap as <- _; by apply elem_of_nil in Hzs|].
    match type of Hcap with
    | (if ?b then Ok ([], false) else _) = _ => destruct b
    end; [injection Hcap as <- _; by apply elem_of_nil in Hzs|].
    eapply use_wrport_cap_sourced; [|done|done].
    destruct (Hdecl wpdef) as (_ & _ & _ & _ & _ & _ & Htrans);
      [by eapply list_elem_of_lookup_2|]. by apply Htrans. }
  destruct (negb ff && transparent); injection Hrun as <-.
  - apply elem_of_app in Hy as [Hy|Hy]; [by apply Hnew|].
    by apply list_elem_of_singleton in Hy as ->.
  - by apply Hnew.
Qed.

Lemma priority_cfg_sourced p1idx p2idx cfg rdef ys y :
  ram_defs lib !! cfg_ram_def cfg = Some rdef →
  (∀ def, def ∈ ram_ports rdef → group_declared D DP def) →
  priority_cfg lib p1idx p2idx cfg = Ok ys → y ∈ ys →
  sourced D DP cfg y.
Proof.
  unfold priority_cfg. intros Hrdef Hdecl Hrun Hy.
  apply bind_Ok in Hrun as (p1cfg & Hl1%vec_at_Ok & Hrun).
  apply bind_Ok in Hrun as (p2cfg & Hl2%vec_at_Ok & Hrun).
  apply bind_Ok in Hrun as (rdef' & Hrdef'%vec_at_Ok & Hrun).
  assert (rdef' = rdef) as -> by congruence.
  apply bind_Ok in Hrun as (p1def & Hp1def%vec_at_Ok & Hrun).
  apply bind_Ok in Hrun as (p2def & Hp2def%vec_at_Ok & Hrun).
  apply bind_Ok in Hrun as ([new_cfgs ff] & Hloop & Hrun).
  assert (Hnew : ∀ z, z ∈ new_cfgs → sourced D DP cfg z).
  { intros z Hz.
    destruct (caps_loop_Ok _ _ _ _ Hloop z Hz)
      as (prdef & zs & f & Hin & Hcap & Hzs).
    unfold priority_cap in Hcap.
    apply bind_Ok in Hcap as (name0 & _ & Hcap).
    case_decide; [injection Hcap as <- _; by apply elem_of_nil in Hzs|].
    eapply use_wrport_cap_sourced; [|done|done].
    destruct (Hdecl p2def) as (_ & _ & _ & _ & _ & Hprio & _);
      [by eapply list_elem_of_lookup_2|]. by apply Hprio. }
  destruct (negb ff); injection Hrun as <-; [|by apply Hnew].
  apply elem_of_app in Hy as [Hy|Hy]; [by apply Hnew|].
  apply list_elem_of_singleton in Hy as ->.
  apply (sourced_wr_port cfg p2idx p2cfg); [done|]. simpl.
  apply opts_sourced_refl.
Qed.

Lemma apply_rstval_portopts pcfg def val ok pcfg' :
  apply_rstval pcfg def val = (ok, pcfg') →
  rp_portopts pcfg' = rp_portopts pcfg.
Proof.
  unfold apply_rstval. destruct (rst_val_kind def); try by intros [= _ <-].
  destruct (rp_resetvals pcfg !! rst_name def); by intros [= _ <-].
Qed.

Lemma use_rdrstval_sourced kind val pidx cfg rstdef cfg2 free :
  cap_declared D DP rstdef →
  use_rdrstval kind val pidx cfg rstdef = Ok (Some cfg2, free) →
  sourced D DP cfg cfg2.
Proof.
  unfold use_rdrstval. intros Hcap Hu. case_decide; [done|].
  apply bind_Ok in Hu as (pcfg & Hl%vec_at_Ok & Hu).
  destruct (apply_rstval pcfg (cap_val rstdef) val) as [[] pcfg2] eqn:Ha;
    simpl in Hu; [|done].
  apply apply_rstval_portopts in Ha.
  assert (Hs : sourced D DP cfg
                 (cfg_set_rd_ports cfg (<[pidx:=pcfg2]> (cfg_rd_ports cfg)))).
  { apply (sourced_rd_port cfg pidx pcfg); [done|]. rewrite Ha.
    apply opts_sourced_refl. }
  apply bind_Ok in Hu as (applied & _ & Hu). destruct applied.
  - by injection Hu as <- _.
  - apply bind_Ok in Hu as ([ok cfg3] & Hb & Hu).
    destruct ok; simpl in Hu; [|done]. injection Hu as <- _.
    eapply sourced_trans; [done|]. by eapply apply_rdport_opts_sourced.
Qed.

Lemma rd_rst_cfg_sourced (body : Capability ResetValDef
                                 → outcome (list MemConfig * bool))
    (caps : Caps ResetValDef) cfg pidx pcfg pcfg' ys y :
  cfg_rd_ports cfg !! pidx = Some pcfg →
  (∀ cap zs f z, cap ∈ caps → body cap = Ok (zs, f) → z ∈ zs →
     sourced D DP cfg z) →
  rp_portopts pcfg' = rp_portopts pcfg →
  (if rp_emu_sync pcfg then Ok [cfg]
   else
     '(new_cfgs, found_free) ← caps_loop body caps;
     if negb found_free then
       Ok (new_cfgs ++
             [cfg_set_rd_ports cfg (<[pidx := pcfg']> (cfg_rd_ports cfg))])
     else Ok new_cfgs) = Ok ys →
  y ∈ ys → sourced D DP cfg y.
Proof.
  intros Hl Hbody Hp Hrun Hy. destruct (rp_emu_sync pcfg).
  { injection Hrun as <-. apply list_elem_of_singleton in Hy as ->.
    apply sourced_refl. }
  apply bind_Ok in Hrun as ([new_cfgs ff] & Hloop & Hrun).
  assert (Hnew : ∀ z, z ∈ new_cfgs → sourced D DP cfg z).
  { intros z Hz.
    destruct (caps_loop_Ok _ _ _ _ Hloop z Hz)
      as (cap & zs & f & Hin & Hcap & Hzs). by eapply Hbody. }
  destruct (negb ff); injection Hrun as <-; [|by apply Hnew].
  apply elem_of_app in Hy as [Hy|Hy]; [by apply Hnew|].
  apply list_elem_of_singleton in Hy as ->.
  apply (sourced_rd_port cfg pidx pcfg); [done|]. rewrite Hp.
  apply opts_sourced_refl.
Qed.

Lemma rd_init_cfg_sourced port pidx cfg rdef ys y :
  ram_defs lib !! cfg_ram_def cfg = Some rdef →
  (∀ def, def ∈ ram_ports rdef → group_declared D DP def) →
  rd_init_cfg lib port pidx cfg = Ok ys → y ∈ ys → sourced D DP cfg y.
Proof.
  unfold rd_init_cfg. intros Hrdef Hdecl Hrun Hy.
  apply bind_Ok in Hrun as (pcfg & Hl%vec_at_Ok & Hrun).
  apply bind_Ok in Hrun as (rdef' & Hrdef'%vec_at_Ok & Hrun).
  assert (rdef' = rdef) as -> by congruence.
  apply bind_Ok in Hrun as (pdef & Hpdef%vec_at_Ok & Hrun).
  eapply (rd_rst_cfg_sourced _ _ cfg pidx pcfg (rp_set_emu_init pcfg true));
    [done| |done|exact Hrun|done].
  intros cap zs f z Hin Hcap Hz. unfold rd_init_cap in Hcap.
  apply bind_Ok in Hcap as ([kept free] & Hu & [= <- _]).
  destruct kept as [cfg2|]; [|by apply elem_of_nil in Hz].
  apply list_elem_of_singleton in Hz as ->.
  eapply use_rdrstval_sourced; [|done].
  destruct (Hdecl pdef) as (_ & _ & _ & Hrst & _);
    [by eapply list_elem_of_lookup_2|]. by apply Hrst.
Qed.

Lemma rd_arst_cfg_sourced port pidx cfg rdef ys y :
  ram_defs lib !! cfg_ram_def cfg = Some rdef →
  (∀ def, def ∈ ram_ports rdef → group_declared D DP def) →
  rd_arst_cfg lib port pidx cfg = Ok ys → y ∈ ys → sourced D DP cfg y.
Proof.
  unfold rd_arst_cfg. intros Hrdef Hdecl Hrun Hy.
  apply bind_Ok in Hrun as (pcfg & Hl%vec_at_Ok & Hrun).
  apply bind_Ok in Hrun as (rdef' & Hrdef'%vec_at_Ok & Hrun).
  assert (rdef' = rdef) as -> by congruence.
  apply bind_Ok in Hrun as (pdef & Hpdef%vec_at_Ok & Hrun).
  eapply (rd_rst_cfg_sourced _ _ cfg pidx pcfg (rp_set_emu_arst pcfg true));
    [done| |done|exact Hrun|done].
  intros cap zs f z Hin Hcap Hz. unfold rd_arst_cap in Hcap.
  apply bind_Ok in Hcap as ([kept free] & Hu & [= <- _]).
  destruct kept as [cfg2|]; [|by apply elem_of_nil in Hz].
  apply list_elem_of_singleton in Hz as ->.
  eapply use_rdrstval_sourced; [|done].
  destruct (Hdecl pdef) as (_ & _ & _ & Hrst & _);
    [by eapply list_elem_of_lookup_2|]. by apply Hrst.
Qed.

Lemma rd_srst_mode_sourced port pidx cfg2 mdef ys y :
  cap_declared D DP mdef →
  rd_srst_mode port pidx cfg2 mdef = Ok ys → y ∈ ys →
  sourced D DP cfg2 y.
Proof.
  unfold rd_srst_mode. intros Hcap Hrun Hy.
  apply bind_Ok in Hrun as (pcfg3 & Hl%vec_at_Ok & Hrun).
  apply bind_Ok in Hrun as ([ok cfg3] & Ha & Hrun).
  destruct ok; simpl in Hrun; injection Hrun as <-;
    [|by apply elem_of_nil in Hy].
  apply list_elem_of_singleton in Hy as ->.
  eapply sourced_trans; [|by eapply apply_rdport_opts_sourced].
  apply (sourced_rd_port cfg2 pidx pcfg3); [done|].
  repeat match goal with |- context [if ?b then _ else _] =>
           destruct b end; simpl; apply opts_sourced_refl.
Qed.

Lemma rd_srst_cfg_sourced port pidx cfg rdef ys y :
  ram_defs lib !! cfg_ram_def cfg = Some rdef →
  (∀ def, def ∈ ram_ports rdef → group_declared D DP def) →
  rd_srst_cfg lib port pidx cfg = Ok ys → y ∈ ys → sourced D DP cfg y.
Proof.
  unfold rd_srst_cfg. intros Hrdef Hdecl Hrun Hy.
  apply bind_Ok in Hrun as (pcfg & Hl%vec_at_Ok & Hrun).
  apply bind_Ok in Hrun as (rdef' & Hrdef'%vec_at_Ok & Hrun).
  assert (rdef' = rdef) as -> by congruence.
  apply bind_Ok in Hrun as (pdef & Hpdef%vec_at_Ok & Hrun).
  destruct (Hdecl pdef) as (_ & _ & _ & Hrst & Hmode & _);
    [by eapply list_elem_of_lookup_2|].
  eapply (rd_rst_cfg_sourced _ _ cfg pidx pcfg (rp_set_emu_srst pcfg true));
    [done| |done|exact Hrun|done].
  intros cap zs f z Hin Hcap Hz. unfold rd_srst_cap in Hcap.
  apply bind_Ok in Hcap as ([kept free] & Hu & Hcap).
  destruct kept as [cfg2|];
    [|injection Hcap as <- _; by apply elem_of_nil in Hz].
  apply use_rdrstval_sourced in Hu; [|by apply Hrst].
  case_decide.
  - injection Hcap as <- _. by apply list_elem_of_singleton in Hz as ->.
  - apply bind_Ok in Hcap as (new_cfgs & Hfe & [= <- _]).
    destruct (for_each_Ok _ _ _ Hfe z Hz) as (mdef & ws & Hm & Hf & Hw).
    eapply sourced_trans; [done|].
    eapply rd_srst_mode_sourced; [|done|done]. by apply Hmode.
Qed.

End SourceProperties.

Section DeclaredProperties.
Context `{Kernel}.
Variable mem : Mem.
Variable lib : Library.
Variable addr_compatible : nat → nat → bool.
Variable get_wr_implies_rd : nat → nat → bool.
Variable get_wr_excludes_rd : nat → nat → bool.

Lemma cap_entries_elem {T} (caps : Caps T) cap :
  cap ∈ caps → (cap_opts cap, cap_portopts cap) ∈ cap_entries caps.
Proof.
  intros Hin. unfold cap_entries. apply list_elem_of_fmap. by exists cap.
Qed.

Lemma ram_declared_self rdef :
  ram_declared (ram_option rdef) (ram_portoption rdef) rdef.
Proof.
  assert (Hsub : ∀ {T} (sel : PortGroupDef → Caps T) def (cap : Capability T),
            (∀ g, cap_entries (sel g) ⊆ group_caps g) →
            def ∈ ram_ports rdef → cap ∈ sel (cap_val def) →
            cap_declared (ram_option rdef) (ram_portoption rdef) cap).
  { intros T sel def cap Hsel Hdef Hcap.
    pose proof (Hsel (cap_val def) _ (cap_entries_elem _ _ Hcap)) as Hin.
    split; intros k v Hkv.
    - exists (cap_opts cap, cap_portopts cap). split; [|exact Hkv].
      rewrite !elem_of_app. do 3 right.
      apply elem_of_flat_map. by exists def.
    - by exists def, (cap_opts cap, cap_portopts cap). }
  split; [|split].
  - intros cap k v Hcap Hkv.
    exists (cap_opts cap, cap_portopts cap). split; [|exact Hkv].
    rewrite !elem_of_app. left. by apply cap_entries_elem.
  - intros cap k v Hcap Hkv.
    exists (cap_opts cap, cap_portopts cap). split; [|exact Hkv].
    rewrite !elem_of_app. right. left. by apply cap_entries_elem.
  - intros def Hdef. split.
    { intros k v Hkv.
      exists (cap_opts def, cap_portopts def). split; [|exact Hkv].
      rewrite !elem_of_app. right. right. left. by apply cap_entries_elem. }
    do 5 (split;
            [intros cap Hcap; (eapply Hsub; [|exact Hdef|exact Hcap]);
             intros g e He; unfold group_caps; rewrite !elem_of_app;
             auto 10|]).
    intros cap Hcap. eapply Hsub; [|exact Hdef|exact Hcap].
    intros g e He. unfold group_caps. rewrite !elem_of_app. auto 10.
Qed.

Lemma declared_from_refl c : declared_from lib c c.
Proof. intros rdef _. apply sourced_refl. Qed.

Lemma declared_from_trans c1 c2 c3 :
  declared_from lib c1 c2 → declared_from lib c2 c3 →
  declared_from lib c1 c3.
Proof.
  intros H12 H23 rdef Hrdef. pose proof (H12 rdef Hrdef) as Hs.
  eapply sourced_trans; [done|]. apply H23.
  destruct Hs as [Hd _]. by rewrite Hd.
Qed.

Local Abbreviation declared_step f :=
  (∀ c ys y, f c = Ok ys → y ∈ ys → declared_from lib c y).

Lemma for_each_declared (f : MemConfig → outcome MemConfigs) cfgs out :
  declared_step f →
  for_each f cfgs = Ok out → descend (declared_from lib) cfgs out.
Proof. intros Hf. apply for_each_descend. intros c ys y _. apply Hf. Qed.

Lemma generations_declared {A}
    (step : A → MemConfigs → outcome MemConfigs) xs cfgs out :
  (∀ x c c', step x c = Ok c' → descend (declared_from lib) c c') →
  generations step xs cfgs = Ok out → descend (declared_from lib) cfgs out.
Proof.
  intros Hs. apply generations_descend;
    [apply declared_from_refl | apply declared_from_trans|].
  intros x c c' _. apply Hs.
Qed.

Lemma descend_declared_refl cfgs : descend (declared_from lib) cfgs cfgs.
Proof. apply descend_refl, declared_from_refl. Qed.

Lemma cfg_step_declared (f : MemConfig → outcome MemConfigs) :
  (∀ c rdef ys y, ram_defs lib !! cfg_ram_def c = Some rdef →
     (∀ def, def ∈ ram_ports rdef →
        group_declared (ram_option rdef) (ram_portoption rdef) def) →
     f c = Ok ys → y ∈ ys →
     sourced (ram_option rdef) (ram_portoption rdef) c y) →
  declared_step f.
Proof.
  intros Hf c ys y Hrun Hy rdef Hrdef.
  eapply Hf; [done| |done|done]. apply ram_declared_self.
Qed.

Lemma handle_ram_kind_declared kind cfgs out :
  handle_ram_kind lib kind cfgs = Ok out →
  descend (declared_from lib) cfgs out.
Proof.
  unfold handle_ram_kind. intros Hk. case_decide.
  { injection Hk as <-. apply descend_declared_refl. }
  apply bind_Ok in Hk as (new_cfgs & Hnew & Hk).
  assert (out = new_cfgs) as -> by (destruct new_cfgs; congruence).
  revert Hnew. apply for_each_declared. intros c ys y Hf Hy.
  apply bind_Ok in Hf as (rdef & _ & Hf).
  case_decide; injection Hf as <-; [|by apply elem_of_nil in Hy].
  apply list_elem_of_singleton in Hy as ->. apply declared_from_refl.
Qed.

Lemma handle_ram_style_declared style cfgs out :
  handle_ram_style lib style cfgs = Ok out →
  descend (declared_from lib) cfgs out.
Proof.
  unfold handle_ram_style. intros Hk. case_decide.
  { injection Hk as <-. apply descend_declared_refl. }
  apply bind_Ok in Hk as (new_cfgs & Hnew & Hk).
  assert (out = new_cfgs) as -> by (destruct new_cfgs; congruence).
  revert Hnew. apply for_each_declared. intros c ys y Hf Hy rdef Hrdef.
  apply bind_Ok in Hf as (rdef' & Hl%vec_at_Ok & [= <-]).
  assert (rdef' = rdef) as -> by congruence.
  apply elem_of_flat_map in Hy as (def & Hdef & Hy).
  case_decide; [by apply elem_of_nil in Hy|].
  eapply clone_with_opts_sourced; [|done]. intros k v Hkv.
  destruct (ram_declared_self rdef) as (Hstyle & _). by eapply Hstyle.
Qed.

Lemma handle_init_declared cfgs out :
  handle_init mem lib cfgs = Ok out →
  descend (declared_from lib) cfgs out.
Proof.
  unfold handle_init.
  destruct (init_flags (mem_inits mem) false false) as [has_nonx has_one].
  destruct (negb has_nonx).
  { intros [= <-]. apply descend_declared_refl. }
  apply for_each_declared. intros c ys y Hf Hy rdef Hrdef.
  apply bind_Ok in Hf as (rdef' & Hl%vec_at_Ok & [= <-]).
  assert (rdef' = rdef) as -> by congruence.
  apply elem_of_flat_map in Hy as (def & Hdef & Hy).
  assert (Hclone : y ∈ clone_with_opts c (cap_opts def)).
  { destruct has_one; case_decide; try done; by apply elem_of_nil in Hy. }
  eapply clone_with_opts_sourced; [|done]. intros k v Hkv.
  destruct (ram_declared_self rdef) as (_ & Hinit & _). by eapply Hinit.
Qed.

Lemma handle_wr_ports_declared cfgs out :
  handle_wr_ports mem lib cfgs = Ok out →
  descend (declared_from lib) cfgs out.
Proof.
  unfold handle_wr_ports. revert cfgs.
  induction (mem_wr_ports mem) as [|port rest IH]; intros cfgs Hrun;
    simpl in Hrun.
  - injection Hrun as <-. apply descend_declared_refl.
  - destruct (negb (wr_clk_enable port)).
    { injection Hrun as <-. intros y Hy. by apply elem_of_nil in Hy. }
    apply bind_Ok in Hrun as (new_cfgs & Hnew & Hrun).
    eapply descend_trans; [apply declared_from_trans| |by apply IH].
    revert Hnew. apply for_each_declared. apply cfg_step_declared.
    intros c rdef ys y Hrdef Hdecl Hf Hy. unfold wr_port_cfg in Hf.
    apply bind_Ok in Hf as (rdef' & Hl%vec_at_Ok & [= <-]).
    assert (rdef' = rdef) as -> by congruence.
    apply elem_of_flat_map in Hy as ([i def] & Hin%elem_of_enumerate & Hy).
    eapply wr_port_group_sourced; [|done].
    apply Hdecl. by eapply list_elem_of_lookup_2.
Qed.

Lemma handle_rd_ports_declared cfgs out :
  handle_rd_ports mem lib addr_compatible get_wr_implies_rd
    get_wr_excludes_rd cfgs = Ok out →
  descend (declared_from lib) cfgs out.
Proof.
  unfold handle_rd_ports. apply generations_declared.
  intros [pidx port] c c'. apply for_each_declared. apply cfg_step_declared.
  intros cfg rdef ys y Hrdef Hdecl Hf Hy. unfold rd_port_cfg in Hf.
  apply bind_Ok in Hf as (rdef' & Hl%vec_at_Ok & Hf).
  assert (rdef' = rdef) as -> by congruence.
  apply bind_Ok in Hf as (shared & Hshared & [= <-]).
  apply elem_of_app in Hy as [Hy|Hy].
  - apply elem_of_flat_map in Hy as ([i def] & Hin%elem_of_enumerate & Hy).
    eapply rd_port_unshared_sourced; [|done].
    apply Hdecl. by eapply list_elem_of_lookup_2.
  - destruct (for_each_Ok _ _ _ Hshared y Hy)
      as ([wpidx wport] & zs & _ & Hf & Hz).
    by eapply rd_port_shared_sourced.
Qed.

Lemma handle_trans_declared cfgs out :
  handle_trans mem lib cfgs = Ok out →
  descend (declared_from lib) cfgs out.
Proof.
  unfold handle_trans. apply generations_declared.
  intros [rpidx rport] c c'. unfold trans_rd_port.
  destruct (negb (rd_clk_enable rport));
    [intros [= <-]; apply descend_declared_refl|].
  apply generations_declared. intros [wpidx wport] c1 c1'.
  unfold trans_pair.
  destruct (negb (wr_clk_enable wport));
    [intros [= <-]; apply descend_declared_refl|].
  case_decide; [intros [= <-]; apply descend_declared_refl|].
  case_decide; [intros [= <-]; apply descend_declared_refl|].
  intros Hrun. apply bind_Ok in Hrun as (collision_x & _ & Hrun).
  destruct collision_x; [injection Hrun as <-; apply descend_declared_refl|].
  apply bind_Ok in Hrun as (transparent & _ & Hrun).
  revert Hrun. apply for_each_declared. apply cfg_step_declared.
  intros cfg rdef ys y. apply trans_cfg_sourced.
Qed.

Lemma handle_priority_declared cfgs out :
  handle_priority mem lib cfgs = Ok out →
  descend (declared_from lib) cfgs out.
Proof.
  unfold handle_priority. apply generations_declared.
  intros [p1idx port1] c c'. apply generations_declared.
  intros [p2idx port2] c1 c1'. unfold priority_pair. intros Hrun.
  apply bind_Ok in Hrun as (prio & _ & Hrun).
  destruct (negb prio); [injection Hrun as <-; apply descend_declared_refl|].
  revert Hrun. apply for_each_declared. apply cfg_step_declared.
  intros cfg rdef ys y. apply priority_cfg_sourced.
Qed.

Lemma handle_rd_init_declared cfgs out :
  handle_rd_init mem lib cfgs = Ok out →
  descend (declared_from lib) cfgs out.
Proof.
  unfold handle_rd_init. apply generations_declared.
  intros [pidx port] c c'.
  destruct (negb (rd_clk_enable port));
    [intros [= <-]; apply descend_declared_refl|].
  destruct (is_fully_undef (rd_init_value port));
    [intros [= <-]; apply descend_declared_refl|].
  apply for_each_declared. apply cfg_step_declared.
  intros cfg rdef ys y. apply rd_init_cfg_sourced.
Qed.

Lemma handle_rd_arst_declared cfgs out :
  handle_rd_arst mem lib cfgs = Ok out →
  descend (declared_from lib) cfgs out.
Proof.
  unfold handle_rd_arst. apply generations_declared.
  intros [pidx port] c c'.
  destruct (negb (rd_clk_enable port));
    [intros [= <-]; apply descend_declared_refl|].
  case_decide; [intros [= <-]; apply descend_declared_refl|].
  destruct (is_fully_undef (rd_arst_value port));
    [intros [= <-]; apply descend_declared_refl|].
  apply for_each_declared. apply cfg_step_declared.
  intros cfg rdef ys y. apply rd_arst_cfg_sourced.
Qed.

Lemma handle_rd_srst_declared cfgs out :
  handle_rd_srst mem lib cfgs = Ok out →
  descend (declared_from lib) cfgs out.
Proof.
  unfold handle_rd_srst. apply generations_declared.
  intros [pidx port] c c'.
  destruct (negb (rd_clk_enable port));
    [intros [= <-]; apply descend_declared_refl|].
  case_decide; [intros [= <-]; apply descend_declared_refl|].
  destruct (is_fully_undef (rd_srst_value port));
    [intros [= <-]; apply descend_declared_refl|].
  apply for_each_declared. apply cfg_step_declared.
  intros cfg rdef ys y. apply rd_srst_cfg_sourced.
Qed.

Lemma MemMapping_declared st :
  MemMapping mem lib addr_compatible get_wr_implies_rd get_wr_excludes_rd
  = Ok st →
  descend (declared_from lib) (initial_cfgs lib) (mm_cfgs st).
Proof.
  unfold MemMapping, binding_phases, emulation_phases, handle_dims.
  destruct (determine_style mem) as [kind style]. simpl. case_decide.
  { intros [= <-] y Hy. by apply elem_of_nil in Hy. }
  intros Hrun.
  apply bind_Ok in Hrun as (cb & Hb & Hrun).
  apply bind_Ok in Hrun as (ce & He & [= <-]). simpl.
  apply bind_Ok in Hb as (c1 & H1%handle_ram_kind_declared & Hb).
  apply bind_Ok in Hb as (c2 & H2%handle_ram_style_declared & Hb).
  apply bind_Ok in Hb as (c3 & H3%handle_init_declared & Hb).
  apply bind_Ok in Hb as (c4 & H4%handle_wr_ports_declared
                          & H5%handle_rd_ports_declared).
  apply bind_Ok in He as (c6 & H6%handle_trans_declared & He).
  apply bind_Ok in He as (c7 & H7%handle_priority_declared & He).
  apply bind_Ok in He as (c8 & H8%handle_rd_init_declared & He).
  apply bind_Ok in He as (c9 & H9%handle_rd_arst_declared & He).
  apply bind_Ok in He as (c10 & H10%handle_rd_srst_declared & [= <-]).
  repeat (eapply descend_trans; [apply declared_from_trans|eassumption|]).
  apply descend_declared_refl.
Qed.

(** X25.  A candidate that the constructor leaves holds no option that
    its RAM definition does not declare: every binding of its options is
    an option of a [style] or [init] capability, of a port group or of a
    capability of a port group of the definition ([clock], [rden],
    [rdinitval]/[rdarstval]/[rdsrstval], [rdsrstmode], [wrprio],
    [wrtrans]); every binding of the port options of its ports is a port
    option of such a capability of a port group. *)
Theorem candidate_options_declared st c :
  MemMapping mem lib addr_compatible get_wr_implies_rd get_wr_excludes_rd
  = Ok st →
  c ∈ mm_cfgs st →
  ∃ rdef, ram_defs lib !! cfg_ram_def c = Some rdef
    ∧ (∀ k v, cfg_opts c !! k = Some v → ram_option rdef k v)
    ∧ (∀ w wp k v, cfg_wr_ports c !! w = Some wp →
         wp_portopts wp !! k = Some v → ram_portoption rdef k v)
    ∧ (∀ j rp k v, cfg_rd_ports c !! j = Some rp →
         rp_portopts rp !! k = Some v → ram_portoption rdef k v).
Proof.
  intros Hrun Hc.
  destruct (MemMapping_declared st Hrun c Hc) as (c0 & Hc0 & Hdecl).
  apply elem_of_lookup_imap in Hc0 as (i & rdef & -> & Hrdef).
  destruct (Hdecl rdef Hrdef) as (Hd & Ho & Hw & Hr). simpl in Hd.
  exists rdef. split; [by rewrite Hd|]. split; [|split].
  - intros k v Hl. by destruct (Ho k v Hl).
  - intros w wp k v Hl Hk. destruct (Hw w k v) as [?|?]; [|done|done].
    unfold wr_popts. by rewrite Hl.
  - intros j rp k v Hl Hk. destruct (Hr j k v) as [?|?]; [|done|done].
    unfold rd_popts. by rewrite Hl.
Qed.

End DeclaredProperties.

(** * The split across the [rden] capabilities *)

Section SplitProperties.
Context `{Kernel}.
Variable mem : Mem.
Variable lib : Library.
Variable addr_compatible : nat → nat → bool.
Variable get_wr_implies_rd : nat → nat → bool.
Variable get_wr_excludes_rd : nat → nat → bool.

Lemma opts_merge_apply (dst : gmap string Const) (src : OptionEntries) :
  (apply_opts dst src).1 = true ↔ opts_merge dst src.
Proof.
  split.
  - intros Hok. exists (apply_opts dst src).2.
    split; [apply apply_opts_subseteq|].
    apply opts_applied_all. by apply apply_opts_true_applied.
  - intros (m & Hsub & Hall).
    apply (apply_opts_least src dst m Hsub). by apply opts_applied_all.
Qed.

Lemma opts_merged_apply (dst : gmap string Const) (src : OptionEntries) o :
  opts_merged dst src o → apply_opts dst src = (true, o).
Proof.
  intros (Hsub & Hall & Hleast).
  destruct (apply_opts_least src dst o Hsub) as [Hok Hle];
    [by apply opts_applied_all|].
  assert (Hge : o ⊆ (apply_opts dst src).2).
  { apply Hleast; [apply apply_opts_subseteq|].
    apply opts_applied_all. by apply apply_opts_true_applied. }
  destruct (apply_opts dst src) as [ok o']. simpl in *. subst ok.
  f_equal. by apply (anti_symm (⊆)).
Qed.

Lemma for_each_Forall2 {A B} (f : A → outcome (list B))
    (R : A → list B → Prop) xs :
  (∀ x, x ∈ xs → ∃ ys, f x = Ok ys ∧ R x ys) →
  ∃ yss, Forall2 R xs yss ∧ for_each f xs = Ok (concat yss).
Proof.
  induction xs as [|x xs IH]; intros Hf.
  - exists []. split; [constructor | done].
  - destruct (Hf x) as (ys & Hx & HR); [apply list_elem_of_here|].
    destruct IH as (yss & HF & Hxs).
    { intros y Hy. apply Hf. by apply list_elem_of_further. }
    exists (ys :: yss). split; [by constructor|].
    simpl. by rewrite Hx, Hxs.
Qed.

Lemma rd_port_shared_rden_split port pidx wpidx cfg wpcfg endef :
  cfg_wr_ports cfg !! wpidx = Some wpcfg →
  ∃ out,
    rd_port_shared_rden get_wr_implies_rd get_wr_excludes_rd port pidx wpidx
      (cfg_set_wr_ports cfg
         (<[wpidx := wp_set_rd_port wpcfg (Z.of_nat pidx)]>
            (cfg_wr_ports cfg)))
      (new_RdPortConfig (Z.of_nat wpidx) (wp_port_def wpcfg)) endef = Ok out
    ∧ rden_split get_wr_implies_rd get_wr_excludes_rd port pidx wpidx cfg
        wpcfg endef out.
Proof.
  intros Hwp.
  assert (Hlt : wpidx < length (cfg_wr_ports cfg))
    by (by eapply lookup_lt_Some).
  unfold rd_port_shared_rden, apply_wrport_opts.
  cbn [cfg_wr_ports cfg_opts cfg_set_wr_ports cfg_set_opts].
  rewrite (bind_Ok_l _ _ _
             (proj2 (vec_at_Ok _ _ _)
                (list_lookup_insert_eq _ _
                   (wp_set_rd_port wpcfg (Z.of_nat pidx)) Hlt))).
  cbn [wp_portopts wp_set_rd_port].
  pose proof (opts_merge_apply (cfg_opts cfg) (cap_opts endef)) as M1.
  pose proof (opts_merge_apply (wp_portopts wpcfg) (cap_portopts endef)) as M2.
  pose proof (opts_merged_apply (cfg_opts cfg) (cap_opts endef)) as L1.
  pose proof (opts_merged_apply (wp_portopts wpcfg) (cap_portopts endef))
    as L2.
  destruct (apply_opts (cfg_opts cfg) (cap_opts endef)) as [[] o1].
  - destruct (apply_opts (wp_portopts wpcfg) (cap_portopts endef))
      as [[] po1].
    + simpl. rewrite list_insert_insert_eq.
      assert (Hc : ∀ b,
                 push_rd_port
                   (cfg_set_wr_ports
                      (cfg_set_opts
                         (cfg_set_wr_ports cfg
                            (<[wpidx:=wp_set_rd_port wpcfg (Z.of_nat pidx)]>
                               (cfg_wr_ports cfg)))
                         o1)
                      (<[wpidx:=wp_set_portopts
                                  (wp_set_rd_port wpcfg (Z.of_nat pidx)) po1]>
                         (cfg_wr_ports cfg)))
                   (rp_set_emu_en
                      (new_RdPortConfig (Z.of_nat wpidx) (wp_port_def wpcfg))
                      b)
                 = shared_candidate cfg pidx wpidx wpcfg o1 po1 b) by done.
      change (new_RdPortConfig (Z.of_nat wpidx) (wp_port_def wpcfg))
        with (rp_set_emu_en
                (new_RdPortConfig (Z.of_nat wpidx) (wp_port_def wpcfg))
                false).
      rewrite !Hc.
      assert (Hm : ¬ ¬ (opts_merge (cfg_opts cfg) (cap_opts endef)
                        ∧ opts_merge (wp_portopts wpcfg)
                            (cap_portopts endef))).
      { intros Hno. apply Hno. split; [by apply M1 | by apply M2]. }
      unfold rden_split. destruct (cap_val endef).
      * eexists. split; [done|]. split; [by intros ?|].
        intros o po [= <-]%L1 [= <-]%L2.
        eexists. split; [done|]. apply bool_decide_eq_true.
      * eexists. split; [done|]. split; [by intros ?|].
        by intros o po [= <-]%L1 [= <-]%L2.
      * eexists. split; [done|]. split; [by intros ?|].
        intros o po [= <-]%L1 [= <-]%L2.
        eexists. split; [done|].
        by destruct (get_wr_implies_rd wpidx pidx).
      * destruct (get_wr_excludes_rd wpidx pidx); simpl.
        -- eexists. split; [done|]. split; [by intros ?|].
           intros o po [= <-]%L1 [= <-]%L2. by repeat split.
        -- exists []. split; [done|]. split; [done|].
           intros o po _ _. by repeat split.
    + simpl. exists []. split; [done|]. split; [done|].
      by intros o po _ ?%L2.
  - simpl. exists []. split; [done|]. split; [done|].
    by intros o po ?%L1.
Qed.

(** C3. For a read port [pidx] and a write port [wpidx] of the memory with
    compatible addresses and the same clock signal and polarity, the read
    port being clocked: [handle_rd_ports] runs the read ports before
    [pidx], maps every candidate on its own with [rd_port_cfg] for [pidx],
    and runs the read ports after it.  For a candidate that has bound the
    write port to an [srsw] group and not yet shared it, the candidates
    that bind the read port are: those of the first pass, those that share
    an earlier write port, one list per [rden] capability of the group,
    in the order of the capabilities, and those that share a later write
    port.  The list of a capability is as [rden_split] says: empty if the
    options of the capability do not merge into the candidate and the
    write port, whatever the capability and the queries; otherwise the
    shared candidate with [emu_en] iff the read enable is not the constant
    1 for [none], with [emu_en] clear for [any], with [emu_en] iff
    [get_wr_implies_rd] answers false for [write_implies], and for
    [write_excludes] empty iff [get_wr_excludes_rd] answers false, the
    shared candidate with [emu_en] clear otherwise. *)
Theorem rd_port_shared_srsw_rden pidx port wpidx wport :
  mem_rd_ports mem !! pidx = Some port →
  mem_wr_ports mem !! wpidx = Some wport →
  addr_compatible wpidx pidx = true →
  rd_clk_enable port = true →
  rd_clk port = wr_clk wport →
  rd_clk_polarity port = wr_clk_polarity wport →
  (∀ cfgs,
     handle_rd_ports mem lib addr_compatible get_wr_implies_rd
       get_wr_excludes_rd cfgs
     = (c1 ← generations
               (fun '(i, p) cs =>
                  for_each
                    (rd_port_cfg mem lib addr_compatible get_wr_implies_rd
                       get_wr_excludes_rd i p) cs)
               (take pidx (enumerate (mem_rd_ports mem))) cfgs;
        c2 ← for_each
               (rd_port_cfg mem lib addr_compatible get_wr_implies_rd
                  get_wr_excludes_rd pidx port) c1;
        generations
          (fun '(i, p) cs =>
             for_each
               (rd_port_cfg mem lib addr_compatible get_wr_implies_rd
                  get_wr_excludes_rd i p) cs)
          (drop (S pidx) (enumerate (mem_rd_ports mem))) c2))
  ∧ ∀ cfg ram_def wpcfg def,
      ram_defs lib !! cfg_ram_def cfg = Some ram_def →
      cfg_wr_ports cfg !! wpidx = Some wpcfg →
      ram_ports ram_def !! wp_port_def wpcfg = Some def →
      pg_kind (cap_val def) = PortKind.Srsw →
      wp_rd_port wpcfg = (-1)%Z →
      ∃ per_cap : list (list MemConfig),
        Forall2
          (rden_split get_wr_implies_rd get_wr_excludes_rd port pidx wpidx
             cfg wpcfg)
          (pg_rden (cap_val def)) per_cap
        ∧ rd_port_shared addr_compatible get_wr_implies_rd
            get_wr_excludes_rd port pidx cfg ram_def wpidx wport
          = Ok (concat per_cap)
        ∧ rd_port_cfg mem lib addr_compatible get_wr_implies_rd
            get_wr_excludes_rd pidx port cfg
          = (before ← for_each
                        (fun '(w, q) =>
                           rd_port_shared addr_compatible get_wr_implies_rd
                             get_wr_excludes_rd port pidx cfg ram_def w q)
                        (take wpidx (enumerate (mem_wr_ports mem)));
             after ← for_each
                       (fun '(w, q) =>
                          rd_port_shared addr_compatible get_wr_implies_rd
                            get_wr_excludes_rd port pidx cfg ram_def w q)
                       (drop (S wpidx) (enumerate (mem_wr_ports mem)));
             Ok (flat_map (fun '(i, d) => rd_port_unshared port cfg i d)
                   (enumerate (ram_ports ram_def))
                 ++ before ++ concat per_cap ++ after)).
Proof.
  intros Hport Hwport Haddr Hen Hclk Hpol. split.
  - intros cfgs. unfold handle_rd_ports.
    pose proof (enumerate_middle _ _ _ Hport) as Er.
    set (pre := take pidx (enumerate (mem_rd_ports mem))) in *.
    set (post := drop (S pidx) (enumerate (mem_rd_ports mem))) in *.
    by rewrite Er, generations_middle.
  - intros cfg ram_def wpcfg def Hram Hwp Hdef Hkind Hfree.
    destruct (for_each_Forall2
                (rd_port_shared_rden get_wr_implies_rd get_wr_excludes_rd
                   port pidx wpidx
                   (cfg_set_wr_ports cfg
                      (<[wpidx := wp_set_rd_port wpcfg (Z.of_nat pidx)]>
                         (cfg_wr_ports cfg)))
                   (new_RdPortConfig (Z.of_nat wpidx) (wp_port_def wpcfg)))
                (rden_split get_wr_implies_rd get_wr_excludes_rd port pidx
                   wpidx cfg wpcfg)
                (pg_rden (cap_val def)))
      as (per_cap & HF & Hfe).
    { intros endef _. by apply rd_port_shared_rden_split. }
    exists per_cap. split; [done|].
    assert (Hsh : rd_port_shared addr_compatible get_wr_implies_rd
                    get_wr_excludes_rd port pidx cfg ram_def wpidx wport
                  = Ok (concat per_cap)).
    { by rewrite (rd_port_shared_srsw_split addr_compatible
                    get_wr_implies_rd get_wr_excludes_rd port pidx cfg
                    ram_def wpidx wport wpcfg def
                    Hwp Hdef Hkind Hfree Haddr Hen Hclk Hpol). }
    split; [done|].
    unfold rd_port_cfg.
    rewrite (bind_Ok_l _ _ _ (proj2 (vec_at_Ok _ _ _) Hram)).
    pose proof (enumerate_middle _ _ _ Hwport) as Ew.
    set (pre := take wpidx (enumerate (mem_wr_ports mem))) in *.
    set (post := drop (S wpidx) (enumerate (mem_wr_ports mem))) in *.
    rewrite Ew, for_each_middle, Hsh.
    destruct (for_each _ pre) as [a|e]; simpl; [|done].
    by destruct (for_each _ post).
Qed.

End SplitProperties.

(** * The properties on the examples *)

Section Closed.
Import BitKernel Examples.

Lemma apply_opts_commutative_idempotent_witness :
  (let dst : gmap string (list state) := {[ "mode" := [s1] ]} in
   let r1 := apply_opts dst [("mode", [s1]); ("width", [s0; s1])] in
   let r12 := apply_opts r1.2 [("width", [s0; s1]); ("init", [s0])] in
   let r2 := apply_opts dst [("width", [s0; s1]); ("init", [s0])] in
   let r21 := apply_opts r2.2 [("mode", [s1]); ("width", [s0; s1])] in
   r12.2 = r21.2 ∧ r1.1 = r21.1 ∧ r12.1 = r2.1)
  ∧ apply_opts (apply_opts (∅ : gmap string (list state))
                  [("mode", [s1])]).2 [("mode", [s1])]
    = (true, (apply_opts ∅ [("mode", [s1])]).2).
Proof.
  split.
  - apply (proj1 apply_opts_commutative_idempotent).
    intros k v1 v2 H1 H2.
    apply elem_of_cons in H1 as [H1|H1];
      [|apply elem_of_cons in H1 as [H1|H1];
        [|by apply elem_of_nil in H1]];
      (apply elem_of_cons in H2 as [H2|H2];
       [|apply elem_of_cons in H2 as [H2|H2];
         [|by apply elem_of_nil in H2]]);
      congruence.
  - apply (proj2 apply_opts_commutative_idempotent). reflexivity.
Defined.

Lemma apply_opts_not_atomic_witness :
  let dst : gmap string (list state) := {[ "mode" := [s1] ]} in
  let src := [("width", [s1]); ("mode", [s0])] in
  (apply_opts dst src).1 = false ∧ (apply_opts dst src).2 ≠ dst.
Proof.
  apply (proj1 (@apply_opts_not_atomic kernel) "mode" "width" [s1] [s0]);
    done.
Defined.

(** C5 as stated fails: with [ram_style = "block"] the kind is block,
    although the boolean attribute [logic_block] is set. *)
Lemma logic_block_does_not_force_logic :
  ¬ (get_bool_attribute mem_block_and_logic_block ID_logic_block = true →
     (determine_style mem_block_and_logic_block).1 = RamKind.Logic).
Proof. intros Hclaim. by specialize (Hclaim eq_refl). Qed.

Lemma determine_style_spec_witness :
  style_value_spec (const_of_string "block")
    (determine_style mem_block_and_logic_block).
Proof.
  apply (proj1 (proj2 (determine_style_spec mem_block_and_logic_block))
           ["\ram_block"; "\rom_block"] "\ram_style"
           ["\rom_style"; "\ramstyle"; "\romstyle"; "\syn_ramstyle";
            "\syn_romstyle"]).
  - reflexivity.
  - intros a Ha.
    repeat (apply elem_of_cons in Ha as [->|Ha]; [reflexivity|]).
    by apply elem_of_nil in Ha.
  - reflexivity.
Defined.

(** C6 as stated fails: a memory whose only write port has no clock has
    write ports that share clock-enable, clock signal and polarity, its
    kind is auto, and [logic_ok] is false. *)
Lemma logic_ok_needs_clocked_write_ports :
  (determine_style mem_async_wr).1 = RamKind.Auto
  ∧ ¬ (determine_logic_ok mem_async_wr RamKind.Auto = true
       ↔ (RamKind.Auto = RamKind.Auto ∨ RamKind.Auto = RamKind.Logic)
         ∧ (mem_wr_ports mem_async_wr = []
            ∨ wr_ports_share (mem_wr_ports mem_async_wr))).
Proof.
  split; [reflexivity|]. intros [_ Hclaim].
  assert (Hok : determine_logic_ok mem_async_wr RamKind.Auto = true);
    [|by vm_compute in Hok].
  apply Hclaim. split; [by left|]. right.
  intros p q Hp%list_elem_of_singleton Hq%list_elem_of_singleton.
  by subst.
Qed.

(** C1 fails on the code.  [handle_priority] reads the group of the port
    with priority from [cfg.rd_ports[p1idx]], the config of the read port
    that happens to have the index of the write port [p1].

    With the groups [R] (read), [A] and [B] (write), the write ports 0 and
    1 and the read port 0 bound to [R], the write port 1 having priority
    over the write port 0:
    - [B] declares [wrprio "A"]: in the candidate that binds the write
      port 0 to [A] (group 1) and the write port 1 to [B] (group 2) the
      capability names the group of the write port 0 and has no options,
      and the candidate still comes out with the priority emulated, and
      only so;
    - [B] declares [wrprio "R"]: the same candidate comes out without
      emulation, although no capability names [A];
    - without a read port the index is out of range. *)
Theorem handle_priority_reads_rd_ports :
  priority_view
    (MemMapping mem_prio (lib_prio "A") no_query no_query no_query)
  = Ok [([1; 2], [[]; [0]]); ([2; 1], [[]; [0]])]
  ∧ priority_view
      (MemMapping mem_prio (lib_prio "R") no_query no_query no_query)
    = Ok [([1; 2], [[]; []]); ([2; 1], [[]; [0]])]
  ∧ MemMapping mem_prio_no_rd (lib_prio "A") no_query no_query no_query
    = Err OutOfRange.
Proof. repeat split; vm_compute; reflexivity. Qed.

(** C2 as stated fails: two read ports are bound to the group [R], which
    declares one name. *)
Lemma read_ports_exceed_names :
  ¬ (∀ cfgs c rdef g def,
       binding_phases mem_two_readers lib_one_read_group
         no_query no_query no_query = Ok cfgs →
       c ∈ cfgs →
       ram_defs lib_one_read_group !! cfg_ram_def c = Some rdef →
       ram_ports rdef !! g = Some def →
       ports_bound c g ≤ length (pg_names (cap_val def))).
Proof.
  intros Hclaim.
  assert (Hview : view (fun c => (cfg_ram_def c, ports_bound c 0))
                    (binding_phases mem_two_readers lib_one_read_group
                       no_query no_query no_query)
                  = Ok [(0, 2)])
    by (vm_compute; reflexivity).
  destruct (binding_phases mem_two_readers lib_one_read_group
              no_query no_query no_query) as [cfgs|e] eqn:Hrun; [|done].
  destruct cfgs as [|c [|c' cfgs]]; try done.
  injection Hview as Hram Hbound.
  specialize (Hclaim [c] c
                (ram RamKind.Block "$R" (ram_ports_of lib_one_read_group)) 0
                (port_group PortKind.Sr ["R"] anyedge [cap RdEnKind.Any]
                   [] [])
                eq_refl (list_elem_of_here _ _)).
  rewrite Hram, Hbound in Hclaim.
  specialize (Hclaim eq_refl eq_refl). simpl in Hclaim. lia.
Qed.

(** On the same input the amended bound holds: the two read ports count
    as one. *)
Lemma group_usage_bounded_witness :
  ∃ cfgs,
    binding_phases mem_two_readers lib_one_read_group
      no_query no_query no_query = Ok cfgs
    ∧ (fun c => slots_bound c 0) <$> cfgs = [1]
    ∧ Forall (fun c => group_slots_ok lib_one_read_group c
                       ∧ shared_on_write_group c) cfgs.
Proof.
  assert (Hview : view (fun c => slots_bound c 0)
                    (binding_phases mem_two_readers lib_one_read_group
                       no_query no_query no_query)
                  = Ok [1])
    by (vm_compute; reflexivity).
  destruct (binding_phases mem_two_readers lib_one_read_group
              no_query no_query no_query) as [cfgs|e] eqn:Hrun; [|done].
  exists cfgs. split; [done|]. split; [by injection Hview|].
  by apply (proj1 (group_usage_bounded mem_two_readers lib_one_read_group
                     no_query no_query no_query)).
Defined.

(** The read port shares the [srsw] port of the write port, whose group
    declares the four [rden] capabilities without options: [none] and
    [any] keep the binding without emulation (the enable is the constant
    1), [write-implies] keeps it with [emu_en] (the query answers false),
    [write-excludes] drops it (the query answers false). *)
Lemma rd_port_shared_srsw_rden_witness :
  view rd_view
    (handle_rd_ports mem_rw_transparent lib_srsw same_addr no_query no_query
       [cfg_wr_bound])
  = Ok [[(false, false, [])]; [(false, false, [])]; [(false, true, [])]]
  ∧ ∃ per_cap,
      Forall2
        (rden_split no_query no_query (sync_rd [true] [false]) 0 0
           cfg_wr_bound (new_WrPortConfig 0))
        [cap RdEnKind.None; cap RdEnKind.Any; cap RdEnKind.WriteImplies;
         cap RdEnKind.WriteExcludes]
        per_cap
      ∧ rd_port_shared same_addr no_query no_query (sync_rd [true] [false])
          0 cfg_wr_bound (ram RamKind.Block "$S" (ram_ports_of lib_srsw)) 0
          (sync_wr "e" [false])
        = Ok (concat per_cap).
Proof.
  pose proof (@rd_port_shared_srsw_rden kernel mem_rw_transparent lib_srsw
                same_addr no_query no_query 0 (sync_rd [true] [false]) 0
                (sync_wr "e" [false])
                eq_refl eq_refl eq_refl eq_refl eq_refl eq_refl)
    as [Hphase Hcfg].
  split.
  - rewrite (Hphase [cfg_wr_bound]). vm_compute. reflexivity.
  - destruct (Hcfg cfg_wr_bound
                (ram RamKind.Block "$S" (ram_ports_of lib_srsw))
                (new_WrPortConfig 0)
                (port_group PortKind.Srsw ["P"] anyedge
                   [cap RdEnKind.None; cap RdEnKind.Any;
                    cap RdEnKind.WriteImplies; cap RdEnKind.WriteExcludes]
                   []
                   [cap {| wt_target_kind := TransTargetKind.Self;
                           wt_target_name := "";
                           wt_kind := TransKind.New |}])
                eq_refl eq_refl eq_refl eq_refl eq_refl)
      as (per_cap & Hsplit & Hshared & _).
    exists per_cap. split; [exact Hsplit | exact Hshared].
Defined.

(** C3 as stated fails for [write_excludes]: the write port is bound with
    the port option [P = 1] of the clock of the group, the [rden
    write-excludes] capability of the group asks for [P = 0], and the
    query answers true; no candidate binds the read port to share the
    write port. *)
Lemma write_excludes_dropped_on_conflict :
  view (fun c => (fun p => (wp_port_def p, wp_rd_port p)) <$> cfg_wr_ports c)
    (handle_wr_ports mem_rw_transparent lib_rden_conflict
       (initial_cfgs lib_rden_conflict))
  = Ok [[(0, (-1)%Z)]]
  ∧ same_addr 0 0 = true
  ∧ yes_query 0 0 = true
  ∧ ¬ (∀ cfgs out,
         handle_wr_ports mem_rw_transparent lib_rden_conflict
           (initial_cfgs lib_rden_conflict) = Ok cfgs →
         handle_rd_ports mem_rw_transparent lib_rden_conflict same_addr
           no_query yes_query cfgs = Ok out →
         excludes_drop_iff_query yes_query 0 0 out).
Proof.
  split; [vm_compute; reflexivity|]. split; [reflexivity|].
  split; [reflexivity|]. intros Hclaim.
  assert (Hrun : (cfgs ← handle_wr_ports mem_rw_transparent lib_rden_conflict
                           (initial_cfgs lib_rden_conflict);
                  handle_rd_ports mem_rw_transparent lib_rden_conflict
                    same_addr no_query yes_query cfgs) = Ok [])
    by (vm_compute; reflexivity).
  destruct (handle_wr_ports mem_rw_transparent lib_rden_conflict
              (initial_cfgs lib_rden_conflict)) as [cfgs|e] eqn:Hwr;
    [|discriminate Hrun].
  simpl in Hrun.
  assert (Hq : yes_query 0 0 = false).
  { apply (Hclaim cfgs [] eq_refl Hrun). intros c p Hc.
    by apply elem_of_nil in Hc. }
  discriminate Hq.
Qed.

(** The transparent pair shares the [srsw] port.  Where the group declares
    [wrtrans self new] with an option not yet applied, the phase gives two
    candidates: the clone with the option merged, and the clone with the
    write port appended to [emu_trans].  Where the capability has no
    option it is free: the candidate passes, and no clone with emulation
    is added.  Where the read port has [emu_sync], the candidate passes
    with the write port appended to [emu_trans]. *)
Lemma handle_trans_pair_spec_witness :
  view trans_view
    (handle_trans mem_rw_transparent lib_trans_option [cfg_rw_shared])
  = Ok [(true, [(false, false, [])]); (false, [(false, false, [0])])]
  ∧ view trans_view
      (handle_trans mem_rw_transparent lib_srsw [cfg_rw_shared])
    = Ok [(false, [(false, false, [])])]
  ∧ view trans_view
      (trans_cfg lib_srsw 0 0 true
         (cfg_set_rd_ports cfg_rw_shared
            [rp_set_emu_sync (new_RdPortConfig 0 0) true]))
    = Ok [(false, [(true, false, [0])])].
Proof.
  split; [|split].
  - rewrite (proj1 (handle_trans_pair_spec mem_rw_transparent
                      lib_trans_option 0 (sync_rd [true] [false]) 0
                      (sync_wr "e" [false]) true
                      eq_refl eq_refl eq_refl eq_refl eq_refl eq_refl)
               eq_refl eq_refl [cfg_rw_shared]).
    vm_compute. reflexivity.
  - rewrite (proj1 (handle_trans_pair_spec mem_rw_transparent
                      lib_srsw 0 (sync_rd [true] [false]) 0
                      (sync_wr "e" [false]) true
                      eq_refl eq_refl eq_refl eq_refl eq_refl eq_refl)
               eq_refl eq_refl [cfg_rw_shared]).
    vm_compute. reflexivity.
  - rewrite (proj2 (proj2 (proj2
                      (handle_trans_pair_spec mem_rw_transparent lib_srsw 0
                         (sync_rd [true] [false]) 0 (sync_wr "e" [false])
                         true
                         eq_refl eq_refl eq_refl eq_refl eq_refl eq_refl)))
               (cfg_set_rd_ports cfg_rw_shared
                  [rp_set_emu_sync (new_RdPortConfig 0 0) true])
               (rp_set_emu_sync (new_RdPortConfig 0 0) true)
               (wp_set_rd_port (new_WrPortConfig 0) 0)
               (ram RamKind.Block "$S" (ram_ports_of lib_srsw))
               (port_group PortKind.Srsw ["P"] anyedge
                  [cap RdEnKind.None; cap RdEnKind.Any;
                   cap RdEnKind.WriteImplies; cap RdEnKind.WriteExcludes]
                  []
                  [cap {| wt_target_kind := TransTargetKind.Self;
                          wt_target_name := "";
                          wt_kind := TransKind.New |}])
               _ "P" eq_refl eq_refl eq_refl eq_refl eq_refl eq_refl).
    vm_compute. reflexivity.
Defined.

Lemma mem_async_wr_wf : mem_wf mem_async_wr.
Proof.
  split.
  - intros port Hp. by apply elem_of_nil in Hp.
  - intros port Hp. by apply list_elem_of_singleton in Hp as ->.
Defined.

Lemma async_write_port_clears_cfgs_witness :
  handle_wr_ports mem_async_wr (lib_prio "A") (initial_cfgs (lib_prio "A"))
  = Ok []
  ∧ MemMapping mem_async_wr (lib_prio "A") no_query no_query no_query
    ≠ Err OutOfRange.
Proof.
  destruct (async_write_port_clears_cfgs mem_async_wr (lib_prio "A")
              no_query no_query no_query)
    as (Hwr & _ & _ & Hrange).
  { eexists. split; [apply list_elem_of_here | reflexivity]. }
  split; [|by apply Hrange, mem_async_wr_wf]. apply Hwr.
  apply Forall_forall. intros c Hc.
  by apply initial_cfgs_spec in Hc as (Hv & _).
Defined.

(** The candidate for the shared [arsw] port: [emu_sync] is set, no other
    emulation flag is, and [emu_trans] holds the write port. *)
Lemma emu_sync_excludes_emulation_witness :
  ∃ st c p,
    MemMapping mem_rw_transparent lib_arsw same_addr no_query no_query = Ok st
    ∧ mm_cfgs st = [c] ∧ cfg_rd_ports c = [p]
    ∧ rp_emu_sync p = true ∧ rp_emu_trans p = [0]
    ∧ rp_emu_en p = false ∧ rp_emu_arst p = false ∧ rp_emu_srst p = false
    ∧ rp_emu_init p = false ∧ rp_emu_srst_en_prio p = false.
Proof.
  assert (Hview : view rd_view
                    (st ← MemMapping mem_rw_transparent lib_arsw
                            same_addr no_query no_query;
                     Ok (mm_cfgs st))
                  = Ok [[(true, false, [0])]])
    by (vm_compute; reflexivity).
  destruct (MemMapping mem_rw_transparent lib_arsw
              same_addr no_query no_query) as [st|e] eqn:Hrun; [|done].
  injection Hview as Hview.
  destruct (mm_cfgs st) as [|c [|c' cfgs]] eqn:Hcfgs; try done.
  injection Hview as Hview. unfold rd_view in Hview.
  destruct (cfg_rd_ports c) as [|p [|p' ps]] eqn:Hports; try done.
  injection Hview as Hsync Hen Htrans.
  exists st, c, p. do 5 (split; [done|]).
  apply (emu_sync_excludes_emulation mem_rw_transparent lib_arsw
           same_addr no_query no_query st c p); [done| | |done].
  - rewrite Hcfgs. apply list_elem_of_here.
  - rewrite Hports. apply list_elem_of_here.
Defined.

(** The candidates of a run, seen through [f]. *)
Lemma view_run {B} (f : MemConfig → B) mem lib ac wi we v vs :
  view f (st ← MemMapping mem lib ac wi we; Ok (mm_cfgs st)) = Ok (v :: vs) →
  ∃ st c, MemMapping mem lib ac wi we = Ok st ∧ c ∈ mm_cfgs st ∧ f c = v.
Proof.
  destruct (MemMapping mem lib ac wi we) as [st|e]; [|discriminate].
  simpl. intros [= Hview].
  destruct (mm_cfgs st) as [|c cfgs] eqn:Hcfgs; [discriminate|].
  injection Hview as Hv _. exists st, c.
  split; [reflexivity|]. split; [|exact Hv].
  rewrite Hcfgs. apply list_elem_of_here.
Defined.

Lemma fmap_head {A B} (f : A → B) (l : list A) x xs :
  f <$> l = x :: xs → ∃ a, l !! 0 = Some a ∧ f a = x.
Proof.
  destruct l as [|a l]; [discriminate|]. intros [= Hx _].
  exists a. split; [reflexivity | exact Hx].
Defined.

(** The first candidate of the run on [mem_full] and [lib_full]: the read
    port shares the [srsw] port of the write port. *)
Lemma full_run :
  ∃ st c rp wp,
    MemMapping mem_full lib_full same_addr no_query no_query = Ok st
    ∧ c ∈ mm_cfgs st
    ∧ cfg_ram_def c = 0
    ∧ cfg_rd_ports c !! 0 = Some rp
    ∧ rp_port_def rp = 0 ∧ rp_wr_port rp = 0%Z
    ∧ cfg_wr_ports c !! 0 = Some wp
    ∧ wp_port_def wp = 0 ∧ wp_rd_port wp = 0%Z.
Proof.
  destruct (view_run binding_view mem_full lib_full same_addr no_query
              no_query (0, [(0, 0%Z)], [(0, 0%Z)])
              [(0, [(0, 0%Z)], [(0, 0%Z)])])
    as (st & c & Hrun & Hin & Hv); [vm_compute; reflexivity|].
  injection Hv as Hram Hrd Hwr.
  apply fmap_head in Hrd as (rp & Hrp & [= Hpd Hshare]).
  apply fmap_head in Hwr as (wp & Hwp & [= Hwpd Hwshare]).
  exists st, c, rp, wp. repeat split; assumption.
Defined.

Lemma candidate_has_one_config_per_port_witness :
  ∃ st c,
    MemMapping mem_full lib_full same_addr no_query no_query = Ok st
    ∧ c ∈ mm_cfgs st
    ∧ cfg_ram_def c < length (ram_defs lib_full)
    ∧ length (cfg_wr_ports c) = length (mem_wr_ports mem_full)
    ∧ length (cfg_rd_ports c) = length (mem_rd_ports mem_full).
Proof.
  destruct full_run as (st & c & _ & _ & Hrun & Hin & _).
  exists st, c. split; [exact Hrun|]. split; [exact Hin|].
  exact (candidate_has_one_config_per_port mem_full lib_full same_addr
           no_query no_query st c Hrun Hin).
Defined.

Lemma write_port_binding_sound_witness :
  ∃ st c,
    MemMapping mem_full lib_full same_addr no_query no_query = Ok st
    ∧ c ∈ mm_cfgs st
    ∧ wr_clk_enable (sync_wr "we" [false]) = true
    ∧ ∃ wp rdef def cdef,
        cfg_wr_ports c !! 0 = Some wp
        ∧ ram_defs lib_full !! cfg_ram_def c = Some rdef
        ∧ ram_ports rdef !! wp_port_def wp = Some def
        ∧ pg_kind (cap_val def)
          ∈ [PortKind.Sw; PortKind.Srsw; PortKind.Arsw]
        ∧ opts_applied (cfg_opts c) (cap_opts def) = true
        ∧ cdef ∈ pg_clock (cap_val def)
        ∧ opts_applied (cfg_opts c) (cap_opts cdef) = true
        ∧ opts_applied (wp_portopts wp) (cap_portopts cdef) = true
        ∧ clock_recorded c (cap_val cdef)
            (sig_as_bit (wr_clk (sync_wr "we" [false])))
            (wr_clk_polarity (sync_wr "we" [false])).
Proof.
  destruct full_run as (st & c & _ & _ & Hrun & Hin & _).
  exists st, c. split; [exact Hrun|]. split; [exact Hin|].
  exact (write_port_binding_sound mem_full lib_full same_addr
           no_query no_query st c 0 (sync_wr "we" [false]) Hrun Hin eq_refl).
Defined.

Lemma read_port_binding_kind_witness :
  ∃ st c,
    MemMapping mem_full lib_full same_addr no_query no_query = Ok st
    ∧ c ∈ mm_cfgs st
    ∧ ∃ p rdef def,
        cfg_rd_ports c !! 0 = Some p
        ∧ ram_defs lib_full !! cfg_ram_def c = Some rdef
        ∧ ram_ports rdef !! rp_port_def p = Some def
        ∧ pg_kind (cap_val def) ≠ PortKind.Sw
        ∧ opts_applied (cfg_opts c) (cap_opts def) = true
        ∧ (rd_clk_enable rd_full = false →
           pg_kind (cap_val def) = PortKind.Ar
           ∨ pg_kind (cap_val def) = PortKind.Arsw)
        ∧ (rp_emu_sync p = true
           ↔ rd_clk_enable rd_full = true
             ∧ (pg_kind (cap_val def) = PortKind.Ar
                ∨ pg_kind (cap_val def) = PortKind.Arsw)).
Proof.
  destruct full_run as (st & c & _ & _ & Hrun & Hin & _).
  exists st, c. split; [exact Hrun|]. split; [exact Hin|].
  exact (read_port_binding_kind mem_full lib_full same_addr
           no_query no_query st c 0 rd_full Hrun Hin eq_refl).
Defined.

Lemma read_port_sharing_sound_witness :
  ∃ st c p,
    MemMapping mem_full lib_full same_addr no_query no_query = Ok st
    ∧ c ∈ mm_cfgs st
    ∧ cfg_rd_ports c !! 0 = Some p
    ∧ ∃ w wport wp rdef def,
        rp_wr_port p = Z.of_nat w
        ∧ mem_wr_ports mem_full !! w = Some wport
        ∧ cfg_wr_ports c !! w = Some wp
        ∧ wp_rd_port wp = Z.of_nat 0
        ∧ wp_port_def wp = rp_port_def p
        ∧ same_addr w 0 = true
        ∧ ram_defs lib_full !! cfg_ram_def c = Some rdef
        ∧ ram_ports rdef !! rp_port_def p = Some def
        ∧ (pg_kind (cap_val def) = PortKind.Srsw
           ∨ pg_kind (cap_val def) = PortKind.Arsw)
        ∧ (pg_kind (cap_val def) = PortKind.Srsw →
           rd_clk_enable rd_full = true
           ∧ rd_clk rd_full = wr_clk wport
           ∧ rd_clk_polarity rd_full = wr_clk_polarity wport).
Proof.
  destruct full_run as (st & c & rp & _ & Hrun & Hin & _ & Hrp & _ & Hshare
                        & _).
  exists st, c, rp. split; [exact Hrun|]. split; [exact Hin|].
  split; [exact Hrp|].
  apply (read_port_sharing_sound mem_full lib_full same_addr
           no_query no_query st c 0 rd_full rp Hrun Hin eq_refl Hrp).
  rewrite Hshare. discriminate.
Defined.

Lemma write_port_sharing_sound_witness :
  ∃ st c wp,
    MemMapping mem_full lib_full same_addr no_query no_query = Ok st
    ∧ c ∈ mm_cfgs st
    ∧ cfg_wr_ports c !! 0 = Some wp
    ∧ ∃ j rp, wp_rd_port wp = Z.of_nat j
        ∧ cfg_rd_ports c !! j = Some rp
        ∧ rp_wr_port rp = Z.of_nat 0.
Proof.
  destruct full_run as (st & c & _ & wp & Hrun & Hin & _ & _ & _ & _ & Hwp
                        & _ & Hshare).
  exists st, c, wp. split; [exact Hrun|]. split; [exact Hin|].
  split; [exact Hwp|].
  apply (write_port_sharing_sound mem_full lib_full same_addr
           no_query no_query st c 0 wp Hrun Hin Hwp).
  rewrite Hshare. discriminate.
Defined.

Lemma read_port_enable_sound_witness :
  ∃ st c p rdef def,
    MemMapping mem_full lib_full same_addr no_query no_query = Ok st
    ∧ c ∈ mm_cfgs st
    ∧ cfg_rd_ports c !! 0 = Some p
    ∧ ram_defs lib_full !! cfg_ram_def c = Some rdef
    ∧ ram_ports rdef !! rp_port_def p = Some def
    ∧ (pg_kind (cap_val def) = PortKind.Ar
       ∨ pg_kind (cap_val def) = PortKind.Arsw → rp_emu_en p = false)
    ∧ (pg_kind (cap_val def) = PortKind.Sr
       ∨ pg_kind (cap_val def) = PortKind.Srsw →
       ∃ endef, endef ∈ pg_rden (cap_val def)
         ∧ rd_caps_applied c p endef
         ∧ rden_ok no_query no_query 0 rd_full p (cap_val endef)).
Proof.
  destruct full_run as (st & c & rp & _ & Hrun & Hin & Hram & Hrp & Hpd & _).
  assert (∃ rdef, ram_defs lib_full !! cfg_ram_def c = Some rdef
            ∧ ∃ def, ram_ports rdef !! rp_port_def rp = Some def)
    as (rdef & Hrdef & def & Hdef).
  { rewrite Hram, Hpd. eexists. split; [reflexivity|].
    eexists. reflexivity. }
  exists st, c, rp, rdef, def.
  split; [exact Hrun|]. split; [exact Hin|]. split; [exact Hrp|].
  split; [exact Hrdef|]. split; [exact Hdef|].
  exact (read_port_enable_sound mem_full lib_full same_addr
           no_query no_query st c 0 rd_full rp rdef def Hrun Hin eq_refl
           Hrp Hrdef Hdef).
Defined.

Lemma read_port_clock_recorded_witness :
  ∃ st c p rdef def port,
    MemMapping mem_prio (lib_prio "A") same_addr no_query no_query = Ok st
    ∧ c ∈ mm_cfgs st
    ∧ mem_rd_ports mem_prio !! 0 = Some port
    ∧ cfg_rd_ports c !! 0 = Some p
    ∧ ram_defs (lib_prio "A") !! cfg_ram_def c = Some rdef
    ∧ ram_ports rdef !! rp_port_def p = Some def
    ∧ rp_wr_port p = (-1)%Z
    ∧ (pg_kind (cap_val def) = PortKind.Sr
       ∨ pg_kind (cap_val def) = PortKind.Srsw)
    ∧ rd_clk_enable port = true
    ∧ ∃ cdef, cdef ∈ pg_clock (cap_val def)
        ∧ opts_applied (cfg_opts c) (cap_opts cdef) = true
        ∧ opts_applied (rp_portopts p) (cap_portopts cdef) = true
        ∧ clock_recorded c (cap_val cdef) (sig_as_bit (rd_clk port))
            (rd_clk_polarity port).
Proof.
  destruct (view_run binding_view mem_prio (lib_prio "A") same_addr no_query
              no_query (0, [(0, (-1)%Z)], [(1, (-1)%Z); (2, (-1)%Z)])
              [(0, [(0, (-1)%Z)], [(2, (-1)%Z); (1, (-1)%Z)])])
    as (st & c & Hrun & Hin & Hv); [vm_compute; reflexivity|].
  injection Hv as Hram Hrd _.
  apply fmap_head in Hrd as (rp & Hrp & [= Hpd Hshare]).
  assert (∃ rdef, ram_defs (lib_prio "A") !! cfg_ram_def c = Some rdef
            ∧ ∃ def, ram_ports rdef !! rp_port_def rp = Some def
                ∧ pg_kind (cap_val def) = PortKind.Sr)
    as (rdef & Hrdef & def & Hdef & Hkind).
  { rewrite Hram, Hpd. eexists. split; [reflexivity|].
    eexists. split; reflexivity. }
  exists st, c, rp, rdef, def, (sync_rd [false; false] [true; true]).
  split; [exact Hrun|]. split; [exact Hin|]. split; [reflexivity|].
  split; [exact Hrp|]. split; [exact Hrdef|]. split; [exact Hdef|].
  split; [exact Hshare|]. split; [left; exact Hkind|].
  exact (read_port_clock_recorded mem_prio (lib_prio "A") same_addr
           no_query no_query st c 0 (sync_rd [false; false] [true; true])
           rp rdef def Hrun Hin eq_refl Hrp Hrdef Hdef Hshare
           (or_introl Hkind)).
Defined.

Lemma emulation_only_where_asked_witness :
  ∃ st c,
    MemMapping mem_full lib_full same_addr no_query no_query = Ok st
    ∧ c ∈ mm_cfgs st
    ∧ (∀ j p, cfg_rd_ports c !! j = Some p →
         (rp_emu_init p = true → init_guard mem_full j)
         ∧ (rp_emu_arst p = true → arst_guard mem_full j)
         ∧ (rp_emu_srst p = true → srst_guard mem_full j)
         ∧ (rp_emu_srst_en_prio p = true → srst_prio_guard mem_full j)
         ∧ (∀ w, w ∈ rp_emu_trans p → same_domain mem_full j w true))
    ∧ (∀ w wp p1, cfg_wr_ports c !! w = Some wp →
         p1 ∈ wp_emu_prio wp → prio_guard mem_full w p1).
Proof.
  destruct full_run as (st & c & _ & _ & Hrun & Hin & _).
  exists st, c. split; [exact Hrun|]. split; [exact Hin|].
  exact (emulation_only_where_asked mem_full lib_full same_addr
           no_query no_query st c Hrun Hin).
Defined.

Lemma same_domain_full : same_domain mem_full 0 0 true.
Proof.
  exists rd_full, (sync_wr "we" [false]). repeat split; reflexivity.
Defined.

Lemma transparency_provided_witness :
  ∃ st c,
    MemMapping mem_full lib_full same_addr no_query no_query = Ok st
    ∧ c ∈ mm_cfgs st
    ∧ same_domain mem_full 0 0 true
    ∧ ∃ rp wp rdef wpdef rpdef,
        cfg_rd_ports c !! 0 = Some rp
        ∧ cfg_wr_ports c !! 0 = Some wp
        ∧ ram_defs lib_full !! cfg_ram_def c = Some rdef
        ∧ ram_ports rdef !! wp_port_def wp = Some wpdef
        ∧ ram_ports rdef !! rp_port_def rp = Some rpdef
        ∧ ((true = true ∧ 0 ∈ rp_emu_trans rp)
           ∨ (true = false ∧ rp_emu_sync rp = true)
           ∨ (rp_emu_sync rp = false
              ∧ ∃ tdef, tdef ∈ pg_wrtrans (cap_val wpdef)
                  ∧ wrtrans_covers 0 wp rpdef true (cap_val tdef)
                  ∧ is_applied c wp tdef = true)).
Proof.
  destruct full_run as (st & c & _ & _ & Hrun & Hin & _).
  exists st, c. split; [exact Hrun|]. split; [exact Hin|].
  split; [exact same_domain_full|].
  exact (transparency_provided mem_full lib_full same_addr
           no_query no_query st c 0 0 true Hrun Hin same_domain_full).
Defined.

Lemma init_value_provided_witness :
  ∃ st c,
    MemMapping mem_full lib_full same_addr no_query no_query = Ok st
    ∧ c ∈ mm_cfgs st
    ∧ rd_clk_enable rd_full = true
    ∧ is_fully_undef (rd_init_value rd_full) = false
    ∧ ∃ rp rdef pdef,
        cfg_rd_ports c !! 0 = Some rp
        ∧ ram_defs lib_full !! cfg_ram_def c = Some rdef
        ∧ ram_ports rdef !! rp_port_def rp = Some pdef
        ∧ (rp_emu_sync rp = true
           ∨ rp_emu_init rp = true
           ∨ ∃ rstdef, rstdef ∈ pg_rdrstval (cap_val pdef)
               ∧ rstval_covers ResetKind.Init (rd_init_value rd_full) c rp
                   rstdef).
Proof.
  destruct full_run as (st & c & _ & _ & Hrun & Hin & _).
  exists st, c. split; [exact Hrun|]. split; [exact Hin|].
  split; [reflexivity|]. split; [reflexivity|].
  exact (init_value_provided mem_full lib_full same_addr
           no_query no_query st c 0 rd_full Hrun Hin eq_refl eq_refl
           eq_refl).
Defined.

Lemma srst_value_provided_witness :
  ∃ st c,
    MemMapping mem_full lib_full same_addr no_query no_query = Ok st
    ∧ c ∈ mm_cfgs st
    ∧ rd_clk_enable rd_full = true
    ∧ rd_srst rd_full ≠ sig_of_state S0
    ∧ is_fully_undef (rd_srst_value rd_full) = false
    ∧ ∃ rp rdef pdef,
        cfg_rd_ports c !! 0 = Some rp
        ∧ ram_defs lib_full !! cfg_ram_def c = Some rdef
        ∧ ram_ports rdef !! rp_port_def rp = Some pdef
        ∧ (rp_emu_sync rp = true
           ∨ rp_emu_srst rp = true
           ∨ ∃ rstdef, rstdef ∈ pg_rdrstval (cap_val pdef)
               ∧ rstval_covers ResetKind.Sync (rd_srst_value rd_full) c rp
                   rstdef
               ∧ (rd_en rd_full = sig_of_state S1
                  ∨ ∃ mdef, mdef ∈ pg_rdsrstmode (cap_val pdef)
                      ∧ rd_caps_applied c rp mdef
                      ∧ srst_mode_ok rd_full rp (cap_val mdef))).
Proof.
  assert (Hrst : rd_srst rd_full ≠ sig_of_state S0) by discriminate.
  destruct full_run as (st & c & _ & _ & Hrun & Hin & _).
  exists st, c. split; [exact Hrun|]. split; [exact Hin|].
  split; [reflexivity|]. split; [exact Hrst|]. split; [reflexivity|].
  exact (srst_value_provided mem_full lib_full same_addr
           no_query no_query st c 0 rd_full Hrun Hin eq_refl eq_refl
           Hrst eq_refl).
Defined.

Lemma arst_value_provided_witness :
  ∃ st c,
    MemMapping mem_arst lib_full same_addr no_query no_query = Ok st
    ∧ c ∈ mm_cfgs st
    ∧ rd_clk_enable rd_with_arst = true
    ∧ rd_arst rd_with_arst ≠ sig_of_state S0
    ∧ is_fully_undef (rd_arst_value rd_with_arst) = false
    ∧ ∃ rp rdef pdef,
        cfg_rd_ports c !! 0 = Some rp
        ∧ ram_defs lib_full !! cfg_ram_def c = Some rdef
        ∧ ram_ports rdef !! rp_port_def rp = Some pdef
        ∧ (rp_emu_sync rp = true
           ∨ rp_emu_arst rp = true
           ∨ ∃ rstdef, rstdef ∈ pg_rdrstval (cap_val pdef)
               ∧ rstval_covers ResetKind.Async
                   (rd_arst_value rd_with_arst) c rp rstdef).
Proof.
  assert (Hrst : rd_arst rd_with_arst ≠ sig_of_state S0) by discriminate.
  destruct (view_run binding_view mem_arst lib_full same_addr no_query
              no_query (0, [(0, 0%Z)], [(0, 0%Z)]) [])
    as (st & c & Hrun & Hin & _); [vm_compute; reflexivity|].
  exists st, c. split; [exact Hrun|]. split; [exact Hin|].
  split; [reflexivity|]. split; [exact Hrst|]. split; [reflexivity|].
  exact (arst_value_provided mem_arst lib_full same_addr
           no_query no_query st c 0 rd_with_arst Hrun Hin eq_refl eq_refl
           Hrst eq_refl).
Defined.

Lemma apply_clock_shared_name_witness :
  let d1 := {| clk_kind := ClkPolKind.Posedge; clk_name := "C" |} in
  let d2 := {| clk_kind := ClkPolKind.Negedge; clk_name := "C" |} in
  ∃ cfg1,
    clk_name d1 ≠ ""
    ∧ clk_name d2 = clk_name d1
    ∧ (clk_kind d1 = ClkPolKind.Anyedge ↔ clk_kind d2 = ClkPolKind.Anyedge)
    ∧ @apply_clock kernel (new_MemConfig 0) d1 (SigWire "K" 0) true = (true, cfg1)
    ∧ clocks_kept cfg1 cfg1
    ∧ ((@apply_clock kernel cfg1 d2 (SigWire "K" 0) false).1 = true
       ↔ SigWire "K" 0 = SigWire "K" 0
         ∧ false = (if decide (clk_kind d1 = clk_kind d2) then true
                    else negb true)).
Proof.
  intros d1 d2.
  destruct (@apply_clock kernel (new_MemConfig 0) d1 (SigWire "K" 0) true)
    as [b cfg1] eqn:Hfirst.
  assert (Hb : b = true).
  { change b with (b, cfg1).1. rewrite <- Hfirst. vm_compute. reflexivity. }
  rewrite Hb in Hfirst.
  assert (Hn : clk_name d1 ≠ "") by discriminate.
  assert (Hclass : clk_kind d1 = ClkPolKind.Anyedge
                   ↔ clk_kind d2 = ClkPolKind.Anyedge).
  { split; discriminate. }
  assert (Hkept : clocks_kept cfg1 cfg1) by apply clocks_kept_refl.
  exists cfg1. rewrite Hb.
  split; [exact Hn|]. split; [reflexivity|]. split; [exact Hclass|].
  split; [reflexivity|]. split; [exact Hkept|].
  exact (@apply_clock_shared_name kernel (new_MemConfig 0) d1 (SigWire "K" 0) true
           cfg1 cfg1 d2 (SigWire "K" 0) false Hn eq_refl Hclass Hfirst
           Hkept).
Defined.

Lemma apply_rstval_unnamed_witness :
  let pcfg := @new_RdPortConfig kernel (-1) 0 in
  let def := {| rst_kind := ResetKind.Init;
                rst_val_kind := ResetValKind.Zero; rst_name := "" |} in
  rst_val_kind def ≠ ResetValKind.Named
  ∧ (@apply_rstval kernel pcfg def [s0; sx]).2 = pcfg
  ∧ ((@apply_rstval kernel pcfg def [s0; sx]).1 = true
     ↔ rst_val_kind def = ResetValKind.Zero ∧ @no_one_bit kernel [s0; sx]).
Proof.
  intros pcfg def.
  assert (Hk : rst_val_kind def ≠ ResetValKind.Named) by discriminate.
  split; [exact Hk|].
  exact (@apply_rstval_unnamed kernel pcfg def [s0; sx] Hk).
Defined.

Lemma apply_rstval_shared_name_witness :
  let pcfg := @new_RdPortConfig kernel (-1) 0 in
  let d1 := {| rst_kind := ResetKind.Sync;
               rst_val_kind := ResetValKind.Named; rst_name := "RV" |} in
  let d2 := {| rst_kind := ResetKind.Async;
               rst_val_kind := ResetValKind.Named; rst_name := "RV" |} in
  ∃ p1,
    rst_val_kind d1 = ResetValKind.Named
    ∧ rst_val_kind d2 = ResetValKind.Named
    ∧ rst_name d2 = rst_name d1
    ∧ @apply_rstval kernel pcfg d1 [s1; s0] = (true, p1)
    ∧ rp_resetvals p1 ⊆ rp_resetvals p1
    ∧ rp_resetvals p1 !! rst_name d1 = Some [s1; s0]
    ∧ ((@apply_rstval kernel p1 d2 [s1; s1]).1 = true ↔ [s1; s1] = [s1; s0])
    ∧ rp_resetvals (@apply_rstval kernel p1 d2 [s1; s1]).2 !! rst_name d1
      = Some [s1; s0].
Proof.
  intros pcfg d1 d2.
  destruct (@apply_rstval kernel pcfg d1 [s1; s0]) as [b p1] eqn:Hfirst.
  assert (Hb : b = true).
  { change b with (b, p1).1. rewrite <- Hfirst. vm_compute. reflexivity. }
  rewrite Hb in Hfirst.
  assert (Hsub : rp_resetvals p1 ⊆ rp_resetvals p1) by reflexivity.
  exists p1. rewrite Hb.
  split; [reflexivity|]. split; [reflexivity|]. split; [reflexivity|].
  split; [reflexivity|]. split; [exact Hsub|].
  exact (@apply_rstval_shared_name kernel pcfg d1 [s1; s0] p1 p1 d2 [s1; s1]
           eq_refl eq_refl eq_refl Hfirst Hsub).
Defined.

Lemma candidate_ram_selected_witness :
  ∃ st c,
    MemMapping mem_full lib_full same_addr no_query no_query = Ok st
    ∧ c ∈ mm_cfgs st
    ∧ ∃ rdef, ram_defs lib_full !! cfg_ram_def c = Some rdef
        ∧ kind_ok (determine_style mem_full).1 rdef
        ∧ style_ok (determine_style mem_full).2 c rdef
        ∧ init_ok mem_full c rdef.
Proof.
  destruct full_run as (st & c & _ & _ & Hrun & Hin & _).
  exists st, c. split; [exact Hrun|]. split; [exact Hin|].
  exact (candidate_ram_selected mem_full lib_full same_addr
           no_query no_query st c Hrun Hin).
Defined.

Lemma mem_prio_wf : mem_wf mem_prio.
Proof.
  split.
  - intros port Hin. apply list_elem_of_singleton in Hin.
    rewrite Hin. split; reflexivity.
  - intros port Hin. apply elem_of_cons in Hin as [Hin|Hin].
    + rewrite Hin. reflexivity.
    + apply list_elem_of_singleton in Hin. rewrite Hin. reflexivity.
Defined.

Lemma lib_prio_names_ok target : lib_names_ok (lib_prio target).
Proof.
  intros rdef def Hrdef Hdef.
  apply list_elem_of_singleton in Hrdef. rewrite Hrdef in Hdef.
  apply elem_of_cons in Hdef as [Hdef|Hdef]; [rewrite Hdef; discriminate|].
  apply elem_of_cons in Hdef as [Hdef|Hdef]; [rewrite Hdef; discriminate|].
  apply list_elem_of_singleton in Hdef. rewrite Hdef. discriminate.
Defined.

Lemma mem_prio_in_range : prio_in_range mem_prio.
Proof.
  intros p2 port2 p1 Hport Hbit.
  destruct p2 as [|[|p2]]; simpl in Hport; [| |discriminate Hport];
    injection Hport as Hport; rewrite <- Hport in Hbit;
    (destruct p1 as [|[|p1]]; simpl in Hbit;
     [|discriminate Hbit|discriminate Hbit]).
  - discriminate Hbit.
  - simpl. lia.
Defined.

Lemma constructor_indices_in_range_witness :
  mem_wf mem_prio ∧ lib_names_ok (lib_prio "A") ∧ prio_in_range mem_prio
  ∧ ((∃ st, MemMapping mem_prio (lib_prio "A") same_addr no_query no_query
            = Ok st)
     ∨ MemMapping mem_prio (lib_prio "A") same_addr no_query no_query
       = Err (FatalNoRamOfKind (determine_style mem_prio).1)
     ∨ MemMapping mem_prio (lib_prio "A") same_addr no_query no_query
       = Err (FatalNoRamWithStyle (determine_style mem_prio).2)).
Proof.
  split; [exact mem_prio_wf|]. split; [exact (lib_prio_names_ok "A")|].
  split; [exact mem_prio_in_range|].
  exact (constructor_indices_in_range mem_prio (lib_prio "A") same_addr
           no_query no_query mem_prio_wf (lib_prio_names_ok "A")
           mem_prio_in_range).
Defined.

Lemma sharing_one_to_one_witness :
  ∃ st c,
    MemMapping mem_full lib_full same_addr no_query no_query = Ok st
    ∧ c ∈ mm_cfgs st
    ∧ (∀ j1 j2 p1 p2,
         cfg_rd_ports c !! j1 = Some p1 → cfg_rd_ports c !! j2 = Some p2 →
         rp_wr_port p1 ≠ (-1)%Z → rp_wr_port p1 = rp_wr_port p2 → j1 = j2)
    ∧ (∀ w1 w2 q1 q2,
         cfg_wr_ports c !! w1 = Some q1 → cfg_wr_ports c !! w2 = Some q2 →
         wp_rd_port q1 ≠ (-1)%Z → wp_rd_port q1 = wp_rd_port q2 → w1 = w2).
Proof.
  destruct full_run as (st & c & _ & _ & Hrun & Hin & _).
  exists st, c. split; [exact Hrun|]. split; [exact Hin|].
  exact (sharing_one_to_one mem_full lib_full same_addr
           no_query no_query st c Hrun Hin).
Defined.

Lemma candidate_options_declared_witness :
  ∃ st c,
    MemMapping mem_full lib_full same_addr no_query no_query = Ok st
    ∧ c ∈ mm_cfgs st
    ∧ ∃ rdef, ram_defs lib_full !! cfg_ram_def c = Some rdef
        ∧ (∀ k v, cfg_opts c !! k = Some v → ram_option rdef k v)
        ∧ (∀ w wp k v, cfg_wr_ports c !! w = Some wp →
             wp_portopts wp !! k = Some v → ram_portoption rdef k v)
        ∧ (∀ j rp k v, cfg_rd_ports c !! j = Some rp →
             rp_portopts rp !! k = Some v → ram_portoption rdef k v).
Proof.
  destruct full_run as (st & c & _ & _ & Hrun & Hin & _).
  exists st, c. split; [exact Hrun|]. split; [exact Hin|].
  exact (candidate_options_declared mem_full lib_full same_addr
           no_query no_query st c Hrun Hin).
Defined.

End Closed.
